(** * Workspace search: file walker, ripgrep text search and raw search service

    A shallow embedding of the search subsystem
    ([fileSearch.ts], [ripgrepTextSearch.ts], [rawSearchService.ts], and
    [DiskSearch] of [searchService.ts]) and the properties of it that the
    design document states or that the code shows.

    JavaScript strings are sequences of UTF-16 code units and are modelled
    as [list N]; callbacks that the code invokes ([onResult], [done],
    [emit], [kill]) are modelled as entries appended to an effect trace that
    is threaded through the state. *)

From Stdlib Require Import List ZArith NArith Bool Lia String Ascii.
From stdpp Require Import gmap.
Import ListNotations.

(* ================================================================== *)
(** * JavaScript strings *)
(* ================================================================== *)

(** A JavaScript string: its UTF-16 code units. *)
Abbreviation jsstring := (list N).

Module JS.

(** A literal: the code units of an ASCII string. *)
Definition lit (s : string) : jsstring :=
  map N_of_ascii (list_ascii_of_string s).

Fixpoint eqb (a b : jsstring) : bool :=
  match a, b with
  | [], [] => true
  | x :: a', y :: b' => (x =? y)%N && eqb a' b'
  | _, _ => false
  end.

(** A string used as a condition: the empty string is falsy. *)
Definition truthy (s : jsstring) : bool :=
  match s with [] => false | _ :: _ => true end.

(** [undefined], [null] and [''] are all falsy. *)
Definition truthyOpt (s : option jsstring) : bool :=
  match s with Some s' => truthy s' | None => false end.

(** ECMAScript [LineTerminator]: LF, CR, LS, PS. *)
Definition isLineTerminator (c : N) : bool :=
  ((c =? 10) || (c =? 13) || (c =? 8232) || (c =? 8233))%N.

(** ECMAScript [WhiteSpace] and [LineTerminator], the characters removed
    by [String.prototype.trim]. *)
Definition isWhiteSpace (c : N) : bool :=
  ((c =? 9) || (c =? 11) || (c =? 12) || (c =? 32) || (c =? 160)
   || (c =? 5760) || ((8192 <=? c) && (c <=? 8202)) || (c =? 8239)
   || (c =? 8287) || (c =? 12288) || (c =? 65279))%N
  || isLineTerminator c.

Fixpoint trimStart (s : jsstring) : jsstring :=
  match s with
  | [] => []
  | c :: r => if isWhiteSpace c then trimStart r else s
  end.

Definition trimEnd (s : jsstring) : jsstring := rev (trimStart (rev s)).

Definition trim (s : jsstring) : jsstring := trimEnd (trimStart s).

(** [strings.startsWith(haystack, needle)] (vs/base/common/strings): the
    haystack begins with the needle. *)
Fixpoint startsWith (haystack needle : jsstring) {struct needle} : bool :=
  match needle, haystack with
  | [], _ => true
  | n :: needle', h :: haystack' => (h =? n)%N && startsWith haystack' needle'
  | _ :: _, [] => false
  end.

(** [s.indexOf(c) >= 0] for a one-character needle. *)
Definition contains (s : jsstring) (c : N) : bool :=
  existsb (N.eqb c) s.

(** [s.substr(start, len)] for [start >= 0]. *)
Definition substr (s : jsstring) (start : Z) (len : nat) : jsstring :=
  firstn len (skipn (Z.to_nat start) s).

(** An index argument of [slice]: negative values count from the end,
    and the result is clamped to [0 .. length]. *)
Definition sliceIndex (n : Z) (k : Z) : nat :=
  if (k <? 0)%Z then Z.to_nat (Z.max (n + k) 0) else Z.to_nat (Z.min k n).

(** [s.slice(start, end)]. *)
Definition slice (s : jsstring) (start stop : Z) : jsstring :=
  let n := Z.of_nat (length s) in
  let a := sliceIndex n start in
  let b := sliceIndex n stop in
  firstn (b - a) (skipn a s).

(** [s.slice(start)]. *)
Definition sliceFrom (s : jsstring) (start : Z) : jsstring :=
  skipn (sliceIndex (Z.of_nat (length s)) start) s.

(** [parts.join('')]. *)
Definition join (parts : list jsstring) : jsstring := concat parts.

(** [s.split('\n')]: always at least one piece. *)
Fixpoint splitLF (s : jsstring) : list jsstring :=
  match s with
  | [] => [[]]
  | c :: r =>
      if (c =? 10)%N then [] :: splitLF r
      else match splitLF r with
           | l :: ls => (c :: l) :: ls
           | [] => [[c]]
           end
  end.

(** [s.split(/\r\n|\n/)]: a line feed ends a piece, and a carriage return
    directly before it belongs to the separator. *)
Fixpoint splitLines (s : jsstring) : list jsstring :=
  match s with
  | [] => [[]]
  | c :: r =>
      if (c =? 10)%N then [] :: splitLines r
      else
        match (c =? 13)%N, r with
        | true, 10%N :: _ => splitLines r
        | _, _ =>
            match splitLines r with
            | l :: ls => (c :: l) :: ls
            | [] => [[c]]
            end
        end
  end.

(** [s.split(sep)] for a non-empty separator: the pieces between the
    leftmost non-overlapping occurrences.  [skip] counts the characters of
    an occurrence still to be passed over, [cur] is the current piece,
    reversed. *)
Fixpoint splitAux (sep s : jsstring) (skip : nat) (cur : jsstring)
  : list jsstring :=
  match s with
  | [] => [rev cur]
  | c :: r =>
      match skip with
      | S k => splitAux sep r k cur
      | O =>
          if startsWith s sep
          then rev cur :: splitAux sep r (length sep - 1) []
          else splitAux sep r 0 (c :: cur)
      end
  end.

Definition split (sep s : jsstring) : list jsstring := splitAux sep s 0 [].

(** The longest prefix whose characters satisfy [f], and the rest. *)
Fixpoint span (f : N -> bool) (s : jsstring) : jsstring * jsstring :=
  match s with
  | [] => ([], [])
  | c :: r =>
      if f c then let (a, b) := span f r in (c :: a, b) else ([], s)
  end.

Definition stripPrefix (pre s : jsstring) : option jsstring :=
  if startsWith s pre then Some (skipn (length pre) s) else None.

Definition isDigit (c : N) : bool := ((48 <=? c) && (c <=? 57))%N.

(** [parseInt] on a string of decimal digits.  The result is exact; the
    source computes in double precision, which agrees below 2^53. *)
Definition parseInt (digits : jsstring) : Z :=
  fold_left (fun acc d => acc * 10 + (Z.of_N d - 48))%Z digits 0%Z.

(** [c.toUpperCase()] restricted to the ASCII letters; used where the
    code applies it to a character known to be ASCII, and as the instance
    of the host's case mapping in examples. *)
Definition asciiUpper (c : N) : N :=
  if ((97 <=? c) && (c <=? 122))%N then (c - 32)%N else c.

Definition asciiLower (c : N) : N :=
  if ((65 <=? c) && (c <=? 90))%N then (c + 32)%N else c.

End JS.

(* ================================================================== *)
(** * The ripgrep output parser ([RipgrepParser]) *)
(* ================================================================== *)

Module Parser.
Import JS.

(** [Range] (vs/editor/common/core/range): the four numbers passed to the
    constructor.  The constructor swaps start and end when they are out of
    order; the parser always passes [startColumn <= endColumn] on a single
    line. *)
Record Range := mkRange {
  startLineNumber : Z;
  startColumn : Z;
  endLineNumber : Z;
  endColumn : Z
}.

(** [TextSearchResult]: the preview text and range the parser hands to the
    constructor (the preview options only shorten the displayed text). *)
Record TextSearchResult := mkTextSearchResult {
  preview : jsstring;
  range : Range
}.

(** [FileMatch] ('./search'): a path with the matches added so far;
    [serialize()] reports [numMatches = matches.length]. *)
Record FileMatch := mkFileMatch {
  path : jsstring;
  matches : list TextSearchResult
}.

Definition numMatches (m : FileMatch) : nat := length (matches m).

Definition addMatch (m : FileMatch) (r : TextSearchResult) : FileMatch :=
  {| path := path m; matches := matches m ++ [r] |}.

(** Events fired through [EventEmitter.emit]. *)
Inductive Event :=
| EvResult (m : FileMatch)
| EvHitLimit.

Definition ESC : N := 27.

Definition MATCH_END_MARKER : jsstring := ESC :: lit "[0m".
Definition MATCH_START_MARKER : jsstring :=
  MATCH_END_MARKER ++ ESC :: lit "[31m".

(** [RESULT_REGEX]: at the start of the line the end marker, one or more
    digits (group 1), the end marker and a colon, then any run of characters
    other than line terminators (group 2, greedy) and an optional carriage
    return (group 3).  Nothing anchors the end of the line. *)
Definition RESULT_REGEX (s : jsstring)
  : option (jsstring * jsstring * jsstring) :=
  match stripPrefix MATCH_END_MARKER s with
  | None => None
  | Some s1 =>
      let (digits, s2) := span isDigit s1 in
      match digits with
      | [] => None
      | _ :: _ =>
          match stripPrefix (MATCH_END_MARKER ++ lit ":") s2 with
          | None => None
          | Some s3 =>
              let (body, s4) := span (fun c => negb (isLineTerminator c)) s3 in
              Some (digits, body,
                    match s4 with 13%N :: _ => [13%N] | _ => [] end)
          end
      end
  end.

(** [FILE_REGEX]: the whole line is the end marker, one or more characters
    other than line terminators (group 1), and the end marker. *)
Definition FILE_REGEX (s : jsstring) : option jsstring :=
  match stripPrefix MATCH_END_MARKER s with
  | None => None
  | Some s1 =>
      let n := length s1 in
      let body := firstn (n - 4) s1 in
      if (5 <=? n) && eqb (skipn (n - 4) s1) MATCH_END_MARKER
         && forallb (fun c => negb (isLineTerminator c)) body
      then Some body
      else None
  end.

(** [strings.stripUTF8BOM]: drop a leading U+FEFF. *)
Definition stripUTF8BOM (s : jsstring) : jsstring :=
  match s with
  | 65279%N :: r => r
  | _ => s
  end.

Section WithPath.

(** Node's [path.isAbsolute] and [path.join(rootFolder, _)]. *)
Variable path_isAbsolute : jsstring -> bool.
Variable path_join : jsstring -> jsstring -> jsstring.

Record RipgrepParser := mkParser {
  maxResults : option nat;
  rootFolder : jsstring;
  extraSearchFiles : list jsstring;
  fileMatch : option FileMatch;
  remainder : option jsstring;
  isDone : bool;
  numResults : nat;
  emitted : list Event
}.

(** The constructor. *)
Definition new (maxResults : option nat) (rootFolder : jsstring)
    (extraFiles : list jsstring) : RipgrepParser :=
  {| maxResults := maxResults; rootFolder := rootFolder;
     extraSearchFiles := extraFiles; fileMatch := None; remainder := None;
     isDone := false; numResults := 0; emitted := [] |}.

(** A call either returns or throws; the parser is left in the state it
    had at the [throw]. *)
Inductive result :=
| Ok (p : RipgrepParser)
| Throw (p : RipgrepParser) (msg : jsstring).

Definition stateOf (r : result) : RipgrepParser :=
  match r with Ok p => p | Throw p _ => p end.

Definition bind (r : result) (k : RipgrepParser -> result) : result :=
  match r with
  | Ok p => k p
  | Throw p msg => Throw p msg
  end.

Definition setFileMatch (p : RipgrepParser) (fm : option FileMatch) :=
  {| maxResults := maxResults p; rootFolder := rootFolder p;
     extraSearchFiles := extraSearchFiles p; fileMatch := fm;
     remainder := remainder p; isDone := isDone p;
     numResults := numResults p; emitted := emitted p |}.

Definition setRemainder (p : RipgrepParser) (r : option jsstring) :=
  {| maxResults := maxResults p; rootFolder := rootFolder p;
     extraSearchFiles := extraSearchFiles p; fileMatch := fileMatch p;
     remainder := r; isDone := isDone p;
     numResults := numResults p; emitted := emitted p |}.

Definition setNumResults (p : RipgrepParser) (n : nat) :=
  {| maxResults := maxResults p; rootFolder := rootFolder p;
     extraSearchFiles := extraSearchFiles p; fileMatch := fileMatch p;
     remainder := remainder p; isDone := isDone p;
     numResults := n; emitted := emitted p |}.

Definition emit (p : RipgrepParser) (e : Event) :=
  {| maxResults := maxResults p; rootFolder := rootFolder p;
     extraSearchFiles := extraSearchFiles p; fileMatch := fileMatch p;
     remainder := remainder p; isDone := isDone p;
     numResults := numResults p; emitted := emitted p ++ [e] |}.

(** [cancel()]. *)
Definition cancel (p : RipgrepParser) : RipgrepParser :=
  {| maxResults := maxResults p; rootFolder := rootFolder p;
     extraSearchFiles := extraSearchFiles p; fileMatch := fileMatch p;
     remainder := remainder p; isDone := true;
     numResults := numResults p; emitted := emitted p |}.

(** [onResult()]: emit the current file match and forget it.  Called only
    where [this.fileMatch] is set. *)
Definition onResult (p : RipgrepParser) : RipgrepParser :=
  match fileMatch p with
  | Some fm => setFileMatch (emit p (EvResult fm)) None
  | None => p
  end.

Definition getFileMatch (p : RipgrepParser) (relativeOrAbsolutePath : jsstring)
  : FileMatch :=
  let absPath :=
    if path_isAbsolute relativeOrAbsolutePath then relativeOrAbsolutePath
    else path_join (rootFolder p) relativeOrAbsolutePath in
  {| path := absPath; matches := [] |}.

(** The variables of the loop in [handleMatchLine]; [count] is
    [this.numResults]. *)
Record Scan := mkScan {
  i : Z;
  lastMatchEndPos : Z;
  matchTextStartPos : Z;
  matchTextStartRealIdx : Z;
  textRealIdx : Z;
  hitLimit : bool;
  matchRanges : list Range;
  realTextParts : list jsstring;
  count : nat
}.

(** [this.numResults >= this.maxResults]; false when [maxResults] is
    undefined. *)
Definition reachedLimit (maxResults : option nat) (n : nat) : bool :=
  match maxResults with
  | Some k => k <=? n
  | None => false
  end.

(** One iteration of the loop body. *)
Definition scanStep (maxResults : option nat) (lineNum : Z) (text : jsstring)
    (s : Scan) : Scan :=
  if eqb (substr text (i s) (length MATCH_START_MARKER)) MATCH_START_MARKER then
    (* Match start *)
    let chunk := slice text (lastMatchEndPos s) (i s) in
    let i' := (i s + Z.of_nat (length MATCH_START_MARKER))%Z in
    {| i := i'; lastMatchEndPos := lastMatchEndPos s;
       matchTextStartPos := i';
       matchTextStartRealIdx := textRealIdx s;
       textRealIdx := textRealIdx s; hitLimit := hitLimit s;
       matchRanges := matchRanges s;
       realTextParts := realTextParts s ++ [chunk]; count := count s |}
  else if eqb (substr text (i s) (length MATCH_END_MARKER)) MATCH_END_MARKER then
    (* Match end *)
    let chunk := slice text (matchTextStartPos s) (i s) in
    let ranges :=
      if hitLimit s then matchRanges s
      else matchRanges s ++
           [mkRange lineNum (matchTextStartRealIdx s) lineNum (textRealIdx s)] in
    let i' := (i s + Z.of_nat (length MATCH_END_MARKER))%Z in
    let count' := S (count s) in
    {| i := i'; lastMatchEndPos := i';
       matchTextStartPos := (-1)%Z; matchTextStartRealIdx := (-1)%Z;
       textRealIdx := textRealIdx s;
       hitLimit := hitLimit s || reachedLimit maxResults count';
       matchRanges := ranges;
       realTextParts := realTextParts s ++ [chunk]; count := count' |}
  else
    {| i := (i s + 1)%Z; lastMatchEndPos := lastMatchEndPos s;
       matchTextStartPos := matchTextStartPos s;
       matchTextStartRealIdx := matchTextStartRealIdx s;
       textRealIdx := (textRealIdx s + 1)%Z; hitLimit := hitLimit s;
       matchRanges := matchRanges s;
       realTextParts := realTextParts s; count := count s |}.

(** The loop [for (i = 0; i < text.length - (MATCH_END_MARKER.length - 1);)].
    Every iteration advances [i], so [length text] iterations suffice
    (lemma [scanLoop_exits]). *)
Fixpoint scanLoop (fuel : nat) (maxResults : option nat) (lineNum : Z)
    (text : jsstring) (s : Scan) : Scan :=
  match fuel with
  | O => s
  | S fuel' =>
      if (i s <? Z.of_nat (length text)
                 - (Z.of_nat (length MATCH_END_MARKER) - 1))%Z
      then scanLoop fuel' maxResults lineNum text
             (scanStep maxResults lineNum text s)
      else s
  end.

Definition scanInit (n : nat) : Scan :=
  {| i := 0; lastMatchEndPos := 0; matchTextStartPos := -1;
     matchTextStartRealIdx := -1; textRealIdx := 0; hitLimit := false;
     matchRanges := []; realTextParts := []; count := n |}.

(** [handleMatchLine(outputLine, lineNum, text)]. *)
Definition handleMatchLine (p : RipgrepParser) (lineNum : Z) (text : jsstring)
  : result :=
  let text := if (lineNum =? 0)%Z then stripUTF8BOM text else text in
  let r :=
    match fileMatch p with
    | Some _ => Ok p
    | None =>
        (* rg does not print the file line when searching a single file *)
        match extraSearchFiles p with
        | singleFile :: _ =>
            if truthy singleFile
            then Ok (setFileMatch p (Some (getFileMatch p singleFile)))
            else Throw p (lit "Got match line for unknown file")
        | [] => Throw p (lit "Got match line for unknown file")
        end
    end in
  bind r (fun p =>
    let s := scanLoop (length text) (maxResults p) lineNum text
               (scanInit (numResults p)) in
    let chunk := sliceFrom text (lastMatchEndPos s) in
    let preview := join (realTextParts s ++ [chunk]) in
    let fm :=
      match fileMatch p with
      | Some fm =>
          Some (fold_left addMatch
                  (map (mkTextSearchResult preview) (matchRanges s)) fm)
      | None => None
      end in
    let p := setFileMatch (setNumResults p (count s)) fm in
    if hitLimit s
    then Ok (emit (onResult (cancel p)) EvHitLimit)
    else Ok p).

(** The body of the loop in [handleDecodedData] for one line. *)
Definition handleLine (p : RipgrepParser) (line : jsstring) : result :=
  let outputLine := trim line in
  match RESULT_REGEX outputLine with
  | Some (r1, r2, r3) =>
      let lineNum := (parseInt r1 - 1)%Z in
      (* if the match line ended with \r, append a match end marker *)
      let matchText := if truthy r3 then r2 ++ MATCH_END_MARKER else r2 in
      handleMatchLine p lineNum matchText
  | None =>
      match FILE_REGEX outputLine with
      | Some r1 =>
          let p := match fileMatch p with Some _ => onResult p | None => p end in
          Ok (setFileMatch p (Some (getFileMatch p r1)))
      | None => Ok p (* empty or malformed *)
      end
  end.

(** The loop over [dataLines], left by [break] once [isDone] is set. *)
Fixpoint handleLines (p : RipgrepParser) (dataLines : list jsstring) : result :=
  match dataLines with
  | [] => Ok p
  | l :: ls =>
      if isDone p then Ok p
      else bind (handleLine p l) (fun p' => handleLines p' ls)
  end.

(** [handleDecodedData(decodedData)]. *)
Definition handleDecodedData (p : RipgrepParser) (decodedData : jsstring)
  : result :=
  let dataStr :=
    match remainder p with
    | Some r => if truthy r then r ++ decodedData else decodedData
    | None => decodedData
    end in
  let dataLines := splitLines dataStr in
  let lastLine := List.last dataLines [] in
  if truthy lastLine
  then handleLines (setRemainder p (Some lastLine)) (removelast dataLines)
  else handleLines (setRemainder p None) dataLines.

(** [handleData(data)] for data that is already a string. *)
Definition handleData (p : RipgrepParser) (data : jsstring) : result :=
  handleDecodedData p data.

(** [flush()]; [decoderEnd] is what [this.stringDecoder.end()] returns
    (the empty string unless the byte stream stopped inside a character). *)
Definition flush (p : RipgrepParser) (decoderEnd : jsstring) : result :=
  bind (handleDecodedData p decoderEnd) (fun p =>
    match fileMatch p with
    | Some _ => Ok (onResult p)
    | None => Ok p
    end).

(** Feeding a sequence of chunks, one [handleData] call per chunk; an
    exception ends the run. *)
Fixpoint feed (p : RipgrepParser) (chunks : list jsstring) : result :=
  match chunks with
  | [] => Ok p
  | c :: cs => bind (handleData p c) (fun p' => feed p' cs)
  end.

(** A whole run: the chunks received on stdout, then [flush()] when the
    child process closes. *)
Definition run (p : RipgrepParser) (chunks : list jsstring)
    (decoderEnd : jsstring) : result :=
  bind (feed p chunks) (fun q => flush q decoderEnd).

(** What a listener observes of a run: the events, and the message of the
    exception if one was thrown. *)
Definition observe (r : result) : list Event * option jsstring :=
  match r with
  | Ok p => (emitted p, None)
  | Throw p msg => (emitted p, Some msg)
  end.

(** The number of ranges carried by the emitted results. *)
Fixpoint emittedMatches (es : list Event) : nat :=
  match es with
  | [] => 0
  | EvResult m :: es' => numMatches m + emittedMatches es'
  | EvHitLimit :: es' => emittedMatches es'
  end.

End WithPath.

End Parser.

(* ================================================================== *)
(** * The ripgrep text search engine ([RipgrepEngine]) *)
(* ================================================================== *)

Module Ripgrep.
Import JS.

Section ErrorMessages.

(** [String.prototype.toUpperCase] of the host. *)
Variable toUpperCase : jsstring -> jsstring.

(** [strings.uppercaseFirstLetter]: [str.charAt(0).toUpperCase() +
    str.slice(1)]. *)
Definition uppercaseFirstLetter (str : jsstring) : jsstring :=
  toUpperCase (firstn 1 str) ++ skipn 1 str.

(** [rgErrorMsgForDisplay(msg)]: read the first line of stderr and return
    an error for display or [undefined], based on a whitelist. *)
Definition rgErrorMsgForDisplay (msg : jsstring) : option jsstring :=
  let lines := splitLF (trim msg) in
  let firstLine := trim (hd [] lines) in
  if startsWith firstLine (lit "Error parsing regex") then
    Some firstLine
  else if startsWith firstLine (lit "regex parse error") then
    Some (uppercaseFirstLetter (trim (List.last lines [])))
  else if startsWith firstLine (lit "error parsing glob")
          || startsWith firstLine (lit "unsupported encoding") then
    (* Uppercase first letter *)
    Some (toUpperCase (firstn 1 firstLine) ++ skipn 1 firstLine)
  else if eqb firstLine (lit "Literal '\n' not allowed.") then
    Some (lit "Literal '\n' currently not supported")
  else if startsWith firstLine (lit "Literal ") then
    (* Other unsupported chars *)
    Some firstLine
  else None.

(** The value of [rgErrorMsgForDisplay] used as a condition. *)
Definition displayable (msg : jsstring) : option jsstring :=
  match rgErrorMsgForDisplay msg with
  | Some d => if truthy d then Some d else None
  | None => None
  end.

End ErrorMessages.

(** The fields of [IRawSearch] the text search engine reads itself; the
    rest of the query only reaches the argument vector. *)
Record IRawSearch := mkRawSearch {
  folderQueries : list jsstring;
  extraFiles : list jsstring;
  maxResults : option nat
}.

(** [ISerializedSearchSuccess]; [stats] is the [type] tag of the stats
    object, or [None] for [null]. *)
Record ISerializedSearchSuccess := mkSuccess {
  limitHit : bool;
  stats : option jsstring
}.

(** What the engine does to its surroundings, in order. *)
Inductive Effect :=
| OnMessage (message : jsstring)
| Spawn (args : list jsstring) (cwd : jsstring)
| Kill
| OnceExit
| RemoveExitListener
| OnResult (m : Parser.FileMatch)
| Done (error : option jsstring) (complete : ISerializedSearchSuccess).

Section Engine.

Variable toUpperCase : jsstring -> jsstring.
Variable path_isAbsolute : jsstring -> bool.
Variable path_join : jsstring -> jsstring -> jsstring.
Variable isWindows : bool.

(** [getRgArgs(config)]: the argument vector, and the sibling clauses as
    compiled by [glob.parseToAsync] and evaluated against the directory of
    the match ([None] when [rgArgs.siblingClauses] is falsy).  The text of
    the logged command line is [rgCmd]. *)
Variable getRgArgs : IRawSearch -> list jsstring.
Variable siblingClauses : IRawSearch -> option (jsstring -> bool).
Variable rgCmd : IRawSearch -> jsstring.

Record RipgrepEngine := mkEngine {
  config : IRawSearch;
  isDone : bool;
  rgProc : bool;
  postProcessExclusions : option (jsstring -> bool);
  ripgrepParser : option Parser.RipgrepParser;
  gotData : bool;
  stderr : jsstring;
  thrown : option jsstring;
  trace : list Effect
}.

Definition new (config : IRawSearch) : RipgrepEngine :=
  {| config := config; isDone := false; rgProc := false;
     postProcessExclusions := None; ripgrepParser := None;
     gotData := false; stderr := []; thrown := None; trace := [] |}.

Definition effect (e : RipgrepEngine) (x : Effect) : RipgrepEngine :=
  {| config := config e; isDone := isDone e; rgProc := rgProc e;
     postProcessExclusions := postProcessExclusions e;
     ripgrepParser := ripgrepParser e; gotData := gotData e;
     stderr := stderr e; thrown := thrown e; trace := trace e ++ [x] |}.

Definition setParser (e : RipgrepEngine) (p : Parser.RipgrepParser) :=
  {| config := config e; isDone := isDone e; rgProc := rgProc e;
     postProcessExclusions := postProcessExclusions e;
     ripgrepParser := Some p; gotData := gotData e;
     stderr := stderr e; thrown := thrown e; trace := trace e |}.

Definition setDone (e : RipgrepEngine) :=
  {| config := config e; isDone := true; rgProc := rgProc e;
     postProcessExclusions := postProcessExclusions e;
     ripgrepParser := ripgrepParser e; gotData := gotData e;
     stderr := stderr e; thrown := thrown e; trace := trace e |}.

Definition setThrown (e : RipgrepEngine) (msg : jsstring) :=
  {| config := config e; isDone := isDone e; rgProc := rgProc e;
     postProcessExclusions := postProcessExclusions e;
     ripgrepParser := ripgrepParser e; gotData := gotData e;
     stderr := stderr e; thrown := Some msg; trace := trace e |}.

(** [cancel()].  Reading [ripgrepParser] or [rgProc] while they are unset
    is a [TypeError]. *)
Definition cancel (e : RipgrepEngine) : RipgrepEngine :=
  let e := setDone e in
  match ripgrepParser e with
  | None => setThrown e (lit "TypeError")
  | Some p =>
      let e := setParser e (Parser.cancel p) in
      if rgProc e then effect e Kill else setThrown e (lit "TypeError")
  end.

(** The listener of the parser's ['result'] event.  Without sibling
    clauses it calls [onResult] itself.  With sibling clauses the source
    decides in a promise, once the directory of the match has been read;
    here the verdict is applied at once, which is the run in which every
    directory is read without error and answers before the next event
    arrives.  A reading that fails, and a match reported after [done] at a
    limit hit, are not among the runs of this model. *)
Definition onParserResult (e : RipgrepEngine) (m : Parser.FileMatch)
  : RipgrepEngine :=
  match postProcessExclusions e with
  | Some excluded =>
      if excluded (Parser.path m) then e else effect e (OnResult m)
  | None => effect e (OnResult m)
  end.

(** The listener of the parser's ['hitLimit'] event. *)
Definition onHitLimit (e : RipgrepEngine) : RipgrepEngine :=
  let e := cancel e in
  match thrown e with
  | Some _ => e
  | None =>
      effect (effect e RemoveExitListener)
        (Done None {| limitHit := true; stats := Some (lit "searchProcess") |})
  end.

Definition onParserEvent (e : RipgrepEngine) (ev : Parser.Event)
  : RipgrepEngine :=
  match thrown e with
  | Some _ => e
  | None =>
      match ev with
      | Parser.EvResult m => onParserResult e m
      | Parser.EvHitLimit => onHitLimit e
      end
  end.

(** Run a parser call and deliver the events it fired to the listeners.
    A listener only ever changes the parser by [cancel()], which the
    parser has already done itself before it fires ['hitLimit']. *)
Definition withParser (e : RipgrepEngine)
    (call : Parser.RipgrepParser -> Parser.result) : RipgrepEngine :=
  match ripgrepParser e with
  | None => setThrown e (lit "TypeError")
  | Some p =>
      let r := call p in
      let p' := Parser.stateOf r in
      let fired := skipn (length (Parser.emitted p)) (Parser.emitted p') in
      let e := fold_left onParserEvent fired (setParser e p') in
      match r with
      | Parser.Ok _ => e
      | Parser.Throw _ msg =>
          match thrown e with Some _ => e | None => setThrown e msg end
      end
  end.

(** [search(onResult, onMessage, done)] up to the point where it returns:
    either the immediate answer for an empty query, or the child process
    spawned and the listeners installed. *)
Definition search (e : RipgrepEngine) : RipgrepEngine :=
  if (length (folderQueries (config e)) =? 0)
     && (length (extraFiles (config e)) =? 0)
  then
    effect (effect e RemoveExitListener)
      (Done None {| limitHit := false; stats := Some (lit "searchProcess") |})
  else
    let cwd := if isWindows then lit "c:/" else lit "/" in
    let e := effect e (OnMessage (rgCmd (config e))) in
    let e := effect e (Spawn (getRgArgs (config e)) cwd) in
    let e := effect e OnceExit in
    {| config := config e; isDone := isDone e; rgProc := true;
       postProcessExclusions := siblingClauses (config e);
       ripgrepParser :=
         Some (Parser.new (maxResults (config e)) cwd (extraFiles (config e)));
       gotData := false; stderr := []; thrown := thrown e;
       trace := trace e |}.

(** [rgProc.stdout.on('data', ...)], then the [once('data')] listener. *)
Definition onStdoutData (e : RipgrepEngine) (data : jsstring) : RipgrepEngine :=
  let e := withParser e (fun p =>
             Parser.handleData path_isAbsolute path_join p data) in
  match thrown e with
  | Some _ => e
  | None =>
      {| config := config e; isDone := isDone e; rgProc := rgProc e;
         postProcessExclusions := postProcessExclusions e;
         ripgrepParser := ripgrepParser e; gotData := true;
         stderr := stderr e; thrown := thrown e; trace := trace e |}
  end.

(** [rgProc.stderr.on('data', ...)]. *)
Definition onStderrData (e : RipgrepEngine) (message : jsstring)
  : RipgrepEngine :=
  let e := effect e (OnMessage message) in
  {| config := config e; isDone := isDone e; rgProc := rgProc e;
     postProcessExclusions := postProcessExclusions e;
     ripgrepParser := ripgrepParser e; gotData := gotData e;
     stderr := stderr e ++ message; thrown := thrown e; trace := trace e |}.

(** The decision taken when the child process has closed and the search
    is not done yet: the error, if any, passed to [done]. *)
Definition closeError (stderr : jsstring) (gotData : bool) : option jsstring :=
  if truthy stderr && negb gotData
  then displayable toUpperCase stderr
  else None.

(** [rgProc.on('close', code => ...)]. *)
Definition onClose (e : RipgrepEngine) (code : Z) (decoderEnd : jsstring)
  : RipgrepEngine :=
  (* Trigger last result *)
  let e := withParser e (fun p =>
             Parser.flush path_isAbsolute path_join p decoderEnd) in
  match thrown e with
  | Some _ => e
  | None =>
      let e :=
        {| config := config e; isDone := isDone e; rgProc := false;
           postProcessExclusions := postProcessExclusions e;
           ripgrepParser := ripgrepParser e; gotData := gotData e;
           stderr := stderr e; thrown := thrown e; trace := trace e |} in
      if isDone e then e
      else
        let e := effect (setDone e) RemoveExitListener in
        effect e (Done (closeError (stderr e) (gotData e))
                       {| limitHit := false; stats := None |})
  end.

(** What the child process and the caller do to the engine. *)
Inductive Input :=
| StdoutData (data : jsstring)
| StderrData (message : jsstring)
| Close (code : Z) (decoderEnd : jsstring)
| Cancel.

Definition step (e : RipgrepEngine) (i : Input) : RipgrepEngine :=
  match thrown e with
  | Some _ => e
  | None =>
      match i with
      | StdoutData d => onStdoutData e d
      | StderrData m => onStderrData e m
      | Close code tail => onClose e code tail
      | Cancel => cancel e
      end
  end.

(** A search: [search()], then the inputs in the order they arrive. *)
Definition runSearch (config : IRawSearch) (inputs : list Input)
  : RipgrepEngine :=
  fold_left step inputs (search (new config)).

(** The matches handed to [onResult]. *)
Fixpoint results (t : list Effect) : list Parser.FileMatch :=
  match t with
  | [] => []
  | OnResult m :: t' => m :: results t'
  | _ :: t' => results t'
  end.

(** The terminal items handed to [done]. *)
Fixpoint terminals (t : list Effect)
  : list (option jsstring * ISerializedSearchSuccess) :=
  match t with
  | [] => []
  | Done err c :: t' => (err, c) :: terminals t'
  | _ :: t' => terminals t'
  end.

Definition isSpawn (x : Effect) : bool :=
  match x with Spawn _ _ => true | _ => false end.

Definition isKill (x : Effect) : bool :=
  match x with Kill => true | _ => false end.

End Engine.

End Ripgrep.

(* ================================================================== *)
(** * The file walker ([FileWalker], [Engine]) *)
(* ================================================================== *)

Module FileSearch.
Import JS.

(** What the walker takes from its host: Node's [path] module, the string
    helpers of vs/base/common/strings, Unicode case mapping and
    normalisation, number formatting, the text logged for the ripgrep
    command spawned in a folder, the path separator and the platform
    flags. *)
Class Host := {
  path_basename : jsstring -> jsstring;
  path_dirname : jsstring -> jsstring;
  path_join : jsstring -> jsstring -> jsstring;
  fuzzyContains : jsstring -> jsstring -> bool;
  stripWildcards : jsstring -> jsstring;
  toLowerCase : jsstring -> jsstring;
  toUpperCase : jsstring -> jsstring;
  numberToString : Z -> jsstring;
  normalizeNFC : jsstring -> jsstring;
  rgCmd : jsstring -> jsstring;
  path_sep : N;
  isMacintosh : bool;
  isLinux : bool
}.

Inductive Traversal := Node | MacFind | WindowsDir | LinuxFind | Ripgrep.

(** [IRawFileMatch]; an [IDirectoryEntry] is one without a size. *)
Record IRawFileMatch := mkMatch {
  base : option jsstring;
  relativePath : jsstring;
  basename : jsstring;
  size : option nat
}.

(** [IRawSearch] as the walker and the service read it.  A glob expression
    appears as the predicate [glob.parse] compiles it to: [includePattern]
    and [excludePattern] take the path and the basename; [folderExclude f]
    is [folderExcludePatterns.get(f).test], whose last argument is the list
    of sibling names behind [hasSibling], or [None] where the code passes
    [undefined]; [noSiblingsClauses f] tells whether the ripgrep command
    spawned for [f] left no sibling clause to apply afterwards. *)
Record IRawSearch := mkRawSearch {
  folderQueries : list jsstring;
  extraFiles : option (list jsstring);
  filePattern : option jsstring;
  includePattern : option (jsstring -> jsstring -> bool);
  excludePattern : option (jsstring -> jsstring -> bool);
  folderExclude : jsstring -> jsstring -> jsstring -> option (list jsstring) -> bool;
  noSiblingsClauses : jsstring -> bool;
  maxResults : option nat;
  exists_ : bool;
  maxFilesize : option nat;
  useRipgrep : option bool;
  sortByScore : bool;
  cacheKey : option jsstring
}.

(** What the walker does to its surroundings, in order. *)
Inductive Effect :=
| OnResult (m : IRawFileMatch)
| OnMessage (message : jsstring)
| SpawnCmd (folder : jsstring)
| KillCmd (folder : jsstring)
| RootDone (folder : jsstring) (err : option jsstring)
| WalkDone (err : option jsstring) (isLimitHit : bool).

Record FileWalker := mkWalker {
  config : IRawSearch;
  normalizedFilePatternLowercase : option jsstring;
  w_maxResults : option nat;
  w_maxFilesize : option nat;
  isLimitHit : bool;
  resultCount : nat;
  isCanceled : bool;
  directoriesWalked : nat;
  filesWalked : nat;
  traversal : Traversal;
  errors : list jsstring;
  cmdResultCount : option nat;
  trace : list Effect
}.

(** [x || null] for a number: zero is falsy. *)
Definition orNull (x : option nat) : option nat :=
  match x with
  | Some 0 => None
  | _ => x
  end.

Section WithHost.
Context `{Host}.

(** The constructor. *)
Definition new (config : IRawSearch) : FileWalker :=
  {| config := config;
     normalizedFilePatternLowercase :=
       match filePattern config with
       | Some fp =>
           if truthy fp then Some (toLowerCase (stripWildcards fp)) else None
       | None => None
       end;
     w_maxResults := orNull (maxResults config);
     w_maxFilesize := orNull (maxFilesize config);
     isLimitHit := false; resultCount := 0; isCanceled := false;
     directoriesWalked := 0; filesWalked := 0; traversal := Node;
     errors := []; cmdResultCount := None; trace := [] |}.

Definition effect (w : FileWalker) (x : Effect) : FileWalker :=
  {| config := config w;
     normalizedFilePatternLowercase := normalizedFilePatternLowercase w;
     w_maxResults := w_maxResults w; w_maxFilesize := w_maxFilesize w;
     isLimitHit := isLimitHit w; resultCount := resultCount w;
     isCanceled := isCanceled w; directoriesWalked := directoriesWalked w;
     filesWalked := filesWalked w; traversal := traversal w;
     errors := errors w; cmdResultCount := cmdResultCount w;
     trace := trace w ++ [x] |}.

Definition setLimitHit (w : FileWalker) : FileWalker :=
  {| config := config w;
     normalizedFilePatternLowercase := normalizedFilePatternLowercase w;
     w_maxResults := w_maxResults w; w_maxFilesize := w_maxFilesize w;
     isLimitHit := true; resultCount := resultCount w;
     isCanceled := isCanceled w; directoriesWalked := directoriesWalked w;
     filesWalked := filesWalked w; traversal := traversal w;
     errors := errors w; cmdResultCount := cmdResultCount w;
     trace := trace w |}.

Definition incResultCount (w : FileWalker) : FileWalker :=
  {| config := config w;
     normalizedFilePatternLowercase := normalizedFilePatternLowercase w;
     w_maxResults := w_maxResults w; w_maxFilesize := w_maxFilesize w;
     isLimitHit := isLimitHit w; resultCount := S (resultCount w);
     isCanceled := isCanceled w; directoriesWalked := directoriesWalked w;
     filesWalked := filesWalked w; traversal := traversal w;
     errors := errors w; cmdResultCount := cmdResultCount w;
     trace := trace w |}.

Definition incDirectoriesWalked (w : FileWalker) : FileWalker :=
  {| config := config w;
     normalizedFilePatternLowercase := normalizedFilePatternLowercase w;
     w_maxResults := w_maxResults w; w_maxFilesize := w_maxFilesize w;
     isLimitHit := isLimitHit w; resultCount := resultCount w;
     isCanceled := isCanceled w; directoriesWalked := S (directoriesWalked w);
     filesWalked := filesWalked w; traversal := traversal w;
     errors := errors w; cmdResultCount := cmdResultCount w;
     trace := trace w |}.

Definition incFilesWalked (w : FileWalker) : FileWalker :=
  {| config := config w;
     normalizedFilePatternLowercase := normalizedFilePatternLowercase w;
     w_maxResults := w_maxResults w; w_maxFilesize := w_maxFilesize w;
     isLimitHit := isLimitHit w; resultCount := resultCount w;
     isCanceled := isCanceled w; directoriesWalked := directoriesWalked w;
     filesWalked := S (filesWalked w); traversal := traversal w;
     errors := errors w; cmdResultCount := cmdResultCount w;
     trace := trace w |}.

Definition setTraversal (w : FileWalker) (t : Traversal) : FileWalker :=
  {| config := config w;
     normalizedFilePatternLowercase := normalizedFilePatternLowercase w;
     w_maxResults := w_maxResults w; w_maxFilesize := w_maxFilesize w;
     isLimitHit := isLimitHit w; resultCount := resultCount w;
     isCanceled := isCanceled w; directoriesWalked := directoriesWalked w;
     filesWalked := filesWalked w; traversal := t;
     errors := errors w; cmdResultCount := cmdResultCount w;
     trace := trace w |}.

Definition pushError (w : FileWalker) (msg : jsstring) : FileWalker :=
  {| config := config w;
     normalizedFilePatternLowercase := normalizedFilePatternLowercase w;
     w_maxResults := w_maxResults w; w_maxFilesize := w_maxFilesize w;
     isLimitHit := isLimitHit w; resultCount := resultCount w;
     isCanceled := isCanceled w; directoriesWalked := directoriesWalked w;
     filesWalked := filesWalked w; traversal := traversal w;
     errors := errors w ++ [msg]; cmdResultCount := cmdResultCount w;
     trace := trace w |}.

Definition setCmdResultCount (w : FileWalker) (n : nat) : FileWalker :=
  {| config := config w;
     normalizedFilePatternLowercase := normalizedFilePatternLowercase w;
     w_maxResults := w_maxResults w; w_maxFilesize := w_maxFilesize w;
     isLimitHit := isLimitHit w; resultCount := resultCount w;
     isCanceled := isCanceled w; directoriesWalked := directoriesWalked w;
     filesWalked := filesWalked w; traversal := traversal w;
     errors := errors w; cmdResultCount := Some n;
     trace := trace w |}.

(** [cancel()]. *)
Definition cancel (w : FileWalker) : FileWalker :=
  {| config := config w;
     normalizedFilePatternLowercase := normalizedFilePatternLowercase w;
     w_maxResults := w_maxResults w; w_maxFilesize := w_maxFilesize w;
     isLimitHit := isLimitHit w; resultCount := resultCount w;
     isCanceled := true; directoriesWalked := directoriesWalked w;
     filesWalked := filesWalked w; traversal := traversal w;
     errors := errors w; cmdResultCount := cmdResultCount w;
     trace := trace w |}.

(** [isFilePatternMatch(path)]. *)
Definition isFilePatternMatch (w : FileWalker) (path : jsstring) : bool :=
  match filePattern (config w) with
  | Some fp =>
      if truthy fp then
        if eqb fp (lit "*") then true (* the all-matching wildcard *)
        else
          match normalizedFilePatternLowercase w with
          | Some q => fuzzyContains path q
          | None => false
          end
      else true
  | None => true (* no patterns means we match all *)
  end.

(** The condition under which [matchFile] counts the candidate. *)
Definition survives (w : FileWalker) (candidate : IRawFileMatch) : bool :=
  isFilePatternMatch w (relativePath candidate)
  && match includePattern (config w) with
     | Some include => include (relativePath candidate) (basename candidate)
     | None => true
     end.

(** [this.maxResults && this.resultCount > this.maxResults]. *)
Definition overMaxResults (w : FileWalker) : bool :=
  match w_maxResults w with
  | Some k => k <? resultCount w
  | None => false
  end.

(** [matchFile(onResult, candidate)]. *)
Definition matchFile (w : FileWalker) (candidate : IRawFileMatch) : FileWalker :=
  if survives w candidate then
    let w := incResultCount w in
    let w :=
      if exists_ (config w) || overMaxResults w then setLimitHit w else w in
    if isLimitHit w then w else effect w (OnResult candidate)
  else w.

(** The matches handed to [onResult]. *)
Fixpoint results (t : list Effect) : list IRawFileMatch :=
  match t with
  | [] => []
  | OnResult m :: t' => m :: results t'
  | _ :: t' => results t'
  end.

(** ** Traversal by an external command *)

(** The state of one [cmdTraversal]: the variables its callbacks close
    over, and what [collectStdout] keeps for the child process.
    [pathToEntries] is the directory tree; its root entries are the list
    stored under ["."].  [outcome] is what the root has reported to
    [flow.parallel]. *)
Record Root := mkRoot {
  folder : jsstring;
  leftover : jsstring;
  first : bool;
  pathToEntries : gmap jsstring (list IRawFileMatch);
  doneCalled : bool;
  onDataOff : bool;
  gotData : bool;
  stderrBuf : jsstring;
  outcome : option (option jsstring)
}.

(** [initDirectoryTree()]. *)
Definition initDirectoryTree : gmap jsstring (list IRawFileMatch) :=
  <[lit "." := []]> ∅.

Definition newRoot (folder : jsstring) : Root :=
  {| folder := folder; leftover := []; first := true;
     pathToEntries := initDirectoryTree; doneCalled := false;
     onDataOff := false; gotData := false; stderrBuf := [];
     outcome := None |}.

Definition setTree (r : Root) (t : gmap jsstring (list IRawFileMatch)) : Root :=
  {| folder := folder r; leftover := leftover r; first := first r;
     pathToEntries := t; doneCalled := doneCalled r;
     onDataOff := onDataOff r; gotData := gotData r;
     stderrBuf := stderrBuf r; outcome := outcome r |}.

Definition setSplitState (r : Root) (leftover' : jsstring) (first' : bool) : Root :=
  {| folder := folder r; leftover := leftover'; first := first';
     pathToEntries := pathToEntries r; doneCalled := doneCalled r;
     onDataOff := onDataOff r; gotData := gotData r;
     stderrBuf := stderrBuf r; outcome := outcome r |}.

Definition setOnDataOff (r : Root) : Root :=
  {| folder := folder r; leftover := leftover r; first := first r;
     pathToEntries := pathToEntries r; doneCalled := doneCalled r;
     onDataOff := true; gotData := gotData r;
     stderrBuf := stderrBuf r; outcome := outcome r |}.

Definition setGotData (r : Root) : Root :=
  {| folder := folder r; leftover := leftover r; first := first r;
     pathToEntries := pathToEntries r; doneCalled := doneCalled r;
     onDataOff := onDataOff r; gotData := true;
     stderrBuf := stderrBuf r; outcome := outcome r |}.

Definition addStderr (r : Root) (data : jsstring) : Root :=
  {| folder := folder r; leftover := leftover r; first := first r;
     pathToEntries := pathToEntries r; doneCalled := doneCalled r;
     onDataOff := onDataOff r; gotData := gotData r;
     stderrBuf := stderrBuf r ++ data; outcome := outcome r |}.

Definition setOutcome (r : Root) (err : option jsstring) : Root :=
  {| folder := folder r; leftover := leftover r; first := first r;
     pathToEntries := pathToEntries r; doneCalled := true;
     onDataOff := onDataOff r; gotData := gotData r;
     stderrBuf := stderrBuf r; outcome := Some err |}.

(** [done(err)] of [cmdTraversal], which calls the per-root callback of
    [walk] the first time and nothing afterwards. *)
Definition rootDone (w : FileWalker) (r : Root) (err : option jsstring)
  : FileWalker * Root :=
  if doneCalled r then (w, r)
  else
    let w := match err with Some e => pushError w e | None => w end in
    (effect w (RootDone (folder r) err), setOutcome r err).

(** The local function [add] of [addDirectoryEntries].  The recursion
    climbs the ancestors of the path; [fuel] bounds it, and the flag tells
    whether it came to its end. *)
Fixpoint add (fuel : nat) (base : jsstring)
    (tree : gmap jsstring (list IRawFileMatch)) (relativePath : jsstring)
  : gmap jsstring (list IRawFileMatch) * bool :=
  match fuel with
  | O => (tree, false)
  | S fuel' =>
      let basename := path_basename relativePath in
      let dirname := path_dirname relativePath in
      let '(tree, ok) :=
        match tree !! dirname with
        | Some _ => (tree, true)
        | None => add fuel' base (<[dirname := []]> tree) dirname
        end in
      if ok then
        (<[dirname := default [] (tree !! dirname)
                      ++ [{| base := Some base; relativePath := relativePath;
                             basename := basename; size := None |}]]> tree,
         true)
      else (tree, false)
  end.

(** [relativeFiles.forEach(add)]; a path has at most as many ancestors as
    characters. *)
Fixpoint addAll (base : jsstring) (tree : gmap jsstring (list IRawFileMatch))
    (relativeFiles : list jsstring)
  : gmap jsstring (list IRawFileMatch) * bool :=
  match relativeFiles with
  | [] => (tree, true)
  | p :: ps =>
      let '(tree, ok) := add (S (S (length p))) base tree p in
      if ok then addAll base tree ps else (tree, false)
  end.

(** [addDirectoryEntries(tree, base, relativeFiles, onResult)]. *)
Definition addDirectoryEntries (w : FileWalker)
    (tree : gmap jsstring (list IRawFileMatch)) (base : jsstring)
    (relativeFiles : list jsstring)
  : FileWalker * gmap jsstring (list IRawFileMatch) * bool :=
  (* Support relative paths to files from a root resource (ignores excludes) *)
  let w :=
    match filePattern (config w) with
    | Some fp =>
        if existsb (eqb fp) relativeFiles
        then matchFile w {| base := Some base; relativePath := fp;
                            basename := path_basename fp; size := None |}
        else w
    | None => w
    end in
  let '(tree, ok) := addAll base tree relativeFiles in
  (w, tree, ok).

(** The [hasSibling] argument handed to the exclude test: withheld when
    the user searches for exactly this file name. *)
Definition siblingArg (w : FileWalker) (basename : jsstring)
    (siblings : list jsstring) : option (list jsstring) :=
  match filePattern (config w) with
  | Some fp => if eqb fp basename then None else Some siblings
  | None => Some siblings
  end.

Definition isTheFilePattern (w : FileWalker) (relativePath : jsstring) : bool :=
  match filePattern (config w) with
  | Some fp => eqb relativePath fp
  | None => false
  end.

(** The local function [matchDirectory] of [matchDirectoryTree].  The
    recursion descends into sub-directories; [fuel] bounds its depth, and
    the flag tells whether it came to its end. *)
Fixpoint matchDirectory (fuel : nat)
    (tree : gmap jsstring (list IRawFileMatch)) (rootFolder : jsstring)
    (w : FileWalker) (entries : list IRawFileMatch) {struct fuel}
  : FileWalker * bool :=
  match fuel with
  | O => (w, false)
  | S fuel' =>
      let w := incDirectoriesWalked w in
      let siblings := map basename entries in
      (fix loop (w : FileWalker) (es : list IRawFileMatch) {struct es}
         : FileWalker * bool :=
         match es with
         | [] => (w, true)
         | entry :: es' =>
             if folderExclude (config w) rootFolder (relativePath entry)
                  (basename entry) (siblingArg w (basename entry) siblings)
             then loop w es' (* continue *)
             else
               match tree !! relativePath entry with
               | Some sub =>
                   let '(w, ok) := matchDirectory fuel' tree rootFolder w sub in
                   if negb ok then (w, false)
                   else if isLimitHit w then (w, true) else loop w es'
               | None =>
                   let w := incFilesWalked w in
                   if isTheFilePattern w (relativePath entry)
                   then loop w es' (* already matched by addDirectoryEntries *)
                   else
                     let w := matchFile w entry in
                     if isLimitHit w then (w, true) else loop w es'
               end
         end) w entries
  end.

(** [matchDirectoryTree(tree, rootFolder, onResult)].  A descent deeper
    than the number of directories in the tree would visit one of them
    twice and never end. *)
Definition matchDirectoryTree (w : FileWalker)
    (tree : gmap jsstring (list IRawFileMatch)) (rootFolder : jsstring)
  : FileWalker * bool :=
  matchDirectory (S (stdpp.base.size tree)) tree rootFolder w
    (default [] (tree !! lit ".")).

(** The loop of the fast path: every streamed line is matched directly,
    and the child is killed as soon as the limit is hit. *)
Fixpoint matchLines (w : FileWalker) (rootFolder : jsstring)
    (relativeFiles : list jsstring) : FileWalker :=
  match relativeFiles with
  | [] => w
  | relativePath :: rest =>
      let w := matchFile w {| base := Some rootFolder;
                              relativePath := relativePath;
                              basename := path_basename relativePath;
                              size := None |} in
      if isLimitHit w then effect w (KillCmd rootFolder)
      else matchLines w rootFolder rest
  end.

(** [this.useRipgrep = config.useRipgrep !== false]. *)
Definition w_useRipgrep (w : FileWalker) : bool :=
  match useRipgrep (config w) with
  | Some false => false
  | _ => true
  end.

(** The callback [cmdTraversal] hands to [collectStdout].  The last
    component is false when the tree recursion did not come to its end. *)
Definition cmdCallback (w : FileWalker) (r : Root) (err : option jsstring)
    (stdout : jsstring) (last : bool) : FileWalker * Root * bool :=
  match err with
  | Some e => (rootDone w r (Some e), true)
  | None =>
      if isLimitHit w then (rootDone w r None, true)
      else
        let useRipgrep := w_useRipgrep w in
        (* Mac: uses NFD unicode form on disk, but we want NFC *)
        let normalized :=
          leftover r ++ (if isMacintosh then normalizeNFC stdout else stdout) in
        let relativeFiles :=
          split (if useRipgrep then [10%N] else 10%N :: lit "./") normalized in
        let strip := negb useRipgrep && first r && (2 <=? length normalized) in
        let relativeFiles :=
          if strip
          then skipn 2 (trim (hd [] relativeFiles)) :: tl relativeFiles
          else relativeFiles in
        let first' := if strip then false else first r in
        let lastFile := List.last relativeFiles [] in
        let relativeFiles :=
          if last then
            if truthy (trim lastFile)
            then removelast relativeFiles ++ [trim lastFile]
            else removelast relativeFiles
          else removelast relativeFiles in
        let r := setSplitState r (if last then leftover r else lastFile) first' in
        if match relativeFiles with
           | f :: _ => contains f 10
           | [] => false
           end
        then (rootDone w r (Some (lit "Splitting up files failed")), true)
        else
          let w := setCmdResultCount w
                     (default 0 (cmdResultCount w) + length relativeFiles) in
          if useRipgrep && noSiblingsClauses (config w) (folder r) then
            let w := matchLines w (folder r) relativeFiles in
            if last || isLimitHit w then (rootDone w r None, true)
            else (w, r, true)
          else
            let '(w, tree, ok) :=
              addDirectoryEntries w (pathToEntries r) (folder r) relativeFiles in
            let r := setTree r tree in
            if negb ok then (w, r, false)
            else if last then
              let '(w, ok) := matchDirectoryTree w tree (folder r) in
              if ok then (rootDone w r None, true) else (w, r, false)
            else (w, r, true)
  end.

(** What a child process does, as [collectStdout] sees it; and, for the
    traversal by [readdir], the visit of one file and the end of a root. *)
Inductive CmdEvent :=
| Stdout (data : jsstring)
| Stderr (data : jsstring)
| ProcError (err : jsstring)
| Close (code : Z)
| NodeFile (relativePath basename : jsstring) (size : option nat)
| NodeEnd.

(** The variable [onData] of [collectStdout], which the ['error'] and
    ['close'] listeners call: it turns itself off after an error or the
    last call. *)
Definition onData (w : FileWalker) (r : Root) (err : option jsstring)
    (stdout : jsstring) (last : bool) : FileWalker * Root * bool :=
  if onDataOff r then (w, r, true)
  else
    let r := if (match err with Some _ => true | None => false end) || last
             then setOnDataOff r else r in
    cmdCallback w r err stdout last.

(** Whether the ['close'] listener reports a failure. *)
Definition closeFails (isRipgrep : bool) (gotData : bool) (stderrText : jsstring)
    (code : Z) : bool :=
  if isRipgrep then
    negb gotData && truthy stderrText
    && match Ripgrep.displayable toUpperCase stderrText with
       | Some _ => true
       | None => false
       end
  else negb (code =? 0)%Z.

(** The listeners [collectStdout] installs.  The ['data'] listener of
    [forwardData] holds the function [onData] had at the start, so it is
    never turned off. *)
Definition collectStdout (w : FileWalker) (r : Root) (ev : CmdEvent)
  : FileWalker * Root * bool :=
  match ev with
  | Stdout data =>
      let '(w, r, ok) := cmdCallback w r None data false in
      (w, setGotData r, ok)
  | Stderr data => (w, addStderr r data, true)
  | ProcError err => onData w r (Some err) [] false
  | Close code =>
      let isRipgrep := w_useRipgrep w in
      if closeFails isRipgrep (gotData r) (stderrBuf r) code then
        onData w r
          (Some (lit "command failed with error code " ++ numberToString code
                 ++ lit ": " ++ stderrBuf r)) [] false
      else
        (* ripgrep returns code=1 when no results are found *)
        let w := if isRipgrep && exists_ (config w) && (code =? 0)%Z
                 then setLimitHit w else w in
        onData w r None [] true
  | NodeFile _ _ _ | NodeEnd => (w, r, true)
  end.

(** ** Traversal by [readdir]

    Of [doWalk] the model keeps what decides the claims: the callback that
    receives the [stat] of a file, and the end of the root's traversal,
    which never carries an error. *)
Definition nodeFile (w : FileWalker) (r : Root) (relativePath basename : jsstring)
    (size : option nat) : FileWalker :=
  if isCanceled w || isLimitHit w then w
  else
    let w := incFilesWalked w in
    if isTheFilePattern w relativePath then w
    else
      match w_maxFilesize w, size with
      | Some m, Some s =>
          if m <? s then w
          else matchFile w {| base := Some (folder r);
                              relativePath := relativePath;
                              basename := basename; size := size |}
      | _, _ =>
          matchFile w {| base := Some (folder r); relativePath := relativePath;
                         basename := basename; size := size |}
      end.

(** ** [walk]

    The roots are traversed in parallel: the state of the walk is the
    walker, which all roots share, and the state of each root. [stuck] is
    set when a recursion did not come to its end. *)
Record Walk := mkWalk {
  walker : FileWalker;
  roots : list Root;
  stuck : bool
}.

(** The traversal [walk] chooses. *)
Definition chooseTraversal (w : FileWalker) : Traversal :=
  match w_maxFilesize w with
  | Some _ => Node
  | None =>
      if w_useRipgrep w then Ripgrep
      else if isMacintosh then MacFind
      else if isLinux then LinuxFind
      else Node
  end.

Definition isCmdTraversal (t : Traversal) : bool :=
  match t with Node => false | _ => true end.

(** Modelled from the spec: [flow.parallel] (vs/base/node/flow), which
    runs every root and signals completion "when every root has finished";
    "any error from one folder root aborts only that root's traversal;
    other roots continue".  The final callback of [walk] then takes the
    first error in the order of the roots. *)
Definition allDone (rs : list Root) : bool :=
  forallb (fun r => match outcome r with Some _ => true | None => false end) rs.

Fixpoint firstError (rs : list Root) : option jsstring :=
  match rs with
  | [] => None
  | r :: rs' =>
      match outcome r with
      | Some (Some e) => Some e
      | _ => firstError rs'
      end
  end.

Definition finishIfAllDone (w : FileWalker) (before after : list Root)
  : FileWalker :=
  if negb (allDone before) && allDone after
  then effect w (WalkDone (firstError after) (isLimitHit w))
  else w.

(** The start of one root: [cmdTraversal] up to [collectStdout], or
    [nodeJSTraversal] up to [readdir]. *)
Definition startRoot (w : FileWalker) (folder : jsstring) : FileWalker :=
  if isCmdTraversal (traversal w) then
    let w := effect w (SpawnCmd folder) in
    let w := if w_useRipgrep w then effect w (OnMessage (rgCmd folder)) else w in
    setCmdResultCount w 0
  else incDirectoriesWalked w.

(** The loop over the extra files. *)
Definition matchExtraFiles (w : FileWalker) (extraFiles : list jsstring)
  : FileWalker :=
  fold_left (fun w extraFilePath =>
    let basename := path_basename extraFilePath in
    if match excludePattern (config w) with
       | Some exclude => exclude extraFilePath basename
       | None => false
       end
    then w (* excluded *)
    else matchFile w {| base := None; relativePath := extraFilePath;
                        basename := basename; size := None |})
    extraFiles w.

(** [walk(folderQueries, extraFiles, onResult, onMessage, done)] up to the
    point where it returns. *)
Definition walk (w : FileWalker) (folderQueries : list jsstring)
    (extraFiles : option (list jsstring)) : Walk :=
  if isCanceled w then
    {| walker := effect w (WalkDone None (isLimitHit w)); roots := [];
       stuck := false |}
  else
    let w := match extraFiles with
             | Some fs => matchExtraFiles w fs
             | None => w
             end in
    let w := setTraversal w (chooseTraversal w) in
    let w := fold_left startRoot folderQueries w in
    let w := match folderQueries with
             | [] => effect w (WalkDone None (isLimitHit w))
             | _ :: _ => w
             end in
    {| walker := w; roots := map newRoot folderQueries; stuck := false |}.

(** What an event does to the walker and its root, by the traversal in
    use. *)
Definition eventStep (w : FileWalker) (r : Root) (ev : CmdEvent)
  : FileWalker * Root * bool :=
  if isCmdTraversal (traversal w) then collectStdout w r ev
  else
    match ev with
    | NodeFile p b sz => (nodeFile w r p b sz, r, true)
    | NodeEnd => (rootDone w r None, true)
    | _ => (w, r, true)
    end.

(** One event of the root with index [i]. *)
Definition walkEvent (s : Walk) (i : nat) (ev : CmdEvent) : Walk :=
  if stuck s then s
  else
    match roots s !! i with
    | None => s
    | Some r =>
        let '(w, r', ok) := eventStep (walker s) r ev in
        let roots' := <[i := r']> (roots s) in
        {| walker := finishIfAllDone w (roots s) roots';
           roots := roots'; stuck := negb ok |}
    end.

(** [Engine.cancel()], which sets the walker's flag. *)
Definition cancelWalk (s : Walk) : Walk :=
  {| walker := cancel (walker s); roots := roots s; stuck := stuck s |}.

(** A walk: the start, then the events of the roots in the order they
    arrive, each with the index of its root. *)
Definition runWalk (w : FileWalker) (schedule : list (nat * CmdEvent)) : Walk :=
  fold_left (fun s e => walkEvent s (fst e) (snd e)) schedule
    (walk w (folderQueries (config w)) (extraFiles (config w))).

(** The terminal calls [done(err, isLimitHit)]. *)
Fixpoint terminals (t : list Effect) : list (option jsstring * bool) :=
  match t with
  | [] => []
  | WalkDone err l :: t' => (err, l) :: terminals t'
  | _ :: t' => terminals t'
  end.

Definition isKillCmd (x : Effect) : bool :=
  match x with KillCmd _ => true | _ => false end.

End WithHost.

End FileSearch.

(* ================================================================== *)
(** * The raw search service ([SearchService], [BatchedCollector]) *)
(* ================================================================== *)

Module RawSearch.
Import JS.
Import FileSearch.

(** [ISearchEngineStats], without the stopwatch readings. *)
Record ISearchEngineStats := mkStats {
  st_traversal : Traversal;
  st_directoriesWalked : nat;
  st_filesWalked : nat;
  st_cmdResultCount : option nat
}.

(** [ISearchEngineSuccess]. *)
Record ISearchEngineSuccess := mkEngineSuccess {
  e_limitHit : bool;
  e_stats : ISearchEngineStats
}.

(** What an [ISearchEngine] does through the three callbacks of
    [search(onResult, onProgress, done)]. *)
Inductive EngineOut :=
| Match (m : IRawFileMatch)
| Progress (message : jsstring)
| Finished (error : option jsstring) (complete : ISearchEngineSuccess).

(** [IFileSearchProgressItem]. *)
Inductive IFileSearchProgressItem :=
| FMatch (m : IRawFileMatch)
| FBatch (ms : list IRawFileMatch)
| FProgress (message : jsstring).

(** [ISerializedSearchProgressItem]: a match is its path. *)
Inductive ISerializedSearchProgressItem :=
| SMatch (path : jsstring)
| SBatch (paths : list jsstring)
| SProgress (message : jsstring).

(** [ICachedSearchStats], without the stopwatch readings. *)
Record ICachedSearchStats := mkCachedStats {
  cacheWasResolved : bool;
  cacheEntryCount : nat
}.

(** The [stats] of a success; [sortingTime] is kept as the fact that the
    results were sorted ([None] for [undefined], [Some false] for -1). *)
Record IFileSearchStats := mkFileStats {
  fromCache : bool;
  detailStats : ISearchEngineStats + ICachedSearchStats;
  resultCount : nat;
  sortingTime : option bool
}.

Record ISerializedSearchSuccess := mkSuccess {
  limitHit : bool;
  stats : IFileSearchStats
}.

(** How a promise settles. *)
Inductive Settled (A : Type) :=
| Resolved (a : A)
| Rejected (err : jsstring)
| Pending.
Arguments Resolved {A} a.
Arguments Rejected {A} err.
Arguments Pending {A}.

(** The terminal item of the stream [fileSearch] returns. *)
Inductive Terminal :=
| Success (s : ISerializedSearchSuccess)
| Error (message : jsstring).

(** [ICacheRow]: the promise by the way it settles. *)
Record ICacheRow := mkRow {
  promise : Settled (ISearchEngineSuccess * list IRawFileMatch);
  resolved : bool
}.

(** [Cache.resultsToSearchCache]: the rows by search value, in the order
    [for ... in] enumerates them. *)
Definition Cache := list (jsstring * ICacheRow).

Section WithHost.
Context `{Host}.

(** The score comparator [compareItemsByScore] for the prepared query. *)
Variable compareItemsByScore :
  option jsstring -> IRawFileMatch -> IRawFileMatch -> Z.

(** [Engine.search]: the callbacks the walker's effects amount to.
    [getStats()] is read when [done] is called, which is the last thing
    the walker does in the step that calls it. *)
Definition walkerStats (w : FileWalker) : ISearchEngineStats :=
  {| st_traversal := traversal w;
     st_directoriesWalked := directoriesWalked w;
     st_filesWalked := filesWalked w;
     st_cmdResultCount := cmdResultCount w |}.

Fixpoint engineOut (st : ISearchEngineStats) (t : list Effect) : list EngineOut :=
  match t with
  | [] => []
  | OnResult m :: t' => Match m :: engineOut st t'
  | OnMessage msg :: t' => Progress msg :: engineOut st t'
  | WalkDone err l :: t' =>
      Finished err {| e_limitHit := l; e_stats := st |} :: engineOut st t'
  | _ :: t' => engineOut st t'
  end.

(** What the engine's callbacks receive for the effects of one step of
    the walk. *)
Definition engineSince (before after : FileWalker) : list EngineOut :=
  engineOut (walkerStats after) (skipn (length (trace before)) (trace after)).

Fixpoint engineRun (s : Walk) (schedule : list (nat * CmdEvent))
  : list EngineOut :=
  match schedule with
  | [] => []
  | (i, ev) :: schedule' =>
      let s' := walkEvent s i ev in
      engineSince (walker s) (walker s') ++ engineRun s' schedule'
  end.

(** The file search engine on a schedule of its roots' events. *)
Definition FileSearchEngine (schedule : list (nat * CmdEvent))
    (config : IRawSearch) : list EngineOut :=
  let w := new config in
  let s := walk w (folderQueries config) (extraFiles config) in
  engineSince w (walker s) ++ engineRun s schedule.

(** ** [doSearch] *)

Record Search := mkSearch {
  batch : list IRawFileMatch;
  settled : Settled ISearchEngineSuccess;
  progress : list IFileSearchProgressItem
}.

Definition report (s : Search) (p : IFileSearchProgressItem) : Search :=
  {| batch := batch s; settled := settled s; progress := progress s ++ [p] |}.

(** A promise settles once. *)
Definition settle {A} (old new : Settled A) : Settled A :=
  match old with
  | Pending => new
  | _ => old
  end.

(** The three callbacks [doSearch] hands to the engine.  [batchSize] is
    [None] when omitted. *)
Definition doSearchStep (batchSize : option Z) (s : Search) (o : EngineOut)
  : Search :=
  match o with
  | Match m =>
      match batchSize with
      | Some b =>
          if (b =? 0)%Z then report s (FMatch m)
          else
            let batch' := batch s ++ [m] in
            if (0 <? b)%Z && (b <=? Z.of_nat (length batch'))%Z
            then {| batch := []; settled := settled s;
                    progress := progress s ++ [FBatch batch'] |}
            else {| batch := batch'; settled := settled s;
                    progress := progress s |}
      | None => report s (FMatch m)
      end
  | Progress msg => report s (FProgress msg)
  | Finished error complete =>
      let s := match batch s with
               | [] => s
               | _ :: _ => report s (FBatch (batch s))
               end in
      {| batch := batch s;
         settled := settle (settled s)
                      match error with
                      | Some e => Rejected e
                      | None => Resolved complete
                      end;
         progress := progress s |}
  end.

(** [doSearch(engine, progressCallback, batchSize)]. *)
Definition doSearch (engine : list EngineOut) (batchSize : option Z) : Search :=
  fold_left (doSearchStep batchSize) engine
    {| batch := []; settled := Pending; progress := [] |}.

(** [rawMatchToSearchItem]. *)
Definition rawMatchToSearchItem (m : IRawFileMatch) : jsstring :=
  match base m with
  | Some b => if truthy b then path_join b (relativePath m) else relativePath m
  | None => relativePath m
  end.

(** [fileProgressCallback] of [doFileSearch]: the item passed on, and the
    increase of [resultCount].  A single match is told from a message by
    its [relativePath] being truthy. *)
Definition fileProgressCallback (p : IFileSearchProgressItem)
  : ISerializedSearchProgressItem * nat :=
  match p with
  | FBatch ms => (SBatch (map rawMatchToSearchItem ms), length ms)
  | FMatch m =>
      if truthy (relativePath m) then (SMatch (rawMatchToSearchItem m), 1)
      else (SProgress [], 0)
  | FProgress msg => (SProgress msg, 0)
  end.

(** [sendProgress(results, progressCb, batchSize)]. *)
Fixpoint slices (fuel : nat) (b : nat) (results : list jsstring)
  : list ISerializedSearchProgressItem :=
  match fuel, results with
  | _, [] => []
  | O, _ => []
  | S fuel', _ => SBatch (firstn b results) :: slices fuel' b (skipn b results)
  end.

Definition sendProgress (results : list jsstring) (batchSize : option Z)
  : list ISerializedSearchProgressItem :=
  match batchSize with
  | Some b =>
      if (0 <? b)%Z then slices (length results) (Z.to_nat b) results
      else [SBatch results]
  | None => [SBatch results]
  end.

(** Modelled from the spec: [arrays.topAsync] (vs/base/common/arrays),
    "a partial-sort algorithm that yields the top-K candidates": the first
    K of the candidates in the order of the comparator, all of them when
    no K is given. *)
Fixpoint insertBy {A} (cmp : A -> A -> Z) (x : A) (l : list A) : list A :=
  match l with
  | [] => [x]
  | y :: l' => if (cmp x y <=? 0)%Z then x :: l else y :: insertBy cmp x l'
  end.

Definition sortBy {A} (cmp : A -> A -> Z) (l : list A) : list A :=
  fold_right (insertBy cmp) [] l.

Definition top {A} (l : list A) (cmp : A -> A -> Z) (n : option nat) : list A :=
  match n with
  | Some k => firstn k (sortBy cmp l)
  | None => sortBy cmp l
  end.

(** [sortResults(config, results, scorerCache)]. *)
Definition sortResults (config : IRawSearch) (results : list IRawFileMatch)
  : list IRawFileMatch :=
  top results (compareItemsByScore (filePattern config)) (maxResults config).

(** [typeof config.maxResults === 'number' && results.length >
    config.maxResults]. *)
Definition moreThanMax (config : IRawSearch) (results : list IRawFileMatch)
  : bool :=
  match maxResults config with
  | Some k => k <? length results
  | None => false
  end.

(** ** The prefix cache *)

(** The test [getResultsFromCache] applies to a cached search value. *)
Definition narrows (searchValue previousSearch : jsstring) : bool :=
  startsWith searchValue previousSearch
  && negb (contains searchValue path_sep
           && negb (contains previousSearch path_sep)).

(** The loop over the cache: the first row whose search value passes. *)
Fixpoint findRow (cache : Cache) (searchValue : jsstring) : option ICacheRow :=
  match cache with
  | [] => None
  | (previousSearch, row) :: cache' =>
      if narrows searchValue previousSearch then Some row
      else findRow cache' searchValue
  end.

(** [getResultsFromCache(cache, searchValue, progressCallback, token)]:
    [None] for [null]; [cancelled] is [token.isCancellationRequested] at
    the time the cached promise is fulfilled. *)
Definition getResultsFromCache (cache : Cache) (searchValue : jsstring)
    (cancelled : bool)
  : option (Settled (ISearchEngineSuccess * list IRawFileMatch
                     * ICachedSearchStats)) :=
  match findRow cache searchValue with
  | None => None
  | Some cachedRow =>
      Some
        match promise cachedRow with
        | Resolved (complete, cachedEntries) =>
            if cancelled then Rejected (lit "Canceled")
            else
              (* Pattern match on results *)
              let normalizedSearchValueLowercase :=
                toLowerCase (stripWildcards searchValue) in
              let results :=
                List.filter (fun entry =>
                  fuzzyContains (relativePath entry)
                    normalizedSearchValueLowercase) cachedEntries in
              Resolved (complete, results,
                        {| cacheWasResolved := resolved cachedRow;
                           cacheEntryCount := length cachedEntries |})
        | Rejected err => Rejected err
        | Pending => Pending
        end
  end.

(** [this.caches]: the caches by cache key. *)
Definition lookupCache (caches : gmap jsstring Cache) (config : IRawSearch)
  : option Cache :=
  match cacheKey config with
  | Some k => if truthy k then caches !! k else None
  | None => None
  end.

(** [trySortedSearchFromCache(config, progressCallback, token)]: [None]
    for [undefined].  Reading the search value of a query without file
    pattern is a [TypeError]. *)
Definition trySortedSearchFromCache (caches : gmap jsstring Cache)
    (config : IRawSearch) (cancelled : bool)
  : option (Settled (ISerializedSearchSuccess * list IRawFileMatch)) :=
  match lookupCache caches config with
  | None => None
  | Some cache =>
      match filePattern config with
      | None => Some (Rejected (lit "TypeError"))
      | Some searchValue =>
          match getResultsFromCache cache searchValue cancelled with
          | None => None
          | Some (Resolved (result, results, cacheStats)) =>
              let sortedResults := sortResults config results in
              Some (Resolved
                ({| limitHit := e_limitHit result || moreThanMax config results;
                    stats := {| fromCache := true;
                                detailStats := inr cacheStats;
                                resultCount := length results;
                                sortingTime := Some true |} |},
                 sortedResults))
          | Some (Rejected err) => Some (Rejected err)
          | Some Pending => Some Pending
          end
      end
  end.

(** [config.maxResults ? assign({}, config, { maxResults: null }) :
    config]. *)
Definition walkerConfig (config : IRawSearch) : IRawSearch :=
  {| folderQueries := folderQueries config; extraFiles := extraFiles config;
     filePattern := filePattern config;
     includePattern := includePattern config;
     excludePattern := excludePattern config;
     folderExclude := folderExclude config;
     noSiblingsClauses := noSiblingsClauses config;
     maxResults := None; exists_ := exists_ config;
     maxFilesize := maxFilesize config; useRipgrep := useRipgrep config;
     sortByScore := sortByScore config; cacheKey := cacheKey config |}.

(** The array [innerProgressCallback] of [doSortedSearch] keeps: the last
    batch reported. *)
Fixpoint lastBatch (ps : list IFileSearchProgressItem) (acc : list IRawFileMatch)
  : list IRawFileMatch :=
  match ps with
  | [] => acc
  | FBatch ms :: ps' => lastBatch ps' ms
  | _ :: ps' => lastBatch ps' acc
  end.

Definition notBatch (p : IFileSearchProgressItem) : bool :=
  match p with FBatch _ => false | _ => true end.

(** [allResultsPromise] of [doSortedSearch]: the engine run with batch
    size -1, the items passed on meanwhile, and the promise of the engine's
    answer with all results. *)
Definition allResultsPromise (engine : list EngineOut)
  : list ISerializedSearchProgressItem
    * Settled (ISearchEngineSuccess * list IRawFileMatch) :=
  let s := doSearch engine (Some (-1)%Z) in
  (map (fun p => fst (fileProgressCallback p))
       (List.filter notBatch (progress s)),
   match settled s with
   | Resolved result => Resolved (result, lastBatch (progress s) [])
   | Rejected err => Rejected err
   | Pending => Pending
   end).

(** The answer [doSortedSearch] builds once all results are there. *)
Definition sortedAnswer (config : IRawSearch)
    (all : Settled (ISearchEngineSuccess * list IRawFileMatch))
  : Settled (ISerializedSearchSuccess * list IRawFileMatch) :=
  match all with
  | Resolved (result, results) =>
      let sortedResults := sortResults config results in
      Resolved
        ({| limitHit := e_limitHit result || moreThanMax config results;
            stats := {| fromCache := false;
                        detailStats := inl (e_stats result);
                        resultCount := length sortedResults;
                        (* -1 indicates a "sorted" search that was not sorted *)
                        sortingTime :=
                          Some match maxResults config with
                               | Some 0 => false
                               | _ => true
                               end |} |},
         sortedResults)
  | Rejected err => Rejected err
  | Pending => Pending
  end.

(** Whether a property key reads as an array index: the decimal numeral,
    without a leading zero, of an integer below 2^32 - 1. *)
Definition arrayIndex (key : jsstring) : option Z :=
  match key with
  | [] => None
  | c :: rest =>
      if forallb isDigit key && (negb (c =? 48)%N || negb (truthy rest))
         && (parseInt key <? 4294967295)%Z
      then Some (parseInt key)
      else None
  end.

(** The order in which [for ... in] enumerates the keys of an object:
    the array indices first, in ascending order, then the other keys in
    the order they were created.  [comesBefore key k] tells that the new
    key [key] is enumerated before the key [k] that is there already. *)
Definition comesBefore (key k : jsstring) : bool :=
  match arrayIndex key, arrayIndex k with
  | Some a, Some b => (a <? b)%Z
  | Some _, None => true
  | None, _ => false
  end.

Fixpoint replaceRow (cache : Cache) (key : jsstring) (row : ICacheRow)
  : Cache :=
  match cache with
  | [] => []
  | (k, r) :: cache' =>
      if eqb k key then (k, row) :: cache'
      else (k, r) :: replaceRow cache' key row
  end.

Fixpoint insertRow (cache : Cache) (key : jsstring) (row : ICacheRow)
  : Cache :=
  match cache with
  | [] => [(key, row)]
  | (k, r) :: cache' =>
      if comesBefore key k then (key, row) :: cache
      else (k, r) :: insertRow cache' key row
  end.

(** [cache.resultsToSearchCache[key] = row]: an existing key keeps its
    place in the enumeration; a new key takes the place the enumeration
    order gives it. *)
Definition setRow (cache : Cache) (key : jsstring) (row : ICacheRow) : Cache :=
  if existsb (fun kr => eqb (fst kr) key) cache
  then replaceRow cache key row
  else insertRow cache key row.

Definition deleteRow (cache : Cache) (key : jsstring) : Cache :=
  List.filter (fun kr => negb (eqb (fst kr) key)) cache.

(** The cache row [doSortedSearch] leaves for a query with a cache key:
    resolved with the promise, deleted when the promise is rejected. *)
Definition storeRow (caches : gmap jsstring Cache) (config : IRawSearch)
    (all : Settled (ISearchEngineSuccess * list IRawFileMatch))
  : gmap jsstring Cache :=
  match cacheKey config with
  | Some k =>
      if truthy k then
        let cache := default [] (caches !! k) in
        let key := default (lit "undefined") (filePattern config) in
        <[k := match all with
               | Rejected _ => deleteRow cache key
               | Resolved _ =>
                   setRow cache key {| promise := all; resolved := true |}
               | Pending =>
                   setRow cache key {| promise := all; resolved := false |}
               end]> caches
      else caches
  | None => caches
  end.

(** [doSortedSearch(engine, config, ...)]: the items passed on while the
    engine runs, the promise, and the caches afterwards. *)
Definition doSortedSearch (caches : gmap jsstring Cache)
    (engine : list EngineOut) (config : IRawSearch)
  : list ISerializedSearchProgressItem
    * Settled (ISerializedSearchSuccess * list IRawFileMatch)
    * gmap jsstring Cache :=
  let '(passedOn, all) := allResultsPromise engine in
  (passedOn, sortedAnswer config all, storeRow caches config all).

(** What an engine has done when it calls [done] for the first time. *)
Fixpoint untilFinished (engine : list EngineOut) : list EngineOut :=
  match engine with
  | [] => []
  | Finished error complete :: _ => [Finished error complete]
  | o :: engine' => o :: untilFinished engine'
  end.

(** [doFileSearch(EngineClass, config, progressCallback, token,
    batchSize)]: the items handed to [progressCallback], the promise, and
    the caches afterwards.  [EngineClass] is given by what an engine built
    from a configuration does.  Of an unsorted search the variable
    [resultCount] is read when the promise of [doSearch] resolves, at the
    engine's first call of [done]: what the engine reports afterwards is
    passed on, but it is not in the count of the answer. *)
Definition doFileSearch (caches : gmap jsstring Cache)
    (EngineClass : IRawSearch -> list EngineOut) (config : IRawSearch)
    (cancelled : bool) (batchSize : option Z)
  : list ISerializedSearchProgressItem * Settled ISerializedSearchSuccess
    * gmap jsstring Cache :=
  if sortByScore config then
    let '(passedOn, sortedSearch, caches) :=
      match trySortedSearchFromCache caches config cancelled with
      | Some sortedSearch => ([], sortedSearch, caches)
      | None =>
          let walkerConfig :=
            match maxResults config with
            | Some (S _) => walkerConfig config
            | _ => config
            end in
          doSortedSearch caches (EngineClass walkerConfig) config
      end in
    match sortedSearch with
    | Resolved (result, rawMatches) =>
        (passedOn
         ++ sendProgress (map rawMatchToSearchItem rawMatches) batchSize,
         Resolved result, caches)
    | Rejected err => (passedOn, Rejected err, caches)
    | Pending => (passedOn, Pending, caches)
    end
  else
    let s := doSearch (EngineClass config) batchSize in
    let items := map fileProgressCallback (progress s) in
    let counted :=
      map fileProgressCallback
        (progress (doSearch (untilFinished (EngineClass config)) batchSize)) in
    (map fst items,
     match settled s with
     | Resolved complete =>
         Resolved {| limitHit := e_limitHit complete;
                     stats := {| fromCache := false;
                                 detailStats := inl (e_stats complete);
                                 resultCount := list_sum (map snd counted);
                                 sortingTime := None |} |}
     | Rejected err => Rejected err
     | Pending => Pending
     end,
     caches).

(** [fileSearch(config, batchSize)]: the items the emitter fires, the
    last of them the terminal item once the promise has settled.
    [BATCH_SIZE] is the default batch size. *)
Definition BATCH_SIZE : Z := 512.

Definition fileSearch (caches : gmap jsstring Cache)
    (EngineClass : IRawSearch -> list EngineOut) (config : IRawSearch)
    (batchSize : option Z)
  : list ISerializedSearchProgressItem * option Terminal :=
  let '(items, p, _) :=
    doFileSearch caches EngineClass config false
      (Some (default BATCH_SIZE batchSize)) in
  (items,
   match p with
   | Resolved c => Some (Success c)
   | Rejected err => Some (Error err)
   | Pending => None
   end).

(** The number of matches among progress items. *)
Definition matchCount (p : ISerializedSearchProgressItem) : nat :=
  match p with
  | SMatch _ => 1
  | SBatch paths => length paths
  | SProgress _ => 0
  end.

Definition totalMatches (ps : list ISerializedSearchProgressItem) : nat :=
  list_sum (map matchCount ps).

End WithHost.

(** ** [BatchedCollector] *)

Module Collector.

(** What the callback receives: one item or an array. *)
Inductive Delivery (T : Type) :=
| One (item : T)
| Many (items : list T).
Arguments One {T} item.
Arguments Many {T} items.

Definition TIMEOUT : nat := 4000.
Definition START_BATCH_AFTER_COUNT : nat := 50.

(** [timeoutHandle] is whether the handle is truthy; [timer] is the delay
    of the timer that is pending, if one is.  [delivered] lists the calls
    of the callback. *)
Record BatchedCollector (T : Type) := mkCollector {
  maxBatchSize : Z;
  totalNumberCompleted : nat;
  batch : list T;
  batchSize : nat;
  timeoutHandle : bool;
  timer : option nat;
  delivered : list (Delivery T)
}.
Arguments mkCollector {T}.
Arguments maxBatchSize {T}.
Arguments totalNumberCompleted {T}.
Arguments batch {T}.
Arguments batchSize {T}.
Arguments timeoutHandle {T}.
Arguments timer {T}.
Arguments delivered {T}.

Section WithItems.
Context {T : Type}.

Definition new (maxBatchSize : Z) : BatchedCollector T :=
  {| maxBatchSize := maxBatchSize; totalNumberCompleted := 0; batch := [];
     batchSize := 0; timeoutHandle := false; timer := None;
     delivered := [] |}.

(** [flush()]. *)
Definition flush (c : BatchedCollector T) : BatchedCollector T :=
  if 0 <? batchSize c then
    {| maxBatchSize := maxBatchSize c;
       totalNumberCompleted := totalNumberCompleted c + batchSize c;
       batch := []; batchSize := 0;
       timeoutHandle := false;
       timer := if timeoutHandle c then None else timer c;
       delivered := delivered c ++ [Many (batch c)] |}
  else c.

(** [onUpdate()]. *)
Definition onUpdate (c : BatchedCollector T) : BatchedCollector T :=
  if totalNumberCompleted c <? START_BATCH_AFTER_COUNT then
    (* Flush because we aren't batching yet *)
    flush c
  else if (maxBatchSize c <=? Z.of_nat (batchSize c))%Z then
    (* Flush because the batch is full *)
    flush c
  else if negb (timeoutHandle c) then
    (* No timeout running, start a timeout to flush *)
    {| maxBatchSize := maxBatchSize c;
       totalNumberCompleted := totalNumberCompleted c;
       batch := batch c; batchSize := batchSize c;
       timeoutHandle := true; timer := Some TIMEOUT;
       delivered := delivered c |}
  else c.

Definition addToBatch (c : BatchedCollector T) (items : list T) (size : nat)
  : BatchedCollector T :=
  onUpdate
    {| maxBatchSize := maxBatchSize c;
       totalNumberCompleted := totalNumberCompleted c;
       batch := batch c ++ items; batchSize := batchSize c + size;
       timeoutHandle := timeoutHandle c; timer := timer c;
       delivered := delivered c |}.

Definition deliver (c : BatchedCollector T) (d : Delivery T)
  : BatchedCollector T :=
  {| maxBatchSize := maxBatchSize c;
     totalNumberCompleted := totalNumberCompleted c;
     batch := batch c; batchSize := batchSize c;
     timeoutHandle := timeoutHandle c; timer := timer c;
     delivered := delivered c ++ [d] |}.

(** [addItem(item, size)] for an item that is not falsy. *)
Definition addItem (c : BatchedCollector T) (item : T) (size : nat)
  : BatchedCollector T :=
  if (0 <? maxBatchSize c)%Z then addToBatch c [item] size
  else deliver c (One item).

(** [addItems(items, size)]. *)
Definition addItems (c : BatchedCollector T) (items : list T) (size : nat)
  : BatchedCollector T :=
  if (0 <? maxBatchSize c)%Z then addToBatch c items size
  else deliver c (Many items).

(** The pending timer fires: its callback calls [flush()]. *)
Definition timerFires (c : BatchedCollector T) : BatchedCollector T :=
  match timer c with
  | Some _ =>
      flush {| maxBatchSize := maxBatchSize c;
               totalNumberCompleted := totalNumberCompleted c;
               batch := batch c; batchSize := batchSize c;
               timeoutHandle := timeoutHandle c; timer := None;
               delivered := delivered c |}
  | None => c
  end.

(** The items that have been handed to the collector and not lost. *)
Definition deliveredItems (ds : list (Delivery T)) : list T :=
  flat_map (fun d => match d with One x => [x] | Many xs => xs end) ds.

Definition itemsCollected (c : BatchedCollector T) : nat :=
  length (deliveredItems (delivered c)) + length (batch c).

End WithItems.

End Collector.

End RawSearch.

(* ================================================================== *)
(** * The globs and the pattern handed to ripgrep ([ripgrepTextSearch.ts]) *)
(* ================================================================== *)

Module RgArgs.
Import JS.

(** A value of a [glob.IExpression]: a boolean or a sibling clause
    [{ when }]. *)
Inductive GlobValue :=
| GBool (b : bool)
| GWhen (when : jsstring).

(** A [glob.IExpression]: its own properties in the order [Object.keys]
    lists them (keys that read as array indices, which an object lists
    first, are left aside). *)
Definition IExpression := list (jsstring * GlobValue).

Definition keys (e : IExpression) : list jsstring := map fst e.

(** [expression[key]]; [None] for [undefined]. *)
Fixpoint get (e : IExpression) (key : jsstring) : option GlobValue :=
  match e with
  | [] => None
  | (k, v) :: e' => if eqb k key then Some v else get e' key
  end.

(** [expression[key] = value]: a key the object has keeps its place, a
    new one comes last. *)
Fixpoint set (e : IExpression) (key : jsstring) (value : GlobValue)
  : IExpression :=
  match e with
  | [] => [(key, value)]
  | (k, v) :: e' =>
      if eqb k key then (k, value) :: e' else (k, v) :: set e' key value
  end.

(** The fields of [IFolderSearch] read here. *)
Record IFolderSearch := mkFolderSearch {
  folder : jsstring;
  excludePattern : option IExpression;
  includePattern : option IExpression
}.

(** A [Set<string>]: its elements in the order they were added. *)
Definition has (s : list jsstring) (key : jsstring) : bool :=
  existsb (eqb key) s.

Definition add (s : list jsstring) (key : jsstring) : list jsstring :=
  if has s key then s else s ++ [key].

(** [q.excludePattern && q.excludePattern[key] === true]. *)
Definition excludesKey (key : jsstring) (q : IFolderSearch) : bool :=
  match excludePattern q with
  | Some e =>
      match get e key with
      | Some (GBool true) => true
      | _ => false
      end
  | None => false
  end.

(** [findUniversalExcludes(folderQueries)]; [None] for [null]. *)
Definition findUniversalExcludes (folderQueries : list IFolderSearch)
  : option (list jsstring) :=
  if length folderQueries <? 2 then
    (* Nothing to simplify *)
    None
  else
    match folderQueries with
    | [] => None
    | firstFolder :: _ =>
        match excludePattern firstFolder with
        | None => None
        | Some e =>
            Some (fold_left (fun universalExcludes key =>
                    if startsWith key (lit "**")
                       && forallb (excludesKey key) folderQueries
                    then add universalExcludes key
                    else universalExcludes)
                    (keys e) [])
        end
    end.

(** [key.replace(/\\/g, '/')]. *)
Definition slashes (key : jsstring) : jsstring :=
  map (fun c => if (c =? 92)%N then 47%N else c) key.

(** [path.replace(/^c:[/\\]/i, '/')]. *)
Definition replaceDriveC (path : jsstring) : jsstring :=
  match path with
  | c :: colon :: s :: rest =>
      if ((c =? 99) || (c =? 67))%N && (colon =? 58)%N
         && ((s =? 47) || (s =? 92))%N
      then 47%N :: rest
      else path
  | _ => path
  end.

(** [IRgGlobResult]. *)
Record IRgGlobResult := mkGlobResult {
  globArgs : list jsstring;
  siblingClauses : option IExpression
}.

Section WithPaths.

(** [paths.isAbsolute] and [paths.getRoot] (vs/base/common/paths), Node's
    [path.join], [strings.rtrim(haystack, needle)], the host's
    [toLowerCase], and [objects.assign(destination, source)]. *)
Variable paths_isAbsolute : jsstring -> bool.
Variable paths_getRoot : jsstring -> jsstring.
Variable path_join : jsstring -> jsstring -> jsstring.
Variable rtrim : jsstring -> jsstring -> jsstring.
Variable toLowerCase : jsstring -> jsstring.
Variable assign : IExpression -> IExpression -> IExpression.

(** [getAbsoluteGlob(folder, key)]. *)
Definition getAbsoluteGlob (folder key : jsstring) : jsstring :=
  if paths_isAbsolute key then key else path_join folder key.

(** [trimTrailingSlash(str)]. *)
Definition trimTrailingSlash (str : jsstring) : jsstring :=
  let str := rtrim str (lit "\") in
  rtrim str (lit "/").

(** [fixDriveC(path)]. *)
Definition fixDriveC (path : jsstring) : jsstring :=
  let root := paths_getRoot path in
  if eqb (toLowerCase root) (lit "c:/") then replaceDriveC path else path.

(** The body of the loop over the keys in [globExprsToRgGlobs]. *)
Definition globStep (patterns : IExpression) (folder : option jsstring)
    (excludesToSkip : option (list jsstring)) (acc : IRgGlobResult)
    (key : jsstring) : IRgGlobResult :=
  if match excludesToSkip with
     | Some skip => has skip key
     | None => false
     end
  then acc
  else if negb (truthy key) then acc
  else
    let value := get patterns key in
    let key :=
      trimTrailingSlash
        match folder with
        | Some f => if truthy f then getAbsoluteGlob f key else key
        | None => key
        end in
    (* glob.ts requires forward slashes, but a UNC path still must start
       with \\ *)
    let key :=
      if startsWith key (lit "\\")
      then lit "\\" ++ slashes (skipn 2 key)
      else slashes key in
    match value with
    | Some (GBool true) =>
        {| globArgs := globArgs acc ++ [fixDriveC key];
           siblingClauses := siblingClauses acc |}
    | Some (GWhen when) =>
        if truthy when then
          {| globArgs := globArgs acc;
             siblingClauses :=
               Some (set (default [] (siblingClauses acc)) key (GWhen when)) |}
        else acc
    | _ => acc
    end.

(** [globExprsToRgGlobs(patterns, folder, excludesToSkip)]; [folder] is
    [None] where the caller passes [false]. *)
Definition globExprsToRgGlobs (patterns : IExpression)
    (folder : option jsstring) (excludesToSkip : option (list jsstring))
  : IRgGlobResult :=
  fold_left (globStep patterns folder excludesToSkip) (keys patterns)
    {| globArgs := []; siblingClauses := None |}.

(** [foldersToRgExcludeGlobs(folderQueries, globalExclude, excludesToSkip,
    absoluteGlobs)]: the glob arguments and the sibling clauses, which
    start as the empty object. *)
Definition foldersToRgExcludeGlobs (folderQueries : list IFolderSearch)
    (globalExclude : option IExpression)
    (excludesToSkip : option (list jsstring)) (absoluteGlobs : bool)
  : list jsstring * IExpression :=
  fold_left (fun acc folderQuery =>
    let totalExcludePattern :=
      assign (assign [] (default [] (excludePattern folderQuery)))
             (default [] globalExclude) in
    let result :=
      globExprsToRgGlobs totalExcludePattern
        (if absoluteGlobs then Some (folder folderQuery) else None)
        excludesToSkip in
    (fst acc ++ globArgs result,
     match siblingClauses result with
     | Some clauses => assign (snd acc) clauses
     | None => snd acc
     end))
    folderQueries ([], []).

(** [foldersToIncludeGlobs(folderQueries, globalInclude, absoluteGlobs)]. *)
Definition foldersToIncludeGlobs (folderQueries : list IFolderSearch)
    (globalInclude : option IExpression) (absoluteGlobs : bool)
  : list jsstring :=
  fold_left (fun globArgs' folderQuery =>
    let totalIncludePattern :=
      assign (assign [] (default [] globalInclude))
             (default [] (includePattern folderQuery)) in
    let result :=
      globExprsToRgGlobs totalIncludePattern
        (if absoluteGlobs then Some (folder folderQuery) else None) None in
    globArgs' ++ globArgs result)
    folderQueries [].

End WithPaths.

(** The regular expression [/([^\\]|^)(\\\\)*\$$/] from its second group
    on: pairs of backslashes, then a dollar sign at the end of the input. *)
Fixpoint pairsThenDollar (s : jsstring) : bool :=
  match s with
  | [] => false
  | c :: rest =>
      if (c =? 36)%N then
        match rest with [] => true | _ :: _ => false end
      else if (c =? 92)%N then
        match rest with
        | c' :: rest' => (c' =? 92)%N && pairsThenDollar rest'
        | [] => false
        end
      else false
  end.

(** [pattern.match(/([^\\]|^)(\\\\)*\$$/)]: the expression is tried at
    every index; its first group takes a character that is no backslash,
    or nothing at the start of the input. *)
Fixpoint matchesEnding (atStart : bool) (s : jsstring) : bool :=
  (atStart && pairsThenDollar s)
  || match s with
     | [] => false
     | c :: rest =>
         (negb (c =? 92)%N && pairsThenDollar rest) || matchesEnding false rest
     end.

(** [pattern.replace(/\$$/, '\\r?$')]. *)
Definition replaceFinalDollar (pattern : jsstring) : jsstring :=
  match rev pattern with
  | c :: before =>
      if (c =? 36)%N then rev before ++ lit "\r?$" else pattern
  | [] => pattern
  end.

(** [fixRegexEndingPattern(pattern)]: replace an unescaped [$] at the end
    of the pattern with [\r?$]. *)
Definition fixRegexEndingPattern (pattern : jsstring) : jsstring :=
  if matchesEnding true pattern then replaceFinalDollar pattern else pattern.

End RgArgs.

(* ================================================================== *)
(** * Text searches of the raw search service ([rawSearchService.ts]) *)
(* ================================================================== *)

Module TextService.
Import JS RawSearch RawSearch.Collector.

(** What a text search engine does through the three callbacks of
    [search(onResult, onProgress, done)]; [R] is what [onResult] takes, a
    file match or an array of them. *)
Inductive TextEngineOut (R S : Type) :=
| TResult (r : R)
| TMessage (message : jsstring)
| TDone (error : option jsstring) (stats : S).
Arguments TResult {R S} r.
Arguments TMessage {R S} message.
Arguments TDone {R S} error stats.

(** What a search receives: a callback of the engine, or the timer of the
    collector firing. *)
Inductive Input (R S : Type) :=
| Engine (o : TextEngineOut R S)
| Timer.
Arguments Engine {R S} o.
Arguments Timer {R S}.

(** A call of [progressCallback]. *)
Inductive Call (M : Type) :=
| Items (d : Delivery M)
| Message (message : jsstring).
Arguments Items {M} d.
Arguments Message {M} message.

Record TextSearch (M C : Type) := mkTextSearch {
  collector : BatchedCollector M;
  calls : list (Call M);
  promise : Settled C
}.
Arguments mkTextSearch {M C}.
Arguments collector {M C}.
Arguments calls {M C}.
Arguments promise {M C}.

Section WithMatches.
Context {M S : Type}.

(** [match.numMatches]. *)
Variable numMatches : M -> nat.

(** A method of the collector, whose callback is [progressCallback]. *)
Definition withCollector {C} (s : TextSearch M C)
    (f : BatchedCollector M -> BatchedCollector M) : TextSearch M C :=
  let c := f (collector s) in
  {| collector := c;
     calls := calls s
              ++ map Items (skipn (length (delivered (collector s)))
                              (delivered c));
     promise := promise s |}.

Definition start {C} (batchSize : Z) : TextSearch M C :=
  {| collector := Collector.new batchSize; calls := []; promise := Pending |}.

(** The callbacks [ripgrepTextSearch] hands to the engine, and the timer. *)
Definition ripgrepStep (s : TextSearch M S) (i : Input M S) : TextSearch M S :=
  match i with
  | Engine (TResult m) =>
      withCollector s (fun c => addItem c m (numMatches m))
  | Engine (TMessage message) =>
      {| collector := collector s; calls := calls s ++ [Message message];
         promise := promise s |}
  | Engine (TDone error stats) =>
      let s := withCollector s flush in
      {| collector := collector s; calls := calls s;
         promise := settle (promise s)
                      match error with
                      | Some e => Rejected e
                      | None => Resolved stats
                      end |}
  | Timer => withCollector s timerFires
  end.

(** [ripgrepTextSearch(config, progressCallback, token)] on what the
    engine built for [config] does. *)
Definition ripgrepTextSearch (inputs : list (Input M S)) : TextSearch M S :=
  fold_left ripgrepStep inputs (start BATCH_SIZE).

(** [limitHit] of the engine's answer. *)
Variable stats_limitHit : S -> bool.

(** The callbacks [doTextSearch] hands to the engine, and the timer; the
    promise resolves with [limitHit]. *)
Definition textStep (s : TextSearch M bool) (i : Input (list M) S)
  : TextSearch M bool :=
  match i with
  | Engine (TResult matches) =>
      let totalMatches := fold_left (fun acc m => acc + numMatches m) matches 0 in
      withCollector s (fun c => addItems c matches totalMatches)
  | Engine (TMessage message) =>
      {| collector := collector s; calls := calls s ++ [Message message];
         promise := promise s |}
  | Engine (TDone error stats) =>
      let s := withCollector s flush in
      {| collector := collector s; calls := calls s;
         promise := settle (promise s)
                      match error with
                      | Some e => Rejected e
                      | None => Resolved (stats_limitHit stats)
                      end |}
  | Timer => withCollector s timerFires
  end.

(** [doTextSearch(engine, progressCallback, batchSize, token)]. *)
Definition doTextSearch (inputs : list (Input (list M) S)) (batchSize : Z)
  : TextSearch M bool :=
  fold_left textStep inputs (start batchSize).

End WithMatches.

(** [clearCache(cacheKey)]. *)
Definition clearCache (caches : gmap jsstring Cache) (cacheKey : jsstring)
  : gmap jsstring Cache :=
  delete cacheKey caches.

End TextService.

(* ================================================================== *)
(** * The client of the search process ([searchService.ts], [DiskSearch]) *)
(* ================================================================== *)

Module DiskSearch.
Import JS RawSearch.

Section WithUri.

(** [URI] with [uri.file], the matches of a file as they are serialized,
    and the statistics of a search. *)
Context {URI Match Stats : Type}.
Variable uri_file : jsstring -> URI.

(** [ISerializedFileMatch]; [matches] may be missing. *)
Record ISerializedFileMatch := mkSerializedFileMatch {
  path : jsstring;
  matches : option (list Match)
}.

(** [ISerializedSearchProgressItem]: an array of file matches, one file
    match, or a message. *)
Inductive ISerializedSearchProgressItem :=
| Batch (ds : list ISerializedFileMatch)
| Single (d : ISerializedFileMatch)
| Progress (message : jsstring).

(** [ISerializedSearchComplete]. *)
Inductive ISerializedSearchComplete :=
| SearchSuccess (limitHit : bool) (stats : Stats)
| SearchError (error : jsstring).

(** What the event fires. *)
Inductive SearchEvent :=
| Item (p : ISerializedSearchProgressItem)
| Complete (c : ISerializedSearchComplete).

(** [FileMatch] (vs/platform/search/common/search). *)
Record FileMatch := mkFileMatch {
  resource : URI;
  fm_matches : list Match
}.

(** [ISearchComplete]. *)
Record ISearchComplete := mkSearchComplete {
  limitHit : bool;
  results : list FileMatch;
  stats : Stats
}.

(** What [onProgress] receives: a file match, a message, or an item
    that has no path and is passed on as it came. *)
Inductive ISearchProgressItem :=
| PFile (m : FileMatch)
| PMessage (message : jsstring)
| PRaw (d : ISerializedFileMatch).

(** [createFileMatch(data)]. *)
Definition createFileMatch (data : ISerializedFileMatch) : FileMatch :=
  {| resource := uri_file (path data);
     fm_matches := match matches data with
                   | Some ms => ms
                   | None => []
                   end |}.

(** The state of [collectResultsFromEvent]: [result], whether the
    listener has been disposed, the promise, and the calls of
    [onProgress]. *)
Record Collect := mkCollect {
  result : list FileMatch;
  disposed : bool;
  promise : Settled ISearchComplete;
  reported : list ISearchProgressItem
}.

Definition start : Collect :=
  {| result := []; disposed := false; promise := Pending; reported := [] |}.

(** What happens to the search: the event fires, or cancellation is
    requested on the token. *)
Inductive Input :=
| Fire (ev : SearchEvent)
| CancellationRequested.

(** The listener of the event; [onProgress] tells whether the callback
    was given. *)
Definition listener (onProgress : bool) (s : Collect) (ev : SearchEvent)
  : Collect :=
  match ev with
  | Complete c =>
      {| result := result s; disposed := true;
         promise :=
           settle (promise s)
             match c with
             | SearchSuccess l st =>
                 Resolved {| limitHit := l; results := result s; stats := st |}
             | SearchError err => Rejected err
             end;
         reported := reported s |}
  | Item (Batch ds) =>
      (* Matches *)
      let fileMatches := map createFileMatch ds in
      {| result := result s ++ fileMatches; disposed := disposed s;
         promise := promise s;
         reported := if onProgress
                     then reported s ++ map PFile fileMatches
                     else reported s |}
  | Item (Single d) =>
      if truthy (path d) then
        (* Match *)
        let fileMatch := createFileMatch d in
        {| result := result s ++ [fileMatch]; disposed := disposed s;
           promise := promise s;
           reported := if onProgress
                       then reported s ++ [PFile fileMatch]
                       else reported s |}
      else if onProgress then
        {| result := result s; disposed := disposed s; promise := promise s;
           reported := reported s ++ [PRaw d] |}
      else s
  | Item (Progress message) =>
      (* Progress *)
      if onProgress then
        {| result := result s; disposed := disposed s; promise := promise s;
           reported := reported s ++ [PMessage message] |}
      else s
  end.

(** One input; a disposed listener hears nothing, and without a token
    nobody listens for cancellation. *)
Definition step (onProgress token : bool) (s : Collect) (i : Input) : Collect :=
  match i with
  | Fire ev => if disposed s then s else listener onProgress s ev
  | CancellationRequested =>
      if token then
        {| result := result s; disposed := true;
           promise := settle (promise s) (Rejected (lit "Canceled"));
           reported := reported s |}
      else s
  end.

(** [collectResultsFromEvent(event, onProgress, token)] on what the event
    and the token do. *)
Definition collectResultsFromEvent (onProgress token : bool)
    (inputs : list Input) : Collect :=
  fold_left (step onProgress token) inputs start.

End WithUri.

End DiskSearch.

(* ================================================================== *)
(** * A host for examples *)
(* ================================================================== *)

(** An instance of the walker's host with Node's POSIX [path] functions,
    ASCII case mapping and the subsequence test of [strings.fuzzyContains];
    the examples below run the model on it. *)
Module PosixHost.
Import JS.

Definition isSlash (c : N) : bool := (c =? 47)%N.

Fixpoint dropWhile (f : N -> bool) (s : jsstring) : jsstring :=
  match s with
  | [] => []
  | c :: r => if f c then dropWhile f r else s
  end.

(** [path.posix.basename]: the last component, without trailing slashes. *)
Definition basename (p : jsstring) : jsstring :=
  rev (fst (span (fun c => negb (isSlash c)) (dropWhile isSlash (rev p)))).

(** [path.posix.dirname]. *)
Definition dirname (p : jsstring) : jsstring :=
  match p with
  | [] => lit "."
  | c :: body =>
      let hasRoot := isSlash c in
      let afterName :=
        dropWhile (fun c => negb (isSlash c)) (dropWhile isSlash (rev body)) in
      match afterName with
      | [] => if hasRoot then lit "/" else lit "."
      | _ :: _ =>
          let stop := length afterName in
          if hasRoot && (stop =? 1) then lit "//" else firstn stop p
      end
  end.

(** [path.join] of two segments that are already normalised. *)
Definition join (a b : jsstring) : jsstring :=
  match rev a with
  | [] => b
  | c :: _ => if isSlash c then a ++ b else a ++ lit "/" ++ b
  end.

(** A query is contained when its characters occur in the lower-cased
    target in order. *)
Fixpoint subsequence (query target : jsstring) : bool :=
  match query, target with
  | [], _ => true
  | _ :: _, [] => false
  | q :: query', t :: target' =>
      if (q =? t)%N then subsequence query' target'
      else subsequence query target'
  end.

Definition fuzzyContains (target query : jsstring) : bool :=
  truthy target && truthy query && (length query <=? length target)
  && subsequence query (map asciiLower target).

Definition stripWildcards (pattern : jsstring) : jsstring :=
  List.filter (fun c => negb (c =? 42)%N) pattern.

(** Decimal digits of a natural number, least significant first. *)
Fixpoint digitsRev (fuel : nat) (n : N) : jsstring :=
  match fuel with
  | O => []
  | S fuel' =>
      if (n <? 10)%N then [(48 + n)%N]
      else (48 + n mod 10)%N :: digitsRev fuel' (n / 10)%N
  end.

Definition numberToString (z : Z) : jsstring :=
  let n := Z.abs_N z in
  (if (z <? 0)%Z then lit "-" else [])
  ++ rev (digitsRev (S (N.to_nat (N.log2 n))) n).

#[export] Instance host : FileSearch.Host := {|
  FileSearch.path_basename := basename;
  FileSearch.path_dirname := dirname;
  FileSearch.path_join := join;
  FileSearch.fuzzyContains := fuzzyContains;
  FileSearch.stripWildcards := stripWildcards;
  FileSearch.toLowerCase := map asciiLower;
  FileSearch.toUpperCase := map asciiUpper;
  FileSearch.numberToString := numberToString;
  FileSearch.normalizeNFC := fun s => s;
  FileSearch.rgCmd := fun folder => lit "rg --files - cwd: " ++ folder;
  FileSearch.path_sep := 47;
  FileSearch.isMacintosh := false;
  FileSearch.isLinux := true
|}.

Definition isAbsolute (p : jsstring) : bool :=
  match p with
  | c :: _ => isSlash c
  | [] => false
  end.

End PosixHost.

(* ================================================================== *)
(** * Terms of the statements *)
(* ================================================================== *)

(** The invariants, measures and observations the lemmas below are stated
    with, by component. *)

(** ** The parser *)

Module ParserTerms.
Import JS Parser.

(** Consing a character onto the first piece. *)
Definition consHead (c : N) (ls : list jsstring) : list jsstring :=
  match ls with l :: ls' => (c :: l) :: ls' | [] => [[c]] end.

Definition startsLF (s : jsstring) : bool :=
  match s with c :: _ => (c =? 10)%N | [] => false end.

Definition mapR (f : RipgrepParser -> RipgrepParser) (r : result) : result :=
  match r with
  | Ok p => Ok (f p)
  | Throw p m => Throw (f p) m
  end.

Definition remText (p : RipgrepParser) : jsstring :=
  match remainder p with Some r => r | None => [] end.

Definition normRem (r : jsstring) : option jsstring :=
  if truthy r then Some r else None.

Definition completeLines (s : jsstring) : list jsstring :=
  removelast (splitLines s).

Definition lastPiece (s : jsstring) : jsstring :=
  List.last (splitLines s) [].

(** Results agree: the same state when the call returned, the same events
    and message when it threw. *)
Definition agree (a b : result) : Prop :=
  match a, b with
  | Ok p, Ok q => p = q
  | Throw p m, Throw q m' => m = m' /\ emitted p = emitted q
  | _, _ => False
  end.

(** The ranges held by the file match being collected. *)
Definition pending (p : RipgrepParser) : nat :=
  match fileMatch p with
  | Some fm => numMatches fm
  | None => 0
  end.

(** The ranges the parser has accepted so far. *)
Definition accepted (p : RipgrepParser) : nat :=
  emittedMatches (emitted p) + pending p.

Definition firedHitLimit (es : list Event) : bool :=
  existsb (fun e => match e with EvHitLimit => true | _ => false end) es.

(** The invariant of a parser with [maxResults = K]. *)
Record capped (K : nat) (p : RipgrepParser) : Prop := {
  cap_max : maxResults p = Some K;
  cap_K : accepted p <= K;
  cap_count : accepted p <= numResults p;
  cap_running : isDone p = false -> numResults p < K;
  cap_limit : firedHitLimit (emitted p) = true <-> K <= numResults p
}.

(** The invariant of the loop in [handleMatchLine]; [a] is the number of
    ranges accepted before the line. *)
Record scanning (K a : nat) (s : Scan) : Prop := {
  sc_count : a + length (matchRanges s) <= count s;
  sc_K : a + length (matchRanges s) <= K;
  sc_running : hitLimit s = false -> count s < K;
  sc_limit : hitLimit s = true -> K <= count s
}.

(** A call only adds events. *)
Definition grows (p : RipgrepParser) (r : result) : Prop :=
  exists fired, emitted (stateOf r) = emitted p ++ fired.

(** The number of [hitLimit] events among events. *)
Definition hitLimits (es : list Event) : nat :=
  length (List.filter (fun e => match e with
                                | EvHitLimit => true
                                | EvResult _ => false
                                end) es).

(** From [p] to [p'] the parser has fired [hitLimit] at most once, not
    at all if it was done, and it is done if it has. *)
Definition firesOnce (p p' : RipgrepParser) : Prop :=
  (isDone p = true -> isDone p' = true)
  /\ exists fired,
       emitted p' = emitted p ++ fired
       /\ hitLimits fired <= 1
       /\ (isDone p = true -> hitLimits fired = 0)
       /\ (0 < hitLimits fired -> isDone p' = true).

(** A text without escape character: it holds no colour code. *)
Definition plainText (s : jsstring) : Prop := Forall (fun c => c <> ESC) s.

(** The text of a match line as ripgrep colours it: each match, with the
    text before it, between a start and an end marker, and the text after
    the last match. *)
Fixpoint coloured (parts : list (jsstring * jsstring)) (tail : jsstring)
  : jsstring :=
  match parts with
  | [] => tail
  | (before, matched) :: rest =>
      before ++ MATCH_START_MARKER ++ matched ++ MATCH_END_MARKER
      ++ coloured rest tail
  end.

(** The same line without the markers. *)
Fixpoint uncoloured (parts : list (jsstring * jsstring)) (tail : jsstring)
  : jsstring :=
  match parts with
  | [] => tail
  | (before, matched) :: rest => before ++ matched ++ uncoloured rest tail
  end.

(** The columns of the matches in the line without markers, from column
    [col] on. *)
Fixpoint rangesOf (lineNum col : Z) (parts : list (jsstring * jsstring))
  : list Range :=
  match parts with
  | [] => []
  | (before, matched) :: rest =>
      let a := (col + Z.of_nat (length before))%Z in
      let b := (a + Z.of_nat (length matched))%Z in
      mkRange lineNum a lineNum b :: rangesOf lineNum b rest
  end.

(** The ranges a parser that has counted [n] results keeps of a line:
    all of them without limit, and otherwise the first one and those
    counted before the limit is reached. *)
Definition kept (maxResults : option nat) (n : nat) (ranges : list Range)
  : list Range :=
  match maxResults with
  | Some k => firstn (Nat.max 1 (k - n)) ranges
  | None => ranges
  end.

(** The ranges the loop keeps, as it decides on them one by one. *)
Fixpoint keptRanges (maxResults : option nat) (lineNum : Z) (hit : bool)
    (n : nat) (col : Z) (parts : list (jsstring * jsstring)) : list Range :=
  match parts with
  | [] => []
  | (before, matched) :: rest =>
      let a := (col + Z.of_nat (length before))%Z in
      let b := (a + Z.of_nat (length matched))%Z in
      (if hit then [] else [mkRange lineNum a lineNum b])
      ++ keptRanges maxResults lineNum
           (hit || reachedLimit maxResults (S n)) (S n) b rest
  end.

(** The pieces the loop pushes to [realTextParts]. *)
Definition chunks (parts : list (jsstring * jsstring)) : list jsstring :=
  flat_map (fun pm => [fst pm; snd pm]) parts.

(** The loop has passed over [k] characters that belong to no marker. *)
Definition advance (s : Scan) (k : nat) : Scan :=
  {| i := i s + Z.of_nat k; lastMatchEndPos := lastMatchEndPos s;
     matchTextStartPos := matchTextStartPos s;
     matchTextStartRealIdx := matchTextStartRealIdx s;
     textRealIdx := textRealIdx s + Z.of_nat k; hitLimit := hitLimit s;
     matchRanges := matchRanges s; realTextParts := realTextParts s;
     count := count s |}.

End ParserTerms.

(** ** The text search engine *)

Module EngineTerms.
Import JS Ripgrep ParserTerms.

(** The spec's words for the whitelist: the known fatal prefixes. *)
Definition fatalPrefixes : list jsstring :=
  [lit "Error parsing regex"; lit "regex parse error";
   lit "error parsing glob"; lit "unsupported encoding"; lit "Literal "].

Definition firstLine (msg : jsstring) : jsstring :=
  trim (hd [] (splitLF (trim msg))).

Definition isFatal (line : jsstring) : bool :=
  existsb (startsWith line) fatalPrefixes.

Definition engineMatches (t : list Effect) : nat :=
  list_sum (map Parser.numMatches (results t)).

Definition killed (t : list Effect) : bool := existsb isKill t.

(** The invariant of an engine whose query has [maxResults = K]. *)
Record sound (K : nat) (e : RipgrepEngine) : Prop := {
  snd_parser :
    match ripgrepParser e with
    | Some p => capped K p
                /\ engineMatches (trace e) <= Parser.emittedMatches (Parser.emitted p)
    | None => engineMatches (trace e) = 0
    end;
  snd_kill : killed (trace e) = true -> isDone e = true;
  snd_hit : forall err c,
    In (Done err c) (trace e) -> limitHit c = true -> killed (trace e) = true;
  snd_close : forall err c,
    In (Done err c) (trace e) -> limitHit c = false ->
    rgProc e = false /\ killed (trace e) = false
}.

(** An effect that is neither a match, a kill nor a terminal keeps the
    invariant. *)
Definition quiet (x : Effect) : Prop :=
  match x with
  | OnResult _ | Kill | Done _ _ => False
  | _ => True
  end.

Ltac fields :=
  cbn [effect trace setParser setDone setThrown ripgrepParser isDone rgProc
       thrown config postProcessExclusions gotData stderr] in *.

(** While the listeners handle the events a parser call has fired, the
    matches still to be delivered are counted with those delivered. *)
Record delivering (K : nat) (todo : nat) (e : RipgrepEngine) : Prop := {
  dl_parser : exists p, ripgrepParser e = Some p /\ capped K p
                /\ engineMatches (trace e) + todo
                   <= Parser.emittedMatches (Parser.emitted p);
  dl_kill : killed (trace e) = true -> isDone e = true;
  dl_hit : forall err c,
    In (Done err c) (trace e) -> limitHit c = true -> killed (trace e) = true;
  dl_close : forall err c,
    In (Done err c) (trace e) -> limitHit c = false ->
    rgProc e = false /\ killed (trace e) = false
}.

Definition answered (e : RipgrepEngine) : Prop :=
  ripgrepParser e = None
  /\ results (trace e) = []
  /\ existsb isSpawn (trace e) = false
  /\ terminals (trace e)
     = [(None, {| limitHit := false; stats := Some (lit "searchProcess") |})].

(** The engine has called [done] at most once, and once it has, neither
    the child's close nor a limit hit can make it call [done] again. *)
Definition doneOnce (e : RipgrepEngine) : Prop :=
  length (terminals (trace e)) <= 1
  /\ (terminals (trace e) <> [] ->
      match ripgrepParser e with
      | None => True
      | Some p => isDone e = true
                  /\ (Parser.isDone p = true \/ rgProc e = false)
      end).

(** The same while the listeners handle the events [todo] of a parser
    call. *)
Definition deliveringOnce (todo : list Parser.Event) (e : RipgrepEngine)
  : Prop :=
  doneOnce e
  /\ (exists p, ripgrepParser e = Some p
                /\ (0 < hitLimits todo -> Parser.isDone p = true))
  /\ hitLimits todo <= 1
  /\ (0 < hitLimits todo -> terminals (trace e) = [] \/ rgProc e = false).

(** An engine that is done without having been cancelled has called
    [done]. *)
Definition doneMeansCalled (e : RipgrepEngine) : Prop :=
  thrown e = None -> isDone e = true -> terminals (trace e) <> [].

(** An engine only adds to its trace. *)
Definition traceGrows (e e' : RipgrepEngine) : Prop :=
  exists rest, trace e' = trace e ++ rest.

Definition isCancel (i : Input) : bool :=
  match i with Cancel => true | _ => false end.

(** The test a file match has passed: the sibling clauses of the query,
    if it has any, do not exclude its path. *)
Definition notExcluded (clauses : option (jsstring -> bool))
    (m : Parser.FileMatch) : Prop :=
  match clauses with
  | Some excluded => excluded (Parser.path m) = false
  | None => True
  end.

(** An engine that filters with [clauses] has reported nothing they
    exclude. *)
Definition excludes (clauses : option (jsstring -> bool))
    (e : RipgrepEngine) : Prop :=
  postProcessExclusions e = clauses
  /\ Forall (notExcluded clauses) (results (trace e)).

End EngineTerms.

(** ** The file walker *)

Module WalkerTerms.
Import JS FileSearch.

(** Effects that are neither a match, a kill nor a terminal. *)
Definition quiet (x : Effect) : Prop :=
  match x with
  | OnMessage _ | SpawnCmd _ | RootDone _ _ => True
  | _ => False
  end.

(** With [maxResults = K], no more than [K] matches are reported, and no
    more than were counted. *)
Definition capInv (K : nat) (w : FileWalker) : Prop :=
  w_maxResults w = Some K
  /\ length (results (trace w)) <= resultCount w
  /\ length (results (trace w)) <= K.

(** Without [exists], the limit flag tells that more than [K] candidates
    were counted. *)
Definition limitInv (K : nat) (w : FileWalker) : Prop :=
  exists_ (config w) = false
  /\ w_maxResults w = Some K
  /\ isLimitHit w = (K <? resultCount w).

(** A terminal or a kill with the limit flag set means the flag is set. *)
Definition flagInv (w : FileWalker) : Prop :=
  (forall err l, In (WalkDone err l) (trace w) -> l = true -> isLimitHit w = true)
  /\ (forall f, In (KillCmd f) (trace w) -> isLimitHit w = true).

(** With [exists], nothing is reported, and a counted candidate sets the
    limit flag. *)
Definition existsInv (w : FileWalker) : Prop :=
  exists_ (config w) = true
  /\ results (trace w) = []
  /\ (0 < resultCount w -> isLimitHit w = true).

(** Everything but [flow.parallel]'s final callback leaves the terminal
    calls as they are. *)
Definition noNewTerminal (t0 : list Effect) (w : FileWalker) : Prop :=
  forall err l, In (WalkDone err l) (trace w) -> In (WalkDone err l) t0.

(** A root has an outcome exactly when its [done] has been called. *)
Definition settledRoot (r : Root) : Prop :=
  doneCalled r = true <-> outcome r <> None.

(** A step of a root keeps the outcome the root has. *)
Definition keepsOutcome (r r' : Root) : Prop :=
  settledRoot r ->
  settledRoot r' /\ (outcome r <> None -> outcome r' = outcome r).

(** The state of a walk that has made at most one terminal call, and
    none before every root had its outcome. *)
Definition oneTerminal (s : Walk) : Prop :=
  Forall settledRoot (roots s)
  /\ (terminals (trace (walker s)) = []
      \/ (allDone (roots s) = true
          /\ length (terminals (trace (walker s))) = 1)).

(** The state of a walk that has made its terminal call exactly if every
    root has reported, with the first error in the order of the roots. *)
Definition completes (s : Walk) : Prop :=
  Forall settledRoot (roots s)
  /\ (allDone (roots s) = false -> terminals (trace (walker s)) = [])
  /\ (allDone (roots s) = true ->
      exists l, terminals (trace (walker s)) = [(firstError (roots s), l)]).

(** The walker [w] with an earlier history: errors recorded and effects
    done before those of [w]. *)
Definition earlier (w : FileWalker) (es : list jsstring) (t : list Effect)
  : FileWalker :=
  {| config := config w;
     normalizedFilePatternLowercase := normalizedFilePatternLowercase w;
     w_maxResults := w_maxResults w; w_maxFilesize := w_maxFilesize w;
     isLimitHit := isLimitHit w; resultCount := resultCount w;
     isCanceled := isCanceled w; directoriesWalked := directoriesWalked w;
     filesWalked := filesWalked w; traversal := traversal w;
     errors := es ++ errors w; cmdResultCount := cmdResultCount w;
     trace := t ++ trace w |}.

(** The same for what a step of a root returns. *)
Definition earlier2 {A} (x : FileWalker * A) (es : list jsstring)
    (t : list Effect) : FileWalker * A :=
  (earlier (fst x) es t, snd x).

Definition earlier3 {A B} (x : FileWalker * A * B) (es : list jsstring)
    (t : list Effect) : FileWalker * A * B :=
  (earlier (fst (fst x)) es t, snd (fst x), snd x).

(** The output of a command that lists files, one on a line. *)
Definition listing (files : list jsstring) : jsstring :=
  concat (map (fun f => f ++ [10%N]) files).

(** A text without line feed. *)
Definition noLF (s : jsstring) : Prop := contains s 10 = false.

(** The candidate the fast path makes of a line. *)
Definition lineCandidate `{Host} (rootFolder relativePath : jsstring)
  : IRawFileMatch :=
  {| base := Some rootFolder; relativePath := relativePath;
     basename := path_basename relativePath; size := None |}.

(** What a walker has reported since [w0], none of it the path [fp]. *)
Definition reportedSince (fp : jsstring) (w0 w : FileWalker) : Prop :=
  config w = config w0
  /\ exists rest,
       results (trace w) = results (trace w0) ++ rest
       /\ Forall (fun m => relativePath m <> fp) rest.

(** The walker still reads the query [cfg], and all it has reported
    passes the tests of [matchFile] for that query. *)
Definition filtered `{Host} (cfg : IRawSearch) (w : FileWalker) : Prop :=
  config w = cfg
  /\ normalizedFilePatternLowercase w
     = normalizedFilePatternLowercase (new cfg)
  /\ Forall (fun m => survives (new cfg) m = true) (results (trace w)).

End WalkerTerms.

(** ** The raw search service *)

Module ServiceTerms.
Import JS FileSearch RawSearch.

(** The matches an engine has handed over. *)
Fixpoint matchesOf (engine : list EngineOut) : list IRawFileMatch :=
  match engine with
  | [] => []
  | Match m :: engine' => m :: matchesOf engine'
  | _ :: engine' => matchesOf engine'
  end.

(** The matches carried by progress items. *)
Definition itemMatches (p : IFileSearchProgressItem) : list IRawFileMatch :=
  match p with
  | FMatch m => [m]
  | FBatch ms => ms
  | FProgress _ => []
  end.

Definition flatMatches (ps : list IFileSearchProgressItem) : list IRawFileMatch :=
  flat_map itemMatches ps.

(** The first terminal call of an engine. *)
Fixpoint firstFinished (engine : list EngineOut)
  : option (option jsstring * ISearchEngineSuccess) :=
  match engine with
  | [] => None
  | Finished err c :: _ => Some (err, c)
  | _ :: engine' => firstFinished engine'
  end.

Definition settledBy (f : option (option jsstring * ISearchEngineSuccess))
  : Settled ISearchEngineSuccess :=
  match f with
  | None => Pending
  | Some (Some e, _) => Rejected e
  | Some (None, c) => Resolved c
  end.

(** Without a batch size nothing is ever batched. *)
Definition batchOk (bs : option Z) (s : Search) : Prop :=
  match bs with
  | Some b => if (b =? 0)%Z then batch s = [] else True
  | None => batch s = []
  end.

(** A walker only adds to its trace. *)
Definition extends (t0 : list Effect) (w : FileWalker) : Prop :=
  exists rest, trace w = t0 ++ rest.

(** The paths carried by an item of the stream. *)
Definition itemPaths (p : ISerializedSearchProgressItem) : list jsstring :=
  match p with
  | SMatch path => [path]
  | SBatch paths => paths
  | SProgress _ => []
  end.

(** The messages an engine has handed over, and those among progress
    items. *)
Definition messagesOf (engine : list EngineOut) : list jsstring :=
  flat_map (fun o => match o with Progress m => [m] | _ => [] end) engine.

Definition itemMessages (ps : list IFileSearchProgressItem) : list jsstring :=
  flat_map (fun p => match p with FProgress m => [m] | _ => [] end) ps.

End ServiceTerms.

(** ** The batched collector *)

Module CollectorTerms.
Import RawSearch.Collector.

Ltac collectorFields :=
  cbn [maxBatchSize totalNumberCompleted batch batchSize timeoutHandle timer
       delivered].

(** The calls a collector receives. *)
Inductive Op (T : Type) :=
| AddItem (item : T) (size : nat)
| AddItems (items : list T) (size : nat)
| Flush
| TimerFires.
Arguments AddItem {T} item size.
Arguments AddItems {T} items size.
Arguments Flush {T}.
Arguments TimerFires {T}.

Definition call {T} (c : BatchedCollector T) (o : Op T) : BatchedCollector T :=
  match o with
  | AddItem item size => addItem c item size
  | AddItems items size => addItems c items size
  | Flush => flush c
  | TimerFires => timerFires c
  end.

(** The items and the sizes handed to the collector. *)
Definition added {T} (o : Op T) : list T :=
  match o with
  | AddItem item _ => [item]
  | AddItems items _ => items
  | _ => []
  end.

Definition sizeOf {T} (o : Op T) : nat :=
  match o with
  | AddItem _ size | AddItems _ size => size
  | _ => 0
  end.

(** Items come with a size that is not zero. *)
Definition sized {T} (o : Op T) : Prop :=
  match o with
  | AddItem _ size => 0 < size
  | AddItems items size => items = [] \/ 0 < size
  | _ => True
  end.

(** A batch without size is empty. *)
Definition noHiddenItems {T} (c : BatchedCollector T) : Prop :=
  batchSize c = 0 -> batch c = [].

(** What a step does: the deliveries it adds carry, with the batch it
    leaves, the batch it found. *)
Record stepsTo {T} (c c' : BatchedCollector T) (items : list T) (size : nat)
  : Prop := {
  st_max : maxBatchSize c' = maxBatchSize c;
  st_new : exists new,
    delivered c' = delivered c ++ new
    /\ deliveredItems new ++ batch c' = batch c ++ items;
  st_size : totalNumberCompleted c' + batchSize c'
            = totalNumberCompleted c + batchSize c + size
}.

End CollectorTerms.

(** ** Text searches of the service *)

Module TextServiceTerms.
Import JS RawSearch RawSearch.Collector TextService CollectorTerms.

(** The items and the messages among the calls of [progressCallback]. *)
Definition callItems {M} (cs : list (Call M)) : list M :=
  flat_map (fun c =>
    match c with
    | Items (One item) => [item]
    | Items (Many items) => items
    | Message _ => []
    end) cs.

Definition callMessages {M} (cs : list (Call M)) : list jsstring :=
  flat_map (fun c => match c with Message m => [m] | Items _ => [] end) cs.

(** What the engine has handed to [onResult] and to [onProgress]. *)
Definition engineResults {R S} (inputs : list (Input R S)) : list R :=
  flat_map (fun i => match i with Engine (TResult r) => [r] | _ => [] end)
    inputs.

Definition engineMessages {R S} (inputs : list (Input R S)) : list jsstring :=
  flat_map (fun i => match i with Engine (TMessage m) => [m] | _ => [] end)
    inputs.

(** The calls of the collector behind the inputs of the two searches. *)
Definition ripgrepOps {M S} (numMatches : M -> nat) (i : Input M S)
  : list (Op M) :=
  match i with
  | Engine (TResult m) => [AddItem m (numMatches m)]
  | Engine (TMessage _) => []
  | Engine (TDone _ _) => [Flush]
  | Timer => [TimerFires]
  end.

Definition textOps {M S} (numMatches : M -> nat) (i : Input (list M) S)
  : list (Op M) :=
  match i with
  | Engine (TResult matches) =>
      [AddItems matches
         (fold_left (fun acc m => acc + numMatches m) matches 0)]
  | Engine (TMessage _) => []
  | Engine (TDone _ _) => [Flush]
  | Timer => [TimerFires]
  end.

(** The calls mirror the collector's deliveries. *)
Definition inStep {M C} (s : TextSearch M C) : Prop :=
  callItems (calls s) = deliveredItems (delivered (collector s)).

End TextServiceTerms.

(** ** The globs and the pattern handed to ripgrep *)

Module ArgsTerms.
Import JS RgArgs.

(** The backslashes a string starts with. *)
Fixpoint leadingBackslashes (s : jsstring) : nat :=
  match s with
  | c :: rest => if (c =? 92)%N then S (leadingBackslashes rest) else 0
  | [] => 0
  end.

(** The pattern ends with a dollar sign that an even number of
    backslashes precedes. *)
Definition endsUnescaped (pattern : jsstring) : bool :=
  match rev pattern with
  | c :: before => (c =? 36)%N && Nat.even (leadingBackslashes before)
  | [] => false
  end.

(** No backslash occurs in the string. *)
Definition noBackslash (s : jsstring) : bool :=
  forallb (fun c => negb (c =? 92)%N) s.

(** The string has forward slashes only, but for the two backslashes a
    UNC path starts with. *)
Definition forwardSlashes (g : jsstring) : Prop :=
  noBackslash g = true
  \/ (firstn 2 g = lit "\\" /\ noBackslash (skipn 2 g) = true).

Definition globsOk (r : IRgGlobResult) : Prop :=
  Forall forwardSlashes (globArgs r)
  /\ Forall forwardSlashes (keys (default [] (siblingClauses r))).

End ArgsTerms.

(** ** The client of the search process *)

Module DiskTerms.
Import JS RawSearch DiskSearch.

(** The file matches among progress items, as [createFileMatch] builds
    them. *)
Definition fileMatchesOf {URI Match : Type} (uri_file : jsstring -> URI)
    (items : list (@ISerializedSearchProgressItem Match))
  : list (@FileMatch URI Match) :=
  flat_map (fun p =>
    match p with
    | Batch ds => map (createFileMatch uri_file) ds
    | Single d =>
        if truthy (path d) then [createFileMatch uri_file d] else []
    | Progress _ => []
    end) items.

(** The file matches among the calls of [onProgress]. *)
Definition reportedFiles {URI Match : Type}
    (ps : list (@ISearchProgressItem URI Match))
  : list (@FileMatch URI Match) :=
  flat_map (fun p => match p with PFile m => [m] | _ => [] end) ps.

(** The events that carry the given progress items. *)
Definition fireAll {Match : Type} (Stats : Type)
    (items : list (@ISerializedSearchProgressItem Match))
  : list (@Input Match Stats) :=
  map (fun p => Fire (Item p)) items.

End DiskTerms.

(* ================================================================== *)
(** * Examples *)
(* ================================================================== *)

(** ** A text search on the POSIX host *)

Module TextExample.
Import JS Ripgrep.

Definition getRgArgs (config : IRawSearch) : list jsstring :=
  [lit "--hidden"; lit "--heading"; lit "--line-number"; lit "--color";
   lit "ansi"] ++ folderQueries config ++ extraFiles config.

Definition rgCmd (config : IRawSearch) : jsstring :=
  lit "rg " ++ join (map (fun a => a ++ lit " ") (getRgArgs config)) ++ lit "- cwd: /".

Definition toUpperCase (s : jsstring) : jsstring := map asciiUpper s.

Definition runSearch : IRawSearch -> list Input -> RipgrepEngine :=
  Ripgrep.runSearch toUpperCase PosixHost.isAbsolute PosixHost.join false
    getRgArgs (fun _ => None) rgCmd.

Definition step : RipgrepEngine -> Input -> RipgrepEngine :=
  Ripgrep.step toUpperCase PosixHost.isAbsolute PosixHost.join.

(** What ripgrep prints for a file with two matches on its first line. *)
Definition fileLine : jsstring :=
  Parser.MATCH_END_MARKER ++ lit "file.txt" ++ Parser.MATCH_END_MARKER ++ [10%N].

Definition matchLine : jsstring :=
  Parser.MATCH_END_MARKER ++ lit "1" ++ Parser.MATCH_END_MARKER ++ lit ":foo "
  ++ Parser.MATCH_START_MARKER ++ lit "bar" ++ Parser.MATCH_END_MARKER
  ++ lit " baz "
  ++ Parser.MATCH_START_MARKER ++ lit "bar" ++ Parser.MATCH_END_MARKER ++ [10%N].

Definition query (maxResults : option nat) : IRawSearch :=
  {| folderQueries := [lit "/ws"]; extraFiles := []; maxResults := maxResults |}.

Definition emptyQuery : IRawSearch :=
  {| folderQueries := []; extraFiles := []; maxResults := Some 5 |}.

End TextExample.

(** ** File searches on the POSIX host *)

Module WalkExample.
Import JS FileSearch.

(** A query over the given roots with nothing excluded. *)
Definition query (roots : list jsstring) (maxResults : option nat)
    (exists_ : bool) : IRawSearch :=
  {| folderQueries := roots; extraFiles := None;
     filePattern := None;
     includePattern := None; excludePattern := None;
     folderExclude := fun _ _ _ _ => false;
     noSiblingsClauses := fun _ => true;
     maxResults := maxResults; exists_ := exists_; maxFilesize := None;
     useRipgrep := None; sortByScore := false; cacheKey := None |}.

(** A query for [x.js] that excludes every [.js] file with a [.ts]
    sibling of the same name. *)
Definition siblingQuery : IRawSearch :=
  {| folderQueries := [lit "/ws"]; extraFiles := None;
     filePattern := Some (lit "x.js");
     includePattern := None; excludePattern := None;
     folderExclude := fun _ _ b siblings =>
       match siblings with
       | Some s => eqb b (lit "x.js") && existsb (eqb (lit "x.ts")) s
       | None => false
       end;
     noSiblingsClauses := fun _ => false;
     maxResults := None; exists_ := false; maxFilesize := None;
     useRipgrep := None; sortByScore := false; cacheKey := None |}.

Definition lines (files : list jsstring) : jsstring :=
  concat (map (fun f => f ++ [10%N]) files).

Definition file (root path : string) : IRawFileMatch :=
  {| base := Some (lit root); relativePath := lit path;
     basename := PosixHost.basename (lit path); size := None |}.

End WalkExample.

(** ** Caches with one row and with two *)

Module CacheExample.
Import JS FileSearch RawSearch.

Definition entry (p : string) : IRawFileMatch :=
  {| base := Some (lit "/some/where"); relativePath := lit p;
     basename := lit p; size := Some 3 |}.

Definition stats : ISearchEngineStats :=
  {| st_traversal := Node; st_directoriesWalked := 2; st_filesWalked := 3;
     st_cmdResultCount := None |}.

Definition complete : ISearchEngineSuccess :=
  {| e_limitHit := false; e_stats := stats |}.

Definition row : ICacheRow :=
  {| promise := Resolved (complete, [entry "bcb"; entry "bbc"; entry "aab"]);
     resolved := true |}.

Definition cache : Cache := [(lit "b", row)].

(** A second search, for ["bc"], done when the file [bcd] was there. *)
Definition laterRow : ICacheRow :=
  {| promise := Resolved (complete, [entry "bcb"; entry "bcd"]);
     resolved := true |}.

Definition twoRows : Cache := setRow cache (lit "bc") laterRow.

End CacheExample.

(** ** Searches through the service *)

Module ServiceExample.
Import JS FileSearch RawSearch.

(** A comparator for the examples: shorter relative paths first. *)
Definition compareItemsByScore (_ : option jsstring) (a b : IRawFileMatch) : Z :=
  (Z.of_nat (length (relativePath a)) - Z.of_nat (length (relativePath b)))%Z.

(** Two roots: the child of the first fails on a glob, the child of the
    second lists one file. *)
Definition failingRoot : list (nat * CmdEvent) :=
  [(0, Stderr (lit "error parsing glob x")); (0, Close 2);
   (1, Stdout (WalkExample.lines [lit "f1"])); (1, Close 0)].

(** One root whose child lists three files and exits. *)
Definition threeFiles : list (nat * CmdEvent) :=
  [(0, Stdout (WalkExample.lines [lit "a"; lit "bb"; lit "ccc"])); (0, Close 0)].

Definition sortedQuery (maxResults : option nat) : IRawSearch :=
  {| folderQueries := [lit "/ws"]; extraFiles := None; filePattern := None;
     includePattern := None; excludePattern := None;
     folderExclude := fun _ _ _ _ => false;
     noSiblingsClauses := fun _ => true;
     maxResults := maxResults; exists_ := false; maxFilesize := None;
     useRipgrep := None; sortByScore := true; cacheKey := None |}.

End ServiceExample.

(** ** A sorted search with a cache key *)

Module RoundTripExample.
Import JS FileSearch RawSearch.

(** A sorted query for [b] with a cache key. *)
Definition query : IRawSearch :=
  {| folderQueries := [lit "/ws"]; extraFiles := None;
     filePattern := Some (lit "b");
     includePattern := None; excludePattern := None;
     folderExclude := fun _ _ _ _ => false;
     noSiblingsClauses := fun _ => true;
     maxResults := None; exists_ := false; maxFilesize := None;
     useRipgrep := None; sortByScore := true;
     cacheKey := Some (lit "quickopen") |}.

End RoundTripExample.

(* ================================================================== *)
(** * Lemmas and theorems *)
(* ================================================================== *)

(** ** The parser: lines and chunks *)

Module ParserProps.
Import JS Parser ParserTerms.

Lemma splitLines_cons (c : N) (r : jsstring) :
  splitLines (c :: r) =
  if (c =? 10)%N then [] :: splitLines r
  else if (c =? 13)%N && startsLF r then splitLines r
       else consHead c (splitLines r).
Proof.
  simpl. destruct (c =? 10)%N; [reflexivity|].
  destruct (c =? 13)%N; simpl; [|reflexivity].
  destruct r as [|d r']; [reflexivity|].
  destruct d; [reflexivity|].
  repeat (destruct p; try reflexivity).
Qed.

Lemma splitLines_nonempty (s : jsstring) : splitLines s <> [].
Proof.
  induction s as [|c r IH]; [discriminate|].
  rewrite splitLines_cons.
  destruct (c =? 10)%N; [discriminate|].
  destruct (_ && _); [exact IH|].
  destruct (splitLines r); discriminate.
Qed.

Lemma splitLines_single (s l : jsstring) : splitLines s = [l] -> l = s.
Proof.
  revert l. induction s as [|c r IH]; intros l H.
  - simpl in H. congruence.
  - rewrite splitLines_cons in H.
    destruct (c =? 10)%N.
    + pose proof (splitLines_nonempty r). destruct (splitLines r); congruence.
    + destruct ((c =? 13)%N && startsLF r) eqn:E.
      * apply andb_true_iff in E as [_ E].
        destruct r as [|d r']; [discriminate|]. simpl in E.
        rewrite splitLines_cons, E in H.
        pose proof (splitLines_nonempty r'). destruct (splitLines r'); congruence.
      * pose proof (splitLines_nonempty r).
        destruct (splitLines r) as [|l' ls] eqn:Er; [contradiction|].
        simpl in H. injection H as <- ->. f_equal. apply IH. reflexivity.
Qed.

Lemma last_app_nonempty {A} (l x : list A) (d : A) :
  x <> [] -> List.last (l ++ x) d = List.last x d.
Proof.
  intros Hx. induction l as [|a l IH]; simpl; [reflexivity|].
  rewrite IH. destruct (l ++ x) eqn:E; [|reflexivity].
  apply app_eq_nil in E. tauto.
Qed.

Lemma startsLF_app (a b : jsstring) : a <> [] -> startsLF (a ++ b) = startsLF a.
Proof. destruct a; [congruence|reflexivity]. Qed.

Lemma consHead_split (c : N) (x : list jsstring) (b : jsstring) :
  x <> [] ->
  (forall l, x = [l] -> splitLines ((c :: l) ++ b) = consHead c (splitLines (l ++ b))) ->
  consHead c (removelast x ++ splitLines (List.last x [] ++ b)) =
  removelast (consHead c x) ++ splitLines (List.last (consHead c x) [] ++ b).
Proof.
  intros Hne Hs. destruct x as [|l ls]; [contradiction|].
  destruct ls as [|l' ls'].
  - simpl. symmetry. apply Hs. reflexivity.
  - reflexivity.
Qed.

Lemma splitLines_app (a b : jsstring) :
  splitLines (a ++ b) =
  removelast (splitLines a) ++ splitLines (List.last (splitLines a) [] ++ b).
Proof.
  induction a as [|c a IH]; [reflexivity|].
  rewrite <- app_comm_cons. rewrite !splitLines_cons.
  pose proof (splitLines_nonempty a) as Hne.
  destruct (c =? 10)%N eqn:E10.
  - rewrite IH. destruct (splitLines a) eqn:Ea; [contradiction|]. reflexivity.
  - destruct a as [|d a'].
    + (* the last character of the first part *)
      change (splitLines []) with [[] : jsstring].
      change (startsLF []) with false. rewrite andb_false_r.
      change (removelast (consHead c [[]])) with (@nil jsstring).
      change (List.last (consHead c [[]]) []) with [c].
      change ([] ++ splitLines ([c] ++ b)) with (splitLines (c :: b)).
      rewrite (splitLines_cons c b), E10. reflexivity.
    + rewrite (startsLF_app (d :: a') b) by discriminate.
      destruct ((c =? 13)%N && startsLF (d :: a')) eqn:E.
      * exact IH.
      * rewrite IH. apply consHead_split; [exact Hne|].
        intros l Hl. apply splitLines_single in Hl. subst l.
        rewrite <- app_comm_cons. rewrite splitLines_cons, E10.
        rewrite (startsLF_app (d :: a') b) by discriminate. rewrite E. reflexivity.
Qed.

Section WithPath.
Variable path_isAbsolute : jsstring -> bool.
Variable path_join : jsstring -> jsstring -> jsstring.

Local Abbreviation handleMatchLine := (handleMatchLine path_isAbsolute path_join).
Local Abbreviation handleLine := (handleLine path_isAbsolute path_join).
Local Abbreviation handleLines := (handleLines path_isAbsolute path_join).
Local Abbreviation handleDecodedData := (handleDecodedData path_isAbsolute path_join).
Local Abbreviation handleData := (handleData path_isAbsolute path_join).
Local Abbreviation flush := (flush path_isAbsolute path_join).
Local Abbreviation feed := (feed path_isAbsolute path_join).

Lemma handleMatchLine_setRemainder p r n t :
  handleMatchLine (setRemainder p r) n t =
  mapR (fun q => setRemainder q r) (handleMatchLine p n t).
Proof.
  destruct p as [mx root extra fm rem done num em].
  unfold Parser.handleMatchLine. cbn [fileMatch setRemainder extraSearchFiles].
  destruct fm as [fm|]; cbn [bind].
  - cbn [maxResults numResults fileMatch setNumResults setFileMatch].
    destruct (hitLimit _); reflexivity.
  - destruct extra as [|f fs]; [reflexivity|].
    destruct (truthy f); [|reflexivity].
    cbn [bind setFileMatch maxResults numResults fileMatch setNumResults].
    destruct (hitLimit _); reflexivity.
Qed.

Lemma handleLine_setRemainder p r l :
  handleLine (setRemainder p r) l =
  mapR (fun q => setRemainder q r) (handleLine p l).
Proof.
  unfold Parser.handleLine.
  destruct (RESULT_REGEX _) as [[[r1 r2] r3]|].
  - apply handleMatchLine_setRemainder.
  - destruct (FILE_REGEX _); [|reflexivity].
    destruct p as [mx root extra fm rem done num em].
    destruct fm; reflexivity.
Qed.

Lemma handleLines_setRemainder ls : forall p r,
  handleLines (setRemainder p r) ls =
  mapR (fun q => setRemainder q r) (handleLines p ls).
Proof.
  induction ls as [|l ls IH]; intros p r; [reflexivity|].
  cbn [Parser.handleLines].
  change (isDone (setRemainder p r)) with (isDone p).
  destruct (isDone p); [reflexivity|].
  rewrite handleLine_setRemainder.
  destruct (handleLine p l) as [q|q m]; cbn [mapR bind]; [apply IH|reflexivity].
Qed.

Lemma handleLines_done p ls : isDone p = true -> handleLines p ls = Ok p.
Proof. intros H. destruct ls; cbn [Parser.handleLines]; [reflexivity|now rewrite H]. Qed.

Lemma handleLines_app l1 : forall p l2,
  handleLines p (l1 ++ l2) =
  bind (handleLines p l1) (fun q => handleLines q l2).
Proof.
  induction l1 as [|l l1 IH]; intros p l2; [reflexivity|].
  cbn [app Parser.handleLines].
  destruct (isDone p) eqn:Hd.
  - cbn [bind]. now rewrite handleLines_done.
  - destruct (handleLine p l) as [q|q m]; cbn [bind]; [apply IH|reflexivity].
Qed.

Lemma handleLine_empty p : handleLine p [] = Ok p.
Proof. reflexivity. Qed.

Lemma handleLines_empty_line p : handleLines p [[]] = Ok p.
Proof. cbn [Parser.handleLines]. rewrite handleLine_empty. now destruct (isDone p). Qed.

Lemma bind_Ok r : bind r Ok = r.
Proof. now destruct r. Qed.

Lemma bind_assoc r k1 k2 :
  bind (bind r k1) k2 = bind r (fun p => bind (k1 p) k2).
Proof. now destruct r. Qed.

Lemma bind_ext r k1 k2 : (forall p, k1 p = k2 p) -> bind r k1 = bind r k2.
Proof. intros H. destruct r; cbn [bind]; auto. Qed.

Lemma handleDecodedData_eq p d :
  handleDecodedData p d =
  handleLines (setRemainder p (normRem (lastPiece (remText p ++ d))))
    (completeLines (remText p ++ d)).
Proof.
  unfold Parser.handleDecodedData, remText, normRem, lastPiece, completeLines.
  assert (E : match remainder p with
              | Some r => if truthy r then r ++ d else d
              | None => d
              end = match remainder p with Some r => r | None => [] end ++ d).
  { destruct (remainder p) as [[|c r]|]; reflexivity. }
  rewrite E. set (s := _ ++ d).
  destruct (truthy (List.last (splitLines s) [])) eqn:Et; [reflexivity|].
  rewrite (app_removelast_last [] (splitLines_nonempty s)) at 1.
  rewrite handleLines_app.
  assert (El : List.last (splitLines s) [] = []) by (destruct (List.last _ _); [reflexivity|discriminate]).
  rewrite El. rewrite <- (bind_Ok (handleLines _ (removelast _))) at 2.
  apply bind_ext. apply handleLines_empty_line.
Qed.

Lemma setRemainder_id p : setRemainder p (remainder p) = p.
Proof. now destruct p. Qed.

Lemma handleLines_remainder p ls q :
  handleLines p ls = Ok q -> remainder q = remainder p.
Proof.
  intros H. rewrite <- (setRemainder_id p) in H.
  rewrite handleLines_setRemainder in H.
  destruct (handleLines p ls) as [q'|]; [|discriminate].
  injection H as <-. reflexivity.
Qed.

Lemma remText_normRem p r : remText (setRemainder p (normRem r)) = r.
Proof. unfold remText, normRem. destruct r; reflexivity. Qed.

Lemma agree_refl a : agree a a.
Proof. destruct a; simpl; auto. Qed.

Lemma agree_sym a b : agree a b -> agree b a.
Proof. destruct a, b; simpl; intuition congruence. Qed.

Lemma agree_trans a b c : agree a b -> agree b c -> agree a c.
Proof. destruct a, b, c; simpl; intuition congruence. Qed.

Lemma agree_bind a b k1 k2 :
  agree a b -> (forall p, agree (k1 p) (k2 p)) -> agree (bind a k1) (bind b k2).
Proof.
  destruct a, b; simpl; intros H Hk; try contradiction.
  - subst. apply Hk.
  - exact H.
Qed.

Lemma agree_observe a b : agree a b -> observe a = observe b.
Proof.
  destruct a, b; simpl; intros H; try contradiction.
  - now subst.
  - destruct H as [-> ->]. reflexivity.
Qed.

Lemma two_chunks p d1 d2 :
  agree (bind (handleDecodedData p d1) (fun q => handleDecodedData q d2))
        (handleDecodedData p (d1 ++ d2)).
Proof.
  rewrite (handleDecodedData_eq p d1), (handleDecodedData_eq p (d1 ++ d2)).
  rewrite app_assoc. set (s1 := remText p ++ d1).
  unfold completeLines at 2, lastPiece at 2.
  rewrite (splitLines_app s1 d2).
  rewrite removelast_app by apply splitLines_nonempty.
  rewrite last_app_nonempty by apply splitLines_nonempty.
  fold (completeLines s1) (lastPiece s1).
  fold (completeLines (lastPiece s1 ++ d2)) (lastPiece (lastPiece s1 ++ d2)).
  rewrite handleLines_app. rewrite !handleLines_setRemainder.
  destruct (handleLines p (completeLines s1)) as [q|q m]; cbn [mapR bind].
  - rewrite handleDecodedData_eq. rewrite remText_normRem.
    change (setRemainder (setRemainder q ?a) ?b) with (setRemainder q b).
    apply agree_refl.
  - split; reflexivity.
Qed.

Lemma feed_app cs1 : forall p cs2,
  feed p (cs1 ++ cs2) = bind (feed p cs1) (fun q => feed q cs2).
Proof.
  induction cs1 as [|c cs1 IH]; intros p cs2; [reflexivity|].
  cbn [app Parser.feed]. rewrite bind_assoc. apply bind_ext. intros q. apply IH.
Qed.

Lemma feed_concat cs : forall p c,
  agree (feed p (c :: cs)) (handleDecodedData p (concat (c :: cs))).
Proof.
  induction cs as [|c' cs IH]; intros p c.
  - cbn [Parser.feed concat]. rewrite app_nil_r, bind_Ok. apply agree_refl.
  - change (feed p (c :: c' :: cs))
      with (bind (handleDecodedData p c) (fun q => feed q (c' :: cs))).
    change (concat (c :: c' :: cs)) with (c ++ concat (c' :: cs)).
    eapply agree_trans; [|apply two_chunks].
    apply agree_bind; [apply agree_refl|]. intros q. apply IH.
Qed.

(** C6: the parser is insensitive to chunk boundaries.  Feeding the chunks
    of any partition of the output one at a time and then flushing makes
    the listeners observe the same events, and so the same file matches
    with the same ranges, and the same exception if one is thrown, as
    feeding the whole output as a single chunk and then flushing.  This
    holds from every state of the parser and for every limit. *)
Theorem chunk_boundaries_do_not_matter p chunks decoderEnd :
  observe (run path_isAbsolute path_join p chunks decoderEnd)
  = observe (run path_isAbsolute path_join p [concat chunks] decoderEnd).
Proof.
  unfold run, Parser.flush. rewrite <- !bind_assoc.
  apply agree_observe. apply agree_bind; [|intros; apply agree_refl].
  assert (L : agree (bind (feed p chunks) (fun q => handleDecodedData q decoderEnd))
                    (handleDecodedData p (concat chunks ++ decoderEnd))).
  { assert (E : bind (feed p chunks) (fun q => handleDecodedData q decoderEnd)
                = feed p (chunks ++ [decoderEnd])).
    { rewrite feed_app. apply bind_ext. intros q. cbn [Parser.feed].
      now rewrite bind_Ok. }
    rewrite E. destruct chunks as [|c cs].
    - cbn [app concat]. rewrite <- (app_nil_r decoderEnd) at 2.
      apply (feed_concat [] p decoderEnd).
    - rewrite <- app_comm_cons.
      replace (concat (c :: cs) ++ decoderEnd) with (concat (c :: cs ++ [decoderEnd])).
      + apply feed_concat.
      + rewrite app_comm_cons, concat_app. cbn [concat]. now rewrite app_nil_r. }
  eapply agree_trans; [exact L|]. apply agree_sym.
  cbn [Parser.feed]. rewrite bind_Ok. apply two_chunks.
Qed.

End WithPath.
End ParserProps.

(** ** Strings *)

Module JSFacts.
Import JS.

Lemma eqb_eq (a b : jsstring) : eqb a b = true <-> a = b.
Proof.
  revert b. induction a as [|x a IH]; intros [|y b]; simpl; try (split; congruence).
  rewrite andb_true_iff, N.eqb_eq, IH. split; [intros [-> ->]; reflexivity|].
  intros E. injection E as -> ->. auto.
Qed.

Lemma eqb_refl (a : jsstring) : eqb a a = true.
Proof. now apply eqb_eq. Qed.

Lemma eqb_neq (a b : jsstring) : eqb a b = false <-> a <> b.
Proof.
  split.
  - intros E ->. rewrite eqb_refl in E. discriminate.
  - intros N. destruct (eqb a b) eqn:E; [|reflexivity]. apply eqb_eq in E. contradiction.
Qed.

Lemma startsWith_app (s pre : jsstring) :
  startsWith s pre = true <-> exists rest, s = pre ++ rest.
Proof.
  revert s. induction pre as [|n pre IH]; intros s; simpl.
  - split; [intros _; now exists s|reflexivity].
  - destruct s as [|h s]; [split; [discriminate|intros [r Hr]; discriminate]|].
    rewrite andb_true_iff, N.eqb_eq, IH. split.
    + intros [-> [r ->]]. now exists r.
    + intros [r Hr]. injection Hr as -> ->. split; [reflexivity|now exists r].
Qed.

Lemma startsWith_truthy (s pre : jsstring) :
  startsWith s pre = true -> truthy pre = true -> truthy s = true.
Proof. destruct pre, s; simpl; congruence. Qed.

(** Trimming keeps nothing of a string of white space only, so a string
    whose trimmed first line is not empty is not empty itself. *)
Lemma trimStart_nil : trimStart [] = [].
Proof. reflexivity. Qed.

Lemma trim_nil : trim [] = [].
Proof. reflexivity. Qed.

Lemma trimStart_head (s r : jsstring) (c : N) :
  trimStart s = c :: r -> isWhiteSpace c = false.
Proof.
  induction s as [|x s IH]; simpl; [discriminate|].
  destruct (isWhiteSpace x) eqn:E; [exact IH|].
  intros H. injection H as <- _. exact E.
Qed.

Lemma trimStart_snoc (y : jsstring) (c : N) :
  isWhiteSpace c = false -> exists z, trimStart (y ++ [c]) = z ++ [c].
Proof.
  intros Hc. induction y as [|x y IH]; simpl.
  - rewrite Hc. now exists [].
  - destruct (isWhiteSpace x); [exact IH|]. now exists (x :: y).
Qed.

(** A string that is not empty after trimming ends, trimmed, with a
    character that is not white space. *)
Lemma trim_last (s : jsstring) :
  trim s <> [] -> exists y c, trim s = y ++ [c] /\ isWhiteSpace c = false.
Proof.
  unfold trim, trimEnd. intros H.
  destruct (trimStart (rev (trimStart s))) as [|c r] eqn:E; [contradiction|].
  exists (rev r), c. split; [reflexivity|]. eapply trimStart_head; eassumption.
Qed.

Lemma trim_snoc (y : jsstring) (c : N) :
  isWhiteSpace c = false -> trim (y ++ [c]) <> [].
Proof.
  intros Hc. unfold trim, trimEnd.
  destruct (trimStart_snoc y c Hc) as [z ->].
  rewrite rev_app_distr. simpl. rewrite Hc. simpl.
  destruct (rev (rev z)); discriminate.
Qed.

Lemma splitLF_nonempty (s : jsstring) : splitLF s <> [].
Proof.
  induction s as [|c r IH]; simpl; [discriminate|].
  destruct (c =? 10)%N; [discriminate|]. destruct (splitLF r); discriminate.
Qed.

Lemma splitLF_snoc (a : jsstring) (c : N) :
  (c =? 10)%N = false ->
  splitLF (a ++ [c]) =
  removelast (splitLF a) ++ [List.last (splitLF a) [] ++ [c]].
Proof.
  intros Hc. induction a as [|x a IH].
  - simpl. now rewrite Hc.
  - pose proof (splitLF_nonempty a) as Ha.
    cbn [app splitLF]. rewrite IH.
    destruct (splitLF a) as [|l ls] eqn:Ea; [contradiction|].
    destruct (x =? 10)%N; [reflexivity|].
    destruct ls; reflexivity.
Qed.

Lemma splitLF_last_snoc (a : jsstring) (c : N) :
  (c =? 10)%N = false ->
  List.last (splitLF (a ++ [c])) [] = List.last (splitLF a) [] ++ [c].
Proof. intros Hc. rewrite splitLF_snoc by exact Hc. apply last_last. Qed.

End JSFacts.

(** ** The whitelist of error messages *)

Module RipgrepFacts.
Import JS JSFacts Ripgrep EngineTerms.

Section ErrorMessages.
Variable toUpperCase : jsstring -> jsstring.

Lemma rgErrorMsgForDisplay_whitelist (msg : jsstring) :
  rgErrorMsgForDisplay toUpperCase msg <> None <-> isFatal (firstLine msg) = true.
Proof.
  unfold rgErrorMsgForDisplay, isFatal, fatalPrefixes, firstLine.
  set (fl := trim (hd [] (splitLF (trim msg)))).
  cbn [existsb].
  destruct (startsWith fl (lit "Error parsing regex")); [split; [reflexivity|discriminate]|].
  destruct (startsWith fl (lit "regex parse error")); [split; [reflexivity|discriminate]|].
  destruct (startsWith fl (lit "error parsing glob")); [split; [reflexivity|discriminate]|].
  destruct (startsWith fl (lit "unsupported encoding")); [split; [reflexivity|discriminate]|].
  cbn [orb].
  destruct (eqb fl (lit "Literal '\n' not allowed.")) eqn:E.
  - apply eqb_eq in E. rewrite E. split; [reflexivity|discriminate].
  - destruct (startsWith fl (lit "Literal ")); split; try reflexivity; try discriminate; congruence.
Qed.

Hypothesis toUpperCase_nonempty : forall s : jsstring, s <> [] -> toUpperCase s <> [].

Lemma isFatal_truthy (line : jsstring) : isFatal line = true -> truthy line = true.
Proof. destruct line; [discriminate|reflexivity]. Qed.

Lemma firstLine_truthy (msg : jsstring) :
  truthy (firstLine msg) = true -> truthy msg = true /\ trim msg <> [].
Proof.
  destruct msg as [|c msg]; [discriminate|]. intros H. split; [reflexivity|].
  intros E. unfold firstLine in H. rewrite E in H. discriminate.
Qed.

(** The last line of a message whose first line is not empty is not
    empty either, once trimmed. *)
Lemma lastLine_nonempty (msg : jsstring) :
  trim msg <> [] -> trim (List.last (splitLF (trim msg)) []) <> [].
Proof.
  intros H. destruct (trim_last msg H) as (y & c & -> & Hc).
  rewrite splitLF_last_snoc.
  - now apply trim_snoc.
  - destruct (c =? 10)%N eqn:E; [|reflexivity].
    apply N.eqb_eq in E. subst c. discriminate.
Qed.

Lemma truthy_app_r (a b : jsstring) : truthy b = true -> truthy (a ++ b) = true.
Proof. destruct a, b; simpl; congruence. Qed.

Lemma truthy_app_l (a b : jsstring) : truthy a = true -> truthy (a ++ b) = true.
Proof. destruct a; simpl; congruence. Qed.

Lemma displayMsg_truthy (msg d : jsstring) :
  rgErrorMsgForDisplay toUpperCase msg = Some d -> truthy d = true.
Proof using toUpperCase_nonempty.
  unfold rgErrorMsgForDisplay. fold (firstLine msg).
  set (fl := firstLine msg).
  destruct (startsWith fl (lit "Error parsing regex")) eqn:E1.
  { intros [= <-]. eapply startsWith_truthy; [exact E1|reflexivity]. }
  destruct (startsWith fl (lit "regex parse error")) eqn:E2.
  { intros [= <-].
    assert (Hfl : truthy fl = true) by (eapply startsWith_truthy; [exact E2|reflexivity]).
    apply firstLine_truthy in Hfl as [_ Hm].
    pose proof (lastLine_nonempty msg Hm) as Hl.
    unfold uppercaseFirstLetter.
    destruct (trim (List.last (splitLF (trim msg)) [])) as [|c r]; [contradiction|].
    apply truthy_app_l. change (firstn 1 (c :: r)) with [c].
    pose proof (toUpperCase_nonempty [c]) as Hu.
    destruct (toUpperCase [c]); [exfalso; apply Hu; [discriminate|reflexivity]|reflexivity]. }
  destruct (startsWith fl (lit "error parsing glob") || startsWith fl (lit "unsupported encoding")) eqn:E3.
  { intros [= <-]. apply truthy_app_r.
    apply orb_true_iff in E3 as [E3|E3]; apply startsWith_app in E3 as [r ->]; reflexivity. }
  destruct (eqb fl (lit "Literal '\n' not allowed.")).
  { intros [= <-]. reflexivity. }
  destruct (startsWith fl (lit "Literal ")) eqn:E5; [|discriminate].
  intros [= <-]. eapply startsWith_truthy; [exact E5|reflexivity].
Qed.

Lemma displayable_whitelist (msg : jsstring) :
  displayable toUpperCase msg <> None <-> isFatal (firstLine msg) = true.
Proof using toUpperCase_nonempty.
  rewrite <- rgErrorMsgForDisplay_whitelist. unfold displayable.
  destruct (rgErrorMsgForDisplay toUpperCase msg) as [d|] eqn:E; [|tauto].
  rewrite (displayMsg_truthy msg d E). split; congruence.
Qed.

Lemma closeError_whitelist (stderr : jsstring) (gotData : bool) :
  closeError toUpperCase stderr gotData <> None
  <-> gotData = false /\ isFatal (firstLine stderr) = true.
Proof using toUpperCase_nonempty.
  unfold closeError.
  destruct gotData; simpl.
  - rewrite andb_false_r. split; [congruence|intros [? _]; discriminate].
  - rewrite andb_true_r. destruct (truthy stderr) eqn:Et.
    + rewrite displayable_whitelist. tauto.
    + split; [congruence|]. intros [_ Hf].
      apply isFatal_truthy, firstLine_truthy in Hf as [Hf _]. congruence.
Qed.

(** What the reported message is made of. *)
Lemma displayMsg_shape (msg d : jsstring) :
  rgErrorMsgForDisplay toUpperCase msg = Some d ->
  d = firstLine msg
  \/ d = toUpperCase (firstn 1 (firstLine msg)) ++ skipn 1 (firstLine msg)
  \/ d = uppercaseFirstLetter toUpperCase (trim (List.last (splitLF (trim msg)) []))
  \/ d = lit "Literal '\n' currently not supported".
Proof.
  unfold rgErrorMsgForDisplay. fold (firstLine msg).
  repeat match goal with
         | |- (if ?c then _ else _) = _ -> _ => destruct c
         end; intros [= <-]; tauto.
Qed.

End ErrorMessages.
End RipgrepFacts.

(** ** The loop over a match line *)

Module ScanFacts.
Import JS Parser.

Lemma scanStep_advances maxResults lineNum text s :
  (i s + 1 <= i (scanStep maxResults lineNum text s))%Z.
Proof.
  unfold scanStep.
  destruct (eqb _ MATCH_START_MARKER); [cbn; lia|].
  destruct (eqb _ MATCH_END_MARKER); cbn; lia.
Qed.

(** The loop of [handleMatchLine] leaves through its condition: the fuel
    it is given is enough. *)
Lemma scanLoop_exits maxResults lineNum text fuel : forall s,
  (Z.of_nat (length text) - i s <= Z.of_nat fuel)%Z ->
  (i (scanLoop fuel maxResults lineNum text s)
   <? Z.of_nat (length text) - (Z.of_nat (length MATCH_END_MARKER) - 1))%Z
  = false.
Proof.
  induction fuel as [|fuel IH]; intros s Hs; cbn [scanLoop].
  - apply Z.ltb_ge. cbn. lia.
  - destruct (i s <? _)%Z eqn:E; [|exact E].
    apply IH. pose proof (scanStep_advances maxResults lineNum text s). lia.
Qed.

Lemma scanLoop_exits_init maxResults lineNum text n :
  (i (scanLoop (length text) maxResults lineNum text (scanInit n))
   <? Z.of_nat (length text) - (Z.of_nat (length MATCH_END_MARKER) - 1))%Z
  = false.
Proof. apply scanLoop_exits. cbn. lia. Qed.

End ScanFacts.

(** ** The parser under a limit *)

Module ParserCap.
Import JS Parser ParserTerms.

Lemma scanStep_scanning K a n t s :
  scanning K a s -> scanning K a (scanStep (Some K) n t s).
Proof.
  intros [H1 H2 H3 H4]. unfold scanStep.
  destruct (eqb _ MATCH_START_MARKER); [constructor; assumption|].
  destruct (eqb _ MATCH_END_MARKER); [|constructor; assumption].
  unfold reachedLimit.
  destruct (hitLimit s) eqn:Eh; cbn [orb hitLimit matchRanges count].
  - specialize (H4 eq_refl). constructor; cbn; try lia; try discriminate.
  - specialize (H3 eq_refl).
    constructor; cbn [hitLimit matchRanges count]; rewrite ?length_app; cbn [length]; try lia.
    + intros E. apply Nat.leb_gt in E. lia.
    + intros E. apply Nat.leb_le in E. lia.
Qed.

Lemma scanLoop_scanning K a n t fuel : forall s,
  scanning K a s -> scanning K a (scanLoop fuel (Some K) n t s).
Proof.
  induction fuel as [|fuel IH]; intros s Hs; cbn [scanLoop]; [exact Hs|].
  destruct (_ <? _)%Z; [|exact Hs]. apply IH. now apply scanStep_scanning.
Qed.

Lemma emittedMatches_app es1 es2 :
  emittedMatches (es1 ++ es2) = emittedMatches es1 + emittedMatches es2.
Proof.
  induction es1 as [|[m|] es1 IH]; cbn [app emittedMatches]; lia.
Qed.

Lemma firedHitLimit_app es1 es2 :
  firedHitLimit (es1 ++ es2) = firedHitLimit es1 || firedHitLimit es2.
Proof. apply existsb_app. Qed.

Lemma numMatches_addAll rs fm :
  numMatches (fold_left addMatch rs fm) = numMatches fm + length rs.
Proof.
  revert fm. induction rs as [|r rs IH]; intros fm; cbn [fold_left length]; [unfold numMatches; lia|].
  rewrite IH. unfold numMatches, addMatch. cbn. rewrite length_app. cbn. lia.
Qed.

Section WithPath.
Variable path_isAbsolute : jsstring -> bool.
Variable path_join : jsstring -> jsstring -> jsstring.

Local Abbreviation handleMatchLine := (handleMatchLine path_isAbsolute path_join).
Local Abbreviation handleLine := (handleLine path_isAbsolute path_join).
Local Abbreviation handleLines := (handleLines path_isAbsolute path_join).
Local Abbreviation handleDecodedData := (handleDecodedData path_isAbsolute path_join).
Local Abbreviation flush := (flush path_isAbsolute path_join).
Local Abbreviation feed := (feed path_isAbsolute path_join).
Local Abbreviation run := (run path_isAbsolute path_join).

Lemma grows_refl p : grows p (Ok p).
Proof. exists []. cbn. now rewrite app_nil_r. Qed.

Lemma grows_bind p r k :
  grows p r -> (forall q, grows q (k q)) -> grows p (bind r k).
Proof.
  intros [f1 H1] Hk. destruct r as [q|q m]; cbn [bind stateOf] in *.
  - destruct (Hk q) as [f2 H2]. exists (f1 ++ f2). rewrite H2, H1. now rewrite app_assoc.
  - now exists f1.
Qed.

Lemma handleMatchLine_spec K p n t :
  capped K p -> isDone p = false ->
  capped K (stateOf (handleMatchLine p n t)) /\ grows p (handleMatchLine p n t).
Proof.
  intros [Hm HK Hc Hr Hl] Hd. specialize (Hr Hd).
  unfold Parser.handleMatchLine.
  set (text := if (n =? 0)%Z then stripUTF8BOM t else t).
  assert (Hnofire : firedHitLimit (emitted p) = false).
  { destruct (firedHitLimit (emitted p)) eqn:E; [|reflexivity].
    destruct Hl as [Hl _]. specialize (Hl eq_refl). lia. }
  (* the parser with a file match to add to *)
  assert (Hpre : forall q, emitted q = emitted p -> maxResults q = Some K ->
                 isDone q = false -> numResults q = numResults p ->
                 accepted q = accepted p ->
                 (exists fm, fileMatch q = Some fm) ->
      let s := scanLoop (length text) (maxResults q) n text (scanInit (numResults q)) in
      let chunk := sliceFrom text (lastMatchEndPos s) in
      let preview := join (realTextParts s ++ [chunk]) in
      let fm := match fileMatch q with
                | Some fm => Some (fold_left addMatch (map (mkTextSearchResult preview) (matchRanges s)) fm)
                | None => None end in
      let q' := setFileMatch (setNumResults q (count s)) fm in
      let r := if hitLimit s then Ok (emit (onResult (cancel q')) EvHitLimit) else Ok q' in
      capped K (stateOf r) /\ grows p r).
  { intros q He Hmq Hdq Hnq Haq [fm Hfm]. cbn zeta. rewrite Hfm, Hmq.
    set (s := scanLoop _ _ _ _ _).
    assert (Hs : scanning K (accepted p) s).
    { apply scanLoop_scanning. constructor; cbn; rewrite ?Hnq; try lia; try discriminate. }
    destruct Hs as [S1 S2 S3 S4]. clearbody s.
    set (preview := join _). clearbody preview.
    assert (Hacc : emittedMatches (emitted p) + numMatches fm = accepted p).
    { rewrite <- Haq. unfold accepted, pending. now rewrite Hfm, He. }
    destruct (hitLimit s) eqn:Eh; cbn [stateOf].
    - specialize (S4 eq_refl). split.
      + constructor; cbn; rewrite ?Hmq; auto;
          unfold accepted, pending; cbn;
          rewrite ?He, ?emittedMatches_app, ?firedHitLimit_app; cbn;
          rewrite ?numMatches_addAll, ?length_map, ?orb_true_r;
          try lia; try discriminate; try tauto.
      + exists [EvResult (fold_left addMatch (map (mkTextSearchResult preview) (matchRanges s)) fm); EvHitLimit].
        cbn. rewrite He, <- app_assoc. reflexivity.
    - specialize (S3 eq_refl). split.
      + constructor; cbn; rewrite ?Hmq; auto;
          unfold accepted, pending; cbn;
          rewrite ?He, ?Hnofire; rewrite ?numMatches_addAll, ?length_map;
          try lia;
          try (change (existsb _ (emitted p)) with (firedHitLimit (emitted p));
               rewrite Hnofire; split; [discriminate|lia]).
      + exists []. cbn. now rewrite He, app_nil_r. }
  destruct (fileMatch p) as [fm|] eqn:Efm; cbn [bind].
  - apply (Hpre p); auto. now exists fm.
  - destruct (extraSearchFiles p) as [|f fs] eqn:Ee; cbn [bind stateOf].
    + split; [constructor; auto; lia|apply grows_refl].
    + destruct (truthy f); cbn [bind stateOf].
      * apply (Hpre (setFileMatch p (Some (getFileMatch path_isAbsolute path_join p f)))); auto.
        -- unfold accepted, pending. cbn. rewrite Efm. reflexivity.
        -- eexists. reflexivity.
      * split; [constructor; auto; lia|apply grows_refl].
Qed.

Lemma handleLine_spec K p l :
  capped K p -> isDone p = false ->
  capped K (stateOf (handleLine p l)) /\ grows p (handleLine p l).
Proof.
  intros Hp Hd. unfold Parser.handleLine.
  destruct (RESULT_REGEX _) as [[[r1 r2] r3]|].
  - now apply handleMatchLine_spec.
  - destruct (FILE_REGEX _) as [r1|]; cbn [stateOf]; [|split; [exact Hp|apply grows_refl]].
    destruct Hp as [Hm HK Hc Hr Hl].
    assert (Hacc : accepted p = emittedMatches (emitted p) + pending p) by reflexivity.
    unfold pending in Hacc.
    destruct (fileMatch p) as [fm|] eqn:Efm.
    + unfold onResult. rewrite Efm. split.
      * constructor; cbn; auto;
          unfold accepted, pending; cbn;
          rewrite ?emittedMatches_app, ?firedHitLimit_app; cbn;
          rewrite ?orb_false_r; try lia; try exact Hl.
      * exists [EvResult fm]. reflexivity.
    + split.
      * constructor; cbn; auto;
          unfold accepted, pending; cbn; try (unfold numMatches; cbn; lia).
      * exists []. cbn. now rewrite app_nil_r.
Qed.

Lemma handleLines_spec K ls : forall p,
  capped K p ->
  capped K (stateOf (handleLines p ls)) /\ grows p (handleLines p ls).
Proof.
  induction ls as [|l ls IH]; intros p Hp; cbn [Parser.handleLines].
  - split; [exact Hp|apply grows_refl].
  - destruct (isDone p) eqn:Hd; [split; [exact Hp|apply grows_refl]|].
    destruct (handleLine_spec K p l Hp Hd) as [H1 [f1 H2]].
    destruct (handleLine p l) as [q|q m]; cbn [bind stateOf] in *.
    + destruct (IH q H1) as [H3 [f2 H4]]. split; [exact H3|].
      exists (f1 ++ f2). rewrite H4, H2. now rewrite app_assoc.
    + split; [exact H1|now exists f1].
Qed.

Lemma capped_setRemainder K p r : capped K p -> capped K (setRemainder p r).
Proof. intros [H1 H2 H3 H4 H5]. constructor; assumption. Qed.

Lemma handleDecodedData_spec K p d :
  capped K p ->
  capped K (stateOf (handleDecodedData p d)) /\ grows p (handleDecodedData p d).
Proof.
  intros Hp. unfold Parser.handleDecodedData.
  destruct (truthy (List.last _ [])).
  - destruct (handleLines_spec K (removelast (splitLines
        match remainder p with
        | Some r => if truthy r then r ++ d else d
        | None => d
        end)) (setRemainder p (Some (List.last (splitLines
        match remainder p with
        | Some r => if truthy r then r ++ d else d
        | None => d
        end) []))) (capped_setRemainder K p _ Hp)) as [H1 H2].
    split; [exact H1|exact H2].
  - destruct (handleLines_spec K (splitLines
        match remainder p with
        | Some r => if truthy r then r ++ d else d
        | None => d
        end) (setRemainder p None) (capped_setRemainder K p _ Hp)) as [H1 H2].
    split; [exact H1|exact H2].
Qed.

Lemma capped_onResult K p : capped K p -> capped K (onResult p).
Proof.
  intros [Hm HK Hc Hr Hl]. unfold onResult.
  assert (Hacc : accepted p = emittedMatches (emitted p) + pending p) by reflexivity.
  unfold pending in Hacc.
  destruct (fileMatch p) as [fm|] eqn:Efm; [|constructor; assumption].
  constructor; cbn; auto;
    unfold accepted, pending; cbn;
    rewrite ?emittedMatches_app, ?firedHitLimit_app; cbn;
    rewrite ?orb_false_r; try lia; try exact Hl.
Qed.

Lemma grows_onResult p : grows p (Ok (onResult p)).
Proof.
  unfold onResult. destruct (fileMatch p) as [fm|]; [|apply grows_refl].
  now exists [EvResult fm].
Qed.

Lemma flush_spec K p tail :
  capped K p ->
  capped K (stateOf (flush p tail)) /\ grows p (flush p tail).
Proof.
  intros Hp. unfold Parser.flush.
  destruct (handleDecodedData_spec K p tail Hp) as [H1 H2]. split.
  - destruct (handleDecodedData p tail) as [q|q m]; cbn [bind stateOf] in *; [|exact H1].
    destruct (fileMatch q); [now apply capped_onResult|exact H1].
  - apply grows_bind; [exact H2|]. intros q.
    destruct (fileMatch q); [apply grows_onResult|apply grows_refl].
Qed.

Lemma feed_spec K cs : forall p,
  capped K p -> capped K (stateOf (feed p cs)).
Proof.
  induction cs as [|c cs IH]; intros p Hp; cbn [Parser.feed stateOf]; [exact Hp|].
  destruct (handleDecodedData_spec K p c Hp) as [H1 _].
  unfold Parser.handleData.
  destruct (handleDecodedData p c) as [q|q m]; cbn [bind stateOf] in *; [now apply IH|exact H1].
Qed.

Lemma capped_new K root extra : 1 <= K -> capped K (new (Some K) root extra).
Proof.
  intros HK. constructor; cbn; try lia; auto; try (split; [discriminate|lia]).
Qed.

Lemma capped_cancel K p : capped K p -> capped K (cancel p).
Proof. intros [H1 H2 H3 H4 H5]. constructor; cbn; auto; discriminate. Qed.

Lemma run_capped K root extra chunks tail :
  1 <= K ->
  capped K (stateOf (run (new (Some K) root extra) chunks tail)).
Proof.
  intros HK. unfold Parser.run.
  pose proof (feed_spec K chunks _ (capped_new K root extra HK)) as H1.
  destruct (feed _ chunks) as [q|q m]; cbn [bind stateOf] in *; [|exact H1].
  now apply flush_spec.
Qed.

End WithPath.
End ParserCap.

(** ** The text search engine under a limit *)

Module EngineCap.
Import JS Ripgrep ParserTerms ParserCap EngineTerms.

Lemma engine_results_app t1 t2 : results (t1 ++ t2) = results t1 ++ results t2.
Proof.
  induction t1 as [|x t1 IH]; [reflexivity|].
  destruct x; cbn [app results]; rewrite ?IH; reflexivity.
Qed.

Lemma engineMatches_app t1 t2 :
  engineMatches (t1 ++ t2) = engineMatches t1 + engineMatches t2.
Proof. unfold engineMatches. now rewrite engine_results_app, map_app, list_sum_app. Qed.

Lemma killed_app t1 t2 : killed (t1 ++ t2) = killed t1 || killed t2.
Proof. apply existsb_app. Qed.

Lemma sound_quiet K e x : quiet x -> sound K e -> sound K (effect e x).
Proof.
  intros Hq [H1 H2 H3 H4].
  assert (Em : engineMatches (trace e ++ [x]) = engineMatches (trace e)).
  { rewrite engineMatches_app. destruct x; cbn in *; try contradiction; lia. }
  assert (Ek : killed (trace e ++ [x]) = killed (trace e)).
  { rewrite killed_app. destruct x; cbn in *; try contradiction; now rewrite orb_false_r. }
  assert (Ed : forall err c, In (Done err c) (trace e ++ [x]) -> In (Done err c) (trace e)).
  { intros err c Hin. apply in_app_or in Hin as [Hin|[Hin|[]]]; [exact Hin|].
    subst x. contradiction. }
  constructor; cbn [effect trace ripgrepParser isDone rgProc]; rewrite ?Em, ?Ek; eauto.
Qed.

Lemma sound_cancel K e : sound K e -> sound K (cancel e).
Proof.
  intros [H1 H2 H3 H4]. unfold cancel. fields.
  destruct (ripgrepParser e) as [p|] eqn:Ep.
  - destruct H1 as [Hc Hm]. fields.
    destruct (rgProc e) eqn:Er.
    + assert (Ed : forall err c, In (Done err c) (trace e ++ [Kill]) -> In (Done err c) (trace e)).
      { intros err c Hin. apply in_app_or in Hin as [Hin|[Hin|[]]]; [exact Hin|discriminate]. }
      constructor; fields.
      * split; [now apply capped_cancel|]. rewrite engineMatches_app. unfold engineMatches at 2. cbn. lia.
      * reflexivity.
      * intros. rewrite killed_app. apply orb_true_r.
      * intros err c Hin Hl. apply Ed in Hin. destruct (H4 err c Hin Hl). congruence.
    + constructor; fields.
      * split; [now apply capped_cancel|exact Hm].
      * reflexivity.
      * exact H3.
      * intros err c Hin Hl. split; [exact Er|]. now destruct (H4 err c Hin Hl).
  - constructor; fields.
    + now rewrite Ep.
    + reflexivity.
    + exact H3.
    + exact H4.
Qed.

Lemma delivering_sound K e : delivering K 0 e -> sound K e.
Proof.
  intros [(p & Ep & Hc & Hm) H2 H3 H4].
  constructor; [|exact H2|exact H3|exact H4].
  rewrite Ep. split; [exact Hc|]. rewrite Nat.add_0_r in Hm. exact Hm.
Qed.

Lemma sound_delivering K e p :
  sound K e -> ripgrepParser e = Some p -> delivering K 0 e.
Proof.
  intros [H1 H2 H3 H4] Ep. rewrite Ep in H1. destruct H1 as [Hc Hm].
  constructor; [|exact H2|exact H3|exact H4].
  exists p. split; [exact Ep|]. split; [exact Hc|]. now rewrite Nat.add_0_r.
Qed.

Lemma delivering_weaken K a b e : b <= a -> delivering K a e -> delivering K b e.
Proof.
  intros Hab [(p & Ep & Hc & Hm) H2 H3 H4].
  constructor; [|exact H2|exact H3|exact H4].
  exists p. split; [exact Ep|]. split; [exact Hc|]. lia.
Qed.

Lemma onParserEvent_delivering K todo e ev :
  delivering K (Parser.emittedMatches [ev] + todo) e ->
  delivering K todo (onParserEvent e ev).
Proof.
  intros He. unfold onParserEvent.
  destruct (thrown e); [eapply delivering_weaken; [|exact He]; lia|].
  destruct ev as [m|].
  - (* a result *)
    cbn [Parser.emittedMatches] in He.
    assert (Hadd : delivering K todo (effect e (OnResult m))).
    { destruct He as [(p & Ep & Hc & Hm) H2 H3 H4].
      assert (Ek : killed (trace e ++ [OnResult m]) = killed (trace e)).
      { rewrite killed_app. cbn. now rewrite orb_false_r. }
      assert (Ed : forall err c, In (Done err c) (trace e ++ [OnResult m]) -> In (Done err c) (trace e)).
      { intros err c Hin. apply in_app_or in Hin as [Hin|[Hin|[]]]; [exact Hin|discriminate]. }
      constructor; fields; rewrite ?Ek; [|exact H2|eauto|eauto].
      exists p. split; [exact Ep|]. split; [exact Hc|].
      rewrite engineMatches_app. unfold engineMatches at 2. cbn. lia. }
    unfold onParserResult.
    destruct (postProcessExclusions e) as [excluded|]; [|exact Hadd].
    destruct (excluded (Parser.path m)); [|exact Hadd].
    eapply delivering_weaken; [|exact He]. lia.
  - (* the limit *)
    cbn [Parser.emittedMatches] in He. unfold onHitLimit.
    destruct He as [(p & Ep & Hc & Hm) H2 H3 H4].
    unfold cancel. fields. rewrite Ep. fields.
    destruct (rgProc e) eqn:Er; fields.
    + assert (Hk : killed (trace e ++ [Kill]) = true)
        by (rewrite killed_app; apply orb_true_r).
      assert (Ed : forall err c, In (Done err c) (trace e ++ [Kill]) -> limitHit c = false -> False).
      { intros err c Hin Hl. apply in_app_or in Hin as [Hin|[Hin|[]]]; [|discriminate].
        destruct (H4 err c Hin Hl). congruence. }
      destruct (thrown e) eqn:Et.
      * constructor; fields.
        -- eexists. split; [reflexivity|]. split; [now apply capped_cancel|].
           rewrite engineMatches_app. unfold engineMatches at 2. cbn. lia.
        -- reflexivity.
        -- intros. exact Hk.
        -- intros err c Hin Hl. destruct (Ed err c Hin Hl).
      * constructor; fields.
        -- eexists. split; [reflexivity|]. split; [now apply capped_cancel|].
           rewrite !engineMatches_app. unfold engineMatches at 2 3 4. cbn. lia.
        -- reflexivity.
        -- intros. rewrite 2 killed_app, Hk. reflexivity.
        -- intros err c Hin Hl. rewrite <- app_assoc in Hin.
           apply in_app_or in Hin as [Hin|Hin]; [destruct (Ed err c Hin Hl)|].
           destruct Hin as [Hin|[Hin|[]]]; [discriminate|].
           injection Hin as _ <-. discriminate.
    + constructor; fields.
      * eexists. split; [reflexivity|]. split; [now apply capped_cancel|].
        cbn [Parser.cancel Parser.emitted]. lia.
      * reflexivity.
      * exact H3.
      * intros err c Hin Hl. split; [exact Er|]. now destruct (H4 err c Hin Hl).
Qed.

Lemma deliver_all K fired : forall e,
  delivering K (Parser.emittedMatches fired) e ->
  delivering K 0 (fold_left onParserEvent fired e).
Proof.
  induction fired as [|ev fired IH]; intros e He; cbn [fold_left]; [exact He|].
  apply IH. apply onParserEvent_delivering.
  replace (Parser.emittedMatches [ev] + Parser.emittedMatches fired)
    with (Parser.emittedMatches (ev :: fired)); [exact He|].
  change (ev :: fired) with ([ev] ++ fired). apply emittedMatches_app.
Qed.

Lemma sound_setThrown K e msg : sound K e -> sound K (setThrown e msg).
Proof. intros [H1 H2 H3 H4]. constructor; assumption. Qed.

(** A parser call that keeps the parser's invariant and only adds events
    keeps the engine's. *)
Lemma withParser_sound K e call :
  (forall p, capped K p ->
     capped K (Parser.stateOf (call p)) /\ grows p (call p)) ->
  sound K e -> sound K (withParser e call).
Proof.
  intros Hcall He. unfold withParser.
  destruct (ripgrepParser e) as [p|] eqn:Ep; [|now apply sound_setThrown].
  pose proof He as [H1 H2 H3 H4]. rewrite Ep in H1. destruct H1 as [Hc Hm].
  destruct (Hcall p Hc) as [Hc' [fired Hf]].
  rewrite Hf, skipn_app, Nat.sub_diag, skipn_all. cbn [skipn app].
  assert (Hd : delivering K (Parser.emittedMatches fired)
                 (setParser e (Parser.stateOf (call p)))).
  { constructor; fields; [|exact H2|exact H3|exact H4].
    eexists. split; [reflexivity|]. split; [exact Hc'|].
    rewrite Hf, emittedMatches_app. lia. }
  apply deliver_all, delivering_sound in Hd.
  destruct (call p); [exact Hd|].
  destruct (thrown _); [exact Hd|now apply sound_setThrown].
Qed.

Section Engine.
Variable toUpperCase : jsstring -> jsstring.
Variable path_isAbsolute : jsstring -> bool.
Variable path_join : jsstring -> jsstring -> jsstring.
Variable isWindows : bool.
Variable getRgArgs : IRawSearch -> list jsstring.
Variable siblingClauses : IRawSearch -> option (jsstring -> bool).
Variable rgCmd : IRawSearch -> jsstring.

Local Abbreviation search := (search isWindows getRgArgs siblingClauses rgCmd).
Local Abbreviation onStdoutData := (onStdoutData path_isAbsolute path_join).
Local Abbreviation onClose := (onClose toUpperCase path_isAbsolute path_join).
Local Abbreviation step := (step toUpperCase path_isAbsolute path_join).
Local Abbreviation runSearch :=
  (runSearch toUpperCase path_isAbsolute path_join isWindows getRgArgs
     siblingClauses rgCmd).

Lemma search_sound K cfg :
  1 <= K -> maxResults cfg = Some K -> sound K (search (new cfg)).
Proof.
  intros HK Hm. unfold Ripgrep.search. cbn [new config].
  destruct (_ && _).
  - constructor; cbn.
    + reflexivity.
    + discriminate.
    + intros err c [Hin|[Hin|[]]]; [discriminate|]. injection Hin as _ <-. discriminate.
    + intros. split; reflexivity.
  - constructor; cbn.
    + rewrite Hm. split; [now apply capped_new|]. unfold engineMatches. cbn. lia.
    + discriminate.
    + intros err c [Hin|[Hin|[Hin|[]]]]; discriminate.
    + intros err c [Hin|[Hin|[Hin|[]]]]; discriminate.
Qed.

(** Fields the invariant does not read may change. *)
Lemma sound_same K e e' :
  ripgrepParser e' = ripgrepParser e -> trace e' = trace e ->
  isDone e' = isDone e -> (rgProc e = false -> rgProc e' = false) ->
  sound K e -> sound K e'.
Proof.
  intros Ep Et Ed Er [H1 H2 H3 H4].
  constructor; rewrite ?Ep, ?Et, ?Ed; auto.
  intros err c Hin Hl. destruct (H4 err c Hin Hl). auto.
Qed.

Lemma onStdoutData_sound K e data : sound K e -> sound K (onStdoutData e data).
Proof.
  intros He. unfold Ripgrep.onStdoutData.
  assert (Hw : sound K (withParser e (fun p => Parser.handleData path_isAbsolute path_join p data))).
  { apply withParser_sound; [|exact He]. intros p Hp.
    apply handleDecodedData_spec. exact Hp. }
  destruct (thrown _); [exact Hw|].
  eapply sound_same; [| | | |exact Hw]; auto.
Qed.

Lemma onStderrData_sound K e m : sound K e -> sound K (onStderrData e m).
Proof.
  intros He. unfold onStderrData.
  eapply sound_same; [| | | |apply (sound_quiet K e (OnMessage m) I He)]; auto.
Qed.

Lemma onClose_sound K e code tail : sound K e -> sound K (onClose e code tail).
Proof.
  intros He. unfold Ripgrep.onClose.
  assert (Hw : sound K (withParser e (fun p => Parser.flush path_isAbsolute path_join p tail))).
  { apply withParser_sound; [|exact He]. intros p Hp. now apply flush_spec. }
  set (e1 := withParser e _) in *. clearbody e1.
  destruct (thrown e1); [exact Hw|].
  fields.
  destruct (isDone e1) eqn:Ed.
  - eapply sound_same; [| | | |exact Hw]; auto.
  - destruct Hw as [H1 H2 H3 H4].
    assert (Hk : killed (trace e1) = false).
    { destruct (killed (trace e1)); [|reflexivity]. specialize (H2 eq_refl). congruence. }
    constructor; fields.
    + destruct (ripgrepParser e1).
      * destruct H1 as [Hc Hm]. split; [exact Hc|].
        rewrite !engineMatches_app. unfold engineMatches at 2 3. cbn. lia.
      * rewrite !engineMatches_app. unfold engineMatches at 2 3. cbn. lia.
    + reflexivity.
    + intros err c Hin Hl. rewrite <- app_assoc in Hin.
      apply in_app_or in Hin as [Hin|Hin].
      * rewrite (H3 err c Hin Hl) in Hk. discriminate.
      * destruct Hin as [Hin|[Hin|[]]]; [discriminate|]. injection Hin as _ <-. discriminate.
    + intros. split; [reflexivity|]. rewrite !killed_app, Hk. reflexivity.
Qed.

Lemma step_sound K e i : sound K e -> sound K (step e i).
Proof.
  intros He. unfold Ripgrep.step. destruct (thrown e); [exact He|].
  destruct i.
  - now apply onStdoutData_sound.
  - now apply onStderrData_sound.
  - now apply onClose_sound.
  - now apply sound_cancel.
Qed.

Lemma runSearch_sound K cfg inputs :
  1 <= K -> maxResults cfg = Some K -> sound K (runSearch cfg inputs).
Proof.
  intros HK Hm. unfold Ripgrep.runSearch.
  generalize (search_sound K cfg HK Hm). generalize (search (new cfg)).
  induction inputs as [|i inputs IH]; intros e He; cbn [fold_left]; [exact He|].
  apply IH. now apply step_sound.
Qed.

Lemma sound_cap K e : sound K e -> engineMatches (trace e) <= K.
Proof.
  intros [H1 _ _ _]. destruct (ripgrepParser e) as [p|]; [|lia].
  destruct H1 as [[_ HK _ _ _] Hm]. unfold accepted in HK. lia.
Qed.

Lemma sound_limitHit K e err c :
  sound K e -> In (Done err c) (trace e) ->
  (limitHit c = true <-> killed (trace e) = true).
Proof.
  intros [_ _ H3 H4] Hin. split; [now apply (H3 err c)|].
  intros Hk. destruct (limitHit c) eqn:El; [reflexivity|].
  destruct (H4 err c Hin El). congruence.
Qed.

End Engine.
End EngineCap.

(** ** Invariants of the file walker *)

Module WalkerInvariants.
Import JS FileSearch WalkerTerms.

Section Stable.
Context `{Host}.

(** A property of the walker that every elementary step of a traversal
    keeps is kept by the traversal. *)
Variable I : FileWalker -> Prop.

Hypothesis I_matchFile : forall w c, I w -> I (matchFile w c).
Hypothesis I_quiet : forall w x, quiet x -> I w -> I (effect w x).
Hypothesis I_kill : forall w f, isLimitHit w = true -> I w -> I (effect w (KillCmd f)).
Hypothesis I_incDirectoriesWalked : forall w, I w -> I (incDirectoriesWalked w).
Hypothesis I_incFilesWalked : forall w, I w -> I (incFilesWalked w).
Hypothesis I_pushError : forall w e, I w -> I (pushError w e).
Hypothesis I_setCmdResultCount : forall w n, I w -> I (setCmdResultCount w n).
Hypothesis I_setTraversal : forall w t, I w -> I (setTraversal w t).
Hypothesis I_setLimitHit : forall w, exists_ (config w) = true -> I w -> I (setLimitHit w).

Lemma I_matchLines folder files : forall w, I w -> I (matchLines w folder files).
Proof using I_matchFile I_kill.
  induction files as [|f files IH]; intros w Hw; cbn [matchLines]; [exact Hw|].
  destruct (isLimitHit (matchFile w _)) eqn:E.
  - apply I_kill; [exact E|]. now apply I_matchFile.
  - apply IH. now apply I_matchFile.
Qed.

Lemma I_addDirectoryEntries w tree base files :
  I w -> I (fst (fst (addDirectoryEntries w tree base files))).
Proof using I_matchFile.
  intros Hw. unfold addDirectoryEntries.
  destruct (addAll base tree files) as [tree' ok]. cbn [fst].
  destruct (filePattern (config w)); [|exact Hw].
  destruct (existsb _ files); [now apply I_matchFile|exact Hw].
Qed.

Lemma I_matchDirectory tree folder fuel : forall w entries,
  I w -> I (fst (matchDirectory fuel tree folder w entries)).
Proof using I_matchFile I_incDirectoriesWalked I_incFilesWalked.
  induction fuel as [|fuel IH]; intros w entries Hw; cbn [matchDirectory fst]; [exact Hw|].
  generalize (map basename entries). intros siblings.
  assert (Hw' : I (incDirectoriesWalked w)) by now apply I_incDirectoriesWalked.
  revert Hw'. generalize (incDirectoriesWalked w). clear Hw w.
  induction entries as [|entry es IHes]; intros w Hw; [exact Hw|].
  destruct (folderExclude _ _ _ _ _); [now apply IHes|].
  destruct (tree !! relativePath entry) as [sub|].
  - specialize (IH w sub Hw).
    destruct (matchDirectory fuel tree folder w sub) as [w' ok]. cbn [fst] in IH.
    destruct ok; cbn [negb]; [|exact IH].
    destruct (isLimitHit w'); [exact IH|now apply IHes].
  - destruct (isTheFilePattern _ _).
    + apply IHes. now apply I_incFilesWalked.
    + destruct (isLimitHit (matchFile (incFilesWalked w) entry)) eqn:E.
      * cbn [fst]. apply I_matchFile. now apply I_incFilesWalked.
      * apply IHes. apply I_matchFile. now apply I_incFilesWalked.
Qed.

Lemma I_rootDone w r err : I w -> I (fst (rootDone w r err)).
Proof using I_quiet I_pushError.
  intros Hw. unfold rootDone. destruct (doneCalled r); [exact Hw|]. cbn [fst].
  apply I_quiet; [exact Logic.I|]. destruct err; [now apply I_pushError|exact Hw].
Qed.

Lemma I_cmdCallback w r err stdout last :
  I w -> I (fst (fst (cmdCallback w r err stdout last))).
Proof using I_matchFile I_quiet I_kill I_incDirectoriesWalked I_incFilesWalked
  I_pushError I_setCmdResultCount.
  intros Hw. unfold cmdCallback.
  destruct err; [cbn [fst]; now apply I_rootDone|].
  destruct (isLimitHit w); [cbn [fst]; now apply I_rootDone|].
  match goal with |- context [setSplitState r ?a ?b] => generalize (setSplitState r a b) end.
  intros r1.
  match goal with |- context [length ?fs] =>
    match fs with
    | context [removelast] => generalize fs
    end
  end.
  intros files.
  destruct (match files with [] => false | f :: _ => contains f 10 end);
    [cbn [fst]; now apply I_rootDone|].
  assert (Hw1 : I (setCmdResultCount w (default 0 (cmdResultCount w) + length files)))
    by now apply I_setCmdResultCount.
  set (w1 := setCmdResultCount w (default 0 (cmdResultCount w) + length files)) in *.
  clearbody w1.
  destruct (w_useRipgrep _ && noSiblingsClauses _ _).
  - pose proof (I_matchLines (folder r1) files w1 Hw1) as Hm.
    destruct (last || isLimitHit _); cbn [fst]; [now apply I_rootDone|exact Hm].
  - pose proof (I_addDirectoryEntries w1 (pathToEntries r1) (folder r1) files Hw1) as Ha.
    destruct (addDirectoryEntries w1 (pathToEntries r1) (folder r1) files) as [[w2 tree] ok].
    cbn [fst] in Ha. destruct ok; cbn [negb fst]; [|exact Ha].
    destruct last; cbn [fst]; [|exact Ha].
    pose proof (I_matchDirectory tree (folder (setTree r1 tree))
                  (S (stdpp.base.size tree)) w2 (default [] (tree !! lit ".")) Ha) as Hm.
    unfold matchDirectoryTree.
    destruct (matchDirectory _ _ _ _ _) as [w3 ok2]. cbn [fst] in Hm.
    destruct ok2; cbn [fst]; [now apply I_rootDone|exact Hm].
Qed.

Lemma I_onData w r err stdout last :
  I w -> I (fst (fst (onData w r err stdout last))).
Proof using I_matchFile I_quiet I_kill I_incDirectoriesWalked I_incFilesWalked
  I_pushError I_setCmdResultCount.
  intros Hw. unfold onData. destruct (onDataOff r); [exact Hw|].
  now apply I_cmdCallback.
Qed.

Lemma I_collectStdout w r ev :
  I w -> I (fst (fst (collectStdout w r ev))).
Proof using I_matchFile I_quiet I_kill I_incDirectoriesWalked I_incFilesWalked
  I_pushError I_setCmdResultCount I_setLimitHit.
  intros Hw. unfold collectStdout. destruct ev; try exact Hw.
  - pose proof (I_cmdCallback w r None data false Hw) as Hc.
    destruct (cmdCallback w r None data false) as [[w1 r1] ok]. exact Hc.
  - now apply I_onData.
  - destruct (closeFails _ _ _ _); [now apply I_onData|].
    apply I_onData.
    destruct (w_useRipgrep w && exists_ (config w) && (code =? 0)%Z) eqn:E; [|exact Hw].
    apply I_setLimitHit; [|exact Hw].
    apply andb_true_iff in E as [E _]. now apply andb_true_iff in E as [_ E].
Qed.

Lemma I_nodeFile w r p b sz : I w -> I (nodeFile w r p b sz).
Proof using I_matchFile I_incFilesWalked.
  intros Hw. unfold nodeFile. destruct (_ || _); [exact Hw|].
  destruct (isTheFilePattern _ _); [now apply I_incFilesWalked|].
  destruct (w_maxFilesize _) as [m|]; [destruct sz as [s|]|];
    try (apply I_matchFile; now apply I_incFilesWalked).
  destruct (m <? s); [now apply I_incFilesWalked|].
  apply I_matchFile; now apply I_incFilesWalked.
Qed.

Lemma I_eventStep w r ev : I w -> I (fst (fst (eventStep w r ev))).
Proof using I_matchFile I_quiet I_kill I_incDirectoriesWalked I_incFilesWalked
  I_pushError I_setCmdResultCount I_setLimitHit.
  intros Hw. unfold eventStep. destruct (isCmdTraversal _); [now apply I_collectStdout|].
  destruct ev; try exact Hw; cbn [fst].
  - now apply I_nodeFile.
  - now apply I_rootDone.
Qed.

Lemma I_startRoot w folder : I w -> I (startRoot w folder).
Proof using I_quiet I_incDirectoriesWalked I_setCmdResultCount.
  intros Hw. unfold startRoot. destruct (isCmdTraversal _); [|now apply I_incDirectoriesWalked].
  apply I_setCmdResultCount.
  assert (Hs : I (effect w (SpawnCmd folder))) by (apply I_quiet; [exact Logic.I|exact Hw]).
  destruct (w_useRipgrep _); [|exact Hs]. apply I_quiet; [exact Logic.I|exact Hs].
Qed.

Lemma I_matchExtraFiles files : forall w, I w -> I (matchExtraFiles w files).
Proof using I_matchFile.
  unfold matchExtraFiles.
  induction files as [|f files IH]; intros w Hw; cbn [fold_left]; [exact Hw|].
  apply IH. destruct (match excludePattern _ with Some _ => _ | None => _ end);
    [exact Hw|now apply I_matchFile].
Qed.

(** The terminal call carries the limit flag of its moment. *)
Hypothesis I_done : forall w err, I w -> I (effect w (WalkDone err (isLimitHit w))).

Lemma I_finishIfAllDone w before after : I w -> I (finishIfAllDone w before after).
Proof using I_done.
  intros Hw. unfold finishIfAllDone. destruct (_ && _); [now apply I_done|exact Hw].
Qed.

Lemma walkEvent_walker s i ev :
  walker (walkEvent s i ev) =
  if stuck s then walker s
  else match roots s !! i with
       | None => walker s
       | Some r =>
           finishIfAllDone (fst (fst (eventStep (walker s) r ev))) (roots s)
             (<[i := snd (fst (eventStep (walker s) r ev))]> (roots s))
       end.
Proof using Type.
  unfold walkEvent. destruct (stuck s); [reflexivity|].
  destruct (roots s !! i) as [r|]; [|reflexivity].
  destruct (eventStep _ _ _) as [[w1 r1] ok]. reflexivity.
Qed.

Lemma I_walkEvent s i ev : I (walker s) -> I (walker (walkEvent s i ev)).
Proof using I_matchFile I_quiet I_kill I_incDirectoriesWalked I_incFilesWalked
  I_pushError I_setCmdResultCount I_setLimitHit I_done.
  intros Hw. rewrite walkEvent_walker. destruct (stuck s); [exact Hw|].
  destruct (roots s !! i) as [r|]; [|exact Hw].
  apply I_finishIfAllDone. now apply I_eventStep.
Qed.

Lemma I_walk w fq ef : I w -> I (walker (walk w fq ef)).
Proof using I_matchFile I_quiet I_incDirectoriesWalked I_setCmdResultCount
  I_setTraversal I_done.
  intros Hw. unfold walk. destruct (isCanceled w); cbn [walker]; [now apply I_done|].
  assert (H1 : I (match ef with Some fs => matchExtraFiles w fs | None => w end))
    by (destruct ef; [now apply I_matchExtraFiles|exact Hw]).
  revert H1. generalize (match ef with Some fs => matchExtraFiles w fs | None => w end).
  clear Hw w. intros w Hw.
  assert (H2 : I (fold_left startRoot fq (setTraversal w (chooseTraversal w)))).
  { generalize (I_setTraversal w (chooseTraversal w) Hw).
    generalize (setTraversal w (chooseTraversal w)).
    induction fq as [|f fq IH]; intros w' Hw'; cbn [fold_left]; [exact Hw'|].
    apply IH. now apply I_startRoot. }
  destruct fq; [now apply I_done|exact H2].
Qed.

Lemma I_runWalk w schedule : I w -> I (walker (runWalk w schedule)).
Proof using I_matchFile I_quiet I_kill I_incDirectoriesWalked I_incFilesWalked
  I_pushError I_setCmdResultCount I_setTraversal I_setLimitHit I_done.
  intros Hw. unfold runWalk.
  generalize (I_walk w (folderQueries (config w)) (extraFiles (config w)) Hw).
  generalize (walk w (folderQueries (config w)) (extraFiles (config w))).
  induction schedule as [|[i ev] schedule IH]; intros s Hs; cbn [fold_left]; [exact Hs|].
  apply IH. now apply I_walkEvent.
Qed.

End Stable.
End WalkerInvariants.

(** ** The file walker: limit, exists flag and terminal calls *)

Module WalkerFacts.
Import JS FileSearch WalkerTerms WalkerInvariants.

Lemma results_app t1 t2 : results (t1 ++ t2) = results t1 ++ results t2.
Proof.
  induction t1 as [|x t1 IH]; [reflexivity|].
  destruct x; cbn [app results]; rewrite ?IH; reflexivity.
Qed.

Lemma results_quiet t x : quiet x -> results (t ++ [x]) = results t.
Proof.
  intros Hq. rewrite results_app. destruct x; cbn in *; try contradiction; apply app_nil_r.
Qed.

Section WithHost.
Context `{Host}.

Lemma capInv_matchFile K w c : capInv K w -> capInv K (matchFile w c).
Proof.
  intros (H1 & H2 & H3). unfold capInv, matchFile.
  destruct (survives w c); [|auto].
  destruct (exists_ _ || overMaxResults _) eqn:E; cbn; [repeat split; auto; lia|].
  destruct (isLimitHit w); cbn; [repeat split; auto; lia|].
  rewrite results_app, length_app. cbn.
  apply orb_false_iff in E as [_ E]. unfold overMaxResults in E. cbn in E.
  rewrite H1 in E. apply Nat.leb_gt in E. repeat split; auto; lia.
Qed.

Lemma capInv_effect K w x :
  (forall m, x <> OnResult m) -> capInv K w -> capInv K (effect w x).
Proof.
  intros Hx (H1 & H2 & H3). unfold capInv. cbn.
  rewrite results_app.
  replace (results [x]) with (@nil IRawFileMatch)
    by (destruct x; try reflexivity; now destruct (Hx m)).
  rewrite app_nil_r. auto.
Qed.

Lemma capInv_runWalk K w schedule :
  capInv K w -> capInv K (walker (runWalk w schedule)).
Proof.
  apply I_runWalk.
  - apply capInv_matchFile.
  - intros w0 x Hq. apply capInv_effect. intros m ->. exact Hq.
  - intros w0 f _. apply capInv_effect. discriminate.
  - intros w0 Hw. exact Hw.
  - intros w0 Hw. exact Hw.
  - intros w0 e Hw. exact Hw.
  - intros w0 n Hw. exact Hw.
  - intros w0 t Hw. exact Hw.
  - intros w0 _ Hw. exact Hw.
  - intros w0 err. apply capInv_effect. discriminate.
Qed.

Lemma limitInv_matchFile K w c : limitInv K w -> limitInv K (matchFile w c).
Proof.
  intros (H1 & H2 & H3). unfold limitInv, matchFile.
  destruct (survives w c); [|auto].
  assert (Eo : overMaxResults (incResultCount w) = (K <? S (resultCount w))).
  { unfold overMaxResults. cbn [w_maxResults incResultCount resultCount]. now rewrite H2. }
  cbn [config incResultCount]. rewrite H1, Eo. cbn [orb].
  destruct (K <? S (resultCount w)) eqn:E.
  - cbn [isLimitHit setLimitHit config w_maxResults resultCount incResultCount].
    rewrite E. auto.
  - assert (E' : isLimitHit w = false).
    { rewrite H3. apply Nat.ltb_ge. apply Nat.ltb_ge in E. lia. }
    cbn [isLimitHit incResultCount]. rewrite E'.
    cbn [effect isLimitHit config w_maxResults resultCount incResultCount].
    rewrite E, E'. auto.
Qed.

Lemma limitInv_runWalk K w schedule :
  limitInv K w -> limitInv K (walker (runWalk w schedule)).
Proof.
  apply I_runWalk.
  - apply limitInv_matchFile.
  - intros w0 x _ Hw. exact Hw.
  - intros w0 f _ Hw. exact Hw.
  - intros w0 Hw. exact Hw.
  - intros w0 Hw. exact Hw.
  - intros w0 e Hw. exact Hw.
  - intros w0 n Hw. exact Hw.
  - intros w0 t Hw. exact Hw.
  - intros w0 He (H1 & _). congruence.
  - intros w0 err Hw. exact Hw.
Qed.

Lemma matchFile_trace w c :
  trace (matchFile w c) = trace w \/ trace (matchFile w c) = trace w ++ [OnResult c].
Proof.
  unfold matchFile. destruct (survives w c); [|auto].
  destruct (exists_ _ || overMaxResults _); cbn; [auto|].
  destruct (isLimitHit w); cbn; auto.
Qed.

Lemma matchFile_limit_mono w c :
  isLimitHit w = true -> isLimitHit (matchFile w c) = true.
Proof.
  intros Hl. unfold matchFile. destruct (survives w c); [|exact Hl].
  destruct (exists_ _ || overMaxResults _); cbn; [reflexivity|].
  rewrite Hl. cbn. exact Hl.
Qed.

Lemma flagInv_effect w x :
  match x with
  | WalkDone _ l => l = true -> isLimitHit w = true
  | KillCmd _ => isLimitHit w = true
  | _ => True
  end ->
  flagInv w -> flagInv (effect w x).
Proof.
  intros Hx [H1 H2]. split; cbn.
  - intros err l Hin Hl. apply in_app_or in Hin as [Hin|[Hin|[]]]; [eauto|].
    subst x. auto.
  - intros f Hin. apply in_app_or in Hin as [Hin|[Hin|[]]]; [eauto|].
    subst x. auto.
Qed.

Lemma flagInv_matchFile w c : flagInv w -> flagInv (matchFile w c).
Proof.
  intros [H1 H2].
  destruct (matchFile_trace w c) as [Et|Et]; split; rewrite Et.
  - intros err l Hin Hl. apply matchFile_limit_mono. eauto.
  - intros f Hin. apply matchFile_limit_mono. eauto.
  - intros err l Hin Hl. apply in_app_or in Hin as [Hin|[Hin|[]]]; [|discriminate].
    apply matchFile_limit_mono. eauto.
  - intros f Hin. apply in_app_or in Hin as [Hin|[Hin|[]]]; [|discriminate].
    apply matchFile_limit_mono. eauto.
Qed.

Lemma flagInv_runWalk w schedule :
  flagInv w -> flagInv (walker (runWalk w schedule)).
Proof.
  apply I_runWalk.
  - apply flagInv_matchFile.
  - intros w0 x Hq. apply flagInv_effect. destruct x; try exact Logic.I; contradiction.
  - intros w0 f Hl. now apply flagInv_effect.
  - intros w0 Hw. exact Hw.
  - intros w0 Hw. exact Hw.
  - intros w0 e Hw. exact Hw.
  - intros w0 n Hw. exact Hw.
  - intros w0 t Hw. exact Hw.
  - intros w0 _ [H1 H2]. split; intros; reflexivity.
  - intros w0 err. apply flagInv_effect. intros ->. reflexivity.
Qed.

Lemma existsInv_matchFile w c : existsInv w -> existsInv (matchFile w c).
Proof.
  intros (H1 & H2 & H3). unfold existsInv, matchFile.
  destruct (survives w c); [|auto].
  cbn. rewrite H1. cbn. auto.
Qed.

Lemma existsInv_effect w x :
  (forall m, x <> OnResult m) -> existsInv w -> existsInv (effect w x).
Proof.
  intros Hx (H1 & H2 & H3). unfold existsInv. cbn.
  rewrite results_app, H2.
  replace (results [x]) with (@nil IRawFileMatch)
    by (destruct x; try reflexivity; now destruct (Hx m)).
  auto.
Qed.

Lemma existsInv_runWalk w schedule :
  existsInv w -> existsInv (walker (runWalk w schedule)).
Proof.
  apply I_runWalk.
  - apply existsInv_matchFile.
  - intros w0 x Hq. apply existsInv_effect. intros m ->. exact Hq.
  - intros w0 f _. apply existsInv_effect. discriminate.
  - intros w0 Hw. exact Hw.
  - intros w0 Hw. exact Hw.
  - intros w0 e Hw. exact Hw.
  - intros w0 n Hw. exact Hw.
  - intros w0 t Hw. exact Hw.
  - intros w0 _ (H1 & H2 & H3). repeat split; auto.
  - intros w0 err. apply existsInv_effect. discriminate.
Qed.

Lemma new_maxResults K cfg :
  1 <= K -> maxResults cfg = Some K -> w_maxResults (new cfg) = Some K.
Proof. intros HK Hm. cbn. rewrite Hm. destruct K; [lia|reflexivity]. Qed.

Lemma capInv_new K cfg :
  1 <= K -> maxResults cfg = Some K -> capInv K (new cfg).
Proof.
  intros HK Hm. split; [now apply new_maxResults|]. cbn. lia.
Qed.

Lemma limitInv_new K cfg :
  1 <= K -> maxResults cfg = Some K -> exists_ cfg = false -> limitInv K (new cfg).
Proof.
  intros HK Hm He. split; [exact He|]. split; [now apply new_maxResults|].
  cbn. destruct K; [lia|reflexivity].
Qed.

Lemma flagInv_new cfg : flagInv (new cfg).
Proof. split; cbn; intros; contradiction. Qed.

Lemma existsInv_new cfg : exists_ cfg = true -> existsInv (new cfg).
Proof. intros He. split; [exact He|]. split; [reflexivity|]. cbn. lia. Qed.

Lemma noNewTerminal_effect t0 w x :
  (forall err l, x <> WalkDone err l) ->
  noNewTerminal t0 w -> noNewTerminal t0 (effect w x).
Proof.
  intros Hx Hw err l Hin. cbn in Hin.
  apply in_app_or in Hin as [Hin|[Hin|[]]]; [now apply Hw|].
  now destruct (Hx err l).
Qed.

Lemma noNewTerminal_matchFile t0 w c :
  noNewTerminal t0 w -> noNewTerminal t0 (matchFile w c).
Proof.
  intros Hw err l Hin.
  destruct (matchFile_trace w c) as [Et|Et]; rewrite Et in Hin; [now apply Hw|].
  apply in_app_or in Hin as [Hin|[Hin|[]]]; [now apply Hw|discriminate].
Qed.

Lemma noNewTerminal_eventStep t0 w r ev :
  noNewTerminal t0 w -> noNewTerminal t0 (fst (fst (eventStep w r ev))).
Proof.
  apply I_eventStep.
  - apply noNewTerminal_matchFile.
  - intros w0 x Hq. apply noNewTerminal_effect. intros err l ->. exact Hq.
  - intros w0 f _. apply noNewTerminal_effect. discriminate.
  - intros w0 Hw. exact Hw.
  - intros w0 Hw. exact Hw.
  - intros w0 e Hw. exact Hw.
  - intros w0 n Hw. exact Hw.
  - intros w0 _ Hw. exact Hw.
Qed.

Lemma walkEvent_roots s i ev :
  roots (walkEvent s i ev) =
  if stuck s then roots s
  else match roots s !! i with
       | None => roots s
       | Some r => <[i := snd (fst (eventStep (walker s) r ev))]> (roots s)
       end.
Proof.
  unfold walkEvent. destruct (stuck s); [reflexivity|].
  destruct (roots s !! i) as [r|]; [|reflexivity].
  destruct (eventStep _ _ _) as [[w1 r1] ok]. reflexivity.
Qed.

(** A terminal call made at an event comes when every root has reported,
    and carries the first error in the order of the roots and the limit
    flag of that moment. *)
Lemma walkEvent_terminal s i ev err l :
  In (WalkDone err l) (trace (walker (walkEvent s i ev))) ->
  In (WalkDone err l) (trace (walker s))
  \/ (l = isLimitHit (walker (walkEvent s i ev))
      /\ allDone (roots (walkEvent s i ev)) = true
      /\ err = firstError (roots (walkEvent s i ev))).
Proof.
  rewrite walkEvent_walker, walkEvent_roots.
  destruct (stuck s); [auto|].
  destruct (roots s !! i) as [r|]; [|auto].
  pose proof (noNewTerminal_eventStep (trace (walker s)) (walker s) r ev
                (fun _ _ Hin => Hin)) as Hn.
  destruct (eventStep (walker s) r ev) as [[w1 r1] ok]. cbn [fst snd] in *.
  unfold finishIfAllDone.
  destruct (negb _ && allDone _) eqn:E; [|intros Hin; left; now apply Hn].
  cbn [effect trace isLimitHit]. intros Hin.
  apply in_app_or in Hin as [Hin|[Hin|[]]]; [left; now apply Hn|].
  injection Hin as <- <-. right. apply andb_true_iff in E as [_ E]. auto.
Qed.

Lemma noNewTerminal_walkStart t0 w fq ef :
  isCanceled w = false -> fq <> [] ->
  noNewTerminal t0 w -> noNewTerminal t0 (walker (walk w fq ef)).
Proof.
  intros Hc Hfq Hw. unfold walk. rewrite Hc. cbn [walker].
  destruct fq as [|f fq]; [contradiction|].
  set (w1 := match ef with Some fs => matchExtraFiles w fs | None => w end).
  assert (H1 : noNewTerminal t0 w1).
  { subst w1. destruct ef; [|exact Hw]. revert Hw. apply I_matchExtraFiles.
    apply noNewTerminal_matchFile. }
  clearbody w1.
  assert (H2 : noNewTerminal t0 (setTraversal w1 (chooseTraversal w1))) by exact H1.
  revert H2. generalize (setTraversal w1 (chooseTraversal w1)).
  generalize (f :: fq). intros fs.
  induction fs as [|g fs IH]; intros w2 H2; cbn [fold_left]; [exact H2|].
  apply IH. revert H2. apply I_startRoot.
  - intros w0 x Hq. apply noNewTerminal_effect. intros err l ->. exact Hq.
  - intros w0 Hw0. exact Hw0.
  - intros w0 n Hw0. exact Hw0.
Qed.

End WithHost.
End WalkerFacts.

(** ** The raw search service *)

Module ServiceFacts.
Import JS FileSearch RawSearch JSFacts WalkerTerms WalkerInvariants
  WalkerFacts ServiceTerms.

Lemma matchesOf_app e1 e2 : matchesOf (e1 ++ e2) = matchesOf e1 ++ matchesOf e2.
Proof.
  induction e1 as [|x e1 IH]; [reflexivity|].
  destruct x; cbn [app matchesOf]; rewrite ?IH; reflexivity.
Qed.

Lemma flatMatches_app p1 p2 : flatMatches (p1 ++ p2) = flatMatches p1 ++ flatMatches p2.
Proof. apply flat_map_app. Qed.

Section WithHost.
Context `{Host}.

Lemma batchOk_step bs s o : batchOk bs s -> batchOk bs (doSearchStep bs s o).
Proof.
  unfold batchOk. destruct o as [m|msg|err c]; cbn [doSearchStep].
  - destruct bs as [b|]; [destruct (b =? 0)%Z|]; auto.
  - destruct bs as [b|]; [destruct (b =? 0)%Z|]; auto.
  - destruct bs as [b|]; [destruct (b =? 0)%Z|]; auto;
      intros E; rewrite E; exact E.
Qed.

(** No match is lost: those reported and those in the batch are those the
    engine handed over, in order. *)
Lemma doSearchStep_matches bs s o :
  batchOk bs s ->
  firstFinished [o] = None ->
  flatMatches (progress (doSearchStep bs s o)) ++ batch (doSearchStep bs s o)
  = (flatMatches (progress s) ++ batch s) ++ matchesOf [o].
Proof.
  unfold batchOk.
  destruct o as [m|msg|err c]; cbn [doSearchStep matchesOf firstFinished];
    [| |discriminate]; intros Hb _.
  - destruct bs as [b|]; [destruct (b =? 0)%Z|].
    + cbn. rewrite flatMatches_app, Hb. cbn. now rewrite !app_nil_r.
    + destruct (_ && _); cbn; rewrite ?flatMatches_app; cbn;
        rewrite <- ?app_assoc, ?app_nil_r; reflexivity.
    + cbn. rewrite flatMatches_app, Hb. cbn. now rewrite !app_nil_r.
  - cbn. rewrite flatMatches_app. cbn. now rewrite !app_nil_r.
Qed.

Lemma firstFinished_cons o engine :
  firstFinished (o :: engine) = None ->
  firstFinished [o] = None /\ firstFinished engine = None.
Proof. destruct o; cbn; auto; discriminate. Qed.

Lemma fold_doSearch_matches bs engine : forall s,
  batchOk bs s ->
  firstFinished engine = None ->
  let s' := fold_left (doSearchStep bs) engine s in
  flatMatches (progress s') ++ batch s'
  = (flatMatches (progress s) ++ batch s) ++ matchesOf engine.
Proof.
  induction engine as [|o engine IH]; intros s Hb Hn; cbn [fold_left matchesOf].
  - cbn. now rewrite app_nil_r.
  - apply firstFinished_cons in Hn as [Ho Hn].
    cbn zeta in *.
    rewrite IH, doSearchStep_matches by auto using batchOk_step.
    rewrite <- app_assoc. f_equal. destruct o; reflexivity.
Qed.

Lemma batchOk_start bs :
  batchOk bs {| batch := []; settled := Pending; progress := [] |}.
Proof. unfold batchOk. destruct bs as [b|]; [destruct (b =? 0)%Z|]; auto. Qed.

Lemma doSearch_matches engine bs :
  firstFinished engine = None ->
  flatMatches (progress (doSearch engine bs)) ++ batch (doSearch engine bs)
  = matchesOf engine.
Proof.
  intros Hn. unfold doSearch.
  now rewrite fold_doSearch_matches by auto using batchOk_start.
Qed.

(** At the terminal call everything found so far has been reported, once
    and in order. *)
Lemma doSearch_finished engine err c bs :
  firstFinished engine = None ->
  flatMatches (progress (doSearch (engine ++ [Finished err c]) bs))
  = matchesOf engine.
Proof.
  intros Hn. pose proof (doSearch_matches engine bs Hn) as E.
  unfold doSearch in *. rewrite fold_left_app. cbn [fold_left doSearchStep].
  set (s := fold_left _ engine _) in *. clearbody s.
  destruct (batch s) eqn:Eb; cbn [progress report].
  - now rewrite app_nil_r in E.
  - rewrite flatMatches_app. cbn. rewrite app_nil_r. exact E.
Qed.

(** The promise settles with the first terminal call. *)
Lemma fold_doSearch_settled bs engine : forall s,
  settled (fold_left (doSearchStep bs) engine s)
  = settle (settled s) (settledBy (firstFinished engine)).
Proof.
  induction engine as [|o engine IH]; intros s; cbn [fold_left firstFinished].
  - cbn. now destruct (settled s).
  - rewrite IH. destruct o as [m|msg|err c]; cbn [doSearchStep].
    + destruct bs as [b|]; [destruct (b =? 0)%Z|]; try reflexivity.
      destruct (_ && _); reflexivity.
    + reflexivity.
    + assert (E : settled (match batch s with
                            | [] => s
                            | _ :: _ => report s (FBatch (batch s))
                            end) = settled s) by (destruct (batch s); reflexivity).
      cbn [settled]. rewrite E.
      destruct (settled s); cbn; try reflexivity.
      destruct err; cbn; destruct (settledBy _); reflexivity.
Qed.

Lemma doSearch_settled engine bs :
  settled (doSearch engine bs) = settledBy (firstFinished engine).
Proof. unfold doSearch. now rewrite fold_doSearch_settled. Qed.

(** Counting matches. *)
Lemma totalMatches_app p1 p2 :
  totalMatches (p1 ++ p2) = totalMatches p1 + totalMatches p2.
Proof. unfold totalMatches. now rewrite map_app, list_sum_app. Qed.

Lemma totalMatches_items ps :
  totalMatches (map (fun p => fst (fileProgressCallback p)) ps)
  <= length (flatMatches ps).
Proof.
  induction ps as [|p ps IH]; [cbn; lia|].
  cbn [map]. change (?x :: ?l) with ([x] ++ l) at 1.
  rewrite totalMatches_app. unfold flatMatches in *. cbn [flat_map].
  rewrite length_app.
  assert (totalMatches [fst (fileProgressCallback p)] <= length (itemMatches p)).
  { destruct p as [m|ms|msg]; cbn; rewrite ?length_map; try lia.
    destruct (truthy (relativePath m)); cbn; lia. }
  lia.
Qed.

Lemma slices_total fuel : forall b results,
  1 <= b -> length results <= fuel ->
  totalMatches (slices fuel b results) = length results.
Proof.
  induction fuel as [|fuel IH]; intros b results Hb Hf.
  - destruct results; [reflexivity|cbn in Hf; lia].
  - destruct results as [|r results]; [reflexivity|].
    cbn [slices]. change (?x :: ?l) with ([x] ++ l) at 1.
    rewrite totalMatches_app, IH; [|exact Hb|].
    + unfold totalMatches. cbn [map matchCount list_sum].
      rewrite length_firstn, length_skipn. unfold list_sum. cbn [fold_right]. lia.
    + rewrite length_skipn. cbn [length] in *. lia.
Qed.

Lemma sendProgress_total results bs :
  totalMatches (sendProgress results bs) = length results.
Proof.
  unfold sendProgress.
  destruct bs as [b|]; [destruct (0 <? b)%Z eqn:E|]; try (cbn; lia).
  apply slices_total; [|lia]. apply Z.ltb_lt in E. lia.
Qed.

Section WithScore.
Variable compareItemsByScore :
  option jsstring -> IRawFileMatch -> IRawFileMatch -> Z.

Lemma sortResults_length K config results :
  maxResults config = Some K ->
  length (sortResults compareItemsByScore config results) <= K.
Proof.
  intros Hm. unfold sortResults, top. rewrite Hm. rewrite length_firstn. lia.
Qed.

(** With batch size -1 single matches are never reported. *)
Lemma fold_doSearch_noSingle engine : forall s,
  Forall (fun p => match p with FMatch _ => False | _ => True end) (progress s) ->
  Forall (fun p => match p with FMatch _ => False | _ => True end)
    (progress (fold_left (doSearchStep (Some (-1)%Z)) engine s)).
Proof.
  induction engine as [|o engine IH]; intros s Hs; cbn [fold_left]; [exact Hs|].
  apply IH. destruct o as [m|msg|err c]; cbn.
  - exact Hs.
  - apply Forall_app. split; [exact Hs|]. repeat constructor.
  - destruct (batch s); cbn; [exact Hs|].
    apply Forall_app. split; [exact Hs|]. repeat constructor.
Qed.

Lemma allResultsPromise_passedOn engine :
  totalMatches (fst (allResultsPromise engine)) = 0.
Proof.
  unfold allResultsPromise. cbn [fst].
  pose proof (fold_doSearch_noSingle engine
                {| batch := []; settled := Pending; progress := [] |}
                (List.Forall_nil _)) as Hn.
  fold (doSearch engine (Some (-1)%Z)) in Hn.
  induction (progress (doSearch engine (Some (-1)%Z))) as [|p ps IH]; [reflexivity|].
  inversion Hn as [|? ? Hp Hps]; subst.
  destruct p as [m|ms|msg]; cbn [List.filter notBatch map]; [contradiction|now apply IH|].
  change (?x :: ?l) with ([x] ++ l). rewrite totalMatches_app, IH by assumption.
  reflexivity.
Qed.

Lemma engineOut_matches st t : matchesOf (engineOut st t) = results t.
Proof.
  induction t as [|x t IH]; [reflexivity|].
  destruct x; cbn [engineOut matchesOf results]; rewrite ?IH; reflexivity.
Qed.

Lemma extends_refl w : extends (trace w) w.
Proof. exists []. now rewrite app_nil_r. Qed.

Lemma extends_effect t0 w x : extends t0 w -> extends t0 (effect w x).
Proof. intros [rest E]. exists (rest ++ [x]). cbn. now rewrite E, app_assoc. Qed.

Lemma extends_matchFile t0 w c : extends t0 w -> extends t0 (matchFile w c).
Proof.
  intros Hw. destruct (matchFile_trace w c) as [E|E].
  - destruct Hw as [rest Er]. exists rest. now rewrite E.
  - destruct (extends_effect t0 w (OnResult c) Hw) as [rest Er].
    exists rest. now rewrite E.
Qed.

Lemma extends_walkEvent s i ev :
  extends (trace (walker s)) (walker (walkEvent s i ev)).
Proof.
  apply I_walkEvent; try (intros; assumption);
    try (intros; now apply extends_effect).
  - intros. now apply extends_matchFile.
  - apply extends_refl.
Qed.

Lemma extends_walk w fq ef : extends (trace w) (walker (walk w fq ef)).
Proof.
  apply I_walk; try (intros; assumption);
    try (intros; now apply extends_effect).
  - intros. now apply extends_matchFile.
  - apply extends_refl.
Qed.

Lemma engineSince_matches before after rest :
  trace after = trace before ++ rest ->
  matchesOf (engineSince before after) = results rest.
Proof.
  intros E. unfold engineSince. rewrite E, skipn_app, skipn_all, Nat.sub_diag.
  cbn [skipn app]. apply engineOut_matches.
Qed.

Lemma engineRun_matches schedule : forall s,
  results (trace (walker (fold_left (fun s e => walkEvent s (fst e) (snd e))
                            schedule s)))
  = results (trace (walker s)) ++ matchesOf (engineRun s schedule).
Proof.
  induction schedule as [|[i ev] schedule IH]; intros s;
    cbn [fold_left engineRun fst snd].
  - cbn. now rewrite app_nil_r.
  - rewrite IH, matchesOf_app.
    destruct (extends_walkEvent s i ev) as [rest E].
    rewrite (engineSince_matches _ _ rest E), E, results_app.
    now rewrite app_assoc.
Qed.

(** The matches the engine hands over are those the walker reports. *)
Lemma FileSearchEngine_matches schedule cfg :
  matchesOf (FileSearchEngine schedule cfg)
  = results (trace (walker (runWalk (new cfg) schedule))).
Proof.
  unfold FileSearchEngine, runWalk. cbn zeta.
  rewrite engineRun_matches, matchesOf_app. cbn [new config].
  destruct (extends_walk (new cfg) (folderQueries cfg) (extraFiles cfg))
    as [rest E].
  rewrite (engineSince_matches _ _ rest E), E. reflexivity.
Qed.

End WithScore.
End WithHost.
End ServiceFacts.

(** ** The walk over the roots *)

Module WalkFacts.
Import JS FileSearch WalkerTerms WalkerInvariants WalkerFacts.

Section WithHost.
Context `{Host}.

(** Up to the start of the roots no terminal call is made. *)
Lemma noNewTerminal_roots t0 fs : forall w,
  noNewTerminal t0 w -> noNewTerminal t0 (fold_left startRoot fs w).
Proof.
  induction fs as [|g fs IH]; intros w Hw; cbn [fold_left]; [exact Hw|].
  apply IH. revert Hw. apply I_startRoot.
  - intros w0 x Hq. apply noNewTerminal_effect. intros err l ->. exact Hq.
  - intros w0 Hw0. exact Hw0.
  - intros w0 n Hw0. exact Hw0.
Qed.

Lemma noNewTerminal_extraFiles t0 w ef :
  noNewTerminal t0 w ->
  noNewTerminal t0 match ef with
                   | Some fs => matchExtraFiles w fs
                   | None => w
                   end.
Proof.
  intros Hw. destruct ef; [|exact Hw]. revert Hw. apply I_matchExtraFiles.
  apply noNewTerminal_matchFile.
Qed.

(** The terminal call [walk] makes itself. *)
Lemma walk_terminal w fq ef err l :
  noNewTerminal [] w ->
  In (WalkDone err l) (trace (walker (walk w fq ef))) ->
  l = isLimitHit (walker (walk w fq ef))
  /\ err = None
  /\ roots (walk w fq ef) = [].
Proof.
  intros Hw. unfold walk. destruct (isCanceled w).
  - cbn. intros Hin. apply in_app_or in Hin as [Hin|[Hin|[]]].
    + destruct (Hw _ _ Hin).
    + injection Hin as <- <-. auto.
  - cbn [walker roots].
    set (w1 := match ef with Some fs => matchExtraFiles w fs | None => w end).
    assert (H1 : noNewTerminal [] w1) by now apply noNewTerminal_extraFiles.
    clearbody w1.
    assert (H2 : noNewTerminal []
                   (fold_left startRoot fq (setTraversal w1 (chooseTraversal w1))))
      by now apply noNewTerminal_roots.
    set (w2 := fold_left _ _ _) in *. clearbody w2.
    destruct fq as [|f fq]; intros Hin.
    + cbn in Hin. apply in_app_or in Hin as [Hin|[Hin|[]]].
      * destruct (H2 _ _ Hin).
      * injection Hin as <- <-. auto.
    + destruct (H2 _ _ Hin).
Qed.

Lemma runWalk_snoc w schedule i ev :
  runWalk w (schedule ++ [(i, ev)]) = walkEvent (runWalk w schedule) i ev.
Proof. unfold runWalk. now rewrite fold_left_app. Qed.

(** Every terminal call of a walk is made at some point of the schedule,
    when every root has reported; it carries the first error in the order
    of the roots and the limit flag of that moment. *)
Lemma runWalk_terminal cfg schedule err l :
  In (WalkDone err l) (trace (walker (runWalk (new cfg) schedule))) ->
  exists pre post,
    schedule = pre ++ post
    /\ l = isLimitHit (walker (runWalk (new cfg) pre))
    /\ allDone (roots (runWalk (new cfg) pre)) = true
    /\ err = firstError (roots (runWalk (new cfg) pre)).
Proof.
  induction schedule as [|[i ev] schedule IH] using rev_ind.
  - intros Hin. exists [], []. split; [reflexivity|].
    unfold runWalk in *. cbn [fold_left] in *.
    apply walk_terminal in Hin as (-> & -> & Hr); [|intros ? ? []].
    rewrite Hr. auto.
  - rewrite runWalk_snoc. intros Hin.
    apply walkEvent_terminal in Hin as [Hin|(-> & Ha & ->)].
    + destruct (IH Hin) as (pre & post & -> & Hl & Ha & He).
      exists pre, (post ++ [(i, ev)]). rewrite app_assoc. auto.
    + exists (schedule ++ [(i, ev)]), []. rewrite app_nil_r, runWalk_snoc. auto.
Qed.

(** An event of one root leaves the other roots as they are. *)
Lemma walkEvent_other s i j ev :
  i <> j -> roots (walkEvent s i ev) !! j = roots s !! j.
Proof.
  intros Hij. rewrite walkEvent_roots. destruct (stuck s); [reflexivity|].
  destruct (roots s !! i); [|reflexivity].
  now apply list_lookup_insert_ne.
Qed.

(** The error of a root is recorded with the root; the walker only notes
    it. *)
Lemma rootDone_error w r e :
  doneCalled r = false ->
  rootDone w r (Some e)
  = (effect (pushError w e) (RootDone (folder r) (Some e)),
     setOutcome r (Some e)).
Proof. intros Hd. unfold rootDone. now rewrite Hd. Qed.

End WithHost.
End WalkFacts.

(** ** One terminal call *)

Module TerminalFacts.
Import JS FileSearch WalkerTerms WalkerInvariants WalkerFacts WalkFacts.

Lemma keepsOutcome_refl r : keepsOutcome r r.
Proof. intros Hr. auto. Qed.

Lemma keepsOutcome_trans r1 r2 r3 :
  keepsOutcome r1 r2 -> keepsOutcome r2 r3 -> keepsOutcome r1 r3.
Proof.
  intros H12 H23 H1. destruct (H12 H1) as [H2 E12].
  destruct (H23 H2) as [H3 E23]. split; [exact H3|].
  intros Hn. rewrite E23, E12; auto. rewrite E12; auto.
Qed.

(** A change of the fields other than [doneCalled] and [outcome]. *)
Lemma keepsOutcome_same r r' :
  doneCalled r' = doneCalled r -> outcome r' = outcome r -> keepsOutcome r r'.
Proof.
  intros Ed Eo Hr. unfold settledRoot in *. rewrite Ed, Eo. auto.
Qed.

Section WithHost.
Context `{Host}.

Lemma keepsOutcome_rootDone w r err : keepsOutcome r (snd (rootDone w r err)).
Proof.
  unfold rootDone. destruct (doneCalled r) eqn:Ed; cbn [snd];
    [apply keepsOutcome_refl|].
  intros Hr. split.
  - split; cbn; [discriminate|reflexivity].
  - intros Hn. apply Hr in Hn. congruence.
Qed.

Lemma keepsOutcome_cmdCallback w r err stdout last :
  keepsOutcome r (snd (fst (cmdCallback w r err stdout last))).
Proof.
  unfold cmdCallback. destruct err as [e|]; [apply keepsOutcome_rootDone|].
  destruct (isLimitHit w); [apply keepsOutcome_rootDone|].
  match goal with
  | |- context [setSplitState r ?a ?b] =>
      assert (H1 : keepsOutcome r (setSplitState r a b))
        by (now apply keepsOutcome_same);
      revert H1; generalize (setSplitState r a b)
  end.
  intros r1 H1.
  match goal with |- context [length ?fs] =>
    match fs with
    | context [removelast] => generalize fs
    end
  end.
  intros files.
  destruct (match files with [] => false | f :: _ => contains f 10 end);
    [eapply keepsOutcome_trans; [exact H1|apply keepsOutcome_rootDone]|].
  set (w1 := setCmdResultCount w (default 0 (cmdResultCount w) + length files)).
  clearbody w1.
  destruct (w_useRipgrep _ && noSiblingsClauses _ _).
  - destruct (last || isLimitHit _); cbn [fst snd];
      [eapply keepsOutcome_trans; [exact H1|apply keepsOutcome_rootDone]
      |exact H1].
  - destruct (addDirectoryEntries w1 (pathToEntries r1) (folder r1) files)
      as [[w2 tree] ok].
    assert (H2 : keepsOutcome r (setTree r1 tree)).
    { eapply keepsOutcome_trans; [exact H1|]. now apply keepsOutcome_same. }
    destruct ok; cbn [negb fst snd]; [|exact H2].
    destruct last; cbn [fst snd]; [|exact H2].
    destruct (matchDirectoryTree w2 tree (folder (setTree r1 tree))) as [w3 ok3].
    destruct ok3; cbn [fst snd]; [|exact H2].
    eapply keepsOutcome_trans; [exact H2|apply keepsOutcome_rootDone].
Qed.

Lemma keepsOutcome_onData w r err stdout last :
  keepsOutcome r (snd (fst (onData w r err stdout last))).
Proof.
  unfold onData. destruct (onDataOff r); [apply keepsOutcome_refl|].
  match goal with
  | |- context [cmdCallback w ?r1 _ _ _] => set (r' := r1)
  end.
  eapply keepsOutcome_trans; [|apply keepsOutcome_cmdCallback].
  subst r'. destruct (_ || last); [now apply keepsOutcome_same|apply keepsOutcome_refl].
Qed.

Lemma keepsOutcome_collectStdout w r ev :
  keepsOutcome r (snd (fst (collectStdout w r ev))).
Proof.
  destruct ev as [data|data|err|code|p b sz|]; cbn [collectStdout].
  - pose proof (keepsOutcome_cmdCallback w r None data false) as Hc.
    destruct (cmdCallback w r None data false) as [[w1 r1] ok]. cbn [fst snd] in *.
    eapply keepsOutcome_trans; [exact Hc|]. now apply keepsOutcome_same.
  - now apply keepsOutcome_same.
  - apply keepsOutcome_onData.
  - destruct (closeFails _ _ _ _); apply keepsOutcome_onData.
  - apply keepsOutcome_refl.
  - apply keepsOutcome_refl.
Qed.

Lemma keepsOutcome_eventStep w r ev :
  keepsOutcome r (snd (fst (eventStep w r ev))).
Proof.
  unfold eventStep. destruct (isCmdTraversal _); [apply keepsOutcome_collectStdout|].
  destruct ev; cbn [fst snd]; try apply keepsOutcome_refl.
  apply keepsOutcome_rootDone.
Qed.

(** Once every root has an outcome, an event leaves it so. *)
Lemma allDone_insert rs i r r' :
  Forall settledRoot rs -> rs !! i = Some r -> keepsOutcome r r' ->
  Forall settledRoot (<[i := r']> rs)
  /\ (allDone rs = true -> allDone (<[i := r']> rs) = true).
Proof.
  revert i. induction rs as [|a rs IH]; intros i Hall Hi Hk; [discriminate|].
  inversion Hall as [|? ? Ha Hrs]; subst.
  destruct i as [|i]; cbn in Hi |- *.
  - injection Hi as ->. destruct (Hk Ha) as [Hr' Eo]. split.
    + now constructor.
    + unfold allDone. cbn. intros E. apply andb_true_iff in E as [E1 E2].
      rewrite E2, andb_true_r.
      destruct (outcome r) eqn:Er; [|discriminate].
      rewrite Eo; [reflexivity|discriminate].
  - destruct (IH i Hrs Hi Hk) as [H1 H2]. split.
    + now constructor.
    + unfold allDone in *. cbn. intros E. apply andb_true_iff in E as [E1 E2].
      rewrite E1. cbn. now apply H2.
Qed.

Lemma walker_terminals_app t1 t2 : terminals (t1 ++ t2) = terminals t1 ++ terminals t2.
Proof.
  induction t1 as [|x t1 IH]; [reflexivity|].
  destruct x; cbn [app terminals]; rewrite ?IH; reflexivity.
Qed.

Lemma terminals_In t err l : In (err, l) (terminals t) <-> In (WalkDone err l) t.
Proof.
  induction t as [|x t IH]; [reflexivity|].
  destruct x; cbn [terminals In]; rewrite ?IH;
    try (split; [auto|intros [?|?]; [discriminate|assumption]]).
  split; intros [E|Hin]; auto; left; congruence.
Qed.

(** No terminal call but [flow.parallel]'s. *)
Lemma terminals_eventStep w r ev :
  terminals (trace (fst (fst (eventStep w r ev)))) = terminals (trace w).
Proof.
  apply (I_eventStep (fun w' => terminals (trace w') = terminals (trace w)));
    try (intros; assumption); [| | |reflexivity].
  - intros w0 c E. destruct (matchFile_trace w0 c) as [Et|Et]; rewrite Et; [exact E|].
    rewrite walker_terminals_app, E. cbn. apply app_nil_r.
  - intros w0 x Hq E. cbn. rewrite walker_terminals_app, E.
    destruct x; cbn in *; try contradiction; apply app_nil_r.
  - intros w0 f _ E. cbn. rewrite walker_terminals_app, E. apply app_nil_r.
Qed.

Lemma oneTerminal_walkEvent s i ev : oneTerminal s -> oneTerminal (walkEvent s i ev).
Proof.
  intros [Hroots Hterm]. unfold walkEvent.
  destruct (stuck s); [now split|].
  destruct (roots s !! i) as [r|] eqn:Ei; [|now split].
  pose proof (keepsOutcome_eventStep (walker s) r ev) as Hk.
  pose proof (terminals_eventStep (walker s) r ev) as Ht.
  destruct (eventStep (walker s) r ev) as [[w1 r1] ok]. cbn [fst snd] in *.
  destruct (allDone_insert (roots s) i r r1 Hroots Ei Hk) as [Hroots' Hmono].
  split; [exact Hroots'|]. cbn [walker roots]. unfold finishIfAllDone.
  destruct (allDone (roots s)) eqn:Ea; cbn [negb andb].
  - rewrite Ht. destruct Hterm as [E|[_ E]]; [now left|].
    right. split; [now apply Hmono|exact E].
  - destruct Hterm as [E|[E _]]; [|discriminate].
    destruct (allDone (<[i:=r1]> (roots s))) eqn:Ea'.
    + right. split; [reflexivity|]. cbn. rewrite walker_terminals_app, Ht, E. reflexivity.
    + left. now rewrite Ht.
Qed.

Lemma settledRoot_new folder : settledRoot (newRoot folder).
Proof. split; cbn; [discriminate|congruence]. Qed.

Lemma oneTerminal_walk cfg :
  oneTerminal (walk (new cfg) (folderQueries cfg) (extraFiles cfg)).
Proof.
  set (s := walk _ _ _).
  assert (Hroots : Forall settledRoot (roots s)).
  { unfold s, walk. cbn [new isCanceled roots]. apply Forall_map.
    apply Forall_forall. intros f _. apply settledRoot_new. }
  split; [exact Hroots|].
  assert (Hin : forall err l, In (WalkDone err l) (trace (walker s)) ->
                  roots s = [] /\ folderQueries cfg = []).
  { intros err l Hin. split.
    - apply (walk_terminal (new cfg) _ _ err l); [intros ? ? []|exact Hin].
    - pose proof (walk_terminal (new cfg) _ _ err l (fun _ _ (F : In _ []) => F) Hin)
        as (_ & _ & Hr).
      unfold walk in Hr. cbn [new isCanceled roots] in Hr.
      now destruct (folderQueries cfg). }
  destruct (terminals (trace (walker s))) as [|[err l] ts] eqn:Et; [now left|].
  right.
  assert (Hi : In (WalkDone err l) (trace (walker s))).
  { apply terminals_In. rewrite Et. now left. }
  destruct (Hin err l Hi) as [Hr Hf]. split; [now rewrite Hr|].
  revert Et. unfold s, walk. cbn [new isCanceled walker]. rewrite Hf.
  cbn [fold_left]. cbn [effect trace]. rewrite walker_terminals_app. cbn [terminals].
  set (w1 := setTraversal _ _).
  assert (Hn : terminals (trace w1) = []).
  { destruct (terminals (trace w1)) as [|[e b] t] eqn:E1; [reflexivity|].
    assert (Hw1 : noNewTerminal [] w1).
    { unfold w1. cbn [setTraversal].
      intros e' l' Hin'. cbn [trace] in Hin'. revert e' l' Hin'.
      change (noNewTerminal []
                match extraFiles cfg with
                | Some fs => matchExtraFiles (new cfg) fs
                | None => new cfg
                end).
      apply noNewTerminal_extraFiles. intros ? ? []. }
    exfalso. apply (Hw1 e b). apply terminals_In. rewrite E1. now left. }
  rewrite Hn. intros [= <- <- <-]. reflexivity.
Qed.

(** The walker makes at most one terminal call. *)
Lemma runWalk_oneTerminal cfg schedule :
  length (terminals (trace (walker (runWalk (new cfg) schedule)))) <= 1.
Proof.
  assert (Ho : oneTerminal (runWalk (new cfg) schedule)).
  { unfold runWalk. cbn [new config].
    generalize (oneTerminal_walk cfg).
    change (walk (new cfg) (folderQueries cfg) (extraFiles cfg))
      with (walk (new cfg) (folderQueries cfg) (extraFiles cfg)).
    generalize (walk (new cfg) (folderQueries cfg) (extraFiles cfg)).
    induction schedule as [|[i ev] schedule IH]; intros s Hs; cbn [fold_left];
      [exact Hs|].
    apply IH. now apply oneTerminal_walkEvent. }
  destruct Ho as [_ [E|[_ E]]]; rewrite E; cbn; lia.
Qed.

End WithHost.
End TerminalFacts.

(** ** The moment of the terminal call *)

Module MomentFacts.
Import JS FileSearch WalkerTerms WalkerInvariants WalkerFacts ServiceTerms
  ServiceFacts WalkFacts TerminalFacts.

Lemma firstError_insert rs : forall i r r',
  rs !! i = Some r -> outcome r' = outcome r ->
  firstError (<[i := r']> rs) = firstError rs.
Proof.
  induction rs as [|a rs IH]; intros i r r' Hi Ho; [discriminate|].
  destruct i as [|i].
  - injection Hi as ->. cbn [firstError]. simpl. now rewrite Ho.
  - change (<[S i := r']> (a :: rs)) with (a :: <[i := r']> rs).
    cbn [firstError]. now rewrite (IH i r r' Hi Ho).
Qed.

Lemma allDone_lookup rs : forall i r,
  allDone rs = true -> rs !! i = Some r -> outcome r <> None.
Proof.
  induction rs as [|a rs IH]; intros i r Ha Hi; [discriminate|].
  unfold allDone in Ha. cbn in Ha. apply andb_true_iff in Ha as [H1 H2].
  destruct i as [|i]; cbn in Hi.
  - injection Hi as <-. destruct (outcome a); [discriminate|discriminate].
  - now apply (IH i r).
Qed.

Section WithHost.
Context `{Host}.

Lemma rootDone_outcome w r err :
  settledRoot r -> outcome (snd (rootDone w r err)) <> None.
Proof.
  intros Hr. unfold rootDone. destruct (doneCalled r) eqn:Ed; cbn [snd].
  - now apply Hr.
  - discriminate.
Qed.

(** The last call of the callback of [cmdTraversal] ends the root, unless
    the recursion over the tree does not come to its end. *)
Lemma cmdCallback_last w r err stdout :
  settledRoot r ->
  snd (cmdCallback w r err stdout true) = true ->
  outcome (snd (fst (cmdCallback w r err stdout true))) <> None.
Proof.
  intros Hr. unfold cmdCallback.
  destruct err as [e|]; [intros _; now apply rootDone_outcome|].
  destruct (isLimitHit w); [intros _; now apply rootDone_outcome|].
  match goal with
  | |- context [setSplitState r ?a ?b] =>
      assert (H1 : settledRoot (setSplitState r a b)) by exact Hr;
      revert H1; generalize (setSplitState r a b)
  end.
  intros r1 H1.
  match goal with |- context [length ?fs] =>
    match fs with
    | context [removelast] => generalize fs
    end
  end.
  intros files.
  destruct (match files with [] => false | f :: _ => contains f 10 end);
    [intros _; now apply rootDone_outcome|].
  set (w1 := setCmdResultCount w (default 0 (cmdResultCount w) + length files)).
  clearbody w1.
  destruct (w_useRipgrep _ && noSiblingsClauses _ _).
  - cbn [orb]. intros _. now apply rootDone_outcome.
  - destruct (addDirectoryEntries w1 (pathToEntries r1) (folder r1) files)
      as [[w2 tree] ok].
    destruct ok; cbn [negb fst snd]; [|discriminate].
    destruct (matchDirectoryTree w2 tree (folder (setTree r1 tree))) as [w3 ok3].
    destruct ok3; cbn [fst snd]; [|discriminate].
    intros _. now apply rootDone_outcome.
Qed.

(** The close of a child ends its root, with the error of a failing
    command or without error, unless the recursion over the tree does not
    come to its end. *)
Lemma close_ends_root w r code :
  settledRoot r -> onDataOff r = false ->
  snd (collectStdout w r (Close code)) = true ->
  outcome (snd (fst (collectStdout w r (Close code)))) <> None.
Proof.
  intros Hr Hoff. cbn [collectStdout]. unfold onData. rewrite Hoff.
  destruct (closeFails _ _ _ _).
  - cbn [cmdCallback fst snd orb]. intros _. now apply rootDone_outcome.
  - cbn [orb]. apply cmdCallback_last. exact Hr.
Qed.

Lemma completes_walkEvent s i ev : completes s -> completes (walkEvent s i ev).
Proof.
  intros (Hroots & Hno & Hyes).
  unfold completes. rewrite walkEvent_walker, walkEvent_roots.
  destruct (stuck s); [now repeat split|].
  destruct (roots s !! i) as [r|] eqn:Ei; [|now repeat split].
  pose proof (keepsOutcome_eventStep (walker s) r ev) as Hk.
  pose proof (terminals_eventStep (walker s) r ev) as Ht.
  destruct (eventStep (walker s) r ev) as [[w1 r1] ok]. cbn [fst snd] in *.
  destruct (allDone_insert (roots s) i r r1 Hroots Ei Hk) as [Hroots' Hmono].
  split; [exact Hroots'|]. unfold finishIfAllDone.
  destruct (allDone (roots s)) eqn:Ea; cbn [negb andb].
  - rewrite Ht. split; [intros E; rewrite (Hmono eq_refl) in E; discriminate|].
    intros _. destruct (Hyes eq_refl) as [l El]. exists l. rewrite El.
    assert (Ho : outcome r1 = outcome r).
    { apply Hk; [|now apply (allDone_lookup (roots s) i)].
      rewrite Forall_forall in Hroots. apply Hroots.
      now apply (list_elem_of_lookup_2 _ i). }
    now rewrite (firstError_insert _ i r r1 Ei Ho).
  - destruct (allDone (<[i:=r1]> (roots s))) eqn:Ea'.
    + split; [discriminate|]. intros _. exists (isLimitHit w1).
      cbn [effect trace]. rewrite walker_terminals_app, Ht, (Hno eq_refl).
      reflexivity.
    + split; [|discriminate]. intros _. rewrite Ht. now apply Hno.
Qed.

Lemma completes_walk cfg :
  completes (walk (new cfg) (folderQueries cfg) (extraFiles cfg)).
Proof.
  destruct (oneTerminal_walk cfg) as [Hroots Hone].
  split; [exact Hroots|].
  set (s := walk _ _ _) in *.
  assert (Hr : roots s = map newRoot (folderQueries cfg)) by reflexivity.
  destruct (folderQueries cfg) as [|f fq] eqn:Ef.
  - rewrite Hr. cbn [map allDone forallb firstError].
    split; [discriminate|]. intros _.
    unfold s, walk. cbn [new isCanceled walker].
    cbn [fold_left effect trace]. rewrite walker_terminals_app. cbn [terminals].
    set (w1 := setTraversal _ _).
    assert (Hn : terminals (trace w1) = []).
    { destruct (terminals (trace w1)) as [|[e b] t] eqn:E1; [reflexivity|].
      assert (Hw1 : noNewTerminal [] w1).
      { unfold w1. cbn [setTraversal].
        intros e' l' Hin'. cbn [trace] in Hin'. revert e' l' Hin'.
        change (noNewTerminal []
                  match extraFiles cfg with
                  | Some fs => matchExtraFiles (new cfg) fs
                  | None => new cfg
                  end).
        apply noNewTerminal_extraFiles. intros ? ? []. }
      exfalso. apply (Hw1 e b). apply terminals_In. rewrite E1. now left. }
    rewrite Hn. now exists (isLimitHit w1).
  - rewrite Hr. cbn [map allDone forallb newRoot outcome andb].
    split; [|discriminate]. intros _.
    destruct Hone as [E|[Ha _]]; [exact E|].
    rewrite Hr in Ha. discriminate.
Qed.

(** The walk has made its terminal call exactly if every root has
    reported. *)
Lemma runWalk_completes cfg schedule : completes (runWalk (new cfg) schedule).
Proof.
  unfold runWalk. cbn [new config].
  generalize (completes_walk cfg).
  generalize (walk (new cfg) (folderQueries cfg) (extraFiles cfg)).
  induction schedule as [|[i ev] schedule IH]; intros s Hs; cbn [fold_left];
    [exact Hs|].
  apply IH. now apply completes_walkEvent.
Qed.

(** The moment of a terminal call: it is the last thing the walker did
    at some point of the schedule, and its first terminal call. *)
Lemma walkEvent_moment s i ev err l :
  completes s ->
  In (WalkDone err l) (trace (walker (walkEvent s i ev))) ->
  In (WalkDone err l) (trace (walker s))
  \/ exists t,
       trace (walker (walkEvent s i ev)) = t ++ [WalkDone err l]
       /\ terminals t = []
       /\ l = isLimitHit (walker (walkEvent s i ev))
       /\ allDone (roots (walkEvent s i ev)) = true
       /\ err = firstError (roots (walkEvent s i ev)).
Proof.
  intros (Hroots & Hno & Hyes).
  rewrite walkEvent_walker, walkEvent_roots.
  destruct (stuck s); [auto|].
  destruct (roots s !! i) as [r|]; [|auto].
  pose proof (noNewTerminal_eventStep (trace (walker s)) (walker s) r ev
                (fun _ _ Hin => Hin)) as Hn.
  pose proof (terminals_eventStep (walker s) r ev) as Ht.
  destruct (eventStep (walker s) r ev) as [[w1 r1] ok]. cbn [fst snd] in *.
  unfold finishIfAllDone.
  destruct (negb _ && allDone _) eqn:E; [|intros Hin; left; now apply Hn].
  cbn [effect trace isLimitHit]. intros Hin.
  apply andb_true_iff in E as [E1 E2]. apply negb_true_iff in E1.
  apply in_app_or in Hin as [Hin|[Hin|[]]]; [left; now apply Hn|].
  injection Hin as <- <-. right. exists (trace w1).
  split; [reflexivity|]. split; [|auto].
  rewrite Ht. now apply Hno.
Qed.

Lemma runWalk_moment cfg schedule err l :
  In (WalkDone err l) (trace (walker (runWalk (new cfg) schedule))) ->
  exists pre post t,
    schedule = pre ++ post
    /\ trace (walker (runWalk (new cfg) pre)) = t ++ [WalkDone err l]
    /\ terminals t = []
    /\ l = isLimitHit (walker (runWalk (new cfg) pre))
    /\ allDone (roots (runWalk (new cfg) pre)) = true
    /\ err = firstError (roots (runWalk (new cfg) pre)).
Proof.
  induction schedule as [|[i ev] schedule IH] using rev_ind.
  - intros Hin. exists [], [].
    destruct (runWalk_completes cfg []) as (_ & Hno & Hyes).
    pose proof Hin as Hin'.
    unfold runWalk in Hin' |- *. cbn [fold_left new config] in Hin' |- *.
    apply walk_terminal in Hin' as (El & Ee & Hr); [|intros ? ? []].
    unfold runWalk in Hno, Hyes. cbn [fold_left new config] in Hno, Hyes.
    revert Hin El Hr Hyes. unfold runWalk. cbn [fold_left new config].
    unfold walk. cbn [new isCanceled walker roots].
    destruct (folderQueries cfg) as [|f fq]; [|discriminate].
    cbn [fold_left map effect trace isLimitHit].
    intros Hin El _ Hyes. destruct (Hyes eq_refl) as [l' El'].
    rewrite walker_terminals_app in El'. cbn [terminals] in El'.
    set (w1 := setTraversal _ _) in *.
    destruct (terminals (trace w1)) eqn:E1; [|destruct l0; discriminate].
    exists (trace w1). subst err. cbn [firstError].
    rewrite El. cbn [isLimitHit]. auto 10.
  - rewrite runWalk_snoc. intros Hin.
    apply walkEvent_moment in Hin as [Hin|(t & Et & Hn & Hl & Ha & He)];
      [| |apply runWalk_completes].
    + destruct (IH Hin) as (pre & post & t & -> & Hrest).
      exists pre, (post ++ [(i, ev)]), t. now rewrite app_assoc.
    + exists (schedule ++ [(i, ev)]), [], t.
      rewrite app_nil_r, runWalk_snoc. auto 10.
Qed.

Lemma runWalk_app w pre post :
  runWalk w (pre ++ post)
  = fold_left (fun s e => walkEvent s (fst e) (snd e)) post (runWalk w pre).
Proof. unfold runWalk. apply fold_left_app. Qed.

(** The limit flag, once set, stays set. *)
Lemma limit_stays post : forall s,
  isLimitHit (walker s) = true ->
  isLimitHit (walker (fold_left (fun s e => walkEvent s (fst e) (snd e))
                        post s)) = true.
Proof.
  induction post as [|[i ev] post IH]; intros s Hs; cbn [fold_left];
    [exact Hs|].
  apply IH. cbn [fst snd]. revert Hs.
  apply (I_walkEvent (fun w => isLimitHit w = true)); try (intros; assumption).
  - intros w c. apply matchFile_limit_mono.
  - reflexivity.
Qed.

(** A terminal call made stays in the trace. *)
Lemma terminal_stays err l post : forall s,
  In (WalkDone err l) (trace (walker s)) ->
  In (WalkDone err l)
    (trace (walker (fold_left (fun s e => walkEvent s (fst e) (snd e))
                      post s))).
Proof.
  induction post as [|[i ev] post IH]; intros s Hs; cbn [fold_left];
    [exact Hs|].
  apply IH. cbn [fst snd]. destruct (extends_walkEvent s i ev) as [rest ->].
  apply in_or_app. now left.
Qed.

(** Once the limit flag is set, the terminal call, if it is still to
    come, carries it. *)
Lemma late_terminal_has_flag cfg pre post err l :
  isLimitHit (walker (runWalk (new cfg) pre)) = true ->
  terminals (trace (walker (runWalk (new cfg) pre))) = [] ->
  In (WalkDone err l) (trace (walker (runWalk (new cfg) (pre ++ post)))) ->
  l = true.
Proof.
  intros Hl Hn Hin.
  destruct (runWalk_moment cfg (pre ++ post) err l Hin)
    as (pre' & post' & t & E & Et & _ & -> & _ & _).
  apply app_eq_app in E as [mid [[-> ->]|[-> ->]]].
  - exfalso. rewrite runWalk_app in Hn.
    assert (Hin' : In (WalkDone err
                         (isLimitHit (walker (runWalk (new cfg) pre'))))
                     (trace (walker (runWalk (new cfg) pre')))).
    { rewrite Et. apply in_or_app. right. now left. }
    apply (terminal_stays _ _ mid) in Hin'.
    apply terminals_In in Hin'. rewrite Hn in Hin'. destruct Hin'.
  - rewrite runWalk_app. now apply limit_stays.
Qed.

End WithHost.

End MomentFacts.

(** ** Events do not read the history *)

Module HistoryFacts.
Import JS JSFacts FileSearch WalkerTerms WalkerInvariants WalkerFacts.

Section WithHost.
Context `{Host}.
Variable es : list jsstring.
Variable t : list Effect.

Lemma effect_earlier w x : effect (earlier w es t) x = earlier (effect w x) es t.
Proof. unfold effect, earlier. cbn. now rewrite app_assoc. Qed.

Lemma pushError_earlier w e :
  pushError (earlier w es t) e = earlier (pushError w e) es t.
Proof. unfold pushError, earlier. cbn. now rewrite app_assoc. Qed.

Lemma matchFile_earlier w c :
  matchFile (earlier w es t) c = earlier (matchFile w c) es t.
Proof.
  unfold matchFile.
  change (survives (earlier w es t) c) with (survives w c).
  destruct (survives w c); [|reflexivity]. cbn zeta.
  change (exists_ (config (incResultCount (earlier w es t)))
          || overMaxResults (incResultCount (earlier w es t)))
    with (exists_ (config (incResultCount w))
          || overMaxResults (incResultCount w)).
  destruct (_ || _); [reflexivity|].
  change (isLimitHit (incResultCount (earlier w es t)))
    with (isLimitHit (incResultCount w)).
  destruct (isLimitHit _); [reflexivity|].
  exact (effect_earlier (incResultCount w) (OnResult c)).
Qed.

Lemma rootDone_earlier w r err :
  rootDone (earlier w es t) r err = earlier2 (rootDone w r err) es t.
Proof.
  unfold rootDone, earlier2. destruct (doneCalled r); [reflexivity|].
  cbn [fst snd]. f_equal.
  destruct err as [e|].
  - rewrite pushError_earlier. apply effect_earlier.
  - apply effect_earlier.
Qed.

Lemma matchLines_earlier rootFolder files : forall w,
  matchLines (earlier w es t) rootFolder files
  = earlier (matchLines w rootFolder files) es t.
Proof.
  induction files as [|f files IH]; intros w; cbn [matchLines]; [reflexivity|].
  rewrite matchFile_earlier.
  change (isLimitHit (earlier ?x es t)) with (isLimitHit x).
  destruct (isLimitHit _); [apply effect_earlier|apply IH].
Qed.

Lemma addDirectoryEntries_earlier w tree base files :
  addDirectoryEntries (earlier w es t) tree base files
  = earlier3 (addDirectoryEntries w tree base files) es t.
Proof.
  unfold addDirectoryEntries, earlier3.
  change (filePattern (config (earlier w es t))) with (filePattern (config w)).
  destruct (addAll base tree files) as [tree' ok]. cbn [fst snd]. f_equal. f_equal.
  destruct (filePattern (config w)); [|reflexivity].
  destruct (existsb _ files); [apply matchFile_earlier|reflexivity].
Qed.

Lemma matchDirectory_earlier tree rootFolder fuel : forall w entries,
  matchDirectory fuel tree rootFolder (earlier w es t) entries
  = earlier2 (matchDirectory fuel tree rootFolder w entries) es t.
Proof.
  induction fuel as [|fuel IH]; intros w entries; cbn [matchDirectory];
    [reflexivity|].
  generalize (map basename entries). intros siblings.
  change (incDirectoriesWalked (earlier w es t))
    with (earlier (incDirectoriesWalked w) es t).
  generalize (incDirectoriesWalked w). clear w. intros w. revert w.
  induction entries as [|entry entries IHes]; intros w; [reflexivity|].
  change (folderExclude (config (earlier w es t)) rootFolder
            (relativePath entry) (basename entry)
            (siblingArg (earlier w es t) (basename entry) siblings))
    with (folderExclude (config w) rootFolder (relativePath entry)
            (basename entry) (siblingArg w (basename entry) siblings)).
  destruct (folderExclude _ _ _ _ _); [apply IHes|].
  destruct (tree !! relativePath entry) as [sub|].
  - rewrite IH. unfold earlier2 at 1.
    destruct (matchDirectory fuel tree rootFolder w sub) as [w' ok].
    cbn [fst snd]. destruct ok; cbn [negb]; [|reflexivity].
    change (isLimitHit (earlier w' es t)) with (isLimitHit w').
    destruct (isLimitHit w'); [reflexivity|apply IHes].
  - change (incFilesWalked (earlier w es t))
      with (earlier (incFilesWalked w) es t).
    change (isTheFilePattern (earlier (incFilesWalked w) es t)
              (relativePath entry))
      with (isTheFilePattern (incFilesWalked w) (relativePath entry)).
    destruct (isTheFilePattern _ _); [apply IHes|].
    rewrite matchFile_earlier.
    change (isLimitHit (earlier ?x es t)) with (isLimitHit x).
    destruct (isLimitHit _); [reflexivity|apply IHes].
Qed.

Lemma matchDirectoryTree_earlier w tree rootFolder :
  matchDirectoryTree (earlier w es t) tree rootFolder
  = earlier2 (matchDirectoryTree w tree rootFolder) es t.
Proof. apply matchDirectory_earlier. Qed.

Lemma cmdCallback_earlier w r err stdout last :
  cmdCallback (earlier w es t) r err stdout last
  = earlier3 (cmdCallback w r err stdout last) es t.
Proof.
  unfold cmdCallback.
  destruct err as [e|]; [now rewrite rootDone_earlier|].
  change (isLimitHit (earlier w es t)) with (isLimitHit w).
  destruct (isLimitHit w); [now rewrite rootDone_earlier|].
  change (w_useRipgrep (earlier w es t)) with (w_useRipgrep w).
  match goal with
  | |- context [setSplitState r ?a ?b] => generalize (setSplitState r a b)
  end.
  intros r1.
  match goal with |- context [length ?fs] =>
    match fs with
    | context [removelast] => generalize fs
    end
  end.
  intros files.
  destruct (match files with [] => false | f :: _ => contains f 10 end);
    [now rewrite rootDone_earlier|].
  change (setCmdResultCount (earlier w es t)
            (default 0 (cmdResultCount (earlier w es t)) + length files))
    with (earlier (setCmdResultCount w
                     (default 0 (cmdResultCount w) + length files)) es t).
  generalize (setCmdResultCount w
                (default 0 (cmdResultCount w) + length files)).
  intros w1.
  change (noSiblingsClauses (config (earlier w1 es t)) (folder r1))
    with (noSiblingsClauses (config w1) (folder r1)).
  destruct (w_useRipgrep w && noSiblingsClauses (config w1) (folder r1)).
  - rewrite matchLines_earlier.
    change (isLimitHit (earlier ?x es t)) with (isLimitHit x).
    destruct (last || isLimitHit _); [now rewrite rootDone_earlier|reflexivity].
  - rewrite addDirectoryEntries_earlier. unfold earlier3 at 1.
    destruct (addDirectoryEntries w1 (pathToEntries r1) (folder r1) files)
      as [[w2 tree] ok].
    cbn [fst snd]. destruct ok; cbn [negb]; [|reflexivity].
    destruct last; [|reflexivity].
    rewrite matchDirectoryTree_earlier. unfold earlier2 at 1.
    destruct (matchDirectoryTree w2 tree (folder (setTree r1 tree)))
      as [w3 ok3].
    cbn [fst snd]. destruct ok3; [now rewrite rootDone_earlier|reflexivity].
Qed.

Lemma onData_earlier w r err stdout last :
  onData (earlier w es t) r err stdout last
  = earlier3 (onData w r err stdout last) es t.
Proof.
  unfold onData. destruct (onDataOff r); [reflexivity|].
  apply cmdCallback_earlier.
Qed.

Lemma collectStdout_earlier w r ev :
  collectStdout (earlier w es t) r ev = earlier3 (collectStdout w r ev) es t.
Proof.
  destruct ev as [data|data|e|code|p b sz|]; cbn [collectStdout];
    try reflexivity.
  - rewrite cmdCallback_earlier. unfold earlier3.
    now destruct (cmdCallback w r None data false) as [[w1 r1] ok].
  - apply onData_earlier.
  - change (w_useRipgrep (earlier w es t)) with (w_useRipgrep w).
    destruct (closeFails _ _ _ _); [apply onData_earlier|].
    change (exists_ (config (earlier w es t))) with (exists_ (config w)).
    destruct (w_useRipgrep w && exists_ (config w) && (code =? 0)%Z);
      [|apply onData_earlier].
    exact (onData_earlier (setLimitHit w) r None [] true).
Qed.

Lemma nodeFile_earlier w r p b sz :
  nodeFile (earlier w es t) r p b sz = earlier (nodeFile w r p b sz) es t.
Proof.
  unfold nodeFile.
  change (isCanceled (earlier w es t) || isLimitHit (earlier w es t))
    with (isCanceled w || isLimitHit w).
  destruct (_ || _); [reflexivity|].
  change (incFilesWalked (earlier w es t))
    with (earlier (incFilesWalked w) es t).
  change (isTheFilePattern (earlier (incFilesWalked w) es t) p)
    with (isTheFilePattern (incFilesWalked w) p).
  destruct (isTheFilePattern _ _); [reflexivity|].
  change (w_maxFilesize (earlier (incFilesWalked w) es t))
    with (w_maxFilesize (incFilesWalked w)).
  destruct (w_maxFilesize _) as [m|]; [destruct sz as [s|]|];
    try apply matchFile_earlier.
  destruct (m <? s); [reflexivity|apply matchFile_earlier].
Qed.

(** What an event does to the walker and its root does not depend on
    the errors recorded and the effects done before. *)
Lemma eventStep_earlier w r ev :
  eventStep (earlier w es t) r ev = earlier3 (eventStep w r ev) es t.
Proof.
  unfold eventStep.
  change (traversal (earlier w es t)) with (traversal w).
  destruct (isCmdTraversal _); [apply collectStdout_earlier|].
  destruct ev; try reflexivity.
  - unfold earlier3. cbn [fst snd]. now rewrite nodeFile_earlier.
  - now rewrite rootDone_earlier.
Qed.

End WithHost.

Section Failure.
Context `{Host}.

(** After the failure of a root, an event of another root does what it
    would have done without the failure: the same to its root, to the
    flags and counters, and the same new effects and errors [w1]; only
    the history these are added to has the failure in it. *)
Lemma eventStep_after_failure w r e r' ev :
  doneCalled r = false ->
  exists w1 r1 ok,
    eventStep w r' ev = (earlier w1 (errors w) (trace w), r1, ok)
    /\ eventStep (fst (rootDone w r (Some e))) r' ev
       = (earlier w1 (errors w ++ [e])
            (trace w ++ [RootDone (folder r) (Some e)]),
          r1, ok).
Proof.
  intros Hd.
  set (w0 := {| config := config w;
                normalizedFilePatternLowercase :=
                  normalizedFilePatternLowercase w;
                w_maxResults := w_maxResults w;
                w_maxFilesize := w_maxFilesize w;
                isLimitHit := isLimitHit w; resultCount := resultCount w;
                isCanceled := isCanceled w;
                directoriesWalked := directoriesWalked w;
                filesWalked := filesWalked w; traversal := traversal w;
                errors := []; cmdResultCount := cmdResultCount w;
                trace := [] |}).
  assert (E1 : w = earlier w0 (errors w) (trace w)).
  { destruct w. unfold earlier, w0. cbn. now rewrite !app_nil_r. }
  assert (E2 : fst (rootDone w r (Some e))
               = earlier w0 (errors w ++ [e])
                   (trace w ++ [RootDone (folder r) (Some e)])).
  { unfold rootDone. rewrite Hd. destruct w. unfold earlier, w0. cbn.
    now rewrite !app_nil_r. }
  exists (fst (fst (eventStep w0 r' ev))), (snd (fst (eventStep w0 r' ev))),
    (snd (eventStep w0 r' ev)).
  split.
  - rewrite E1 at 1. now rewrite eventStep_earlier.
  - rewrite E2. now rewrite eventStep_earlier.
Qed.

End Failure.

End HistoryFacts.

(** ** Chunks of a listing *)

Module ChunkFacts.
Import JS JSFacts FileSearch WalkerTerms WalkerInvariants WalkerFacts.

Lemma splitAux_noLF f : forall rest cur,
  noLF f ->
  splitAux [10%N] (f ++ rest) 0 cur = splitAux [10%N] rest 0 (rev f ++ cur).
Proof.
  induction f as [|c f IH]; intros rest cur Hf; [reflexivity|].
  unfold noLF, contains in Hf. cbn [existsb] in Hf.
  apply orb_false_iff in Hf as [Hc Hf].
  cbn [app splitAux startsWith]. rewrite N.eqb_sym, Hc. cbn [andb].
  rewrite IH by exact Hf. cbn [rev]. now rewrite <- app_assoc.
Qed.

Lemma split_listing files : forall partial,
  Forall noLF files -> noLF partial ->
  split [10%N] (listing files ++ partial) = files ++ [partial].
Proof.
  unfold split.
  induction files as [|f files IH]; intros partial Hfs Hp.
  - cbn [listing map concat app].
    rewrite <- (app_nil_r partial) at 1.
    rewrite splitAux_noLF by exact Hp. cbn [splitAux].
    now rewrite app_nil_r, rev_involutive.
  - inversion Hfs as [|? ? Hf Hfs']; subst.
    unfold listing. cbn [map concat]. rewrite <- !app_assoc.
    rewrite splitAux_noLF by exact Hf. cbn [app splitAux startsWith].
    cbn [N.eqb Pos.eqb andb length Nat.sub].
    rewrite app_nil_r, rev_involutive. cbn [app]. f_equal.
    now apply IH.
Qed.

Section WithHost.
Context `{Host}.

(** The tests of [matchFile] read the query and the pattern only. *)
Lemma survives_same w w' c :
  config w' = config w ->
  normalizedFilePatternLowercase w' = normalizedFilePatternLowercase w ->
  survives w' c = survives w c.
Proof. intros Hc Hn. unfold survives, isFilePatternMatch. now rewrite Hc, Hn. Qed.

Lemma matchFile_skips w c : survives w c = false -> matchFile w c = w.
Proof. intros Hs. unfold matchFile. now rewrite Hs. Qed.

(** With the [exists] flag a candidate that passes the tests is counted
    and sets the limit flag; it is not reported. *)
Lemma matchFile_exists w c :
  exists_ (config w) = true -> survives w c = true ->
  matchFile w c = setLimitHit (incResultCount w).
Proof.
  intros He Hs. unfold matchFile. rewrite Hs. cbn zeta.
  cbn [incResultCount config]. rewrite He. reflexivity.
Qed.

(** Lines that do not pass the tests leave the walker as it is. *)
Lemma matchLines_skips rootFolder before : forall w rest,
  isLimitHit w = false ->
  Forall (fun f => survives w (lineCandidate rootFolder f) = false) before ->
  matchLines w rootFolder (before ++ rest) = matchLines w rootFolder rest.
Proof.
  induction before as [|f before IH]; intros w rest Hl Hb; [reflexivity|].
  inversion Hb as [|? ? Hf Hb']; subst.
  cbn [app matchLines].
  change {| base := Some rootFolder; relativePath := f;
            basename := path_basename f; size := None |}
    with (lineCandidate rootFolder f).
  rewrite (matchFile_skips w _ Hf), Hl. now apply IH.
Qed.

(** With the [exists] flag the fast path stops at the first line that
    passes the tests: it counts the candidate, kills the child and looks
    at no further line. *)
Lemma matchLines_exists w rootFolder before c after :
  exists_ (config w) = true -> isLimitHit w = false ->
  Forall (fun f => survives w (lineCandidate rootFolder f) = false) before ->
  survives w (lineCandidate rootFolder c) = true ->
  matchLines w rootFolder (before ++ c :: after)
  = effect (setLimitHit (incResultCount w)) (KillCmd rootFolder).
Proof.
  intros He Hl Hb Hc. rewrite matchLines_skips by assumption.
  cbn [matchLines].
  change {| base := Some rootFolder; relativePath := c;
            basename := path_basename c; size := None |}
    with (lineCandidate rootFolder c).
  now rewrite (matchFile_exists w _ He Hc).
Qed.

(** What the callback of [cmdTraversal] does on the fast path with a
    chunk of whole lines and the beginning of a further one. *)
Lemma cmdCallback_fast w r stdout files partial :
  isLimitHit w = false -> w_useRipgrep w = true ->
  noSiblingsClauses (config w) (folder r) = true ->
  leftover r ++ (if isMacintosh then normalizeNFC stdout else stdout)
  = listing files ++ partial ->
  Forall noLF files -> noLF partial ->
  let w1 := matchLines
              (setCmdResultCount w
                 (default 0 (cmdResultCount w) + length files))
              (folder r) files in
  let r1 := setSplitState r partial (first r) in
  cmdCallback w r None stdout false
  = if isLimitHit w1 then (rootDone w1 r1 None, true) else (w1, r1, true).
Proof.
  intros Hl Hu Hn Heq Hfs Hp. cbn zeta. unfold cmdCallback.
  rewrite Hl, Hu, Heq. cbn [negb andb].
  rewrite split_listing by assumption.
  rewrite last_last, removelast_last.
  assert (Hc : match files with
               | [] => false
               | f :: _ => contains f 10
               end = false).
  { destruct files as [|f files]; [reflexivity|].
    inversion Hfs; subst. assumption. }
  rewrite Hc. cbn [config setCmdResultCount folder setSplitState].
  rewrite Hn. cbn [andb orb]. reflexivity.
Qed.

(** With the [exists] flag, a chunk of the fast path whose first passing
    line is [c]: the earlier lines are passed over, [c] is counted and sets
    the limit flag, the child is killed and the root ends. *)
Lemma cmdCallback_exists w r stdout before c after partial :
  exists_ (config w) = true -> isLimitHit w = false ->
  w_useRipgrep w = true ->
  noSiblingsClauses (config w) (folder r) = true ->
  leftover r ++ (if isMacintosh then normalizeNFC stdout else stdout)
  = listing (before ++ c :: after) ++ partial ->
  Forall noLF (before ++ c :: after) -> noLF partial ->
  Forall (fun f => survives w (lineCandidate (folder r) f) = false) before ->
  survives w (lineCandidate (folder r) c) = true ->
  cmdCallback w r None stdout false
  = (rootDone
       (effect
          (setLimitHit
             (incResultCount
                (setCmdResultCount w
                   (default 0 (cmdResultCount w)
                    + length (before ++ c :: after)))))
          (KillCmd (folder r)))
       (setSplitState r partial (first r)) None,
     true).
Proof.
  intros Hw Hl Hu Hn Heq Hfs Hp Hb Hc.
  rewrite (cmdCallback_fast w r stdout (before ++ c :: after) partial)
    by assumption.
  rewrite matchLines_exists; [reflexivity|exact Hw|exact Hl|exact Hb|exact Hc].
Qed.

(** The same chunk as an event of the walk over the roots. *)
Lemma walkEvent_exists s i r stdout before c after partial :
  stuck s = false -> roots s !! i = Some r ->
  isCmdTraversal (traversal (walker s)) = true ->
  exists_ (config (walker s)) = true -> isLimitHit (walker s) = false ->
  w_useRipgrep (walker s) = true ->
  noSiblingsClauses (config (walker s)) (folder r) = true ->
  leftover r ++ (if isMacintosh then normalizeNFC stdout else stdout)
  = listing (before ++ c :: after) ++ partial ->
  Forall noLF (before ++ c :: after) -> noLF partial ->
  Forall (fun f => survives (walker s) (lineCandidate (folder r) f) = false)
    before ->
  survives (walker s) (lineCandidate (folder r) c) = true ->
  let s' := walkEvent s i (Stdout stdout) in
  isLimitHit (walker s') = true
  /\ resultCount (walker s') = S (resultCount (walker s))
  /\ results (trace (walker s')) = results (trace (walker s))
  /\ In (KillCmd (folder r)) (trace (walker s'))
  /\ (exists r', roots s' !! i = Some r' /\ doneCalled r' = true)
  /\ stuck s' = false.
Proof.
  intros Hst Hr Hcmd Hw Hl Hu Hn Heq Hfs Hp Hb Hc. cbn zeta.
  unfold walkEvent. rewrite Hst, Hr. unfold eventStep. rewrite Hcmd.
  cbn [collectStdout].
  rewrite (cmdCallback_exists (walker s) r stdout before c after partial)
    by assumption.
  assert (Hi : i < length (roots s)) by (eapply lookup_lt_Some; exact Hr).
  unfold rootDone. cbn [doneCalled setSplitState].
  destruct (doneCalled r) eqn:Ed; cbn [walker roots stuck negb];
    unfold finishIfAllDone; destruct (_ && _);
    cbn [effect isLimitHit resultCount trace setLimitHit incResultCount
         setCmdResultCount];
    rewrite ?results_app; cbn [results app]; rewrite ?app_nil_r;
    (repeat apply conj; try reflexivity;
     [ rewrite ?in_app_iff; cbn [In]; tauto
     | eexists; split; [apply list_lookup_insert_eq; exact Hi|];
       cbn [setGotData setOutcome doneCalled setSplitState]; try exact Ed;
       reflexivity ]).
Qed.

End WithHost.

End ChunkFacts.

(** ** The text search engine: empty queries and the close of the child *)

Module EngineFacts.
Import JS JSFacts Ripgrep EngineTerms RipgrepFacts EngineCap.

Lemma terminals_app t1 t2 : terminals (t1 ++ t2) = terminals t1 ++ terminals t2.
Proof.
  induction t1 as [|x t1 IH]; [reflexivity|].
  destruct x; cbn [app terminals]; rewrite ?IH; reflexivity.
Qed.

Section Engine.
Variable toUpperCase : jsstring -> jsstring.
Variable path_isAbsolute : jsstring -> bool.
Variable path_join : jsstring -> jsstring -> jsstring.
Variable isWindows : bool.
Variable getRgArgs : IRawSearch -> list jsstring.
Variable siblingClauses : IRawSearch -> option (jsstring -> bool).
Variable rgCmd : IRawSearch -> jsstring.

Local Abbreviation search := (search isWindows getRgArgs siblingClauses rgCmd).
Local Abbreviation onStdoutData := (onStdoutData path_isAbsolute path_join).
Local Abbreviation onClose := (onClose toUpperCase path_isAbsolute path_join).
Local Abbreviation step := (step toUpperCase path_isAbsolute path_join).
Local Abbreviation runSearch :=
  (runSearch toUpperCase path_isAbsolute path_join isWindows getRgArgs
     siblingClauses rgCmd).

Lemma answered_step e i : answered e -> answered (step e i).
Proof.
  intros (Hp & Hr & Hs & Ht). unfold Ripgrep.step.
  destruct (thrown e); [now repeat split|].
  destruct i as [d|m|code tail|]; cbn.
  - unfold Ripgrep.onStdoutData, withParser. rewrite Hp. cbn. now repeat split.
  - repeat split; cbn; [exact Hp| | |].
    + now rewrite engine_results_app, Hr.
    + now rewrite existsb_app, Hs.
    + now rewrite terminals_app, Ht.
  - unfold Ripgrep.onClose, withParser. rewrite Hp. cbn. now repeat split.
  - unfold cancel. cbn. rewrite Hp. now repeat split.
Qed.

Lemma answered_run e inputs : answered e -> answered (fold_left step inputs e).
Proof.
  revert e. induction inputs as [|i inputs IH]; intros e He; [exact He|].
  cbn [fold_left]. apply IH. now apply answered_step.
Qed.

(** The listeners leave what the child has written alone. *)
Lemma onParserEvent_fields e ev :
  stderr (onParserEvent e ev) = stderr e
  /\ gotData (onParserEvent e ev) = gotData e.
Proof.
  unfold onParserEvent. destruct (thrown e) eqn:Et; [now split|].
  destruct ev as [m|].
  - unfold onParserResult. destruct (postProcessExclusions e) as [x|];
      [destruct (x (Parser.path m))|]; split; reflexivity.
  - unfold onHitLimit, cancel. cbn.
    destruct (ripgrepParser e); cbn; [|now split].
    destruct (rgProc e); cbn; rewrite ?Et; now split.
Qed.

Lemma deliver_fields fired : forall e,
  stderr (fold_left onParserEvent fired e) = stderr e
  /\ gotData (fold_left onParserEvent fired e) = gotData e.
Proof.
  induction fired as [|ev fired IH]; intros e; [now split|].
  cbn [fold_left]. destruct (IH (onParserEvent e ev)) as [-> ->].
  apply onParserEvent_fields.
Qed.

Lemma withParser_fields e call :
  stderr (withParser e call) = stderr e
  /\ gotData (withParser e call) = gotData e.
Proof.
  unfold withParser. destruct (ripgrepParser e) as [p|]; [|now split].
  set (e' := fold_left _ _ _).
  assert (stderr e' = stderr e /\ gotData e' = gotData e) as [E1 E2]
    by (unfold e'; now rewrite (proj1 (deliver_fields _ _)),
                               (proj2 (deliver_fields _ _))).
  destruct (call p); [now split|]. destruct (thrown e'); now split.
Qed.

(** The terminal of a search that was still running when the child
    closed. *)
Lemma onClose_terminal e code tail :
  let e' := withParser e (fun p => Parser.flush path_isAbsolute path_join p tail) in
  thrown e' = None -> isDone e' = false ->
  trace (onClose e code tail)
  = trace e' ++ [RemoveExitListener;
                 Done (closeError toUpperCase (stderr e) (gotData e))
                      {| limitHit := false; stats := None |}].
Proof.
  intros e' Ht Hd. unfold Ripgrep.onClose. fold e'. rewrite Ht. cbn.
  rewrite Hd. cbn. rewrite <- app_assoc.
  destruct (withParser_fields e
              (fun p => Parser.flush path_isAbsolute path_join p tail)) as [E1 E2].
  fold e' in E1, E2. rewrite E1, E2. reflexivity.
Qed.

End Engine.
End EngineFacts.

(** ** Empty text queries *)

Module TextClaims.
Import JS JSFacts Ripgrep EngineTerms RipgrepFacts EngineCap EngineFacts.

(** C10: a text search whose folder queries and extra files are both
    empty spawns no child process and hands over no match; [search]
    answers at once with a success terminal whose [limitHit] is false, and
    whatever reaches the engine afterwards adds neither a match, nor a
    process, nor a second terminal. *)
Theorem empty_query_answers_at_once
    (toUpperCase : jsstring -> jsstring) (path_isAbsolute : jsstring -> bool)
    (path_join : jsstring -> jsstring -> jsstring) (isWindows : bool)
    (getRgArgs : IRawSearch -> list jsstring)
    (siblingClauses : IRawSearch -> option (jsstring -> bool))
    (rgCmd : IRawSearch -> jsstring) (cfg : IRawSearch) :
  folderQueries cfg = [] -> extraFiles cfg = [] ->
  trace (search isWindows getRgArgs siblingClauses rgCmd (new cfg))
  = [RemoveExitListener;
     Done None {| limitHit := false; stats := Some (lit "searchProcess") |}]
  /\ rgProc (search isWindows getRgArgs siblingClauses rgCmd (new cfg)) = false
  /\ forall inputs,
       let e := runSearch toUpperCase path_isAbsolute path_join isWindows
                  getRgArgs siblingClauses rgCmd cfg inputs in
       results (trace e) = []
       /\ existsb isSpawn (trace e) = false
       /\ terminals (trace e)
          = [(None, {| limitHit := false;
                       stats := Some (lit "searchProcess") |})].
Proof.
  intros Hf He.
  assert (E : search isWindows getRgArgs siblingClauses rgCmd (new cfg)
              = effect (effect (new cfg) RemoveExitListener)
                  (Done None {| limitHit := false;
                                stats := Some (lit "searchProcess") |})).
  { unfold search. cbn [new config]. now rewrite Hf, He. }
  rewrite E. split; [reflexivity|]. split; [reflexivity|].
  intros inputs e.
  assert (Ha : answered e).
  { unfold e, runSearch. rewrite E. apply answered_run. now repeat split. }
  destruct Ha as (_ & Hr & Hs & Ht). now repeat split.
Qed.

Lemma empty_query_answers_at_once_witness :
  trace (search false TextExample.getRgArgs (fun _ => None) TextExample.rgCmd
           (new TextExample.emptyQuery))
  = [RemoveExitListener;
     Done None {| limitHit := false; stats := Some (lit "searchProcess") |}].
Proof.
  apply (empty_query_answers_at_once TextExample.toUpperCase
           PosixHost.isAbsolute PosixHost.join false TextExample.getRgArgs
           (fun _ => None) TextExample.rgCmd TextExample.emptyQuery);
    reflexivity.
Defined.

End TextClaims.

(** ** The end of the child process *)

Module CloseClaims.
Import JS JSFacts Ripgrep EngineTerms RipgrepFacts EngineCap EngineFacts.




End CloseClaims.

(** ** The cache of sorted searches *)

Module CacheFacts.
Import JS JSFacts FileSearch RawSearch.

Section WithHost.
Context `{Host}.

Lemma narrows_spec (searchValue previousSearch : jsstring) :
  narrows searchValue previousSearch = true
  <-> startsWith searchValue previousSearch = true
      /\ (contains searchValue path_sep = true ->
          contains previousSearch path_sep = true).
Proof.
  unfold narrows. rewrite andb_true_iff, negb_true_iff, andb_false_iff,
    negb_false_iff.
  destruct (contains searchValue path_sep), (contains previousSearch path_sep);
    intuition congruence.
Qed.

Lemma findRow_some cache searchValue :
  findRow cache searchValue <> None
  <-> exists previousSearch row,
        In (previousSearch, row) cache
        /\ narrows searchValue previousSearch = true.
Proof.
  induction cache as [|[k r] cache IH]; cbn [findRow].
  - split; [congruence|]. intros (? & ? & [] & _).
  - destruct (narrows searchValue k) eqn:En.
    + split; [|congruence]. intros _. exists k, r. split; [now left|exact En].
    + rewrite IH. split.
      * intros (k' & r' & Hin & Hn). exists k', r'. split; [now right|exact Hn].
      * intros (k' & r' & [Heq|Hin] & Hn).
        -- injection Heq as <- <-. congruence.
        -- now exists k', r'.
Qed.

Lemma findRow_first pre previousSearch row post searchValue :
  (forall kr, In kr pre -> narrows searchValue (fst kr) = false) ->
  narrows searchValue previousSearch = true ->
  findRow (pre ++ (previousSearch, row) :: post) searchValue = Some row.
Proof.
  intros Hpre Hn. induction pre as [|[k r] pre IH]; cbn [app findRow].
  - now rewrite Hn.
  - pose proof (Hpre (k, r) (or_introl eq_refl)) as Hk. cbn [fst] in Hk.
    rewrite Hk. apply IH. intros kr Hin. apply Hpre. now right.
Qed.

End WithHost.
End CacheFacts.

(** ** Reuse of cached results *)

Module CacheClaims.
Import JS JSFacts FileSearch RawSearch CacheFacts.




End CacheClaims.

(** ** Batching *)

Module CollectorClaims.
Import RawSearch.Collector CollectorTerms.

(** C7, as the spec has it, fails: the warm-up threshold counts the sizes
    handed over with the items, not the items.  After one item of size 60
    the second addition is held back with the timer running, although only
    two items have been collected. *)
Lemma threshold_counts_sizes :
  let c := addItem (addItem (new 512) 1 60) 2 1 in
  delivered c = [Many [1]] /\ batch c = [2] /\ timer c = Some 4000
  /\ itemsCollected c = 2.
Proof. vm_compute. repeat split. Qed.

(** C7, amended: for a collector with a positive maximum batch size and
    an addition of positive size.  While the sizes flushed so far total
    less than 50, the addition is flushed at once together with what the
    batch holds.  From then on it is flushed at once when the batch
    reaches the maximum batch size, and otherwise kept, with a timer of 4
    seconds started unless one is running; when the timer fires the batch
    is flushed.  A flush hands over the batch, empties it, clears the
    timer and adds the size of the batch to the running total. *)
Theorem collector_batches_after_warm_up {T : Type}
    (c : BatchedCollector T) (item : T) (size : nat) :
  (0 < maxBatchSize c)%Z -> 0 < size ->
  let flushed (c' : BatchedCollector T) (items : list T) (n : nat) :=
    delivered c' = delivered c ++ [Many items]
    /\ batch c' = [] /\ batchSize c' = 0
    /\ timeoutHandle c' = false
    /\ timer c' = (if timeoutHandle c then None else timer c)
    /\ totalNumberCompleted c' = totalNumberCompleted c + n in
  (totalNumberCompleted c < START_BATCH_AFTER_COUNT ->
   flushed (addItem c item size) (batch c ++ [item]) (batchSize c + size))
  /\ (START_BATCH_AFTER_COUNT <= totalNumberCompleted c ->
      (maxBatchSize c <= Z.of_nat (batchSize c + size))%Z ->
      flushed (addItem c item size) (batch c ++ [item]) (batchSize c + size))
  /\ (START_BATCH_AFTER_COUNT <= totalNumberCompleted c ->
      (Z.of_nat (batchSize c + size) < maxBatchSize c)%Z ->
      let c' := addItem c item size in
      delivered c' = delivered c
      /\ batch c' = batch c ++ [item] /\ batchSize c' = batchSize c + size
      /\ totalNumberCompleted c' = totalNumberCompleted c
      /\ timeoutHandle c' = true
      /\ timer c' = (if timeoutHandle c then timer c else Some TIMEOUT))
  /\ (0 < batchSize c -> flushed (flush c) (batch c) (batchSize c))
  /\ (0 < batchSize c -> timer c <> None ->
      let c' := timerFires c in
      delivered c' = delivered c ++ [Many (batch c)]
      /\ batch c' = [] /\ batchSize c' = 0 /\ timer c' = None
      /\ totalNumberCompleted c' = totalNumberCompleted c + batchSize c).
Proof.
  intros Hmax Hsize flushed.
  assert (Hb : (0 <? maxBatchSize c)%Z = true) by now apply Z.ltb_lt.
  assert (Hs : (0 <? batchSize c + size) = true) by (apply Nat.ltb_lt; lia).
  split; [|split; [|split; [|split]]].
  - intros Hlt. unfold addItem, addToBatch, onUpdate. rewrite Hb. collectorFields.
    apply Nat.ltb_lt in Hlt. rewrite Hlt. unfold flush. collectorFields. rewrite Hs.
    unfold flushed. collectorFields. now repeat split.
  - intros Hge Hfull. unfold addItem, addToBatch, onUpdate. rewrite Hb. collectorFields.
    apply Nat.ltb_ge in Hge. rewrite Hge.
    apply Z.leb_le in Hfull. rewrite Hfull. unfold flush. collectorFields. rewrite Hs.
    unfold flushed. collectorFields. now repeat split.
  - intros Hge Hroom. unfold addItem, addToBatch, onUpdate. rewrite Hb. collectorFields.
    apply Nat.ltb_ge in Hge. rewrite Hge.
    apply Z.leb_gt in Hroom. rewrite Hroom.
    destruct (timeoutHandle c) eqn:Eh; cbn [negb]; collectorFields; rewrite ?Eh;
      now repeat split.
  - intros Hpos. unfold flush. apply Nat.ltb_lt in Hpos. rewrite Hpos.
    unfold flushed. collectorFields. now repeat split.
  - intros Hpos Ht. unfold timerFires, flush.
    destruct (timer c) as [t|]; [|congruence]. collectorFields.
    apply Nat.ltb_lt in Hpos. rewrite Hpos. collectorFields.
    destruct (timeoutHandle c); now repeat split.
Qed.

Lemma collector_batches_after_warm_up_witness :
  delivered (addItem (new 512) 7 1) = [Many [7]].
Proof.
  refine (proj1 (proj1 (collector_batches_after_warm_up (new 512) 7 1 _ _) _));
    vm_compute; [reflexivity|lia|lia].
Defined.

End CollectorClaims.

(** ** Matching the directory tree *)

Module TreeFacts.
Import JS JSFacts FileSearch WalkerTerms WalkerInvariants WalkerFacts.

Section WithHost.
Context `{Host}.

Lemma reportedSince_refl fp w : reportedSince fp w w.
Proof. split; [reflexivity|]. exists []. now rewrite app_nil_r. Qed.

Lemma config_matchFile w c : config (matchFile w c) = config w.
Proof.
  unfold matchFile. destruct (survives w c); [|reflexivity].
  destruct (_ || _); cbn; [reflexivity|]. destruct (isLimitHit w); reflexivity.
Qed.

Lemma reportedSince_matchFile fp w0 w c :
  relativePath c <> fp -> reportedSince fp w0 w ->
  reportedSince fp w0 (matchFile w c).
Proof.
  intros Hc (Hcfg & rest & Hr & Hrest). split.
  - now rewrite config_matchFile.
  - destruct (matchFile_trace w c) as [Et|Et]; rewrite Et.
    + now exists rest.
    + exists (rest ++ [c]). rewrite results_app, Hr, <- app_assoc.
      split; [reflexivity|]. apply Forall_app. split; [exact Hrest|].
      now constructor.
Qed.

(** The descent through the tree leaves the file pattern's own path
    out. *)
Lemma matchDirectory_skips fp tree folder w0 fuel : forall w entries,
  filePattern (config w0) = Some fp ->
  reportedSince fp w0 w ->
  reportedSince fp w0 (fst (matchDirectory fuel tree folder w entries)).
Proof.
  induction fuel as [|fuel IH]; intros w entries Hfp Hw;
    cbn [matchDirectory fst]; [exact Hw|].
  generalize (map basename entries). intros siblings.
  assert (Hw' : reportedSince fp w0 (incDirectoriesWalked w)) by exact Hw.
  revert Hw'. generalize (incDirectoriesWalked w). clear Hw w.
  induction entries as [|entry es IHes]; intros w Hw; [exact Hw|].
  destruct (folderExclude _ _ _ _ _); [now apply IHes|].
  destruct (tree !! relativePath entry) as [sub|].
  - specialize (IH w sub Hfp Hw).
    destruct (matchDirectory fuel tree folder w sub) as [w' ok]. cbn [fst] in IH.
    destruct ok; cbn [negb]; [|exact IH].
    destruct (isLimitHit w'); [exact IH|now apply IHes].
  - destruct (isTheFilePattern _ _) eqn:Ep.
    + apply IHes. exact Hw.
    + assert (Hne : relativePath entry <> fp).
      { unfold isTheFilePattern in Ep. cbn [incFilesWalked config] in Ep.
        rewrite (proj1 Hw), Hfp in Ep. now apply eqb_neq. }
      assert (Hm : reportedSince fp w0 (matchFile (incFilesWalked w) entry))
        by (apply reportedSince_matchFile; [exact Hne|exact Hw]).
      destruct (isLimitHit (matchFile (incFilesWalked w) entry)).
      * exact Hm.
      * now apply IHes.
Qed.

End WithHost.
End TreeFacts.

(** ** The literal file pattern *)

Module TreeClaims.
Import JS JSFacts FileSearch WalkerTerms WalkerInvariants WalkerFacts
  TreeFacts.

(** C9: when the listing of a root holds the file pattern as a relative
    path, and that candidate passes the pattern and include tests while
    the limit is not reached, the directory-tree matching reports it,
    whatever the excludes say about it and its siblings, and reports it
    once: the descent through the tree reports no entry with that path. *)
Theorem literal_file_pattern_reported_once `{Host}
    (w : FileWalker) (tree : gmap jsstring (list IRawFileMatch))
    (rootFolder : jsstring) (relativeFiles : list jsstring) (fp : jsstring) :
  let candidate := {| base := Some rootFolder; relativePath := fp;
                      basename := path_basename fp; size := None |} in
  filePattern (config w) = Some fp ->
  In fp relativeFiles ->
  survives w candidate = true ->
  exists_ (config w) = false ->
  isLimitHit w = false ->
  overMaxResults (incResultCount w) = false ->
  let '(w1, tree1, _) := addDirectoryEntries w tree rootFolder relativeFiles in
  results (trace w1) = results (trace w) ++ [candidate]
  /\ forall fuel entries,
       exists rest,
         results (trace (fst (matchDirectory fuel tree1 rootFolder w1 entries)))
         = results (trace w) ++ candidate :: rest
         /\ Forall (fun m => relativePath m <> fp) rest.
Proof.
  intros candidate Hfp Hin Hs He Hl Hm.
  unfold addDirectoryEntries. rewrite Hfp.
  assert (Hex : existsb (eqb fp) relativeFiles = true).
  { apply existsb_exists. exists fp. split; [exact Hin|apply eqb_refl]. }
  rewrite Hex. destruct (addAll rootFolder tree relativeFiles) as [tree1 ok].
  fold candidate.
  assert (Em : matchFile w candidate = effect (incResultCount w) (OnResult candidate)).
  { unfold matchFile. rewrite Hs. cbn zeta. cbn [incResultCount config].
    rewrite He. cbn [orb]. rewrite Hm. cbn [isLimitHit incResultCount].
    now rewrite Hl. }
  rewrite Em.
  assert (Er : results (trace (effect (incResultCount w) (OnResult candidate)))
               = results (trace w) ++ [candidate]).
  { cbn [effect trace incResultCount]. now rewrite results_app. }
  split; [exact Er|]. intros fuel entries.
  destruct (matchDirectory_skips fp tree1 rootFolder
              (effect (incResultCount w) (OnResult candidate)) fuel
              (effect (incResultCount w) (OnResult candidate)) entries)
    as (_ & rest & Hr & Hrest); [exact Hfp|apply reportedSince_refl|].
  exists rest. rewrite Hr, Er, <- app_assoc. now split.
Qed.

#[local] Existing Instance PosixHost.host.

Lemma literal_file_pattern_reported_once_witness :
  results (trace (walker (runWalk 
                            (new WalkExample.siblingQuery)
                            [(0, Stdout (WalkExample.lines [lit "x.ts"; lit "x.js"]));
                             (0, Close 0)])))
  = [WalkExample.file "/ws" "x.js"]
  /\ results (trace (fst (fst (addDirectoryEntries
                                 (new WalkExample.siblingQuery)
                                 initDirectoryTree (lit "/ws")
                                 [lit "x.ts"; lit "x.js"]))))
     = [WalkExample.file "/ws" "x.js"].
Proof.
  split; [vm_compute; reflexivity|].
  pose proof (literal_file_pattern_reported_once
                (new WalkExample.siblingQuery) initDirectoryTree (lit "/ws")
                [lit "x.ts"; lit "x.js"] (lit "x.js")) as Hc.
  cbv zeta in Hc.
  destruct (addDirectoryEntries _ _ _ _) as [[w1 tree1] ok].
  cbn [fst].
  apply Hc; try reflexivity.
  right. left. reflexivity.
Defined.

End TreeClaims.

(** ** The exists flag *)

Module ExistsClaims.
Import JS JSFacts FileSearch WalkerTerms WalkerInvariants WalkerFacts
  WalkFacts TerminalFacts MomentFacts ChunkFacts.


#[local] Existing Instance PosixHost.host.


End ExistsClaims.

(** ** A failing root among others *)

Module ErrorClaims.
Import JS JSFacts FileSearch RawSearch WalkerTerms WalkerInvariants
  WalkerFacts WalkFacts ServiceTerms ServiceFacts.

#[local] Existing Instance PosixHost.host.

(** C4, as the spec has it, fails: with two roots, the first failing and
    the second reporting a match, the walk ends with the first root's
    error, and the service answers with the error item, not with a success
    item, although a match was produced and forwarded. *)
Lemma root_error_beats_matches :
  fileSearch ServiceExample.compareItemsByScore ∅
    (FileSearchEngine ServiceExample.failingRoot)
    (WalkExample.query [lit "/a"; lit "/b"] None false) None
  = ([SProgress (lit "rg --files - cwd: /a");
      SProgress (lit "rg --files - cwd: /b");
      SBatch [lit "/b/f1"]],
     Some (Error (lit "command failed with error code 2: error parsing glob x"))).
Proof. vm_compute. reflexivity. Qed.

End ErrorClaims.

(** ** The first terminal call of an engine *)

Module ErrorFacts.
Import JS JSFacts FileSearch RawSearch ServiceTerms ServiceFacts.

Lemma firstFinished_app engine rest :
  firstFinished engine = None ->
  firstFinished (engine ++ rest) = firstFinished rest.
Proof.
  induction engine as [|o engine IH]; [reflexivity|].
  destruct o; cbn [app firstFinished]; auto. discriminate.
Qed.

End ErrorFacts.

(** ** Errors of a root *)

Module PropagationClaims.
Import JS JSFacts FileSearch RawSearch WalkerTerms WalkerInvariants
  WalkerFacts WalkFacts TerminalFacts MomentFacts HistoryFacts ServiceTerms
  ServiceFacts ErrorFacts.

(** C4, amended: a root that fails ends, and only it.  Its failure
    sets the outcome of this root and is noted by the walker; an event of
    one root changes no other root, and after the failure an event of
    another root does what it would have done without it, so the other
    roots go on, and the close of a root's child ends that root.  The
    walk has made its terminal call exactly if every root has reported:
    one call, the last thing the walker has done at that moment, with the
    first error in the order of the roots and the limit flag of that
    moment.  [doSearch] rejects with that error whether or not matches
    were produced; what was found before the terminal call is still
    forwarded, and [fileSearch] then answers with the error item in place
    of a success item. *)
Theorem root_error_reaches_terminal `{Host}
    (compareItemsByScore : option jsstring -> IRawFileMatch -> IRawFileMatch -> Z) :
  (forall w r e,
     doneCalled r = false ->
     rootDone w r (Some e)
     = (effect (pushError w e) (RootDone (folder r) (Some e)),
        setOutcome r (Some e)))
  /\ (forall s i j ev, i <> j -> roots (walkEvent s i ev) !! j = roots s !! j)
  /\ (forall w r e r' ev,
        doneCalled r = false ->
        exists w1 r1 ok,
          eventStep w r' ev = (earlier w1 (errors w) (trace w), r1, ok)
          /\ eventStep (fst (rootDone w r (Some e))) r' ev
             = (earlier w1 (errors w ++ [e])
                  (trace w ++ [RootDone (folder r) (Some e)]),
                r1, ok))
  /\ (forall w r code,
        settledRoot r -> onDataOff r = false ->
        snd (collectStdout w r (Close code)) = true ->
        outcome (snd (fst (collectStdout w r (Close code)))) <> None)
  /\ (forall cfg schedule,
        let s := runWalk (new cfg) schedule in
        (allDone (roots s) = false -> terminals (trace (walker s)) = [])
        /\ (allDone (roots s) = true ->
            exists l,
              terminals (trace (walker s)) = [(firstError (roots s), l)]))
  /\ (forall cfg schedule err l,
        In (WalkDone err l) (trace (walker (runWalk (new cfg) schedule))) ->
        exists pre post t,
          schedule = pre ++ post
          /\ trace (walker (runWalk (new cfg) pre)) = t ++ [WalkDone err l]
          /\ terminals t = []
          /\ allDone (roots (runWalk (new cfg) pre)) = true
          /\ err = firstError (roots (runWalk (new cfg) pre))
          /\ l = isLimitHit (walker (runWalk (new cfg) pre)))
  /\ (forall cfg schedule,
        length (terminals (trace (walker (runWalk (new cfg) schedule)))) <= 1)
  /\ (forall engine e complete rest batchSize,
        firstFinished engine = None ->
        settled (doSearch (engine ++ Finished (Some e) complete :: rest) batchSize)
        = Rejected e
        /\ flatMatches (progress (doSearch (engine ++ [Finished (Some e) complete])
                                    batchSize))
           = matchesOf engine)
  /\ (forall caches EngineClass cfg batchSize engine e complete rest,
        sortByScore cfg = false ->
        EngineClass cfg = engine ++ Finished (Some e) complete :: rest ->
        firstFinished engine = None ->
        snd (fileSearch compareItemsByScore caches EngineClass cfg batchSize)
        = Some (Error e)).
Proof.
  assert (Hs : forall engine e complete rest batchSize,
             firstFinished engine = None ->
             settled (doSearch (engine ++ Finished (Some e) complete :: rest)
                        batchSize) = Rejected e).
  { intros engine e complete rest batchSize Hn.
    now rewrite doSearch_settled, firstFinished_app. }
  repeat apply conj.
  - intros w r e Hd. now apply rootDone_error.
  - intros s i j ev Hij. now apply walkEvent_other.
  - intros w r e r' ev. apply eventStep_after_failure.
  - intros w r code. apply close_ends_root.
  - intros cfg schedule s.
    destruct (runWalk_completes cfg schedule) as (_ & Hno & Hyes).
    split; assumption.
  - intros cfg schedule err l Hin.
    destruct (runWalk_moment cfg schedule err l Hin)
      as (pre & post & t & E & Et & Hn & Hl & Ha & He).
    exists pre, post, t. auto 10.
  - intros cfg schedule. apply runWalk_oneTerminal.
  - intros engine e complete rest batchSize Hn. split; [now apply Hs|].
    now apply doSearch_finished.
  - intros caches EngineClass cfg batchSize engine e complete rest Hsort HE Hn.
    unfold fileSearch, doFileSearch. rewrite Hsort, HE. cbn [snd].
    now rewrite Hs.
Qed.

#[local] Existing Instance PosixHost.host.

Lemma root_error_reaches_terminal_witness :
  snd (fileSearch ServiceExample.compareItemsByScore ∅
         (FileSearchEngine ServiceExample.failingRoot)
         (WalkExample.query [lit "/a"; lit "/b"] None false) None)
  = Some (Error (lit "command failed with error code 2: error parsing glob x")).
Proof.
  refine (proj2 (proj2 (proj2 (proj2 (proj2 (proj2 (proj2 (proj2
            (root_error_reaches_terminal
               ServiceExample.compareItemsByScore))))))))
            ∅ (FileSearchEngine ServiceExample.failingRoot)
            (WalkExample.query [lit "/a"; lit "/b"] None false) None
            [Progress (lit "rg --files - cwd: /a");
             Progress (lit "rg --files - cwd: /b");
             Match (WalkExample.file "/b" "f1")]
            (lit "command failed with error code 2: error parsing glob x")
            {| e_limitHit := false;
               e_stats := {| st_traversal := Ripgrep; st_directoriesWalked := 0;
                             st_filesWalked := 0; st_cmdResultCount := Some 1 |} |}
            [] _ _ _); vm_compute; reflexivity.
Defined.

End PropagationClaims.

(** ** Cancellation *)

Module CancelClaims.
Import JS.

#[local] Existing Instance PosixHost.host.

(** C3 does not hold of the code.  Text search: the child has printed a
    file and a match line when the search is cancelled; nothing has been
    reported yet, [cancel()] marks engine and parser as done and kills the
    child, and the flush at the close of the child then reports the
    pending file match.  File search: after [cancel()] a chunk of the
    child's output is still matched and reported. *)
Theorem cancelled_search_still_reports :
  let e1 := TextExample.runSearch (TextExample.query None)
              [Ripgrep.StdoutData
                 (TextExample.fileLine ++ TextExample.matchLine)] in
  let e2 := TextExample.step e1 Ripgrep.Cancel in
  let e3 := TextExample.step e2 (Ripgrep.Close 0 []) in
  let s1 := FileSearch.cancelWalk
              (FileSearch.runWalk
                 (FileSearch.new (WalkExample.query [lit "/ws"] None false)) []) in
  let s2 := FileSearch.walkEvent s1 0
              (FileSearch.Stdout (WalkExample.lines [lit "a.txt"])) in
  (Ripgrep.results (Ripgrep.trace e1) = []
   /\ Ripgrep.isDone e2 = true
   /\ option_map Parser.isDone (Ripgrep.ripgrepParser e2) = Some true
   /\ Ripgrep.trace e2 = Ripgrep.trace e1 ++ [Ripgrep.Kill]
   /\ map Parser.path (Ripgrep.results (Ripgrep.trace e3)) = [lit "/file.txt"]
   /\ map Parser.numMatches (Ripgrep.results (Ripgrep.trace e3)) = [2])
  /\ (FileSearch.isCanceled (FileSearch.walker s1) = true
      /\ FileSearch.results (FileSearch.trace (FileSearch.walker s1)) = []
      /\ FileSearch.results (FileSearch.trace (FileSearch.walker s2))
         = [WalkExample.file "/ws" "a.txt"]).
Proof. vm_compute. repeat split. Qed.

End CancelClaims.

(** ** Limits the walker and the parser do not keep *)

Module LimitClaims.
Import JS JSFacts FileSearch RawSearch WalkerTerms WalkerInvariants
  WalkerFacts WalkFacts ServiceTerms ServiceFacts ErrorFacts.

#[local] Existing Instance PosixHost.host.


End LimitClaims.

(** ** What reaches the progress callback *)

Module CapFacts.
Import JS JSFacts FileSearch RawSearch WalkerTerms WalkerInvariants
  WalkerFacts WalkFacts ServiceTerms ServiceFacts ErrorFacts.

Section WithHost.
Context `{Host}.
Variable compareItemsByScore :
  option jsstring -> IRawFileMatch -> IRawFileMatch -> Z.

(** What a sorted search hands to the progress callback. *)
Lemma sorted_items_total K caches EngineClass cfg cancelled batchSize :
  sortByScore cfg = true -> maxResults cfg = Some K ->
  totalMatches (fst (fst (doFileSearch compareItemsByScore caches EngineClass
                            cfg cancelled batchSize))) <= K.
Proof.
  intros Hs Hm. unfold doFileSearch. rewrite Hs.
  destruct (trySortedSearchFromCache _ _ _ _) as [sortedSearch|] eqn:Ec.
  - destruct sortedSearch as [[result rawMatches]|err|]; cbn [fst];
      try (cbn; lia).
    rewrite app_nil_l, sendProgress_total, length_map.
    unfold trySortedSearchFromCache in Ec.
    destruct (lookupCache _ _); [|discriminate].
    destruct (filePattern cfg); [|discriminate].
    destruct (getResultsFromCache _ _ _) as [got|]; [|discriminate].
    destruct got as [[[complete rs] st]|e|]; try discriminate.
    injection Ec as _ <-. now apply sortResults_length.
  - unfold doSortedSearch.
    set (engine := EngineClass _).
    pose proof (allResultsPromise_passedOn engine) as Hp.
    destruct (allResultsPromise engine) as [passedOn all]. cbn [fst] in Hp.
    destruct all as [[result results]|err|]; cbn [sortedAnswer fst];
      try lia.
    rewrite totalMatches_app, Hp, sendProgress_total, length_map.
    cbn. now apply sortResults_length.
Qed.

(** What an unsorted search whose engine ends with its terminal call
    hands to the progress callback. *)
Lemma unsorted_items_total K caches cfg schedule cancelled batchSize pre err c :
  1 <= K -> sortByScore cfg = false -> maxResults cfg = Some K ->
  FileSearchEngine schedule cfg = pre ++ [Finished err c] ->
  firstFinished pre = None ->
  totalMatches (fst (fst (doFileSearch compareItemsByScore caches
                            (FileSearchEngine schedule) cfg cancelled
                            batchSize))) <= K.
Proof.
  intros HK Hs Hm HE Hn. unfold doFileSearch. rewrite Hs. cbn [fst].
  rewrite map_map.
  eapply Nat.le_trans; [apply totalMatches_items|].
  rewrite HE, doSearch_finished by exact Hn.
  assert (Em : matchesOf (FileSearchEngine schedule cfg) = matchesOf pre).
  { rewrite HE, matchesOf_app. cbn. apply app_nil_r. }
  rewrite <- Em, FileSearchEngine_matches.
  now destruct (capInv_runWalk K (new cfg) schedule (capInv_new K cfg HK Hm))
    as (_ & _ & Hc).
Qed.

End WithHost.
End CapFacts.

(** ** The limit on results *)

Module CapClaims.
Import JS JSFacts FileSearch RawSearch WalkerTerms WalkerInvariants
  WalkerFacts WalkFacts TerminalFacts MomentFacts ServiceTerms ServiceFacts
  ErrorFacts CapFacts.


#[local] Existing Instance PosixHost.host.


End CapClaims.

(** ** The end of a regular expression *)

Module PatternFacts.
Import JS JSFacts RgArgs ArgsTerms.

Lemma pairsThenDollar_spec s :
  pairsThenDollar s = true <-> exists k, s = repeat 92%N (2 * k) ++ [36%N].
Proof.
  remember (length s) as n eqn:Hn. revert s Hn.
  induction n as [n IH] using lt_wf_ind. intros s Hn.
  destruct s as [|c rest]; cbn [pairsThenDollar].
  - split; [discriminate|]. intros [k Hk]. destruct k; discriminate.
  - destruct (N.eqb_spec c 36) as [->|Hc].
    + destruct rest as [|c' rest'].
      * split; [|reflexivity]. intros _. now exists 0.
      * split; [discriminate|]. intros [k Hk].
        destruct k as [|k]; cbn in Hk; [|discriminate].
        discriminate.
    + destruct (N.eqb_spec c 92) as [->|Hc'].
      * destruct rest as [|c' rest'].
        { split; [discriminate|]. intros [k Hk].
          destruct k as [|k]; cbn in Hk; [discriminate|].
          replace (k + S (k + 0)) with (S (2 * k)) in Hk by lia.
          cbn in Hk. destruct (repeat 92%N (k + (k + 0))); discriminate. }
        destruct (N.eqb_spec c' 92) as [->|Hc2]; cbn [andb].
        { rewrite (IH (length rest')); [|cbn in Hn; lia|reflexivity].
          split; intros [k Hk].
          - exists (S k). rewrite Hk.
            replace (2 * S k) with (S (S (2 * k))) by lia. reflexivity.
          - destruct k as [|k]; [discriminate|].
            replace (2 * S k) with (S (S (2 * k))) in Hk by lia.
            cbn [repeat app] in Hk. exists k. congruence. }
        split; [discriminate|]. intros [k Hk].
        destruct k as [|k]; [discriminate|].
        replace (2 * S k) with (S (S (2 * k))) in Hk by lia.
        cbn [repeat app] in Hk. congruence.
      * split; [discriminate|]. intros [k Hk].
        destruct k as [|k]; cbn in Hk; congruence.
Qed.

Lemma matchesEnding_after pre c tail b :
  c <> 92%N -> pairsThenDollar tail = true ->
  matchesEnding b (pre ++ c :: tail) = true.
Proof.
  intros Hc Ht. revert b. induction pre as [|x pre IH]; intros b.
  - cbn [app matchesEnding]. apply N.eqb_neq in Hc. rewrite Hc, Ht.
    cbn. apply orb_true_r.
  - cbn [app matchesEnding]. rewrite IH. now rewrite !orb_true_r.
Qed.

Lemma matchesEnding_spec b s :
  matchesEnding b s = true
  <-> (b = true /\ pairsThenDollar s = true)
      \/ exists pre c tail,
           s = pre ++ c :: tail /\ c <> 92%N /\ pairsThenDollar tail = true.
Proof.
  split.
  - revert b. induction s as [|x s IH]; intros b H.
    + cbn in H. rewrite orb_false_r in H. left.
      destruct b; [|discriminate]. now split.
    + cbn [matchesEnding] in H.
      apply orb_true_iff in H as [H|H].
      { apply andb_true_iff in H as [-> H]. now left. }
      apply orb_true_iff in H as [H|H].
      { apply andb_true_iff in H as [Hx H]. right. exists [], x, s.
        apply negb_true_iff, N.eqb_neq in Hx. now repeat split. }
      apply IH in H as [[H _]|(pre & c & tail & -> & Hc & Ht)]; [discriminate|].
      right. now exists (x :: pre), c, tail.
  - intros [[-> H]|(pre & c & tail & -> & Hc & Ht)].
    + destruct s; cbn [matchesEnding]; now rewrite H.
    + now apply matchesEnding_after.
Qed.

Lemma leadingBackslashes_repeat n rest :
  leadingBackslashes (repeat 92%N n ++ rest) = n + leadingBackslashes rest.
Proof. induction n; cbn; [reflexivity|]. now rewrite IHn. Qed.

Lemma leadingBackslashes_split s :
  exists rest,
    s = repeat 92%N (leadingBackslashes s) ++ rest
    /\ leadingBackslashes rest = 0.
Proof.
  induction s as [|c s (rest & Hs & Hr)].
  - now exists [].
  - cbn [leadingBackslashes]. destruct (N.eqb_spec c 92) as [->|Hc].
    + exists rest. cbn [repeat app]. split; [congruence|exact Hr].
    + exists (c :: s). cbn. apply N.eqb_neq in Hc. now rewrite Hc.
Qed.

Lemma rev_repeat {A} (x : A) n : rev (repeat x n) = repeat x n.
Proof.
  induction n; [reflexivity|]. cbn [repeat rev]. rewrite IHn.
  clear IHn. induction n; [reflexivity|]. cbn. now rewrite IHn.
Qed.

(** The test of the regular expression, counted. *)
Lemma matchesEnding_endsUnescaped pattern :
  matchesEnding true pattern = endsUnescaped pattern.
Proof.
  apply eq_true_iff_eq. rewrite matchesEnding_spec. unfold endsUnescaped.
  split.
  - intros [[_ H]|(pre & c & tail & -> & Hc & H)];
      apply pairsThenDollar_spec in H as [k ->].
    + rewrite rev_app_distr, rev_repeat. cbn [rev app].
      rewrite <- (app_nil_r (repeat _ _)), leadingBackslashes_repeat.
      cbn. rewrite Nat.add_0_r.
      replace (k + (k + 0)) with (2 * k) by lia.
      now rewrite Nat.even_mul.
    + rewrite rev_app_distr. cbn [rev]. rewrite !rev_app_distr, rev_repeat.
      cbn [rev app]. rewrite <- !app_assoc, leadingBackslashes_repeat.
      cbn [app leadingBackslashes]. apply N.eqb_neq in Hc. rewrite Hc.
      rewrite Nat.add_0_r. now rewrite Nat.even_mul.
  - destruct (rev pattern) as [|c before] eqn:Hr; [discriminate|].
    intros H. apply andb_true_iff in H as [Hc He].
    apply N.eqb_eq in Hc as ->.
    apply Nat.even_spec in He as [k Hk].
    destruct (leadingBackslashes_split before) as (rest & Hb & Hrest).
    rewrite Hk in Hb.
    assert (Hp : pattern = rev rest ++ repeat 92%N (2 * k) ++ [36%N]).
    { rewrite <- (rev_involutive pattern), Hr, Hb. cbn [rev].
      now rewrite rev_app_distr, rev_repeat, <- app_assoc. }
    destruct rest as [|c rest].
    + left. split; [reflexivity|]. rewrite Hp. cbn [rev app].
      apply pairsThenDollar_spec. now exists k.
    + right. exists (rev rest), c, (repeat 92%N (2 * k) ++ [36%N]).
      split; [|split].
      * rewrite Hp. cbn [rev]. now rewrite <- app_assoc.
      * cbn in Hrest. destruct (N.eqb_spec c 92); [discriminate|assumption].
      * apply pairsThenDollar_spec. now exists k.
Qed.

Lemma removelast_rev {A} (l before : list A) c :
  rev l = c :: before -> removelast l = rev before /\ l = rev before ++ [c].
Proof.
  intros H. assert (Hl : l = rev before ++ [c]).
  { rewrite <- (rev_involutive l), H. reflexivity. }
  split; [|exact Hl]. rewrite Hl. apply removelast_last.
Qed.

(** X1: [fixRegexEndingPattern] changes a pattern exactly when it ends
    with a dollar sign that an even number of backslashes precedes, none
    included; the dollar sign is then replaced with [\r?$], and any other
    pattern is returned as it is. *)
Theorem fixRegexEndingPattern_unescaped_dollar pattern :
  fixRegexEndingPattern pattern
  = if endsUnescaped pattern then removelast pattern ++ lit "\r?$"
    else pattern.
Proof.
  unfold fixRegexEndingPattern. rewrite matchesEnding_endsUnescaped.
  destruct (endsUnescaped pattern) eqn:He; [|reflexivity].
  unfold replaceFinalDollar. unfold endsUnescaped in He.
  destruct (rev pattern) as [|c before] eqn:Hr; [discriminate|].
  apply andb_true_iff in He as [Hc _]. rewrite Hc.
  now destruct (removelast_rev _ _ _ Hr) as [-> _].
Qed.

(** X2: [fixRegexEndingPattern] is not idempotent: a pattern it changed
    ends with an unescaped dollar sign again, so a second call inserts a
    second [\r?]; only the patterns it leaves alone are fixed points. *)
Theorem fixRegexEndingPattern_twice pattern :
  fixRegexEndingPattern (fixRegexEndingPattern pattern)
  = if endsUnescaped pattern then removelast pattern ++ lit "\r?\r?$"
    else pattern.
Proof.
  unfold fixRegexEndingPattern at 2. rewrite matchesEnding_endsUnescaped.
  destruct (endsUnescaped pattern) eqn:He.
  - unfold replaceFinalDollar at 1. unfold endsUnescaped in He.
    destruct (rev pattern) as [|c before] eqn:Hr; [discriminate|].
    apply andb_true_iff in He as [Hc _]. rewrite Hc.
    destruct (removelast_rev _ _ _ Hr) as [-> _].
    unfold fixRegexEndingPattern.
    change (lit "\r?$") with ([92; 114; 63]%N ++ [36%N]).
    rewrite matchesEnding_endsUnescaped. unfold endsUnescaped, replaceFinalDollar.
    rewrite app_assoc, rev_app_distr. cbn [rev app].
    rewrite rev_app_distr. cbn [rev app leadingBackslashes N.eqb Pos.eqb
      Nat.even andb].
    rewrite rev_involutive, <- !app_assoc. reflexivity.
  - unfold fixRegexEndingPattern. rewrite matchesEnding_endsUnescaped.
    now rewrite He.
Qed.

End PatternFacts.

(** ** Universal excludes and glob arguments *)

Module GlobFacts.
Import JS JSFacts RgArgs ArgsTerms.

Lemma has_In s key : has s key = true <-> In key s.
Proof.
  unfold has. rewrite existsb_exists. split.
  - intros (x & Hx & He). apply eqb_eq in He. congruence.
  - intros H. exists key. split; [exact H|apply eqb_refl].
Qed.

Lemma add_In s key x : In x (add s key) <-> In x s \/ x = key.
Proof.
  unfold add. destruct (has s key) eqn:Hh.
  - apply has_In in Hh. split; [tauto|]. intros [H| ->]; assumption.
  - rewrite in_app_iff. cbn. split; intros [H|H]; auto.
    destruct H as [H|[]]; auto.
Qed.

Lemma add_NoDup s key : List.NoDup s -> List.NoDup (add s key).
Proof.
  intros Hs. unfold add. destruct (has s key) eqn:Hh; [exact Hs|].
  apply List.NoDup_app; [exact Hs|repeat constructor; intros []|].
  intros x Hx [<-|[]]. apply has_In in Hx. congruence.
Qed.

Lemma excludesKey_spec key q :
  excludesKey key q = true
  <-> exists e, excludePattern q = Some e /\ get e key = Some (GBool true).
Proof.
  unfold excludesKey. destruct (excludePattern q) as [e|].
  - destruct (get e key) as [[[|]|]|] eqn:Hg.
    + split; [|reflexivity]. intros _. now exists e.
    + split; [discriminate|]. intros (e' & [= <-] & H). congruence.
    + split; [discriminate|]. intros (e' & [= <-] & H). congruence.
    + split; [discriminate|]. intros (e' & [= <-] & H). congruence.
  - split; [discriminate|]. intros (e' & H & _). discriminate.
Qed.

Lemma universal_fold folderQueries ks : forall u,
  List.NoDup u ->
  let u' :=
    fold_left (fun universalExcludes key =>
      if startsWith key (lit "**") && forallb (excludesKey key) folderQueries
      then add universalExcludes key else universalExcludes) ks u in
  List.NoDup u'
  /\ forall key,
       In key u'
       <-> In key u
           \/ (In key ks /\ startsWith key (lit "**") = true
               /\ forallb (excludesKey key) folderQueries = true).
Proof.
  induction ks as [|k ks IH]; intros u Hu; cbn [fold_left].
  - split; [exact Hu|]. intros key. cbn. tauto.
  - destruct (startsWith k (lit "**") && forallb (excludesKey k) folderQueries)
      eqn:Hk.
    + destruct (IH (add u k) (add_NoDup _ _ Hu)) as [Hn Hi].
      split; [exact Hn|]. intros key. rewrite Hi, add_In. cbn [In].
      apply andb_true_iff in Hk as [Hk1 Hk2].
      intuition (subst; auto).
    + destruct (IH u Hu) as [Hn Hi].
      split; [exact Hn|]. intros key. rewrite Hi. cbn [In].
      split; [intuition auto|].
      intros [H|([<-|H1] & H2 & H3)]; auto.
      rewrite H2, H3 in Hk. discriminate.
Qed.

(** X3: [findUniversalExcludes] answers [null] for fewer than two folder
    queries or a first folder query without exclude pattern. Otherwise it
    answers the set of those keys of the first folder's exclude pattern
    that start with [**] and that every folder query excludes with the
    value [true], each of them once. *)
Theorem universal_excludes_shared_by_all folderQueries :
  match findUniversalExcludes folderQueries with
  | None =>
      length folderQueries < 2
      \/ exists firstFolder rest,
           folderQueries = firstFolder :: rest
           /\ excludePattern firstFolder = None
  | Some universalExcludes =>
      2 <= length folderQueries
      /\ List.NoDup universalExcludes
      /\ exists firstFolder rest e,
           folderQueries = firstFolder :: rest
           /\ excludePattern firstFolder = Some e
           /\ forall key,
                In key universalExcludes
                <-> In key (keys e)
                    /\ startsWith key (lit "**") = true
                    /\ Forall (fun q =>
                         exists e', excludePattern q = Some e'
                                    /\ get e' key = Some (GBool true))
                         folderQueries
  end.
Proof.
  unfold findUniversalExcludes.
  destruct (Nat.ltb_spec (length folderQueries) 2) as [Hl|Hl]; [now left|].
  destruct folderQueries as [|firstFolder rest]; [cbn in Hl; lia|].
  destruct (excludePattern firstFolder) as [e|] eqn:He.
  - destruct (universal_fold (firstFolder :: rest) (keys e) [] (List.NoDup_nil _))
      as [Hn Hi].
    split; [exact Hl|]. split; [exact Hn|].
    exists firstFolder, rest, e. repeat split; try assumption.
    + apply Hi in H as [[]|(H & _)]. exact H.
    + apply Hi in H as [[]|(_ & H & _)]. exact H.
    + apply Hi in H as [[]|(_ & _ & H)].
      rewrite forallb_forall in H. apply List.Forall_forall.
      intros q Hq. apply excludesKey_spec, H, Hq.
    + intros (H1 & H2 & H3). apply Hi. right. repeat split; try assumption.
      apply forallb_forall. intros q Hq. apply excludesKey_spec.
      rewrite List.Forall_forall in H3. now apply H3.
  - right. now exists firstFolder, rest.
Qed.

Lemma noBackslash_slashes key : noBackslash (slashes key) = true.
Proof.
  unfold noBackslash, slashes. apply forallb_forall. intros c Hc.
  apply in_map_iff in Hc as (x & <- & _).
  destruct (N.eqb_spec x 92) as [->|Hx]; [reflexivity|].
  apply negb_true_iff, N.eqb_neq, Hx.
Qed.

Lemma replaceDriveC_noBackslash key :
  noBackslash key = true -> noBackslash (replaceDriveC key) = true.
Proof.
  intros H. unfold replaceDriveC.
  destruct key as [|c [|colon [|s rest]]]; try exact H.
  destruct (_ && _); [|exact H].
  cbn in H |- *. apply andb_true_iff in H as [_ H].
  apply andb_true_iff in H as [_ H]. apply andb_true_iff in H as [_ H].
  exact H.
Qed.

Lemma replaceDriveC_unc rest : replaceDriveC (lit "\\" ++ rest) = lit "\\" ++ rest.
Proof. cbn. destruct rest; reflexivity. Qed.

Lemma forwardSlashes_set e key value :
  Forall forwardSlashes (keys e) -> forwardSlashes key ->
  Forall forwardSlashes (keys (set e key value)).
Proof.
  intros He Hk. induction e as [|[k v] e IH]; cbn [set keys map fst].
  - now constructor.
  - inversion He; subst. destruct (eqb k key); cbn [keys map fst].
    + now constructor.
    + constructor; [assumption|]. now apply IH.
Qed.

Section WithPaths.

Variable paths_isAbsolute : jsstring -> bool.
Variable paths_getRoot : jsstring -> jsstring.
Variable path_join : jsstring -> jsstring -> jsstring.
Variable rtrim : jsstring -> jsstring -> jsstring.
Variable toLowerCase : jsstring -> jsstring.
Variable assign : IExpression -> IExpression -> IExpression.

Lemma globStep_ok patterns folder skip acc key :
  globsOk acc ->
  globsOk (globStep paths_isAbsolute paths_getRoot path_join rtrim toLowerCase
             patterns folder skip acc key).
Proof.
  intros [Hg Hs]. unfold globStep.
  destruct (match skip with Some s => has s key | None => false end);
    [now split|].
  destruct (negb (truthy key)); [now split|].
  set (k0 := trimTrailingSlash rtrim _).
  set (k1 := if startsWith k0 (lit "\\") then _ else _).
  assert (Hk1 : forwardSlashes k1
                /\ forwardSlashes
                     (fixDriveC paths_getRoot toLowerCase k1)).
  { unfold k1, fixDriveC. destruct (startsWith k0 (lit "\\")).
    - rewrite replaceDriveC_unc.
      assert (forwardSlashes (lit "\\" ++ slashes (skipn 2 k0))).
      { right. split; [reflexivity|]. apply noBackslash_slashes. }
      split; [assumption|]. now destruct (eqb _ _).
    - pose proof (noBackslash_slashes k0) as Hn.
      split; [now left|]. destruct (eqb _ _); [|now left].
      left. now apply replaceDriveC_noBackslash. }
  destruct Hk1 as [Hk1 Hk2].
  destruct (get patterns key) as [[[|]|when]|]; try (now split).
  - split; cbn [globArgs siblingClauses]; [|exact Hs].
    apply Forall_app. split; [exact Hg|]. now constructor.
  - destruct (truthy when); [|now split].
    split; cbn [globArgs siblingClauses]; [exact Hg|].
    cbn [default]. now apply forwardSlashes_set.
Qed.

Lemma globExprsToRgGlobs_ok patterns folder skip :
  globsOk (globExprsToRgGlobs paths_isAbsolute paths_getRoot path_join rtrim
             toLowerCase patterns folder skip).
Proof.
  unfold globExprsToRgGlobs.
  assert (H0 : globsOk {| globArgs := []; siblingClauses := None |}).
  { split; constructor. }
  revert H0. generalize {| globArgs := []; siblingClauses := None |}.
  induction (keys patterns) as [|k ks IH]; intros acc Hacc; [exact Hacc|].
  cbn [fold_left]. apply IH. now apply globStep_ok.
Qed.

(** X4: the globs handed to ripgrep have forward slashes only, whatever
    the patterns and the folders are: every glob argument
    [globExprsToRgGlobs], [foldersToRgExcludeGlobs] and
    [foldersToIncludeGlobs] produce, and every key of the sibling clauses
    of [globExprsToRgGlobs], holds no backslash but the two a UNC path
    starts with. *)
Theorem rg_globs_use_forward_slashes :
  (forall patterns folder excludesToSkip,
     let r := globExprsToRgGlobs paths_isAbsolute paths_getRoot path_join
                rtrim toLowerCase patterns folder excludesToSkip in
     Forall forwardSlashes (globArgs r)
     /\ forall clauses,
          siblingClauses r = Some clauses ->
          Forall forwardSlashes (keys clauses))
  /\ (forall folderQueries globalExclude excludesToSkip absoluteGlobs,
        Forall forwardSlashes
          (fst (foldersToRgExcludeGlobs paths_isAbsolute paths_getRoot
                  path_join rtrim toLowerCase assign folderQueries
                  globalExclude excludesToSkip absoluteGlobs)))
  /\ (forall folderQueries globalInclude absoluteGlobs,
        Forall forwardSlashes
          (foldersToIncludeGlobs paths_isAbsolute paths_getRoot path_join
             rtrim toLowerCase assign folderQueries globalInclude
             absoluteGlobs)).
Proof.
  split; [|split].
  - intros patterns folder skip r.
    destruct (globExprsToRgGlobs_ok patterns folder skip) as [Hg Hs].
    split; [exact Hg|]. intros clauses Hc. fold r in Hs.
    now rewrite Hc in Hs.
  - intros fqs globalExclude skip absoluteGlobs.
    unfold foldersToRgExcludeGlobs.
    assert (H0 : Forall forwardSlashes (fst (@nil jsstring, @nil (jsstring * GlobValue))))
      by constructor.
    revert H0. generalize (@nil jsstring, @nil (jsstring * GlobValue)).
    induction fqs as [|q fqs IH]; intros acc Hacc; [exact Hacc|].
    cbn [fold_left]. apply IH. cbn [fst]. apply Forall_app.
    split; [exact Hacc|]. apply globExprsToRgGlobs_ok.
  - intros fqs globalInclude absoluteGlobs. unfold foldersToIncludeGlobs.
    assert (H0 : Forall forwardSlashes (@nil jsstring)) by constructor.
    revert H0. generalize (@nil jsstring).
    induction fqs as [|q fqs IH]; intros acc Hacc; [exact Hacc|].
    cbn [fold_left]. apply IH. apply Forall_app.
    split; [exact Hacc|]. apply globExprsToRgGlobs_ok.
Qed.

End WithPaths.

End GlobFacts.

(** ** Collecting the results of a search *)

Module DiskFacts.
Import JS RawSearch DiskSearch DiskTerms.

Section WithUri.

Context {URI Match Stats : Type}.
Variable uri_file : jsstring -> URI.

Lemma reportedFiles_app (p1 p2 : list (@ISearchProgressItem URI Match)) :
  reportedFiles (p1 ++ p2) = reportedFiles p1 ++ reportedFiles p2.
Proof. apply flat_map_app. Qed.

Lemma reportedFiles_map (ms : list (@FileMatch URI Match)) :
  reportedFiles (map PFile ms) = ms.
Proof. induction ms as [|m ms IH]; cbn; [reflexivity|]. now f_equal. Qed.

Lemma fileMatchesOf_app (i1 i2 : list (@ISerializedSearchProgressItem Match)) :
  fileMatchesOf uri_file (i1 ++ i2)
  = fileMatchesOf uri_file i1 ++ fileMatchesOf uri_file i2.
Proof. apply flat_map_app. Qed.

(** Progress items leave the listener and the promise as they are and
    add their file matches. *)
Lemma run_items onProgress token
    (items : list (@ISerializedSearchProgressItem Match))
  : forall s : @Collect URI Match Stats,
  disposed s = false ->
  let s' := fold_left (step uri_file onProgress token) (fireAll Stats items) s in
  disposed s' = false
  /\ promise s' = promise s
  /\ result s' = result s ++ fileMatchesOf uri_file items.
Proof.
  induction items as [|p items IH]; intros s Hd.
  - cbn. now rewrite app_nil_r.
  - cbn [fireAll map fold_left step]. rewrite Hd.
    set (s1 := listener uri_file onProgress s _).
    assert (H1 : disposed s1 = false
                 /\ promise s1 = promise s
                 /\ result s1 = result s ++ fileMatchesOf uri_file [p]).
    { unfold s1. destruct p as [ds|d|m]; cbn [listener fileMatchesOf flat_map].
      - cbn. now rewrite app_nil_r.
      - destruct (truthy (path d)); cbn.
        + auto.
        + rewrite app_nil_r. now destruct onProgress.
      - cbn. rewrite app_nil_r. now destruct onProgress. }
    destruct H1 as (Hd1 & Hp1 & Hr1).
    destruct (IH s1 Hd1) as (Hd2 & Hp2 & Hr2).
    split; [exact Hd2|]. split; [etransitivity; eassumption|].
    etransitivity; [exact Hr2|]. rewrite Hr1.
    change (p :: items) with ([p] ++ items).
    now rewrite fileMatchesOf_app, app_assoc.
Qed.

(** Once the listener is disposed and the promise settled, nothing
    changes any more. *)
Lemma run_settled onProgress token (inputs : list (@Input Match Stats))
  : forall s : @Collect URI Match Stats,
  disposed s = true -> promise s <> Pending ->
  fold_left (step uri_file onProgress token) inputs s = s.
Proof.
  induction inputs as [|i inputs IH]; intros s Hd Hp; [reflexivity|].
  cbn [fold_left].
  assert (Hs : step uri_file onProgress token s i = s).
  { destruct i as [ev|]; cbn [step]; [now rewrite Hd|].
    destruct token; [|reflexivity].
    destruct s as [r d p rep]. cbn in Hd, Hp |- *. subst d.
    destruct p; cbn; [reflexivity|reflexivity|congruence]. }
  rewrite Hs. now apply IH.
Qed.

Lemma start_run_items onProgress token
    (items : list (@ISerializedSearchProgressItem Match)) :
  let s : @Collect URI Match Stats :=
    fold_left (step uri_file onProgress token) (fireAll Stats items) start in
  disposed s = false
  /\ promise s = Pending
  /\ result s = fileMatchesOf uri_file items.
Proof.
  destruct (run_items onProgress token items start eq_refl) as (H1 & H2 & H3).
  repeat split; assumption.
Qed.

(** X5: [collectResultsFromEvent] settles with the first completion
    event. After progress items and a success, the promise is resolved
    with the success's [limitHit] and [stats] and with the file matches of
    all the items received before, in the order received; after an
    error completion it is rejected with that error. Whatever the event
    or the token do afterwards changes neither the promise nor the
    results nor what [onProgress] has been told. *)
Theorem completion_event_settles_search onProgress token
    (items : list (@ISerializedSearchProgressItem Match))
    (c : @ISerializedSearchComplete Stats) later :
  let before := collectResultsFromEvent uri_file onProgress token
                  (fireAll Stats items) in
  let s := collectResultsFromEvent uri_file onProgress token
             (fireAll Stats items ++ Fire (Complete c) :: later) in
  promise s
  = match c with
    | SearchSuccess l st =>
        Resolved {| limitHit := l; results := fileMatchesOf uri_file items;
                    stats := st |}
    | SearchError err => Rejected err
    end
  /\ result s = fileMatchesOf uri_file items
  /\ reported s = reported before.
Proof.
  intros before s. unfold s, before, collectResultsFromEvent.
  rewrite fold_left_app.
  destruct (start_run_items onProgress token items) as (Hd & Hp & Hr).
  set (s0 := fold_left _ (fireAll Stats items) start) in *.
  cbn [fold_left step]. rewrite Hd.
  rewrite run_settled.
  - cbn [listener promise result reported]. rewrite Hp, Hr.
    split; [|split; reflexivity]. now destruct c.
  - reflexivity.
  - cbn [listener promise]. rewrite Hp. now destruct c.
Qed.

(** X6: a cancellation requested on the token before any completion
    event rejects the promise with [Canceled] and disposes the listener:
    no event fired afterwards adds a result or reaches [onProgress]. *)
Theorem cancellation_rejects_and_stops_listening onProgress
    (items : list (@ISerializedSearchProgressItem Match))
    (later : list (@Input Match Stats)) :
  let before := collectResultsFromEvent uri_file onProgress true
                  (fireAll Stats items) in
  let s := collectResultsFromEvent uri_file onProgress true
             (fireAll Stats items ++ CancellationRequested :: later) in
  promise s = Rejected (lit "Canceled")
  /\ result s = result before
  /\ reported s = reported before.
Proof.
  intros before s. unfold s, before, collectResultsFromEvent.
  rewrite fold_left_app.
  destruct (start_run_items onProgress true items) as (Hd & Hp & Hr).
  set (s0 := fold_left _ (fireAll Stats items) start) in *.
  cbn [fold_left step].
  rewrite run_settled.
  - cbn [promise result reported]. rewrite Hp. now repeat split.
  - reflexivity.
  - cbn [promise]. rewrite Hp. discriminate.
Qed.

Lemma step_reported (onProgress token : bool) (s : @Collect URI Match Stats)
    (i : @Input Match Stats) :
  reportedFiles (reported s) = (if onProgress then result s else []) ->
  reportedFiles (reported (step uri_file onProgress token s i))
  = (if onProgress then result (step uri_file onProgress token s i) else []).
Proof.
  intros H. destruct i as [ev|]; cbn [step].
  - destruct (disposed s); [exact H|].
    destruct ev as [[ds|d|m]|c]; cbn [listener].
    + destruct onProgress; cbn [result reported]; [|exact H].
      now rewrite reportedFiles_app, reportedFiles_map, H.
    + destruct (truthy (path d)).
      * destruct onProgress; cbn [result reported]; [|exact H].
        rewrite reportedFiles_app, H. reflexivity.
      * destruct onProgress; cbn [result reported]; [|exact H].
        rewrite reportedFiles_app, H. cbn. now rewrite app_nil_r.
    + destruct onProgress; cbn [result reported]; [|exact H].
      rewrite reportedFiles_app, H. cbn. now rewrite app_nil_r.
    + exact H.
  - destruct token; exact H.
Qed.

(** X7: whatever the event and the token do, the file matches
    [collectResultsFromEvent] has handed to [onProgress] are the results
    it has collected, each once and in the same order; without
    [onProgress] no file match is reported. *)
Theorem progress_mirrors_collected_results (onProgress token : bool)
    (inputs : list (@Input Match Stats)) :
  let s := collectResultsFromEvent uri_file onProgress token inputs in
  reportedFiles (reported s) = if onProgress then result s else [].
Proof.
  unfold collectResultsFromEvent.
  assert (H0 : reportedFiles (reported (@start URI Match Stats))
               = if onProgress then result (@start URI Match Stats) else [])
    by now destruct onProgress.
  revert H0. generalize (@start URI Match Stats).
  induction inputs as [|i inputs IH]; intros s0 H0; [exact H0|].
  cbn [fold_left]. apply IH. now apply step_reported.
Qed.

End WithUri.

End DiskFacts.

(** ** The batched collector keeps every item *)

Module CollectorFacts.
Import JS RawSearch RawSearch.Collector CollectorTerms.

Section WithItems.
Context {T : Type}.

Lemma deliveredItems_app (d1 d2 : list (Delivery T)) :
  deliveredItems (d1 ++ d2) = deliveredItems d1 ++ deliveredItems d2.
Proof. apply flat_map_app. Qed.

Lemma stepsTo_refl (c : BatchedCollector T) : stepsTo c c [] 0.
Proof.
  split; [reflexivity| |lia]. exists []. now rewrite !app_nil_r.
Qed.

Lemma flush_stepsTo (c : BatchedCollector T) : stepsTo c (flush c) [] 0.
Proof.
  unfold flush. destruct (0 <? batchSize c); [|apply stepsTo_refl].
  split; cbn; [reflexivity| |lia].
  exists [Many (batch c)]. split; [reflexivity|]. cbn.
  now rewrite !app_nil_r.
Qed.

Lemma stepsTo_same (c0 c c' : BatchedCollector T) items size :
  maxBatchSize c0 = maxBatchSize c ->
  delivered c0 = delivered c -> batch c0 ++ items = batch c ->
  totalNumberCompleted c0 + batchSize c0 + size
  = totalNumberCompleted c + batchSize c ->
  stepsTo c c' [] 0 -> stepsTo c0 c' items size.
Proof.
  intros Hm Hd Hb Hs [Hm' (new & Hn1 & Hn2) Hs'].
  split; [congruence| |lia].
  exists new. split; [congruence|]. rewrite Hn2, app_nil_r. now symmetry.
Qed.

Lemma onUpdate_stepsTo (c : BatchedCollector T) : stepsTo c (onUpdate c) [] 0.
Proof.
  unfold onUpdate.
  destruct (_ <? _); [apply flush_stepsTo|].
  destruct (_ <=? _)%Z; [apply flush_stepsTo|].
  destruct (negb _); [|apply stepsTo_refl].
  split; cbn; [reflexivity| |lia]. exists []. now rewrite !app_nil_r.
Qed.

Lemma addToBatch_stepsTo (c : BatchedCollector T) items size :
  stepsTo c (addToBatch c items size) items size.
Proof.
  unfold addToBatch.
  eapply stepsTo_same; [| | | |apply onUpdate_stepsTo]; cbn; try reflexivity.
  lia.
Qed.

Lemma call_stepsTo (c : BatchedCollector T) (o : Op T) :
  (0 < maxBatchSize c)%Z -> stepsTo c (call c o) (added o) (sizeOf o).
Proof.
  intros Hm. apply Z.ltb_lt in Hm.
  destruct o as [item size|items size| |]; cbn [call added sizeOf].
  - unfold addItem. rewrite Hm. apply addToBatch_stepsTo.
  - unfold addItems. rewrite Hm. apply addToBatch_stepsTo.
  - apply flush_stepsTo.
  - unfold timerFires. destruct (timer c); [|apply stepsTo_refl].
    eapply stepsTo_same; [| | | |apply flush_stepsTo]; cbn;
      try reflexivity; [apply app_nil_r|lia].
Qed.

(** Without a batch size every call is handed on at once. *)
Lemma call_unbatched (c : BatchedCollector T) (o : Op T) :
  (maxBatchSize c <= 0)%Z -> batch c = [] -> batchSize c = 0 ->
  let c' := call c o in
  maxBatchSize c' = maxBatchSize c /\ batch c' = [] /\ batchSize c' = 0
  /\ totalNumberCompleted c' = totalNumberCompleted c
  /\ exists new, delivered c' = delivered c ++ new
                 /\ deliveredItems new = added o.
Proof.
  intros Hm Hb Hs. assert (Hm' : (0 <? maxBatchSize c)%Z = false)
    by now apply Z.ltb_ge.
  destruct o as [item size|items size| |]; cbn [call added].
  - unfold addItem. rewrite Hm'. cbn. repeat split; try assumption.
    exists [One item]. now split.
  - unfold addItems. rewrite Hm'. cbn. repeat split; try assumption.
    exists [Many items]. split; [reflexivity|]. cbn. apply app_nil_r.
  - unfold flush. rewrite Hs. cbn. repeat split; try assumption.
    exists []. now rewrite app_nil_r.
  - unfold timerFires. destruct (timer c).
    + unfold flush. cbn. rewrite Hs. cbn. repeat split; try assumption.
      exists []. now rewrite app_nil_r.
    + cbn. repeat split; try assumption. exists []. now rewrite app_nil_r.
Qed.

(** Nothing is lost and nothing is made up: what the callback has
    received and what waits in the batch are the items added, in their
    order. *)
Lemma fold_call_items ops : forall c : BatchedCollector T,
  ((maxBatchSize c <= 0)%Z -> batch c = [] /\ batchSize c = 0) ->
  let c' := fold_left call ops c in
  deliveredItems (delivered c') ++ batch c'
  = deliveredItems (delivered c) ++ batch c ++ flat_map added ops
  /\ totalNumberCompleted c' + batchSize c'
     = totalNumberCompleted c + batchSize c
       + (if (0 <? maxBatchSize c)%Z then list_sum (map sizeOf ops) else 0).
Proof.
  induction ops as [|o ops IH]; intros c Hc.
  - cbn. rewrite app_nil_r. split; [reflexivity|]. destruct (_ <? _)%Z; lia.
  - cbn [fold_left flat_map map]. unfold list_sum. cbn [fold_right].
    fold (list_sum (map sizeOf ops)).
    destruct (Z.ltb_spec 0 (maxBatchSize c)) as [Hm|Hm].
    + destruct (call_stepsTo c o Hm) as [Hmax (new & Hn1 & Hn2) Hsz].
      destruct (IH (call c o)) as [H1 H2]; [lia|].
      rewrite Hmax in H2. apply Z.ltb_lt in Hm. rewrite Hm in H2.
      split; [|lia].
      rewrite H1, Hn1, deliveredItems_app, <- !app_assoc.
      f_equal. rewrite app_assoc, Hn2. now rewrite <- app_assoc.
    + destruct (Hc Hm) as [Hb Hs].
      destruct (call_unbatched c o Hm Hb Hs)
        as (Hmax & Hb' & Hs' & Ht' & new & Hn1 & Hn2).
      destruct (IH (call c o)) as [H1 H2]; [now rewrite Hmax|].
      rewrite Hmax in H2.
      assert (Hf : (0 <? maxBatchSize c)%Z = false) by now apply Z.ltb_ge.
      rewrite Hf in H2. split; [|lia].
      rewrite H1, Hn1, deliveredItems_app, Hb', Hb, Hn2.
      now rewrite <- !app_assoc.
Qed.

Lemma flush_noHiddenItems (c : BatchedCollector T) :
  noHiddenItems c -> batch (flush c) = [] /\ batchSize (flush c) = 0.
Proof.
  intros Hc. unfold flush. destruct (Nat.ltb_spec 0 (batchSize c)).
  - now split.
  - assert (batchSize c = 0) by lia. split; [now apply Hc|assumption].
Qed.

Lemma noHiddenItems_flush (c : BatchedCollector T) :
  noHiddenItems c -> noHiddenItems (flush c).
Proof. intros Hc _. now apply flush_noHiddenItems. Qed.

Lemma call_noHiddenItems (c : BatchedCollector T) (o : Op T) :
  sized o -> noHiddenItems c -> noHiddenItems (call c o).
Proof.
  intros Ho Hc.
  assert (Hadd : forall items size,
            items = [] \/ 0 < size ->
            noHiddenItems (addToBatch c items size)).
  { intros items size Hs. unfold addToBatch, onUpdate.
    set (c1 := {| maxBatchSize := maxBatchSize c; batch := batch c ++ items |}).
    assert (H1 : noHiddenItems c1).
    { unfold noHiddenItems, c1. cbn. intros H0.
      destruct Hs as [->|Hs]; [|lia]. rewrite app_nil_r. apply Hc. lia. }
    destruct (_ <? _); [now apply noHiddenItems_flush|].
    destruct (_ <=? _)%Z; [now apply noHiddenItems_flush|].
    destruct (negb _); exact H1. }
  destruct o as [item size|items size| |]; cbn [call sized] in *.
  - unfold addItem. destruct (_ <? _)%Z; [now apply Hadd; right|exact Hc].
  - unfold addItems. destruct (_ <? _)%Z; [now apply Hadd|exact Hc].
  - now apply noHiddenItems_flush.
  - unfold timerFires. destruct (timer c); [|exact Hc].
    now apply noHiddenItems_flush.
Qed.

Lemma fold_call_noHiddenItems ops : forall c : BatchedCollector T,
  Forall sized ops -> noHiddenItems c -> noHiddenItems (fold_left call ops c).
Proof.
  induction ops as [|o ops IH]; intros c Ho Hc; [exact Hc|].
  inversion Ho; subst. cbn [fold_left]. apply IH; [assumption|].
  now apply call_noHiddenItems.
Qed.

(** X8: a [BatchedCollector] loses and repeats nothing. After any
    sequence of [addItem], [addItems], [flush] and timer calls, the items
    the callback has received followed by the items waiting in the batch
    are the items added, in the order added; and with a positive batch
    size the sizes completed and waiting add up to the sizes added. *)
Theorem collector_keeps_every_item (maxBatchSize : Z) (ops : list (Op T)) :
  let c := fold_left call ops (Collector.new maxBatchSize) in
  deliveredItems (delivered c) ++ batch c = flat_map added ops
  /\ totalNumberCompleted c + batchSize c
     = if (0 <? maxBatchSize)%Z then list_sum (map sizeOf ops) else 0.
Proof.
  destruct (fold_call_items ops (Collector.new maxBatchSize)) as [H1 H2].
  { intros _. now split. }
  cbn in H1, H2 |- *. split; [exact H1|]. exact H2.
Qed.

(** X9: when no item comes with size zero, [flush] empties the
    collector: after any calls followed by [flush], the callback has
    received every item added, in the order added, and no item waits. *)
Theorem flush_delivers_all_sized_items (maxBatchSize : Z) (ops : list (Op T)) :
  Forall sized ops ->
  let c := fold_left call (ops ++ [Flush]) (Collector.new maxBatchSize) in
  deliveredItems (delivered c) = flat_map added ops /\ batch c = [].
Proof.
  intros Hs c. unfold c. rewrite fold_left_app. cbn [fold_left call].
  set (c0 := fold_left call ops (Collector.new maxBatchSize)).
  assert (H0 : noHiddenItems c0).
  { apply fold_call_noHiddenItems; [exact Hs|]. now intros _. }
  destruct (flush_noHiddenItems c0 H0) as [Hb _].
  destruct (fold_call_items (ops ++ [Flush]) (Collector.new maxBatchSize))
    as [H1 _].
  { intros _. now split. }
  rewrite fold_left_app in H1. cbn [fold_left call] in H1. fold c0 in H1.
  rewrite Hb, flat_map_app in H1. cbn in H1. rewrite !app_nil_r in H1.
  now split.
Qed.

End WithItems.

Lemma flush_delivers_all_sized_items_witness :
  let c := fold_left call ([AddItem 7 1; AddItems [8; 9] 2] ++ [Flush])
             (Collector.new 512) in
  deliveredItems (delivered c) = [7; 8; 9] /\ batch c = [].
Proof.
  apply (flush_delivers_all_sized_items 512 [AddItem 7 1; AddItems [8; 9] 2]).
  constructor; [cbn; lia|]. constructor; [right; lia|]. constructor.
Defined.

End CollectorFacts.

(** ** Text searches through the collector *)

Module TextServiceFacts.
Import JS RawSearch RawSearch.Collector TextService CollectorTerms
  CollectorFacts TextServiceTerms.

Section WithMatches.
Context {M S : Type}.
Variable numMatches : M -> nat.

Lemma callItems_app (c1 c2 : list (Call M)) :
  callItems (c1 ++ c2) = callItems c1 ++ callItems c2.
Proof. apply flat_map_app. Qed.

Lemma callMessages_app (c1 c2 : list (Call M)) :
  callMessages (c1 ++ c2) = callMessages c1 ++ callMessages c2.
Proof. apply flat_map_app. Qed.

Lemma callItems_map (ds : list (Delivery M)) :
  callItems (map Items ds) = deliveredItems ds.
Proof.
  induction ds as [|d ds IH]; [reflexivity|].
  cbn [map]. change (Items d :: map Items ds) with ([Items d] ++ map Items ds).
  rewrite callItems_app, IH. destruct d; cbn; [reflexivity|].
  now rewrite app_nil_r.
Qed.

Lemma callMessages_map (ds : list (Delivery M)) :
  callMessages (map Items ds) = [].
Proof. induction ds as [|d ds IH]; [reflexivity|exact IH]. Qed.

Lemma call_grows (c : BatchedCollector M) (o : Op M) :
  exists new, delivered (call c o) = delivered c ++ new.
Proof.
  assert (Hf : forall c : BatchedCollector M,
            exists new, delivered (flush c) = delivered c ++ new).
  { intros c0. unfold flush. destruct (_ <? _); cbn.
    - now exists [Many (batch c0)].
    - exists []. now rewrite app_nil_r. }
  assert (Ha : forall items size,
            exists new, delivered (addToBatch c items size)
                        = delivered c ++ new).
  { intros items size. unfold addToBatch, onUpdate.
    destruct (_ <? _); [exact (Hf _)|].
    destruct (_ <=? _)%Z; [exact (Hf _)|].
    destruct (negb _); cbn; exists []; now rewrite app_nil_r. }
  destruct o as [item size|items size| |]; cbn [call].
  - unfold addItem. destruct (_ <? _)%Z; [apply Ha|]. now exists [One item].
  - unfold addItems. destruct (_ <? _)%Z; [apply Ha|]. now exists [Many items].
  - apply Hf.
  - unfold timerFires. destruct (timer c); [exact (Hf _)|].
    exists []. now rewrite app_nil_r.
Qed.

Lemma withCollector_call {C} (s : TextSearch M C) (o : Op M) :
  inStep s ->
  let s' := withCollector s (fun c => call c o) in
  inStep s' /\ collector s' = call (collector s) o
  /\ callMessages (calls s') = callMessages (calls s)
  /\ promise s' = promise s.
Proof.
  intros Hs. unfold withCollector, inStep in *. cbn [collector calls promise].
  destruct (call_grows (collector s) o) as [new Hn].
  rewrite Hn, skipn_app, skipn_all, Nat.sub_diag. cbn [skipn app].
  rewrite callItems_app, callMessages_app, callItems_map, callMessages_map,
    deliveredItems_app, app_nil_r.
  repeat split. now f_equal.
Qed.

(** A step of either search is the calls of the collector behind it. *)
Lemma ripgrepStep_ops (s : TextSearch M S) (i : Input M S) :
  inStep s ->
  let s' := ripgrepStep numMatches s i in
  inStep s'
  /\ collector s' = fold_left call (ripgrepOps numMatches i) (collector s)
  /\ callMessages (calls s')
     = callMessages (calls s) ++ engineMessages [i].
Proof.
  intros Hs. destruct i as [[m|message|error stats]|];
    cbn [ripgrepStep ripgrepOps fold_left engineMessages flat_map app].
  - destruct (withCollector_call s (AddItem m (numMatches m)) Hs)
      as (H1 & H2 & H3 & _).
    rewrite app_nil_r. now repeat split.
  - unfold inStep in *. cbn [calls collector].
    rewrite callItems_app, callMessages_app, Hs. cbn [callItems flat_map].
    rewrite app_nil_r. now repeat split.
  - destruct (withCollector_call s Flush Hs) as (H1 & H2 & H3 & _).
    rewrite app_nil_r. now repeat split.
  - destruct (withCollector_call s TimerFires Hs) as (H1 & H2 & H3 & _).
    rewrite app_nil_r. now repeat split.
Qed.

Variable stats_limitHit : S -> bool.

Lemma textStep_ops (s : TextSearch M bool) (i : Input (list M) S) :
  inStep s ->
  let s' := textStep numMatches stats_limitHit s i in
  inStep s'
  /\ collector s' = fold_left call (textOps numMatches i) (collector s)
  /\ callMessages (calls s')
     = callMessages (calls s) ++ engineMessages [i].
Proof.
  intros Hs. destruct i as [[matches|message|error stats]|];
    cbn [textStep textOps fold_left engineMessages flat_map app].
  - destruct (withCollector_call s
                (AddItems matches
                   (fold_left (fun acc m => acc + numMatches m) matches 0)) Hs)
      as (H1 & H2 & H3 & _).
    rewrite app_nil_r. now repeat split.
  - unfold inStep in *. cbn [calls collector].
    rewrite callItems_app, callMessages_app, Hs. cbn [callItems flat_map].
    rewrite app_nil_r. now repeat split.
  - destruct (withCollector_call s Flush Hs) as (H1 & H2 & H3 & _).
    rewrite app_nil_r. now repeat split.
  - destruct (withCollector_call s TimerFires Hs) as (H1 & H2 & H3 & _).
    rewrite app_nil_r. now repeat split.
Qed.

Lemma ripgrep_fold inputs : forall s : TextSearch M S,
  inStep s ->
  let s' := fold_left (ripgrepStep numMatches) inputs s in
  inStep s'
  /\ collector s'
     = fold_left call (flat_map (ripgrepOps numMatches) inputs) (collector s)
  /\ callMessages (calls s')
     = callMessages (calls s) ++ engineMessages inputs.
Proof.
  induction inputs as [|i inputs IH]; intros s Hs.
  - cbn. now rewrite app_nil_r.
  - cbn [fold_left flat_map].
    destruct (ripgrepStep_ops s i Hs) as (H1 & H2 & H3).
    destruct (IH _ H1) as (H4 & H5 & H6).
    split; [exact H4|]. split.
    + rewrite H5, H2. now rewrite fold_left_app.
    + rewrite H6, H3, <- app_assoc. f_equal.
      change (i :: inputs) with ([i] ++ inputs).
      unfold engineMessages. now rewrite flat_map_app.
Qed.

Lemma text_fold inputs : forall s : TextSearch M bool,
  inStep s ->
  let s' := fold_left (textStep numMatches stats_limitHit) inputs s in
  inStep s'
  /\ collector s'
     = fold_left call (flat_map (textOps numMatches) inputs) (collector s)
  /\ callMessages (calls s')
     = callMessages (calls s) ++ engineMessages inputs.
Proof.
  induction inputs as [|i inputs IH]; intros s Hs.
  - cbn. now rewrite app_nil_r.
  - cbn [fold_left flat_map].
    destruct (textStep_ops s i Hs) as (H1 & H2 & H3).
    destruct (IH _ H1) as (H4 & H5 & H6).
    split; [exact H4|]. split.
    + rewrite H5, H2. now rewrite fold_left_app.
    + rewrite H6, H3, <- app_assoc. f_equal.
      change (i :: inputs) with ([i] ++ inputs).
      unfold engineMessages. now rewrite flat_map_app.
Qed.

Lemma ripgrepOps_added (inputs : list (Input M S)) :
  flat_map added (flat_map (ripgrepOps numMatches) inputs)
  = engineResults inputs.
Proof.
  induction inputs as [|i inputs IH]; [reflexivity|].
  cbn [flat_map]. rewrite flat_map_app, IH.
  now destruct i as [[m|message|error stats]|].
Qed.

Lemma textOps_added (inputs : list (Input (list M) S)) :
  flat_map added (flat_map (textOps numMatches) inputs)
  = concat (engineResults inputs).
Proof.
  induction inputs as [|i inputs IH]; [reflexivity|].
  cbn [flat_map]. rewrite flat_map_app, IH.
  destruct i as [[m|message|error stats]|]; cbn; try reflexivity.
  now rewrite app_nil_r.
Qed.

Lemma ripgrepOps_sized (inputs : list (Input M S)) :
  Forall (fun m => 0 < numMatches m) (engineResults inputs) ->
  Forall sized (flat_map (ripgrepOps numMatches) inputs).
Proof.
  induction inputs as [|i inputs IH]; intros H; [constructor|].
  cbn [flat_map]. apply Forall_app.
  destruct i as [[m|message|error stats]|]; cbn in H |- *.
  - inversion H; subst. split; [now repeat constructor|now apply IH].
  - split; [constructor|now apply IH].
  - split; [now repeat constructor|now apply IH].
  - split; [now repeat constructor|now apply IH].
Qed.

Lemma sum_from (matches : list M) : forall acc,
  acc <= fold_left (fun acc m => acc + numMatches m) matches acc.
Proof.
  induction matches as [|m ms IH]; intros acc; [constructor|].
  cbn [fold_left]. specialize (IH (acc + numMatches m)). lia.
Qed.

Lemma textOps_sized (inputs : list (Input (list M) S)) :
  Forall (Forall (fun m => 0 < numMatches m)) (engineResults inputs) ->
  Forall sized (flat_map (textOps numMatches) inputs).
Proof.
  induction inputs as [|i inputs IH]; intros H; [constructor|].
  cbn [flat_map]. apply Forall_app.
  destruct i as [[ms|message|error stats]|]; cbn in H |- *.
  - inversion H as [|? ? Hm Hrest]; subst.
    split; [|now apply IH]. constructor; [|constructor]. cbn [sized].
    destruct ms as [|m ms]; [now left|right].
    inversion Hm; subst. cbn [fold_left].
    pose proof (sum_from ms (0 + numMatches m)). lia.
  - split; [constructor|now apply IH].
  - split; [now repeat constructor|now apply IH].
  - split; [now repeat constructor|now apply IH].
Qed.

Lemma start_inStep {C} (batchSize : Z) : inStep (@start M C batchSize).
Proof. reflexivity. Qed.

(** What a closing [flush] leaves of the calls [ops]. *)
Lemma flushed_items (batchSize : Z) (ops : list (Op M)) :
  Forall sized ops ->
  let c := flush (fold_left call ops (Collector.new batchSize)) in
  deliveredItems (delivered c) = flat_map added ops /\ batch c = [].
Proof.
  intros Hs c. unfold c.
  set (c0 := fold_left call ops (Collector.new batchSize)).
  assert (H0 : noHiddenItems c0).
  { apply fold_call_noHiddenItems; [exact Hs|]. now intros _. }
  destruct (flush_noHiddenItems c0 H0) as [Hb _].
  destruct (fold_call_items (ops ++ [Flush]) (Collector.new batchSize))
    as [H1 _].
  { intros _. now split. }
  rewrite fold_left_app in H1. cbn [fold_left call] in H1. fold c0 in H1.
  rewrite Hb, flat_map_app in H1. cbn in H1. rewrite !app_nil_r in H1.
  now split.
Qed.

(** X10: a text search hands every match of the engine to
    [progressCallback] before it settles. When every file match has at
    least one match, then once the engine calls [done] the items
    [ripgrepTextSearch] has passed on are the file matches the engine
    reported, each once and in the engine's order, whatever the timer of
    the collector did in between; the messages are passed on in order,
    the batch is empty and the promise is settled. The same holds for
    [doTextSearch] and the arrays of file matches its engine reports,
    with any batch size. *)
Theorem text_search_passes_on_every_match :
  (forall (inputs : list (Input M S)) error stats,
     Forall (fun m => 0 < numMatches m) (engineResults inputs) ->
     let s := ripgrepTextSearch numMatches
                (inputs ++ [Engine (TDone error stats)]) in
     callItems (calls s) = engineResults inputs
     /\ callMessages (calls s) = engineMessages inputs
     /\ batch (collector s) = []
     /\ promise s <> Pending)
  /\ (forall (inputs : list (Input (list M) S)) error stats batchSize,
        Forall (Forall (fun m => 0 < numMatches m)) (engineResults inputs) ->
        let s := doTextSearch numMatches stats_limitHit
                   (inputs ++ [Engine (TDone error stats)]) batchSize in
        callItems (calls s) = concat (engineResults inputs)
        /\ callMessages (calls s) = engineMessages inputs
        /\ batch (collector s) = []
        /\ promise s <> Pending).
Proof.
  split.
  - intros inputs error stats Hm s. unfold s, ripgrepTextSearch.
    rewrite fold_left_app.
    destruct (ripgrep_fold inputs (start BATCH_SIZE) (start_inStep _))
      as (H1 & H2 & H3).
    set (s0 := fold_left (ripgrepStep numMatches) inputs (start BATCH_SIZE))
      in *.
    cbn [fold_left ripgrepStep].
    destruct (withCollector_call s0 Flush H1) as (H4 & H5 & H6 & H7).
    cbn [call] in *.
    set (s1 := withCollector s0 flush) in *.
    cbn [calls collector promise]. unfold inStep in H4.
    destruct (flushed_items BATCH_SIZE _ (ripgrepOps_sized inputs Hm))
      as [Hd Hb].
    cbn [start collector] in H2. rewrite <- H2, <- H5 in Hd, Hb.
    rewrite ripgrepOps_added in Hd.
    split; [congruence|]. split; [now rewrite H6, H3|]. split; [exact Hb|].
    destruct (promise s1), error; discriminate.
  - intros inputs error stats batchSize Hm s. unfold s, doTextSearch.
    rewrite fold_left_app.
    destruct (text_fold inputs (start batchSize) (start_inStep _))
      as (H1 & H2 & H3).
    set (s0 := fold_left (textStep numMatches stats_limitHit) inputs
                 (start batchSize)) in *.
    cbn [fold_left textStep].
    destruct (withCollector_call s0 Flush H1) as (H4 & H5 & H6 & H7).
    cbn [call] in *.
    set (s1 := withCollector s0 flush) in *.
    cbn [calls collector promise]. unfold inStep in H4.
    destruct (flushed_items batchSize _ (textOps_sized inputs Hm))
      as [Hd Hb].
    cbn [start collector] in H2. rewrite <- H2, <- H5 in Hd, Hb.
    rewrite textOps_added in Hd.
    split; [congruence|]. split; [now rewrite H6, H3|]. split; [exact Hb|].
    destruct (promise s1), error; discriminate.
Qed.

End WithMatches.

Lemma text_search_passes_on_every_match_witness :
  callItems (calls (ripgrepTextSearch (S := bool) (fun n : nat => n)
    ([Engine (TResult 2); Timer; Engine (TMessage (lit "rg"));
      Engine (TResult 1)] ++ [Engine (TDone None true)])))
  = [2; 1].
Proof.
  refine (proj1 (proj1 (text_search_passes_on_every_match (S := bool)
                          (fun n : nat => n) (fun b => b))
                   [Engine (TResult 2); Timer; Engine (TMessage (lit "rg"));
                    Engine (TResult 1)] None true _)).
  constructor; [cbn; lia|]. constructor; [cbn; lia|]. constructor.
Defined.

End TextServiceFacts.

(** ** What a file search puts on the stream *)

Module StreamFacts.
Import JS JSFacts FileSearch RawSearch ServiceTerms ServiceFacts ErrorFacts.

Section WithHost.
Context `{Host}.

Lemma itemMessages_app p1 p2 :
  itemMessages (p1 ++ p2) = itemMessages p1 ++ itemMessages p2.
Proof. apply flat_map_app. Qed.

Lemma doSearchStep_messages bs s o :
  itemMessages (progress (doSearchStep bs s o))
  = itemMessages (progress s) ++ messagesOf [o].
Proof.
  destruct o as [m|msg|err c]; cbn [doSearchStep messagesOf flat_map app].
  - destruct bs as [b|]; [destruct (b =? 0)%Z|].
    + cbn [report progress]. rewrite itemMessages_app. reflexivity.
    + destruct (_ && _); cbn [progress]; rewrite ?itemMessages_app;
        cbn; now rewrite ?app_nil_r.
    + cbn [report progress]. rewrite itemMessages_app. reflexivity.
  - cbn [report progress]. rewrite itemMessages_app. reflexivity.
  - destruct (batch s); cbn [report progress]; rewrite ?itemMessages_app;
      cbn; now rewrite ?app_nil_r.
Qed.

Lemma fold_doSearch_messages bs engine : forall s,
  itemMessages (progress (fold_left (doSearchStep bs) engine s))
  = itemMessages (progress s) ++ messagesOf engine.
Proof.
  induction engine as [|o engine IH]; intros s.
  - cbn. now rewrite app_nil_r.
  - cbn [fold_left]. rewrite IH, doSearchStep_messages, <- app_assoc.
    f_equal. change (o :: engine) with ([o] ++ engine).
    unfold messagesOf. now rewrite flat_map_app.
Qed.

(** X11: [doSearch] passes on what the engine hands over. For an engine
    that has not called [done] before, by the time it does the matches
    handed to the progress callback, one by one or in batches, are the
    matches the engine reported, each once and in the engine's order;
    the messages are passed on in order as well; and the promise settles
    with this first call of [done], rejected when it carries an error
    and resolved with the engine's answer otherwise, whatever the engine
    does afterwards. *)
Theorem doSearch_passes_on_every_match engine err c later bs :
  firstFinished engine = None ->
  let s := doSearch (engine ++ [Finished err c]) bs in
  flatMatches (progress s) = matchesOf engine
  /\ itemMessages (progress s) = messagesOf engine
  /\ settled (doSearch (engine ++ Finished err c :: later) bs)
     = match err with
       | Some e => Rejected e
       | None => Resolved c
       end.
Proof.
  intros Hf s. split; [|split].
  - now apply doSearch_finished.
  - unfold s, doSearch. rewrite fold_doSearch_messages.
    unfold messagesOf. rewrite flat_map_app. cbn. now rewrite app_nil_r.
  - rewrite doSearch_settled, firstFinished_app by exact Hf.
    cbn. now destruct err.
Qed.

Lemma slices_spec fuel : forall b results,
  1 <= b -> length results <= fuel ->
  flat_map itemPaths (slices fuel b results) = results
  /\ Forall (fun p => exists paths,
               p = SBatch paths /\ 1 <= length paths <= b)
       (slices fuel b results).
Proof.
  induction fuel as [|fuel IH]; intros b results Hb Hf.
  - destruct results; [now split|cbn in Hf; lia].
  - destruct results as [|r results]; [now split|].
    cbn [slices flat_map itemPaths].
    destruct (IH b (skipn b (r :: results)) Hb) as [H1 H2].
    { rewrite length_skipn. cbn [length] in *. lia. }
    split.
    + rewrite H1. apply firstn_skipn.
    + constructor; [|exact H2].
      exists (firstn b (r :: results)). split; [reflexivity|].
      rewrite length_firstn. cbn [length]. lia.
Qed.

(** X12: [sendProgress] slices the results without losing or repeating
    one: the arrays it hands to the callback, put together in the order
    of the calls, are the results. With a positive batch size every
    call carries at least one and at most [batchSize] results, so no call
    is made for no results; otherwise there is one call with all of
    them. *)
Theorem sendProgress_slices_results results bs :
  flat_map itemPaths (sendProgress results bs) = results
  /\ match bs with
     | Some b =>
         if (0 <? b)%Z then
           Forall (fun p => exists paths,
                     p = SBatch paths /\ 1 <= length paths <= Z.to_nat b)
             (sendProgress results bs)
         else sendProgress results bs = [SBatch results]
     | None => sendProgress results bs = [SBatch results]
     end.
Proof.
  unfold sendProgress. destruct bs as [b|].
  - destruct (Z.ltb_spec 0 b) as [Hb|Hb].
    + apply slices_spec; lia.
    + split; [|reflexivity]. cbn. apply app_nil_r.
  - split; [|reflexivity]. cbn. apply app_nil_r.
Qed.

Variable compareItemsByScore :
  option jsstring -> IRawFileMatch -> IRawFileMatch -> Z.

Lemma fileProgressCallback_count p :
  matchCount (fst (fileProgressCallback p)) = snd (fileProgressCallback p).
Proof.
  destruct p as [m|ms|msg]; cbn [fileProgressCallback].
  - now destruct (truthy (relativePath m)).
  - cbn. apply length_map.
  - reflexivity.
Qed.

Lemma untilFinished_app pre err c later :
  firstFinished pre = None ->
  untilFinished (pre ++ Finished err c :: later) = pre ++ [Finished err c].
Proof.
  induction pre as [|o pre IH]; [reflexivity|].
  destruct o; cbn [app firstFinished untilFinished]; intros Hn;
    try (now rewrite IH); discriminate.
Qed.

Lemma fold_doSearch_progress bs engine : forall s,
  exists more,
    progress (fold_left (doSearchStep bs) engine s) = progress s ++ more.
Proof.
  induction engine as [|o engine IH]; intros s; cbn [fold_left].
  - exists []. now rewrite app_nil_r.
  - destruct (IH (doSearchStep bs s o)) as [more ->].
    assert (Ho : exists one, progress (doSearchStep bs s o) = progress s ++ one).
    { destruct o as [m|msg|err c]; cbn [doSearchStep].
      - destruct bs as [b|]; [destruct (b =? 0)%Z|];
          try (now eexists; cbn [report progress]).
        destruct (_ && _); cbn [progress]; [now eexists|].
        exists []. now rewrite app_nil_r.
      - now eexists; cbn [report progress].
      - destruct (batch s); cbn [progress report]; [|now eexists].
        exists []. now rewrite app_nil_r. }
    destruct Ho as [one ->]. exists (one ++ more). now rewrite app_assoc.
Qed.

(** X13: the [resultCount] an unsorted file search reports is the
    number of matches it has put on the stream by the time its engine
    calls [done].  When the engine first calls [done], [doFileSearch]
    settles: rejected with the error, or resolved with the engine's limit
    flag and statistics, marked as not from the cache, and with the count
    of the matches among the items handed to [progressCallback] so far.
    What the engine reports afterwards is still handed on, after those
    items, but it is not counted; the caches are as before. *)
Theorem unsorted_search_counts_until_done caches EngineClass cfg cancelled
    batchSize pre err c later :
  sortByScore cfg = false ->
  EngineClass cfg = pre ++ Finished err c :: later ->
  firstFinished pre = None ->
  let '(items, p, caches') :=
    doFileSearch compareItemsByScore caches EngineClass cfg cancelled
      batchSize in
  let sent :=
    fst (fst (doFileSearch compareItemsByScore caches
                (fun _ => pre ++ [Finished err c]) cfg cancelled batchSize)) in
  caches' = caches
  /\ (exists after, items = sent ++ after)
  /\ (later = [] -> items = sent)
  /\ p = match err with
         | Some e => Rejected e
         | None =>
             Resolved
               {| limitHit := e_limitHit c;
                  stats := {| fromCache := false;
                              detailStats := inl (e_stats c);
                              resultCount := totalMatches sent;
                              sortingTime := None |} |}
         end.
Proof.
  intros Hs HE Hn. unfold doFileSearch. rewrite Hs, HE. cbn [fst].
  rewrite (untilFinished_app pre err c later Hn).
  rewrite !doSearch_settled, (firstFinished_app pre _ Hn).
  cbn [firstFinished settledBy].
  split; [reflexivity|]. split; [|split].
  - replace (pre ++ Finished err c :: later)
      with ((pre ++ [Finished err c]) ++ later) by now rewrite <- app_assoc.
    unfold doSearch at 1. rewrite fold_left_app.
    destruct (fold_doSearch_progress batchSize later
                (fold_left (doSearchStep batchSize) (pre ++ [Finished err c])
                   {| batch := []; settled := Pending; progress := [] |}))
      as [more ->].
    fold (doSearch (pre ++ [Finished err c]) batchSize).
    rewrite !map_app. now eexists.
  - now intros ->.
  - destruct err as [e|]; [reflexivity|]. do 3 f_equal.
    unfold totalMatches. rewrite !map_map.
    f_equal. apply map_ext. intros p. symmetry.
    apply fileProgressCallback_count.
Qed.

End WithHost.

#[local] Existing Instance PosixHost.host.

Lemma doSearch_passes_on_every_match_witness :
  flatMatches (progress (doSearch
    ([Match (CacheExample.entry "a"); Progress (lit "rg");
      Match (CacheExample.entry "b")]
     ++ [Finished None CacheExample.complete]) (Some 2%Z)))
  = [CacheExample.entry "a"; CacheExample.entry "b"]
  /\ settled (doSearch
       ([Match (CacheExample.entry "a"); Progress (lit "rg");
         Match (CacheExample.entry "b")]
        ++ Finished None CacheExample.complete
           :: [Match (CacheExample.entry "c")]) (Some 2%Z))
     = Resolved CacheExample.complete.
Proof.
  pose proof (doSearch_passes_on_every_match
                [Match (CacheExample.entry "a"); Progress (lit "rg");
                 Match (CacheExample.entry "b")]
                None CacheExample.complete [Match (CacheExample.entry "c")]
                (Some 2%Z) eq_refl) as (H1 & _ & H3).
  split; [exact H1|exact H3].
Defined.

Lemma unsorted_search_counts_until_done_witness :
  doFileSearch ServiceExample.compareItemsByScore ∅
    (fun _ => [Match (CacheExample.entry "a"); Match (CacheExample.entry "b")]
              ++ Finished None CacheExample.complete
                 :: [Match (CacheExample.entry "c")])
    (WalkExample.query [lit "/ws"] None false) false None
  = ([SMatch (lit "/some/where/a"); SMatch (lit "/some/where/b");
      SMatch (lit "/some/where/c")],
     Resolved {| limitHit := false;
                 stats := {| fromCache := false;
                             detailStats := inl CacheExample.stats;
                             resultCount := 2;
                             sortingTime := None |} |},
     ∅).
Proof.
  pose proof (unsorted_search_counts_until_done
                ServiceExample.compareItemsByScore ∅
                (fun _ => [Match (CacheExample.entry "a");
                           Match (CacheExample.entry "b")]
                          ++ Finished None CacheExample.complete
                             :: [Match (CacheExample.entry "c")])
                (WalkExample.query [lit "/ws"] None false) false None
                [Match (CacheExample.entry "a"); Match (CacheExample.entry "b")]
                None CacheExample.complete [Match (CacheExample.entry "c")]
                eq_refl eq_refl eq_refl) as Ht.
  destruct (doFileSearch _ _ _ _ _ _) as [[items p] caches'] eqn:E.
  destruct Ht as (-> & _ & _ & ->).
  vm_compute in E. injection E as <-. vm_compute. reflexivity.
Defined.

End StreamFacts.

(** ** Storing and clearing cached searches *)

Module CacheRoundTrip.
Import JS JSFacts FileSearch RawSearch CacheFacts.

Section WithHost.
Context `{Host}.

Variable compareItemsByScore :
  option jsstring -> IRawFileMatch -> IRawFileMatch -> Z.

Lemma startsWith_refl (s : jsstring) : startsWith s s = true.
Proof. apply startsWith_app. exists []. now rewrite app_nil_r. Qed.

Lemma narrows_refl (v : jsstring) : narrows v v = true.
Proof.
  unfold narrows. rewrite startsWith_refl.
  now destruct (contains v path_sep).
Qed.

Lemma findRow_none cache v :
  findRow cache v = None ->
  forall kr, In kr cache -> narrows v (fst kr) = false.
Proof.
  induction cache as [|[k r] cache IH]; intros Hf kr Hin; [destruct Hin|].
  cbn [findRow] in Hf. destruct (narrows v k) eqn:Hn; [discriminate|].
  destruct Hin as [<-|Hin]; [exact Hn|now apply IH].
Qed.

(** A row stored under a search value no row of the cache answers is
    the row found for that value. *)
Lemma findRow_setRow cache v row :
  findRow cache v = None -> findRow (setRow cache v row) v = Some row.
Proof.
  intros Hf. pose proof (findRow_none cache v Hf) as Hnone.
  unfold setRow. destruct (existsb _ cache) eqn:Ex.
  - apply existsb_exists in Ex as (kr & Hin & He).
    apply eqb_eq in He. pose proof (Hnone kr Hin) as Hn.
    rewrite He, narrows_refl in Hn. discriminate.
  - clear Ex Hf. induction cache as [|[k r] cache IH]; cbn [insertRow].
    + cbn. now rewrite narrows_refl.
    + destruct (comesBefore v k); cbn [findRow].
      * now rewrite narrows_refl.
      * pose proof (Hnone (k, r) (or_introl eq_refl)) as Hk.
        cbn [fst] in Hk. rewrite Hk.
        apply IH. intros kr Hin. apply Hnone. now right.
Qed.

Lemma trySorted_fromCache caches cfg cancelled answer sorted :
  trySortedSearchFromCache compareItemsByScore caches cfg cancelled
  = Some (Resolved (answer, sorted)) ->
  fromCache (stats answer) = true.
Proof.
  unfold trySortedSearchFromCache.
  destruct (lookupCache caches cfg); [|discriminate].
  destruct (filePattern cfg); [|discriminate].
  destruct (getResultsFromCache _ _ _) as [[[[r rs] cs]|e|]|]; try discriminate.
  now intros [= <- _].
Qed.

(** The search a query which the cache answers amounts to: the engine
    class is not looked at. *)
Lemma doFileSearch_cached caches cfg answer sorted EngineClass batchSize :
  sortByScore cfg = true ->
  trySortedSearchFromCache compareItemsByScore caches cfg false
  = Some (Resolved (answer, sorted)) ->
  doFileSearch compareItemsByScore caches EngineClass cfg false batchSize
  = (sendProgress (map rawMatchToSearchItem sorted) batchSize,
     Resolved answer, caches).
Proof.
  intros Hs Ht. unfold doFileSearch. now rewrite Hs, Ht.
Qed.

(** X14: a sorted search with a cache key leaves a row that answers the
    same query. When [doFileSearch] has resolved for a query with
    [sortByScore], a cache key and a file pattern, the same query asked
    again of the caches it left is answered from the cache: whatever the
    engine class, no engine is run, the answer is marked [fromCache] and
    the caches stay as they are. *)
Theorem repeated_sorted_search_hits_cache caches EngineClass cfg k v batchSize
    items answer caches' :
  sortByScore cfg = true ->
  cacheKey cfg = Some k -> truthy k = true ->
  filePattern cfg = Some v ->
  doFileSearch compareItemsByScore caches EngineClass cfg false batchSize
  = (items, Resolved answer, caches') ->
  exists answer' sorted,
    fromCache (stats answer') = true
    /\ forall EngineClass' batchSize',
         doFileSearch compareItemsByScore caches' EngineClass' cfg false
           batchSize'
         = (sendProgress (map rawMatchToSearchItem sorted) batchSize',
            Resolved answer', caches').
Proof.
  intros Hs Hk Hkt Hv Hd.
  assert (Hgoal : exists answer' sorted,
            trySortedSearchFromCache compareItemsByScore caches' cfg false
            = Some (Resolved (answer', sorted))).
  { unfold doFileSearch in Hd. rewrite Hs in Hd.
    destruct (trySortedSearchFromCache compareItemsByScore caches cfg false)
      as [sortedSearch|] eqn:Ht.
    - destruct sortedSearch as [[result raw]|e|]; inversion Hd; subst.
      now exists answer, raw.
    - set (wc := match maxResults cfg with
                 | Some (S _) => walkerConfig cfg
                 | _ => cfg
                 end) in Hd.
      unfold doSortedSearch in Hd.
      destruct (allResultsPromise (EngineClass wc)) as [passedOn all] eqn:Ha.
      destruct all as [[result results]|e|]; cbn [sortedAnswer] in Hd;
        inversion Hd; subst. clear Hd.
      unfold storeRow. rewrite Hk, Hkt, Hv.
      change (default (lit "undefined") (Some v)) with v.
      set (cache := default [] (caches !! k)).
      set (row := {| promise := Resolved (result, results);
                     resolved := true |}).
      assert (Hnone : findRow cache v = None).
      { unfold trySortedSearchFromCache, lookupCache in Ht.
        rewrite Hk, Hkt, Hv in Ht. unfold cache.
        destruct (caches !! k) as [c0|]; [|reflexivity].
        change (findRow c0 v = None).
        unfold getResultsFromCache in Ht.
        destruct (findRow c0 v) as [r0|] eqn:Hf; [|reflexivity].
        destruct (promise r0) as [[? ?]|?|]; discriminate. }
      unfold trySortedSearchFromCache, lookupCache.
      rewrite Hk, Hkt, Hv, lookup_insert_eq.
      unfold getResultsFromCache.
      rewrite (findRow_setRow cache v row Hnone). cbn [promise row].
      eexists _, _. reflexivity. }
  destruct Hgoal as (answer' & sorted & Ht).
  exists answer', sorted. split; [exact (trySorted_fromCache _ _ _ _ _ Ht)|].
  intros E' bs'. now apply doFileSearch_cached.
Qed.

(** X15: [clearCache] forgets the cache of its key only. After
    [clearCache(k)] no query with the cache key [k] is answered from the
    cache, so a sorted search runs its engine again; the queries with
    any other cache key, or none, are answered from the cache as they
    were before. *)
Theorem clearCache_forgets_one_key caches k cfg cancelled :
  (cacheKey cfg = Some k ->
   trySortedSearchFromCache compareItemsByScore
     (TextService.clearCache caches k) cfg cancelled = None)
  /\ (cacheKey cfg <> Some k ->
      trySortedSearchFromCache compareItemsByScore
        (TextService.clearCache caches k) cfg cancelled
      = trySortedSearchFromCache compareItemsByScore caches cfg cancelled).
Proof.
  unfold trySortedSearchFromCache, lookupCache, TextService.clearCache. split.
  - intros ->. destruct (truthy k); [|reflexivity].
    now rewrite lookup_delete_eq.
  - intros Hk. destruct (cacheKey cfg) as [k'|]; [|reflexivity].
    destruct (truthy k'); [|reflexivity].
    rewrite lookup_delete_ne; [reflexivity|]. intros ->. now apply Hk.
Qed.

End WithHost.

#[local] Existing Instance PosixHost.host.

Lemma repeated_sorted_search_hits_cache_witness :
  let caches' :=
    snd (doFileSearch ServiceExample.compareItemsByScore ∅
           (FileSearchEngine ServiceExample.threeFiles)
           RoundTripExample.query false None) in
  exists answer' sorted,
    fromCache (stats answer') = true
    /\ doFileSearch ServiceExample.compareItemsByScore caches'
         (fun _ => []) RoundTripExample.query false None
       = (sendProgress (map rawMatchToSearchItem sorted) None,
          Resolved answer', caches').
Proof.
  intros caches'.
  destruct (doFileSearch ServiceExample.compareItemsByScore ∅
              (FileSearchEngine ServiceExample.threeFiles)
              RoundTripExample.query false None)
    as [[items p] caches0] eqn:E.
  assert (Hp : exists answer, p = Resolved answer).
  { replace p with (snd (fst (doFileSearch
        ServiceExample.compareItemsByScore ∅
        (FileSearchEngine ServiceExample.threeFiles)
        RoundTripExample.query false None))) by now rewrite E.
    vm_compute. eexists. reflexivity. }
  destruct Hp as [answer ->].
  destruct (repeated_sorted_search_hits_cache
              ServiceExample.compareItemsByScore ∅
              (FileSearchEngine ServiceExample.threeFiles)
              RoundTripExample.query (lit "quickopen") (lit "b") None
              items answer caches0 eq_refl eq_refl eq_refl eq_refl E)
    as (answer' & sorted & Hf & Hd).
  exists answer', sorted. split; [exact Hf|]. apply Hd.
Defined.

Lemma clearCache_forgets_one_key_witness :
  trySortedSearchFromCache ServiceExample.compareItemsByScore
    (TextService.clearCache
       (<[lit "quickopen" := CacheExample.cache]> ∅) (lit "quickopen"))
    RoundTripExample.query false
  = None.
Proof.
  exact (proj1 (clearCache_forgets_one_key
                  ServiceExample.compareItemsByScore
                  (<[lit "quickopen" := CacheExample.cache]> ∅)
                  (lit "quickopen") RoundTripExample.query false) eq_refl).
Defined.

End CacheRoundTrip.

(** ** The walker reports matching files only *)

Module FilterFacts.
Import JS JSFacts FileSearch WalkerTerms WalkerInvariants WalkerFacts.

Section WithHost.
Context `{Host}.

Lemma filtered_survives cfg w c :
  filtered cfg w -> survives w c = survives (new cfg) c.
Proof.
  intros (Hc & Hn & _). unfold survives, isFilePatternMatch.
  now rewrite Hc, Hn.
Qed.

Lemma filtered_same cfg w w' :
  config w' = config w ->
  normalizedFilePatternLowercase w' = normalizedFilePatternLowercase w ->
  results (trace w') = results (trace w) ->
  filtered cfg w -> filtered cfg w'.
Proof.
  intros Hc Hn Hr (H1 & H2 & H3). unfold filtered.
  rewrite Hc, Hn, Hr. now repeat split.
Qed.

Lemma filtered_matchFile cfg w c : filtered cfg w -> filtered cfg (matchFile w c).
Proof.
  intros Hw. unfold matchFile.
  destruct (survives w c) eqn:Hs; [|exact Hw].
  rewrite (filtered_survives cfg w c Hw) in Hs.
  destruct (exists_ _ || overMaxResults _); cbn [isLimitHit setLimitHit].
  - now apply (filtered_same cfg w).
  - cbn [incResultCount isLimitHit]. destruct (isLimitHit w).
    + now apply (filtered_same cfg w).
    + destruct Hw as (H1 & H2 & H3). unfold filtered.
      cbn [effect incResultCount config normalizedFilePatternLowercase trace].
      rewrite results_app. cbn [results]. repeat split; try assumption.
      apply Forall_app. split; [exact H3|]. now constructor.
Qed.

Lemma filtered_effect cfg w x :
  (forall m, x <> OnResult m) -> filtered cfg w -> filtered cfg (effect w x).
Proof.
  intros Hx. apply filtered_same; try reflexivity.
  cbn [effect trace]. rewrite results_app.
  destruct x; try apply app_nil_r. now destruct (Hx m).
Qed.

Lemma filtered_runWalk cfg w schedule :
  filtered cfg w -> filtered cfg (walker (runWalk w schedule)).
Proof.
  apply I_runWalk.
  - apply filtered_matchFile.
  - intros w0 x Hq. apply filtered_effect. intros m ->. exact Hq.
  - intros w0 f _. apply filtered_effect. discriminate.
  - intros w0. now apply filtered_same.
  - intros w0. now apply filtered_same.
  - intros w0 e. now apply filtered_same.
  - intros w0 n. now apply filtered_same.
  - intros w0 t. now apply filtered_same.
  - intros w0 _. now apply filtered_same.
  - intros w0 err. apply filtered_effect. discriminate.
Qed.

(** X16: the walker reports only files that match the query. Whatever
    the roots' commands print and however their events interleave, every
    match handed to [onResult] - from the extra files, from the lines of a
    command or from the directory tree - has a relative path that passes
    [isFilePatternMatch] and, when the query has an include pattern,
    passes that as well. *)
Theorem walker_reports_only_matching_files cfg schedule :
  Forall (fun m =>
            isFilePatternMatch (new cfg) (relativePath m) = true
            /\ match includePattern cfg with
               | Some include => include (relativePath m) (basename m) = true
               | None => True
               end)
    (results (trace (walker (runWalk (new cfg) schedule)))).
Proof.
  assert (H0 : filtered cfg (new cfg)).
  { repeat split. constructor. }
  destruct (filtered_runWalk cfg (new cfg) schedule H0) as (_ & _ & Hr).
  eapply List.Forall_impl; [|exact Hr]. cbn beta. intros m Hm.
  unfold survives in Hm. apply andb_true_iff in Hm as [Hp Hi].
  split; [exact Hp|]. cbn [new config] in Hi.
  now destruct (includePattern cfg).
Qed.

End WithHost.

End FilterFacts.

(** ** The parser hits its limit once *)

Module HitLimitFacts.
Import JS Parser ParserTerms.

Lemma hitLimits_app es1 es2 :
  hitLimits (es1 ++ es2) = hitLimits es1 + hitLimits es2.
Proof. unfold hitLimits. now rewrite List.filter_app, length_app. Qed.

Lemma firesOnce_refl p : firesOnce p p.
Proof.
  split; [auto|]. exists []. rewrite app_nil_r.
  repeat split; cbn; auto; lia.
Qed.

Lemma firesOnce_trans p p' p'' :
  firesOnce p p' -> firesOnce p' p'' -> firesOnce p p''.
Proof.
  intros [Hd1 (f1 & He1 & Hh1 & Hz1 & Hp1)] [Hd2 (f2 & He2 & Hh2 & Hz2 & Hp2)].
  split; [auto|]. exists (f1 ++ f2).
  rewrite He2, He1, app_assoc, hitLimits_app. split; [reflexivity|].
  split; [|split].
  - destruct (hitLimits f1) as [|n] eqn:E1; [lia|].
    rewrite Hz2; [lia|]. apply Hp1. lia.
  - intros Hd. rewrite Hz1, Hz2; auto.
  - intros Hpos. destruct (hitLimits f1) as [|n] eqn:E1.
    + apply Hp2. lia.
    + apply Hd2, Hp1. lia.
Qed.

(** Steps that neither fire an event nor touch [isDone]. *)
Lemma firesOnce_same p p' :
  emitted p' = emitted p -> isDone p' = isDone p -> firesOnce p p'.
Proof.
  intros He Hd. split; [congruence|]. exists []. rewrite app_nil_r.
  repeat split; cbn; auto; lia.
Qed.

Lemma firesOnce_onResult p : firesOnce p (onResult p).
Proof.
  unfold onResult. destruct (fileMatch p) as [fm|]; [|apply firesOnce_refl].
  split; [auto|]. exists [EvResult fm]. repeat split; cbn; auto; lia.
Qed.

(** The end of a match line that hit the limit. *)
Lemma firesOnce_hit p q :
  emitted q = emitted p -> isDone p = false ->
  firesOnce p (emit (onResult (cancel q)) EvHitLimit).
Proof.
  intros He Hd. split; [congruence|]. unfold onResult.
  destruct (fileMatch (cancel q)) as [fm|].
  - exists [EvResult fm; EvHitLimit]. cbn. rewrite He, <- app_assoc.
    repeat split; cbn; auto; congruence.
  - exists [EvHitLimit]. cbn. rewrite He.
    repeat split; cbn; auto; congruence.
Qed.

Section WithPath.
Variable path_isAbsolute : jsstring -> bool.
Variable path_join : jsstring -> jsstring -> jsstring.

Local Abbreviation handleMatchLine := (handleMatchLine path_isAbsolute path_join).
Local Abbreviation handleLine := (handleLine path_isAbsolute path_join).
Local Abbreviation handleLines := (handleLines path_isAbsolute path_join).
Local Abbreviation handleDecodedData :=
  (handleDecodedData path_isAbsolute path_join).
Local Abbreviation handleData := (handleData path_isAbsolute path_join).
Local Abbreviation flush := (flush path_isAbsolute path_join).

Lemma handleMatchLine_firesOnce p n t :
  isDone p = false -> firesOnce p (stateOf (handleMatchLine p n t)).
Proof.
  intros Hd. unfold Parser.handleMatchLine.
  set (t' := if (n =? 0)%Z then stripUTF8BOM t else t).
  assert (Hr : forall q, emitted q = emitted p -> isDone q = false ->
            firesOnce p (stateOf (bind (Ok q) (fun p0 =>
              let s := scanLoop (length t') (maxResults p0) n t'
                         (scanInit (numResults p0)) in
              let chunk := sliceFrom t' (lastMatchEndPos s) in
              let preview := join (realTextParts s ++ [chunk]) in
              let fm :=
                match fileMatch p0 with
                | Some fm =>
                    Some (fold_left addMatch
                            (map (mkTextSearchResult preview) (matchRanges s))
                            fm)
                | None => None
                end in
              let p1 := setFileMatch (setNumResults p0 (count s)) fm in
              if hitLimit s
              then Ok (emit (onResult (cancel p1)) EvHitLimit)
              else Ok p1)))).
  { intros q He Hq. cbn [bind]. cbv zeta.
    destruct (hitLimit _); cbn [stateOf].
    - apply firesOnce_hit; [exact He|exact Hd].
    - apply firesOnce_same; cbn; congruence. }
  destruct (fileMatch p) as [fm|]; [now apply Hr|].
  destruct (extraSearchFiles p) as [|singleFile rest];
    [cbn; apply firesOnce_refl|].
  destruct (truthy singleFile); [|cbn; apply firesOnce_refl].
  now apply Hr.
Qed.

Lemma handleLine_firesOnce p l :
  isDone p = false -> firesOnce p (stateOf (handleLine p l)).
Proof.
  intros Hd. unfold Parser.handleLine.
  destruct (RESULT_REGEX _) as [[[r1 r2] r3]|].
  - now apply handleMatchLine_firesOnce.
  - destruct (FILE_REGEX _) as [r1|]; [|apply firesOnce_refl].
    cbn [stateOf]. eapply firesOnce_trans.
    + instantiate (1 := match fileMatch p with
                        | Some _ => onResult p
                        | None => p
                        end).
      destruct (fileMatch p); [apply firesOnce_onResult|apply firesOnce_refl].
    + now apply firesOnce_same.
Qed.

Lemma handleLines_firesOnce ls : forall p,
  firesOnce p (stateOf (handleLines p ls)).
Proof.
  induction ls as [|l ls IH]; intros p; cbn [Parser.handleLines];
    [apply firesOnce_refl|].
  destruct (isDone p) eqn:Hd; [apply firesOnce_refl|].
  pose proof (handleLine_firesOnce p l Hd) as H1.
  destruct (handleLine p l) as [p'|p' msg]; cbn [bind stateOf] in *;
    [|exact H1].
  eapply firesOnce_trans; [exact H1|apply IH].
Qed.

Lemma handleDecodedData_firesOnce p d :
  firesOnce p (stateOf (handleDecodedData p d)).
Proof.
  unfold Parser.handleDecodedData.
  destruct (truthy _);
    (eapply firesOnce_trans; [|apply handleLines_firesOnce]);
    now apply firesOnce_same.
Qed.

Lemma handleData_firesOnce d p : firesOnce p (stateOf (handleData p d)).
Proof. apply handleDecodedData_firesOnce. Qed.

Lemma flush_firesOnce tail p : firesOnce p (stateOf (flush p tail)).
Proof.
  unfold Parser.flush.
  pose proof (handleDecodedData_firesOnce p tail) as H1.
  destruct (handleDecodedData p tail) as [p'|p' msg]; cbn [bind stateOf] in *;
    [|exact H1].
  eapply firesOnce_trans; [exact H1|].
  destruct (fileMatch p'); [apply firesOnce_onResult|apply firesOnce_refl].
Qed.

End WithPath.

End HitLimitFacts.

(** ** The terminal call of the text search engine *)

Module DoneFacts.
Import JS Ripgrep ParserTerms HitLimitFacts EngineTerms EngineCap EngineFacts.

Lemma terminals_snoc t x :
  (forall err c, x <> Done err c) -> terminals (t ++ [x]) = terminals t.
Proof.
  intros Hx. rewrite terminals_app.
  destruct x; try apply app_nil_r. now destruct (Hx error complete).
Qed.

Lemma doneOnce_effect e x :
  (forall err c, x <> Done err c) -> doneOnce e -> doneOnce (effect e x).
Proof.
  intros Hx [H1 H2]. unfold doneOnce. cbn [effect trace ripgrepParser isDone rgProc].
  rewrite (terminals_snoc _ _ Hx). now split.
Qed.

Lemma doneOnce_same e e' :
  trace e' = trace e -> ripgrepParser e' = ripgrepParser e ->
  (isDone e = true -> isDone e' = true) ->
  (rgProc e = false -> rgProc e' = false) ->
  doneOnce e -> doneOnce e'.
Proof.
  intros Ht Hp Hd Hr [H1 H2]. unfold doneOnce. rewrite Ht, Hp.
  split; [exact H1|]. intros Hn. specialize (H2 Hn).
  destruct (ripgrepParser e); [|exact I].
  destruct H2 as [H2 [H3|H3]]; auto.
Qed.

Lemma cancel_cases e p :
  ripgrepParser e = Some p ->
  (rgProc e = true
   /\ cancel e = effect (setParser (setDone e) (Parser.cancel p)) Kill)
  \/ (rgProc e = false
      /\ cancel e = setThrown (setParser (setDone e) (Parser.cancel p))
                      (lit "TypeError")).
Proof.
  intros Ep. unfold cancel. cbn [setDone ripgrepParser]. rewrite Ep.
  cbn [setDone setParser rgProc]. destruct (rgProc e); auto.
Qed.

Lemma doneOnce_cancel e : doneOnce e -> doneOnce (cancel e).
Proof.
  intros [H1 H2]. destruct (ripgrepParser e) as [p|] eqn:Ep.
  - destruct (cancel_cases e p Ep) as [[Hr ->]|[Hr ->]].
    + apply doneOnce_effect; [discriminate|]. split; [exact H1|].
      intros _. cbn. auto.
    + split; [exact H1|]. intros _. cbn. auto.
  - unfold cancel. cbn [setDone ripgrepParser]. rewrite Ep.
    split; [exact H1|]. intros _. cbn. now rewrite Ep.
Qed.

Lemma onParserEvent_deliveringOnce ev todo e :
  deliveringOnce (ev :: todo) e -> deliveringOnce todo (onParserEvent e ev).
Proof.
  intros (Hd & (p & Ep & Hpd) & Hh & Hc).
  assert (Hev : hitLimits (ev :: todo) = hitLimits [ev] + hitLimits todo)
    by (change (ev :: todo) with ([ev] ++ todo); apply hitLimits_app).
  rewrite Hev in Hh, Hc, Hpd.
  unfold onParserEvent. destruct (thrown e) eqn:Et.
  { split; [exact Hd|]. split; [exists p; split; [exact Ep|intros; apply Hpd; lia]|].
    split; [lia|]. intros Hpos. apply Hc. lia. }
  destruct ev as [m|].
  - (* a result *)
    assert (Hadd : deliveringOnce todo (effect e (OnResult m))).
    { split; [apply doneOnce_effect; [discriminate|exact Hd]|].
      split; [exists p; split; [exact Ep|intros; apply Hpd; cbn; lia]|].
      split; [cbn in Hh; lia|]. intros Hpos.
      cbn [effect trace rgProc]. rewrite terminals_snoc by discriminate.
      apply Hc. lia. }
    unfold onParserResult. destruct (postProcessExclusions e) as [x|];
      [|exact Hadd].
    destruct (x (Parser.path m)); [|exact Hadd].
    split; [exact Hd|]. split; [exists p; split; [exact Ep|intros; apply Hpd; lia]|].
    split; [cbn in Hh; lia|]. intros Hpos. apply Hc. lia.
  - (* the limit *)
    assert (H0 : hitLimits todo = 0) by (cbn in Hh; lia).
    unfold onHitLimit.
    assert (Hcan : doneOnce (cancel e)) by now apply doneOnce_cancel.
    destruct (cancel_cases e p Ep) as [[Hr Hce]|[Hr Hce]].
    + rewrite Hce in Hcan |- *. cbn [effect setParser setDone thrown].
      rewrite Et.
      destruct Hc as [Hc|Hc]; [cbn; lia| |congruence].
      split; [|split; [|split; [lia|lia]]].
      * split.
        -- cbn [effect setParser setDone trace].
           rewrite !terminals_app, Hc. cbn. lia.
        -- intros _. cbn. auto.
      * eexists. split; [reflexivity|]. reflexivity.
    + rewrite Hce in Hcan |- *. cbn [setThrown thrown].
      split; [exact Hcan|]. split; [|split; [lia|lia]].
      eexists. split; [reflexivity|]. reflexivity.
Qed.

Lemma deliver_once fired : forall e,
  deliveringOnce fired e ->
  doneOnce (fold_left onParserEvent fired e)
  /\ ripgrepParser (fold_left onParserEvent fired e) <> None.
Proof.
  induction fired as [|ev fired IH]; intros e He; cbn [fold_left].
  - destruct He as (Hd & (p & Ep & _) & _). split; [exact Hd|congruence].
  - apply IH. now apply onParserEvent_deliveringOnce.
Qed.

Lemma doneOnce_setThrown e msg : doneOnce e -> doneOnce (setThrown e msg).
Proof. now apply doneOnce_same. Qed.

(** A parser call keeps the engine's invariant. *)
Lemma withParser_doneOnce e call :
  (forall p, firesOnce p (Parser.stateOf (call p))) ->
  doneOnce e ->
  doneOnce (withParser e call)
  /\ (thrown (withParser e call) = None ->
      ripgrepParser (withParser e call) <> None).
Proof.
  intros Hcall He. unfold withParser.
  destruct (ripgrepParser e) as [p|] eqn:Ep.
  2:{ split; [now apply doneOnce_setThrown|]. discriminate. }
  destruct (Hcall p) as [Hdone (fired & Hf & Hh & Hz & Hp)].
  rewrite Hf, skipn_app, Nat.sub_diag, skipn_all. cbn [skipn app].
  assert (Hd : deliveringOnce fired (setParser e (Parser.stateOf (call p)))).
  { destruct He as [H1 H2]. rewrite Ep in H2.
    split; [|split; [|split]].
    - split; [exact H1|]. intros Hn. cbn [setParser ripgrepParser isDone rgProc].
      destruct (H2 Hn) as [H3 [H4|H4]]; auto.
    - eexists. split; [reflexivity|exact Hp].
    - exact Hh.
    - intros Hpos. cbn [setParser trace rgProc].
      destruct (terminals (trace e)) as [|t ts] eqn:Et; [now left|].
      destruct H2 as [_ [H4|H4]]; [discriminate| |now right].
      rewrite (Hz H4) in Hpos. lia. }
  destruct (deliver_once fired _ Hd) as [H1 H2].
  destruct (call p); [now split|].
  destruct (thrown _).
  - now split.
  - split; [now apply doneOnce_setThrown|]. intros _. exact H2.
Qed.

Lemma traceGrows_refl e : traceGrows e e.
Proof. exists []. now rewrite app_nil_r. Qed.

Lemma traceGrows_trans e e' e'' :
  traceGrows e e' -> traceGrows e' e'' -> traceGrows e e''.
Proof.
  intros [r1 H1] [r2 H2]. exists (r1 ++ r2). now rewrite H2, H1, app_assoc.
Qed.

Lemma traceGrows_same e e' : trace e' = trace e -> traceGrows e e'.
Proof. intros Ht. exists []. now rewrite app_nil_r. Qed.

Lemma traceGrows_effect e x : traceGrows e (effect e x).
Proof. now exists [x]. Qed.

Lemma traceGrows_cancel e : traceGrows e (cancel e).
Proof.
  destruct (ripgrepParser e) as [p|] eqn:Ep.
  - destruct (cancel_cases e p Ep) as [[_ ->]|[_ ->]].
    + now exists [Kill].
    + now apply traceGrows_same.
  - unfold cancel. cbn [setDone ripgrepParser]. rewrite Ep.
    now apply traceGrows_same.
Qed.

Lemma traceGrows_terminals e e' :
  traceGrows e e' -> terminals (trace e) <> [] -> terminals (trace e') <> [].
Proof.
  intros [rest ->] Hn. rewrite terminals_app.
  destruct (terminals (trace e)); [congruence|discriminate].
Qed.

Lemma onParserEvent_grows e ev : traceGrows e (onParserEvent e ev).
Proof.
  unfold onParserEvent. destruct (thrown e); [apply traceGrows_refl|].
  destruct ev as [m|].
  - unfold onParserResult.
    destruct (postProcessExclusions e) as [x|];
      [destruct (x (Parser.path m))|];
      try apply traceGrows_refl; apply traceGrows_effect.
  - unfold onHitLimit. destruct (thrown (cancel e));
      [apply traceGrows_cancel|].
    eapply traceGrows_trans; [apply traceGrows_cancel|].
    eapply traceGrows_trans; apply traceGrows_effect.
Qed.

Lemma deliver_grows fired : forall e,
  traceGrows e (fold_left onParserEvent fired e).
Proof.
  induction fired as [|ev fired IH]; intros e; cbn [fold_left].
  - apply traceGrows_refl.
  - eapply traceGrows_trans; [apply onParserEvent_grows|apply IH].
Qed.

Lemma withParser_grows e call : traceGrows e (withParser e call).
Proof.
  unfold withParser. destruct (ripgrepParser e) as [p|];
    [|now apply traceGrows_same].
  set (e1 := setParser e (Parser.stateOf (call p))).
  pose proof (deliver_grows
                (skipn (length (Parser.emitted p))
                   (Parser.emitted (Parser.stateOf (call p)))) e1) as H1.
  assert (H2 : traceGrows e (fold_left onParserEvent
                               (skipn (length (Parser.emitted p))
                                  (Parser.emitted (Parser.stateOf (call p))))
                               e1)) by exact H1.
  destruct (call p); [exact H2|]. destruct (thrown _); exact H2.
Qed.

Lemma onParserEvent_live e ev :
  doneMeansCalled e -> doneMeansCalled (onParserEvent e ev).
Proof.
  intros He. unfold onParserEvent.
  destruct (thrown e) eqn:Et; [exact He|].
  destruct ev as [m|].
  - unfold onParserResult.
    assert (Hadd : doneMeansCalled (effect e (OnResult m))).
    { intros Ht Hd. cbn [effect trace]. rewrite terminals_snoc by discriminate.
      now apply He. }
    destruct (postProcessExclusions e) as [x|];
      [destruct (x (Parser.path m))|]; assumption.
  - unfold onHitLimit. destruct (thrown (cancel e)) eqn:Etc.
    + intros Ht. congruence.
    + intros _ _. cbn [effect trace]. rewrite !terminals_app. cbn.
      destruct (terminals _); discriminate.
Qed.

Lemma deliver_live fired : forall e,
  doneMeansCalled e -> doneMeansCalled (fold_left onParserEvent fired e).
Proof.
  induction fired as [|ev fired IH]; intros e He; cbn [fold_left];
    [exact He|].
  apply IH. now apply onParserEvent_live.
Qed.

Lemma withParser_live e call :
  doneMeansCalled e -> doneMeansCalled (withParser e call).
Proof.
  intros He. unfold withParser.
  destruct (ripgrepParser e) as [p|]; [|intros Ht; discriminate].
  set (e1 := setParser e (Parser.stateOf (call p))).
  assert (H1 : doneMeansCalled e1) by exact He.
  pose proof (deliver_live
                (skipn (length (Parser.emitted p))
                   (Parser.emitted (Parser.stateOf (call p)))) e1 H1) as H2.
  destruct (call p); [exact H2|].
  destruct (thrown _) eqn:Et; [exact H2|]. intros Ht. discriminate.
Qed.

Lemma step_thrown_fold
    (step : RipgrepEngine -> Input -> RipgrepEngine) inputs :
  (forall e i, thrown e <> None -> step e i = e) ->
  forall e, thrown e <> None -> fold_left step inputs e = e.
Proof.
  intros Hs. induction inputs as [|i inputs IH]; intros e He; [reflexivity|].
  cbn [fold_left]. rewrite Hs by exact He. now apply IH.
Qed.

Section Engine.
Variable toUpperCase : jsstring -> jsstring.
Variable path_isAbsolute : jsstring -> bool.
Variable path_join : jsstring -> jsstring -> jsstring.
Variable isWindows : bool.
Variable getRgArgs : IRawSearch -> list jsstring.
Variable siblingClauses : IRawSearch -> option (jsstring -> bool).
Variable rgCmd : IRawSearch -> jsstring.

Local Abbreviation search := (search isWindows getRgArgs siblingClauses rgCmd).
Local Abbreviation onStdoutData := (onStdoutData path_isAbsolute path_join).
Local Abbreviation onClose := (onClose toUpperCase path_isAbsolute path_join).
Local Abbreviation step := (step toUpperCase path_isAbsolute path_join).
Local Abbreviation runSearch :=
  (runSearch toUpperCase path_isAbsolute path_join isWindows getRgArgs
     siblingClauses rgCmd).

Lemma search_live cfg : doneMeansCalled (search (new cfg)).
Proof.
  unfold Ripgrep.search. cbn [new config]. destruct (_ && _).
  - intros _ _. cbn. discriminate.
  - intros _ Hd. cbn in Hd. discriminate.
Qed.

Lemma onStdoutData_grows e data : traceGrows e (onStdoutData e data).
Proof.
  unfold Ripgrep.onStdoutData.
  pose proof (withParser_grows e
                (fun p => Parser.handleData path_isAbsolute path_join p data))
    as H1.
  destruct (thrown _); exact H1.
Qed.

Lemma onClose_grows e code tail : traceGrows e (onClose e code tail).
Proof.
  unfold Ripgrep.onClose.
  pose proof (withParser_grows e
                (fun p => Parser.flush path_isAbsolute path_join p tail))
    as H1.
  set (e' := withParser e _) in *.
  destruct (thrown e'); [exact H1|]. cbn [isDone].
  destruct (isDone e'); [exact H1|].
  eapply traceGrows_trans; [exact H1|].
  eapply (traceGrows_trans _ (effect (setDone _) RemoveExitListener));
    [|apply traceGrows_effect].
  now exists [RemoveExitListener].
Qed.

Lemma step_grows e i : traceGrows e (step e i).
Proof.
  unfold Ripgrep.step. destruct (thrown e); [apply traceGrows_refl|].
  destruct i as [d|m|code tail|].
  - apply onStdoutData_grows.
  - unfold onStderrData. now exists [OnMessage m].
  - apply onClose_grows.
  - apply traceGrows_cancel.
Qed.

Lemma fold_step_grows inputs : forall e,
  traceGrows e (fold_left step inputs e).
Proof.
  induction inputs as [|i inputs IH]; intros e; cbn [fold_left].
  - apply traceGrows_refl.
  - eapply traceGrows_trans; [apply step_grows|apply IH].
Qed.

Lemma onStdoutData_live e data :
  doneMeansCalled e -> doneMeansCalled (onStdoutData e data).
Proof.
  intros He. unfold Ripgrep.onStdoutData.
  pose proof (withParser_live e
                (fun p => Parser.handleData path_isAbsolute path_join p data)
                He) as H1.
  destruct (thrown _) eqn:Et; [exact H1|].
  intros _ Hd. cbn in Hd |- *. now apply H1.
Qed.

Lemma onClose_live e code tail :
  doneMeansCalled e ->
  doneMeansCalled (onClose e code tail)
  /\ (thrown (onClose e code tail) = None ->
      isDone (onClose e code tail) = true).
Proof.
  intros He. unfold Ripgrep.onClose.
  pose proof (withParser_live e
                (fun p => Parser.flush path_isAbsolute path_join p tail) He)
    as H1.
  set (e' := withParser e _) in *.
  destruct (thrown e') eqn:Et.
  { split; [exact H1|]. intros Ht. congruence. }
  cbn [isDone]. destruct (isDone e') eqn:Ed.
  - split; [|now intros _]. intros _ _. cbn [trace]. now apply H1.
  - split; [|reflexivity].
    intros _ _. cbn [effect setDone trace]. rewrite !terminals_app. cbn.
    destruct (terminals _); discriminate.
Qed.

Lemma step_sticky e i : thrown e <> None -> step e i = e.
Proof. intros Ht. unfold Ripgrep.step. now destruct (thrown e). Qed.

Lemma step_live e i :
  isCancel i = false -> doneMeansCalled e -> doneMeansCalled (step e i).
Proof.
  intros Hi He. unfold Ripgrep.step. destruct (thrown e) eqn:Et; [exact He|].
  destruct i as [d|m|code tail|]; [| | |discriminate].
  - now apply onStdoutData_live.
  - unfold onStderrData. intros _ Hd. cbn in Hd |- *.
    rewrite terminals_snoc by discriminate. now apply He.
  - now apply onClose_live.
Qed.

Lemma fold_step_live inputs : forall e,
  existsb isCancel inputs = false ->
  doneMeansCalled e -> doneMeansCalled (fold_left step inputs e).
Proof.
  induction inputs as [|i inputs IH]; intros e Hc He; cbn [fold_left];
    [exact He|].
  cbn [existsb] in Hc. apply orb_false_iff in Hc as [Hi Hc].
  apply IH; [exact Hc|]. now apply step_live.
Qed.

Lemma search_doneOnce cfg : doneOnce (search (new cfg)).
Proof.
  unfold Ripgrep.search. cbn [new config]. destruct (_ && _).
  - split; cbn; [lia|auto].
  - split; cbn; [lia|]. intros Hn. now destruct Hn.
Qed.

Lemma onStdoutData_doneOnce e data : doneOnce e -> doneOnce (onStdoutData e data).
Proof.
  intros He. unfold Ripgrep.onStdoutData.
  destruct (withParser_doneOnce e
              (fun p => Parser.handleData path_isAbsolute path_join p data)
              (handleData_firesOnce path_isAbsolute path_join data) He)
    as [H1 _].
  destruct (thrown _); [exact H1|]. revert H1. now apply doneOnce_same.
Qed.

Lemma onClose_doneOnce e code tail : doneOnce e -> doneOnce (onClose e code tail).
Proof.
  intros He. unfold Ripgrep.onClose.
  destruct (withParser_doneOnce e
              (fun p => Parser.flush path_isAbsolute path_join p tail)
              (flush_firesOnce path_isAbsolute path_join tail) He)
    as [H1 H2].
  set (e' := withParser e _) in *.
  destruct (thrown e') eqn:Et; [exact H1|].
  specialize (H2 eq_refl).
  cbn [isDone]. destruct (isDone e') eqn:Ed.
  - revert H1. now apply doneOnce_same.
  - destruct H1 as [H3 H4].
    assert (Hnil : terminals (trace e') = []).
    { destruct (terminals (trace e')) as [|t ts] eqn:Ett; [reflexivity|].
      assert (Hn : t :: ts <> []) by discriminate.
      specialize (H4 Hn). destruct (ripgrepParser e'); [|congruence].
      destruct H4 as [H4 _]. congruence. }
    split.
    + cbn [effect setDone trace]. rewrite !terminals_app, Hnil. cbn. lia.
    + intros _. cbn [effect setDone ripgrepParser isDone rgProc].
      destruct (ripgrepParser e'); auto.
Qed.

Lemma step_doneOnce e i : doneOnce e -> doneOnce (step e i).
Proof.
  intros He. unfold Ripgrep.step. destruct (thrown e); [exact He|].
  destruct i as [d|m|code tail|].
  - now apply onStdoutData_doneOnce.
  - unfold onStderrData.
    apply (doneOnce_same (effect e (OnMessage m))); try reflexivity; auto.
    apply doneOnce_effect; [discriminate|exact He].
  - now apply onClose_doneOnce.
  - now apply doneOnce_cancel.
Qed.

Lemma runSearch_doneOnce cfg inputs : doneOnce (runSearch cfg inputs).
Proof.
  unfold Ripgrep.runSearch. generalize (search_doneOnce cfg).
  generalize (search (new cfg)).
  induction inputs as [|i inputs IH]; intros e He; [exact He|].
  cbn [fold_left]. apply IH. now apply step_doneOnce.
Qed.

(** X17: the text search engine never calls [done] twice. Whatever the
    query is, and whatever the child process prints, however it closes
    and whenever the search is cancelled, [done] has been called at most
    once: a limit hit after the child has closed, a close after the limit
    was hit and a second close add no terminal call. *)
Theorem engine_calls_done_at_most_once cfg inputs :
  length (terminals (trace (runSearch cfg inputs))) <= 1.
Proof.
  destruct (runSearch_doneOnce cfg inputs) as [H _]. exact H.
Qed.


End Engine.


End DoneFacts.

(** ** Sibling clauses of the text search *)

Module ExclusionFacts.
Import JS Ripgrep EngineTerms EngineCap EngineFacts.

Lemma excludes_same clauses e e' :
  postProcessExclusions e' = postProcessExclusions e ->
  results (trace e') = results (trace e) ->
  excludes clauses e -> excludes clauses e'.
Proof. intros Hp Hr [H1 H2]. unfold excludes. now rewrite Hp, Hr. Qed.

Lemma excludes_effect clauses e x :
  (forall m, x <> OnResult m) -> excludes clauses e ->
  excludes clauses (effect e x).
Proof.
  intros Hx. apply excludes_same; [reflexivity|].
  cbn [effect trace]. rewrite engine_results_app.
  destruct x; try apply app_nil_r. now destruct (Hx m).
Qed.

Lemma excludes_cancel clauses e : excludes clauses e -> excludes clauses (cancel e).
Proof.
  unfold cancel. cbn [setDone ripgrepParser].
  destruct (ripgrepParser e) as [p|]; [|now apply excludes_same].
  cbn [setDone setParser rgProc]. destruct (rgProc e).
  - intros He. apply excludes_effect; [discriminate|].
    revert He. now apply excludes_same.
  - now apply excludes_same.
Qed.

Lemma onParserEvent_excludes clauses e ev :
  excludes clauses e -> excludes clauses (onParserEvent e ev).
Proof.
  intros He. unfold onParserEvent. destruct (thrown e); [exact He|].
  destruct ev as [m|].
  - unfold onParserResult. pose proof He as [Hp Hr].
    assert (Hadd : notExcluded clauses m -> excludes clauses (effect e (OnResult m))).
    { intros Hm. split; [exact Hp|]. cbn [effect trace]. rewrite engine_results_app.
      apply Forall_app. split; [exact Hr|]. now constructor. }
    destruct (postProcessExclusions e) as [excluded|] eqn:Ep.
    + destruct (excluded (Parser.path m)) eqn:Ex; [exact He|].
      apply Hadd. now rewrite <- Hp.
    + apply Hadd. now rewrite <- Hp.
  - unfold onHitLimit.
    pose proof (excludes_cancel clauses e He) as Hc.
    destruct (thrown (cancel e)); [exact Hc|].
    apply excludes_effect; [discriminate|].
    apply excludes_effect; [discriminate|exact Hc].
Qed.

Lemma deliver_excludes clauses fired : forall e,
  excludes clauses e -> excludes clauses (fold_left onParserEvent fired e).
Proof.
  induction fired as [|ev fired IH]; intros e He; cbn [fold_left];
    [exact He|].
  apply IH. now apply onParserEvent_excludes.
Qed.

Lemma withParser_excludes clauses e call :
  excludes clauses e -> excludes clauses (withParser e call).
Proof.
  intros He. unfold withParser.
  destruct (ripgrepParser e) as [p|]; [|revert He; now apply excludes_same].
  set (e1 := setParser e (Parser.stateOf (call p))).
  assert (H1 : excludes clauses e1) by exact He.
  pose proof (deliver_excludes clauses
                (skipn (length (Parser.emitted p))
                   (Parser.emitted (Parser.stateOf (call p)))) e1 H1) as H2.
  destruct (call p); [exact H2|]. destruct (thrown _); [exact H2|].
  revert H2. now apply excludes_same.
Qed.

Section Engine.
Variable toUpperCase : jsstring -> jsstring.
Variable path_isAbsolute : jsstring -> bool.
Variable path_join : jsstring -> jsstring -> jsstring.
Variable isWindows : bool.
Variable getRgArgs : IRawSearch -> list jsstring.
Variable siblingClauses : IRawSearch -> option (jsstring -> bool).
Variable rgCmd : IRawSearch -> jsstring.

Local Abbreviation search := (search isWindows getRgArgs siblingClauses rgCmd).
Local Abbreviation onStdoutData := (onStdoutData path_isAbsolute path_join).
Local Abbreviation onClose := (onClose toUpperCase path_isAbsolute path_join).
Local Abbreviation step := (step toUpperCase path_isAbsolute path_join).
Local Abbreviation runSearch :=
  (runSearch toUpperCase path_isAbsolute path_join isWindows getRgArgs
     siblingClauses rgCmd).

Lemma step_excludes clauses e i :
  excludes clauses e -> excludes clauses (step e i).
Proof.
  intros He. unfold Ripgrep.step. destruct (thrown e); [exact He|].
  destruct i as [d|m|code tail|].
  - unfold Ripgrep.onStdoutData.
    pose proof (withParser_excludes clauses e
                  (fun p => Parser.handleData path_isAbsolute path_join p d)
                  He) as H1.
    destruct (thrown _); [exact H1|]. revert H1. now apply excludes_same.
  - unfold onStderrData.
    apply (excludes_same clauses (effect e (OnMessage m))); try reflexivity.
    apply excludes_effect; [discriminate|exact He].
  - unfold Ripgrep.onClose.
    pose proof (withParser_excludes clauses e
                  (fun p => Parser.flush path_isAbsolute path_join p tail)
                  He) as H1.
    set (e' := withParser e _) in *.
    destruct (thrown e'); [exact H1|]. cbn [isDone].
    destruct (isDone e'); [revert H1; now apply excludes_same|].
    apply excludes_effect; [discriminate|].
    apply excludes_effect; [discriminate|].
    revert H1. now apply excludes_same.
  - now apply excludes_cancel.
Qed.

(** X19: the text search engine reports no file that the sibling
    clauses of the query exclude. Whatever the child process prints, and
    whether the search hits its limit, is cancelled or is closed, every
    file match handed to [onResult] has a path the sibling clauses do not
    exclude. *)
Theorem engine_reports_no_excluded_file cfg inputs :
  Forall (notExcluded (siblingClauses cfg))
    (results (trace (runSearch cfg inputs))).
Proof.
  unfold Ripgrep.runSearch, Ripgrep.search. cbn [new config].
  destruct (_ && _) eqn:Eq.
  - (* the empty query: [done] at once, and no parser ever *)
    pose proof (answered_run toUpperCase path_isAbsolute path_join
                  (effect (effect (new cfg) RemoveExitListener)
                     (Done None {| limitHit := false;
                                   stats := Some (lit "searchProcess") |}))
                  inputs) as Ha.
    destruct Ha as (_ & Hr & _); [now repeat split|].
    rewrite Hr. constructor.
  - set (e0 := {| config := _ |}).
    assert (H0 : excludes (siblingClauses cfg) e0).
    { split; [reflexivity|]. cbn. constructor. }
    revert H0. generalize e0. clear e0.
    induction inputs as [|i inputs IH]; intros e He; cbn [fold_left].
    + apply He.
    + apply IH. now apply step_excludes.
Qed.

End Engine.

End ExclusionFacts.

(** ** The colour codes of a match line *)

Module MarkerFacts.
Import JS JSFacts Parser ParserTerms.

Lemma length_START : length MATCH_START_MARKER = 9.
Proof. reflexivity. Qed.

Lemma length_END : length MATCH_END_MARKER = 4.
Proof. reflexivity. Qed.

Lemma skipn_at (pre x : jsstring) : skipn (length pre) (pre ++ x) = x.
Proof. induction pre as [|c pre IH]; [reflexivity|exact IH]. Qed.

Lemma firstn_at (x rest : jsstring) : firstn (length x) (x ++ rest) = x.
Proof.
  induction x as [|c x IH]; [reflexivity|]. cbn [length app firstn].
  now rewrite IH.
Qed.

Lemma substr_at (pre x rest : jsstring) :
  substr (pre ++ x ++ rest) (Z.of_nat (length pre)) (length x) = x.
Proof. unfold substr. now rewrite Nat2Z.id, skipn_at, firstn_at. Qed.

Lemma slice_at (pre x rest : jsstring) :
  slice (pre ++ x ++ rest) (Z.of_nat (length pre))
    (Z.of_nat (length pre) + Z.of_nat (length x)) = x.
Proof.
  unfold slice, sliceIndex. rewrite !length_app.
  destruct (Z.ltb_spec (Z.of_nat (length pre)) 0); [lia|].
  destruct (Z.ltb_spec (Z.of_nat (length pre) + Z.of_nat (length x)) 0); [lia|].
  replace (Z.to_nat (Z.min (Z.of_nat (length pre)) _)) with (length pre) by lia.
  replace (Z.to_nat (Z.min (Z.of_nat (length pre) + Z.of_nat (length x)) _)
           - length pre) with (length x) by lia.
  now rewrite skipn_at, firstn_at.
Qed.

Lemma sliceFrom_at (pre x : jsstring) :
  sliceFrom (pre ++ x) (Z.of_nat (length pre)) = x.
Proof.
  unfold sliceFrom, sliceIndex. rewrite length_app.
  destruct (Z.ltb_spec (Z.of_nat (length pre)) 0); [lia|].
  replace (Z.to_nat (Z.min (Z.of_nat (length pre)) _)) with (length pre) by lia.
  apply skipn_at.
Qed.

(** At a character that is not the escape character no marker starts. *)
Lemma scanStep_plain maxResults lineNum pre c rest s :
  c <> ESC -> i s = Z.of_nat (length pre) ->
  scanStep maxResults lineNum (pre ++ c :: rest) s = advance s 1.
Proof.
  intros Hc Hi. unfold scanStep, substr. rewrite Hi, Nat2Z.id, skipn_at.
  apply N.eqb_neq in Hc. rewrite length_START, length_END.
  unfold MATCH_START_MARKER, MATCH_END_MARKER. cbn [firstn app eqb].
  rewrite Hc. cbn [andb]. unfold advance. rewrite <- Hi. reflexivity.
Qed.

Lemma advance_advance s a b : advance (advance s a) b = advance s (a + b).
Proof. unfold advance. cbn. f_equal; lia. Qed.

Lemma advance_0 s : advance s 0 = s.
Proof. destruct s. unfold advance. cbn. f_equal; lia. Qed.

(** The loop passes over a text without escape character that something
    of three characters or more follows. *)
Lemma scanLoop_plain maxResults lineNum a : forall pre rest s fuel,
  plainText a -> i s = Z.of_nat (length pre) -> 3 <= length rest ->
  scanLoop (length a + fuel) maxResults lineNum (pre ++ a ++ rest) s
  = scanLoop fuel maxResults lineNum (pre ++ a ++ rest) (advance s (length a)).
Proof.
  induction a as [|c a IH]; intros pre rest s fuel Ha Hi Hr.
  - cbn [length Nat.add]. now rewrite advance_0.
  - inversion Ha as [|? ? Hc Ha']; subst.
    cbn [length Nat.add scanLoop].
    destruct (Z.ltb_spec (i s)
                (Z.of_nat (length (pre ++ (c :: a) ++ rest))
                 - (Z.of_nat (length MATCH_END_MARKER) - 1))) as [_|Hge].
    2:{ rewrite !length_app, length_END in Hge. cbn [length] in Hge. lia. }
    cbn [app]. rewrite (scanStep_plain _ _ pre c (a ++ rest) s Hc Hi).
    replace (pre ++ c :: a ++ rest) with ((pre ++ [c]) ++ a ++ rest)
      by now rewrite <- app_assoc.
    rewrite IH; [|exact Ha'| |exact Hr].
    + now rewrite advance_advance.
    + cbn. rewrite length_app. cbn [length]. lia.
Qed.

(** What the loop has decided when it reaches the text after the last
    marker stays as it is. *)
Lemma scanLoop_tail maxResults lineNum tail : forall pre s fuel,
  plainText tail -> i s = Z.of_nat (length pre) ->
  let f := scanLoop fuel maxResults lineNum (pre ++ tail) s in
  lastMatchEndPos f = lastMatchEndPos s
  /\ realTextParts f = realTextParts s
  /\ matchRanges f = matchRanges s
  /\ count f = count s
  /\ hitLimit f = hitLimit s.
Proof.
  induction tail as [|c tail IH]; intros pre s fuel Ht Hi; cbn zeta.
  - destruct fuel as [|fuel]; cbn [scanLoop]; [now repeat split|].
    destruct (Z.ltb_spec (i s)
                (Z.of_nat (length (pre ++ []))
                 - (Z.of_nat (length MATCH_END_MARKER) - 1))) as [Hlt|_];
      [|now repeat split].
    rewrite length_app, length_END in Hlt. cbn [length] in Hlt. lia.
  - inversion Ht as [|? ? Hc Ht']; subst.
    destruct fuel as [|fuel]; cbn [scanLoop]; [now repeat split|].
    destruct (_ <? _)%Z; [|now repeat split].
    rewrite (scanStep_plain _ _ pre c tail s Hc Hi).
    replace (pre ++ c :: tail) with ((pre ++ [c]) ++ tail)
      by now rewrite <- app_assoc.
    apply (IH (pre ++ [c]) (advance s 1) fuel Ht').
    cbn. rewrite length_app. cbn [length]. lia.
Qed.

(** At a start marker. *)
Lemma scanStep_start maxResults lineNum pre rest s :
  i s = Z.of_nat (length pre) ->
  scanStep maxResults lineNum (pre ++ MATCH_START_MARKER ++ rest) s
  = {| i := i s + 9; lastMatchEndPos := lastMatchEndPos s;
       matchTextStartPos := i s + 9;
       matchTextStartRealIdx := textRealIdx s;
       textRealIdx := textRealIdx s; hitLimit := hitLimit s;
       matchRanges := matchRanges s;
       realTextParts :=
         realTextParts s
         ++ [slice (pre ++ MATCH_START_MARKER ++ rest) (lastMatchEndPos s)
               (i s)];
       count := count s |}.
Proof.
  intros Hi. unfold scanStep. rewrite Hi at 1.
  rewrite substr_at, eqb_refl. reflexivity.
Qed.

(** At an end marker that no start marker hides. *)
Lemma scanStep_end maxResults lineNum pre rest s :
  i s = Z.of_nat (length pre) ->
  startsWith rest (ESC :: lit "[31m") = false ->
  scanStep maxResults lineNum (pre ++ MATCH_END_MARKER ++ rest) s
  = {| i := i s + 4; lastMatchEndPos := i s + 4;
       matchTextStartPos := -1; matchTextStartRealIdx := -1;
       textRealIdx := textRealIdx s;
       hitLimit := hitLimit s || reachedLimit maxResults (S (count s));
       matchRanges :=
         (if hitLimit s then matchRanges s
          else matchRanges s
               ++ [mkRange lineNum (matchTextStartRealIdx s) lineNum
                     (textRealIdx s)]);
       realTextParts :=
         realTextParts s
         ++ [slice (pre ++ MATCH_END_MARKER ++ rest) (matchTextStartPos s)
               (i s)];
       count := S (count s) |}.
Proof.
  intros Hi Hr. unfold scanStep.
  assert (Hs : eqb (substr (pre ++ MATCH_END_MARKER ++ rest) (i s)
                      (length MATCH_START_MARKER)) MATCH_START_MARKER = false).
  { apply eqb_neq. intros E. rewrite Hi in E. unfold substr in E.
    rewrite Nat2Z.id, skipn_at in E.
    assert (Hsw : startsWith rest (ESC :: lit "[31m") = true).
    { apply startsWith_app. exists (skipn 5 rest).
      rewrite <- (firstn_skipn 5 rest) at 1. f_equal.
      unfold MATCH_START_MARKER, MATCH_END_MARKER in E.
      cbn in E. now injection E. }
    congruence. }
  rewrite Hs. rewrite Hi at 1. rewrite substr_at, eqb_refl. reflexivity.
Qed.

(** After an end marker the line goes on with plain text, with a start
    marker or with nothing. *)
Lemma coloured_after_end parts tail :
  Forall (fun pm => plainText (fst pm) /\ plainText (snd pm)) parts ->
  plainText tail ->
  startsWith (coloured parts tail) (ESC :: lit "[31m") = false.
Proof.
  intros Hp Ht.
  assert (Hplain : forall s rest, plainText s -> s <> [] ->
            startsWith (s ++ rest) (ESC :: lit "[31m") = false).
  { intros [|c s] rest Hs Hn; [contradiction|].
    inversion Hs as [|? ? Hc _]; subst. apply N.eqb_neq in Hc.
    cbn [app startsWith]. now rewrite Hc. }
  destruct parts as [|[before matched] rest]; cbn [coloured].
  - destruct tail as [|c tail]; [reflexivity|].
    rewrite <- (app_nil_r (c :: tail)). now apply Hplain.
  - inversion Hp as [|? ? [Hb _] _]; subst. cbn [fst] in Hb.
    destruct before as [|c before]; [reflexivity|]. now apply Hplain.
Qed.

Lemma coloured_split parts tail :
  coloured parts tail = coloured parts [] ++ tail.
Proof.
  induction parts as [|[before matched] rest IH]; cbn [coloured];
    [reflexivity|].
  now rewrite IH, <- !app_assoc.
Qed.

(** The loop over a coloured line. *)
Lemma scanLoop_coloured maxResults lineNum tail : forall parts pre s fuel,
  Forall (fun pm => plainText (fst pm) /\ plainText (snd pm)) parts ->
  plainText tail ->
  i s = Z.of_nat (length pre) -> lastMatchEndPos s = i s ->
  length (coloured parts tail) <= fuel ->
  let text := pre ++ coloured parts tail in
  let f := scanLoop fuel maxResults lineNum text s in
  lastMatchEndPos f = Z.of_nat (length text - length tail)
  /\ realTextParts f = realTextParts s ++ chunks parts
  /\ matchRanges f
     = matchRanges s
       ++ keptRanges maxResults lineNum (hitLimit s) (count s)
            (textRealIdx s) parts
  /\ count f = count s + length parts
  /\ hitLimit f
     = hitLimit s
       || (negb (length parts =? 0)
           && reachedLimit maxResults (count s + length parts)).
Proof.
  induction parts as [|[before matched] rest IH];
    intros pre s fuel Hp Ht Hi Hl Hf; cbn zeta.
  - cbn [coloured chunks flat_map keptRanges length].
    destruct (scanLoop_tail maxResults lineNum tail pre s fuel Ht Hi)
      as (H1 & H2 & H3 & H4 & H5).
    rewrite H1, H2, H3, H4, H5, !app_nil_r, Nat.add_0_r, orb_false_r.
    rewrite length_app. repeat split. lia.
  - inversion Hp as [|? ? [Hb Hm] Hp']; subst. cbn [fst snd] in Hb, Hm.
    cbn [coloured] in *. set (after := coloured rest tail) in *.
    rewrite !length_app, length_START, length_END in Hf.
    (* the text before the match *)
    replace fuel
      with (length before
            + S (length matched
                 + S (fuel - length before - length matched - 2))) by lia.
    rewrite scanLoop_plain;
      [|exact Hb|exact Hi|rewrite !length_app, length_START; lia].
    (* the start marker *)
    cbn [scanLoop].
    destruct (Z.ltb_spec (i (advance s (length before)))
                (Z.of_nat (length (pre ++ before ++ MATCH_START_MARKER
                                   ++ matched ++ MATCH_END_MARKER ++ after))
                 - (Z.of_nat (length MATCH_END_MARKER) - 1))) as [_|Hge].
    2:{ rewrite !length_app, length_START, length_END in Hge. cbn in Hge.
        lia. }
    replace (pre ++ before ++ MATCH_START_MARKER ++ matched
             ++ MATCH_END_MARKER ++ after)
      with ((pre ++ before) ++ MATCH_START_MARKER ++ matched
            ++ MATCH_END_MARKER ++ after) by now rewrite <- app_assoc.
    rewrite scanStep_start by (cbn; rewrite length_app; lia).
    cbn [advance i lastMatchEndPos textRealIdx hitLimit matchRanges
         realTextParts count].
    replace (slice _ (lastMatchEndPos s) (i s + Z.of_nat (length before)))
      with before.
    2:{ rewrite <- app_assoc, Hl, Hi. symmetry. apply slice_at. }
    (* the match *)
    set (s1 := {| i := _ |}).
    replace ((pre ++ before) ++ MATCH_START_MARKER ++ matched
             ++ MATCH_END_MARKER ++ after)
      with (((pre ++ before) ++ MATCH_START_MARKER) ++ matched
            ++ MATCH_END_MARKER ++ after) by now rewrite <- !app_assoc.
    assert (Hi1 : i s1
                  = Z.of_nat (length ((pre ++ before) ++ MATCH_START_MARKER))).
    { unfold s1. cbn [i]. rewrite !length_app, length_START. lia. }
    rewrite scanLoop_plain;
      [|exact Hm|exact Hi1|rewrite !length_app, length_END; lia].
    (* the end marker *)
    cbn [scanLoop].
    destruct (Z.ltb_spec (i (advance s1 (length matched)))
                (Z.of_nat (length (((pre ++ before) ++ MATCH_START_MARKER)
                                   ++ matched ++ MATCH_END_MARKER ++ after))
                 - (Z.of_nat (length MATCH_END_MARKER) - 1))) as [_|Hge].
    2:{ rewrite !length_app, length_START, length_END in Hge. cbn in Hge.
        lia. }
    replace (((pre ++ before) ++ MATCH_START_MARKER) ++ matched
             ++ MATCH_END_MARKER ++ after)
      with ((((pre ++ before) ++ MATCH_START_MARKER) ++ matched)
            ++ MATCH_END_MARKER ++ after) by now rewrite <- !app_assoc.
    rewrite scanStep_end;
      [|unfold s1; cbn [advance i]; rewrite !length_app, length_START; lia
       |now apply coloured_after_end].
    cbn [advance s1 i lastMatchEndPos matchTextStartPos matchTextStartRealIdx
         textRealIdx hitLimit matchRanges realTextParts count].
    replace (slice _ (i s + Z.of_nat (length before) + 9)
               (i s + Z.of_nat (length before) + 9
                + Z.of_nat (length matched)))
      with matched.
    2:{ symmetry.
        replace (i s + Z.of_nat (length before) + 9)%Z
          with (Z.of_nat (length ((pre ++ before) ++ MATCH_START_MARKER)))
          by (rewrite !length_app, length_START; lia).
        rewrite <- (app_assoc _ matched). apply slice_at. }
    (* the rest of the line *)
    set (s2 := {| i := _ |}).
    set (pre2 := ((pre ++ before) ++ MATCH_START_MARKER) ++ matched).
    replace (pre2 ++ MATCH_END_MARKER ++ after)
      with ((pre2 ++ MATCH_END_MARKER) ++ after) by now rewrite <- app_assoc.
    destruct (IH (pre2 ++ MATCH_END_MARKER) s2
                (fuel - length before - length matched - 2) Hp' Ht)
      as (H1 & H2 & H3 & H4 & H5).
    { unfold pre2, s2. cbn [i]. rewrite !length_app, length_START, length_END.
      lia. }
    { reflexivity. }
    { fold after. lia. }
    fold after in H1, H2, H3, H4, H5.
    rewrite H1, H2, H3, H4, H5. unfold s2. cbn [realTextParts matchRanges
      count hitLimit textRealIdx chunks flat_map fst snd keptRanges length].
    repeat split.
    + now rewrite <- !app_assoc.
    + destruct (hitLimit s); now rewrite <- ?app_assoc.
    + lia.
    + replace (S (count s) + length rest) with (count s + S (length rest))
        by lia.
      destruct (hitLimit s); [reflexivity|]. cbn [orb negb Nat.eqb andb].
      destruct maxResults as [k|]; cbn [reachedLimit];
        [|now destruct (length rest =? 0)].
      destruct (Nat.leb_spec k (S (count s)));
        destruct (Nat.leb_spec k (count s + S (length rest)));
        destruct (length rest =? 0) eqn:E; cbn; try reflexivity; try lia.
      apply Nat.eqb_eq in E. lia.
Qed.

(** The ranges the loop keeps are the first ones of the line. *)
Lemma keptRanges_hit maxResults lineNum parts : forall n col,
  keptRanges maxResults lineNum true n col parts = [].
Proof.
  induction parts as [|[before matched] rest IH]; intros n col;
    cbn [keptRanges orb app]; [reflexivity|apply IH].
Qed.

Lemma keptRanges_kept maxResults lineNum parts : forall n col,
  keptRanges maxResults lineNum false n col parts
  = kept maxResults n (rangesOf lineNum col parts).
Proof.
  induction parts as [|[before matched] rest IH]; intros n col;
    cbn [keptRanges rangesOf orb app].
  - unfold kept. destruct maxResults; [now rewrite firstn_nil|reflexivity].
  - destruct maxResults as [k|]; cbn [reachedLimit kept].
    + destruct (Nat.leb_spec k (S n)).
      * rewrite keptRanges_hit.
        replace (Nat.max 1 (k - n)) with 1 by lia. reflexivity.
      * rewrite IH. cbn [kept].
        replace (Nat.max 1 (k - n)) with (S (k - S n)) by lia.
        replace (Nat.max 1 (k - S n)) with (k - S n) by lia. reflexivity.
    + now rewrite IH.
Qed.

Lemma chunks_uncoloured parts tail :
  join (chunks parts ++ [tail]) = uncoloured parts tail.
Proof.
  unfold join. induction parts as [|[before matched] rest IH];
    cbn [chunks flat_map app concat uncoloured fst snd].
  - apply app_nil_r.
  - unfold chunks in IH. now rewrite IH.
Qed.

Lemma fold_addMatch rs : forall fm,
  fold_left addMatch rs fm
  = {| path := path fm; matches := matches fm ++ rs |}.
Proof.
  induction rs as [|r rs IH]; intros fm; cbn [fold_left].
  - rewrite app_nil_r. now destruct fm.
  - rewrite IH. cbn [addMatch path matches]. now rewrite <- app_assoc.
Qed.

(** Each range selects its match in the line without markers. *)
Lemma rangesOf_select lineNum tail parts : forall pre,
  map (fun r => slice (pre ++ uncoloured parts tail) (startColumn r)
                  (endColumn r))
    (rangesOf lineNum (Z.of_nat (length pre)) parts)
  = map snd parts.
Proof.
  induction parts as [|[before matched] rest IH]; intros pre;
    cbn [rangesOf map uncoloured snd startColumn endColumn]; [reflexivity|].
  f_equal.
  - replace (Z.of_nat (length pre) + Z.of_nat (length before))%Z
      with (Z.of_nat (length (pre ++ before)))
      by (rewrite length_app; lia).
    replace (pre ++ before ++ matched ++ uncoloured rest tail)
      with ((pre ++ before) ++ matched ++ uncoloured rest tail)
      by now rewrite <- app_assoc.
    apply slice_at.
  - replace (Z.of_nat (length pre) + Z.of_nat (length before)
             + Z.of_nat (length matched))%Z
      with (Z.of_nat (length ((pre ++ before) ++ matched)))
      by (rewrite !length_app; lia).
    replace (pre ++ before ++ matched ++ uncoloured rest tail)
      with (((pre ++ before) ++ matched) ++ uncoloured rest tail)
      by now rewrite <- !app_assoc.
    apply IH.
Qed.

Section WithPath.
Variable path_isAbsolute : jsstring -> bool.
Variable path_join : jsstring -> jsstring -> jsstring.

Local Abbreviation handleMatchLine := (handleMatchLine path_isAbsolute path_join).

(** X20: [handleMatchLine] takes the colour codes out of a match line.
    For a parser that knows its file and a line in which every match
    stands between a start and an end marker, and that holds no other
    escape character, the preview of every range added is the line
    without its markers, the ranges added are the columns of the first
    matches in that preview - all of them without limit, otherwise the
    first one and those counted before the limit is reached - and each
    selects the text of its match; every match of the line is counted;
    and the parser cancels, emits the file match and then [hitLimit]
    exactly when the line has a match and the count has reached the
    limit. *)
Theorem handleMatchLine_strips_markers p fm lineNum text parts tail :
  fileMatch p = Some fm ->
  (if (lineNum =? 0)%Z then stripUTF8BOM text else text)
  = coloured parts tail ->
  Forall (fun pm => plainText (fst pm) /\ plainText (snd pm)) parts ->
  plainText tail ->
  let preview := uncoloured parts tail in
  let ranges := kept (maxResults p) (numResults p) (rangesOf lineNum 0 parts) in
  let fm' := {| path := path fm;
                matches := matches fm
                           ++ map (mkTextSearchResult preview) ranges |} in
  let q := setFileMatch (setNumResults p (numResults p + length parts))
             (Some fm') in
  handleMatchLine p lineNum text
  = Ok (if negb (length parts =? 0)
           && reachedLimit (maxResults p) (numResults p + length parts)
        then emit (onResult (cancel q)) EvHitLimit
        else q)
  /\ map (fun r => slice preview (startColumn r) (endColumn r))
       (rangesOf lineNum 0 parts)
     = map snd parts.
Proof.
  intros Hfm Htext Hp Ht. cbn zeta. split; [|apply (rangesOf_select _ _ _ [])].
  unfold Parser.handleMatchLine. rewrite Htext, Hfm. cbn [bind].
  rewrite Hfm.
  destruct (scanLoop_coloured (maxResults p) lineNum tail parts []
              (scanInit (numResults p)) (length (coloured parts tail)) Hp Ht)
    as (H1 & H2 & H3 & H4 & H5); [reflexivity|reflexivity|lia|].
  cbn [app scanInit realTextParts matchRanges count hitLimit textRealIdx orb]
    in H1, H2, H3, H4, H5.
  rewrite H1, H2, H3, H4, H5, keptRanges_kept, chunks_uncoloured, fold_addMatch.
  assert (Hs : sliceFrom (coloured parts tail)
                 (Z.of_nat (length (coloured parts tail) - length tail))
               = tail).
  { rewrite (coloured_split parts tail), length_app.
    replace (length (coloured parts []) + length tail - length tail)
      with (length (coloured parts [])) by lia.
    apply sliceFrom_at. }
  rewrite Hs. now destruct (_ && _).
Qed.

End WithPath.

Lemma handleMatchLine_strips_markers_witness :
  let p := setFileMatch (new (Some 1) (lit "/ws") [])
             (Some {| path := lit "/ws/file.txt"; matches := [] |}) in
  let text := lit "foo " ++ MATCH_START_MARKER ++ lit "bar"
              ++ MATCH_END_MARKER ++ lit " baz " ++ MATCH_START_MARKER
              ++ lit "bar" ++ MATCH_END_MARKER in
  handleMatchLine PosixHost.isAbsolute PosixHost.join p 0 text
  = Ok {| maxResults := Some 1; rootFolder := lit "/ws";
          extraSearchFiles := []; fileMatch := None; remainder := None;
          isDone := true; numResults := 2;
          emitted :=
            [EvResult
               {| path := lit "/ws/file.txt";
                  matches := [{| preview := lit "foo bar baz bar";
                                 range := mkRange 0 4 0 7 |}] |};
             EvHitLimit] |}
  /\ map (fun r => slice (lit "foo bar baz bar") (startColumn r)
                     (endColumn r))
       [mkRange 0 4 0 7; mkRange 0 12 0 15]
     = [lit "bar"; lit "bar"].
Proof.
  apply (handleMatchLine_strips_markers PosixHost.isAbsolute PosixHost.join
           (setFileMatch (new (Some 1) (lit "/ws") [])
              (Some {| path := lit "/ws/file.txt"; matches := [] |}))
           {| path := lit "/ws/file.txt"; matches := [] |} 0%Z
           (lit "foo " ++ MATCH_START_MARKER ++ lit "bar"
            ++ MATCH_END_MARKER ++ lit " baz " ++ MATCH_START_MARKER
            ++ lit "bar" ++ MATCH_END_MARKER)
           [(lit "foo ", lit "bar"); (lit " baz ", lit "bar")] []).
  - reflexivity.
  - reflexivity.
  - repeat constructor; discriminate.
  - constructor.
Defined.

End MarkerFacts.

